(** * A shallow embedding of the crawl engine of go-project-316

  The development follows the Go packages of the repository:
  - [Limiter]  : internal/limiter  (the shared rate limiter),
  - [Fetcher]  : internal/fetcher  (one GET with retry and backoff),
  - [Crawler]  : crawler           (report model, page processor,
                                    aggregator, report assembly),
  - [FetchCache] : the single-flight fetch cache of the analyzer, as an
                   interleaving transition system.

  Go values are modelled as the code has them: [int] and [time.Duration]
  as [Z] (with the 64-bit wrap-around written where the code multiplies),
  [time.Time] as nanoseconds since the zero instant, slices that can be
  [nil] as [option (list _)], maps as stdpp's [gmap]/[gset], [error] as
  [option GoErr] over error chains.  What the code obtains from the
  network or the HTML parser is an explicit environment argument
  ([World], [JobEnv], [HandleEnv]); what it calls in Go's library
  ([net/url], [strings], [net/http], [encoding/json]) is a field of the
  class [Externals].

  Further parts of the code have modules of their own: [AssetFetch]
  (the result of an asset fetch), [Text] and [Parser] (internal/parser),
  [Cache] (internal/cache), [FetchSem] (the fetch semaphore); [Run],
  [Links] and [Tree] hold the vocabulary of the properties of a run,
  [Tree] also the run with the log of the results handled.

  The definitions come first; the properties follow, one module for each
  package ([LimiterSpec], [FetcherSpec], [AssemblySpec], [CrawlerSpec],
  [FetchCacheSpec]) and then one for each further subject ([RunSpec],
  [LinksSpec], [FetchBoundsSpec], [LimiterBoundsSpec], [OutputSpec],
  [FetchSemSpec], [AssetFetchSpec], [TextSpec], [CacheSpec], [ParserSpec],
  [TreeSpec], [ReachSpec], [HeaderSpec], [FetchWaitSpec]). *)

From Stdlib Require Import ZArith String Ascii Lia OrderedTypeEx Sorted.
From stdpp Require Import base numbers strings pretty list gmap sorting.
From Equations Require Import Equations.

(* ===================================================================== *)
(** * internal/limiter *)
(* ===================================================================== *)

Module Limiter.
Local Open Scope Z_scope.

(** [time.Time]: nanoseconds since the zero instant (January 1, year 1,
    00:00:00 UTC), the value of [time.Time{}].  The range of [time.Time]
    (hundreds of billions of years) is taken as unbounded. *)
Definition Time := Z.

(** [time.Duration] is an [int64] count of nanoseconds. *)
Definition Duration := Z.
Definition maxDuration : Duration := 2 ^ 63 - 1.
Definition minDuration : Duration := - 2 ^ 63.

Definition IsZero (t : Time) : bool := t =? 0.
Definition Add (t : Time) (d : Duration) : Time := t + d.
Definition Before (t u : Time) : bool := t <? u.

(** [t.Sub(u)]: the difference, saturated to the range of [Duration]. *)
Definition Sub (t u : Time) : Duration :=
  if t - u >? maxDuration then maxDuration
  else if t - u <? minDuration then minDuration
  else t - u.

(** The limiter's state; the mutex makes every [Wait] reservation atomic,
    the clock is the caller's reading of [clock.Now()] under the lock. *)
Record Limiter := mkLimiter { interval : Duration; last : Time }.

(** [NewWithTimer]: no limiter ([nil]) for a non-positive interval. *)
Definition NewWithTimer (interval : Duration) : option Limiter :=
  if interval <=? 0 then None
  else Some {| interval := interval; last := 0 |}.

(** [Wait], the part under the mutex: the new state and the duration the
    caller then sleeps through [clock.Sleep] ([None]: returns at once). *)
Definition Wait (l : Limiter) (now : Time) : Limiter * option Duration :=
  if IsZero (last l) then
    ({| interval := interval l; last := now |}, None)
  else
    let next := Add (last l) (interval l) in
    if Before now next then
      let wait := Sub next now in
      ({| interval := interval l; last := next |}, Some wait)
    else
      ({| interval := interval l; last := now |}, None).

(** [Wait] on a possibly [nil] limiter. *)
Definition WaitNilable (l : option Limiter) (now : Time)
  : option Limiter * option Duration :=
  match l with
  | None => (None, None)
  | Some l => let '(l', w) := Wait l now in (Some l', w)
  end.

(** A sequence of [Wait] calls, in the order in which they take the
    mutex; each call reads the clock once.  The result lists, per call,
    the grant time it recorded in [last] and the sleep it requested. *)
Fixpoint run (l : Limiter) (nows : list Time) : list (Time * option Duration) :=
  match nows with
  | [] => []
  | now :: rest =>
      let '(l', w) := Wait l now in
      (last l', w) :: run l' rest
  end.

Definition grants (l : Limiter) (nows : list Time) : list Time :=
  (run l nows).*1.

End Limiter.

(* ===================================================================== *)
(** * internal/fetcher *)
(* ===================================================================== *)

Module Fetcher.
Local Open Scope Z_scope.

Definition Millisecond : Z := 1000000.
Definition Second : Z := 1000000000.

Definition baseRetryDelay : Z := 100 * Millisecond.
Definition maxRetryDelay : Z := 2 * Second.

Definition StatusBadRequest : Z := 400.
Definition StatusTooManyRequests : Z := 429.
Definition StatusInternalServerError : Z := 500.

(** Arithmetic on [int64] wraps around. *)
Definition wrap64 (z : Z) : Z := (z + 2 ^ 63) mod 2 ^ 64 - 2 ^ 63.

(** ** Errors

    A Go [error] is a chain: a value and what its [Unwrap] returns.  A node
    is classified by what [errors.Is] and [errors.As] can tell about it:
    the sentinels the fetcher tests for, a type that implements
    [net.Error], or anything else.  [*url.Error] is a node of its own,
    since the fetcher unwraps it by hand; its [Err] field can be [nil].
    A node carries the text its [Error()] returns.  An error that answers
    [errors.Is] for a context sentinel is a node of that sentinel's kind
    (the fetcher asks for the context sentinels before anything else). *)
Inductive ErrKind :=
| KCanceled          (* context.Canceled *)
| KDeadlineExceeded  (* context.DeadlineExceeded *)
| KInvalidRequest    (* errInvalidRequest *)
| KEOF               (* io.EOF *)
| KUnexpectedEOF     (* io.ErrUnexpectedEOF *)
| KNet               (* a type implementing net.Error, e.g. *net.OpError *)
| KPlain.            (* errors.New, fmt.Errorf and the like *)

Inductive GoErr :=
| ErrLeaf (k : ErrKind) (msg : string)
| ErrWrap (k : ErrKind) (msg : string) (inner : GoErr)
| ErrURL (msg : string) (inner : GoErr)   (* &url.Error{Err: inner} *)
| ErrURLNil (msg : string).               (* &url.Error{Err: nil} *)

(** [error]: [None] is [nil]. *)
Definition error := option GoErr.

Definition ErrKind_eqb (a b : ErrKind) : bool :=
  match a, b with
  | KCanceled, KCanceled | KDeadlineExceeded, KDeadlineExceeded
  | KInvalidRequest, KInvalidRequest | KEOF, KEOF
  | KUnexpectedEOF, KUnexpectedEOF | KNet, KNet | KPlain, KPlain => true
  | _, _ => false
  end.

(** [err.Error()] *)
Definition Error (e : GoErr) : string :=
  match e with
  | ErrLeaf _ msg | ErrWrap _ msg _ | ErrURL msg _ | ErrURLNil msg => msg
  end.

(** [errors.Is(err, sentinel)] for the sentinel of kind [k]: some node of
    the chain is that sentinel. *)
Fixpoint errorsIs (k : ErrKind) (e : GoErr) : bool :=
  match e with
  | ErrLeaf k' _ => ErrKind_eqb k' k
  | ErrWrap k' _ inner => ErrKind_eqb k' k || errorsIs k inner
  | ErrURL _ inner => errorsIs k inner
  | ErrURLNil _ => false
  end.

(** [errors.As(err, &urlErr)] with [urlErr *url.Error]: the first
    [*url.Error] of the chain, as the chain that starts at it. *)
Fixpoint asURLError (e : GoErr) : option GoErr :=
  match e with
  | ErrLeaf _ _ => None
  | ErrWrap _ _ inner => asURLError inner
  | ErrURL _ _ => Some e
  | ErrURLNil _ => Some e
  end.

(** [urlErr.Err] *)
Definition urlErr_Err (e : GoErr) : error :=
  match e with
  | ErrURL _ inner => Some inner
  | _ => None
  end.

(** [isNetError]: [errors.As(err, &netErr)] with [netErr net.Error].
    [*url.Error] has [Timeout] and [Temporary] methods, so it implements
    [net.Error] itself. *)
Fixpoint isNetError (e : GoErr) : bool :=
  match e with
  | ErrLeaf k _ => ErrKind_eqb k KNet
  | ErrWrap k _ inner => ErrKind_eqb k KNet || isNetError inner
  | ErrURL _ _ => true
  | ErrURLNil _ => true
  end.

Definition isContextCanceled (e : GoErr) : bool :=
  errorsIs KCanceled e || errorsIs KDeadlineExceeded e.

Definition isEOFLike (e : GoErr) : bool :=
  errorsIs KEOF e || errorsIs KUnexpectedEOF e.

(** Length of the chain, the measure of the unwrapping loop. *)
Fixpoint chainLength (e : GoErr) : nat :=
  match e with
  | ErrLeaf _ _ => 1
  | ErrWrap _ _ inner => S (chainLength inner)
  | ErrURL _ inner => S (chainLength inner)
  | ErrURLNil _ => 1
  end.

Definition chainLengthOpt (e : error) : nat :=
  match e with None => 0%nat | Some e => chainLength e end.

Lemma asURLError_chainLength e u :
  asURLError e = Some u -> (chainLength u <= chainLength e)%nat.
Proof.
  induction e as [k m|k m inner IH|m inner IH|m]; simpl; intros H.
  - discriminate.
  - specialize (IH H). lia.
  - injection H as <-. simpl. lia.
  - injection H as <-. simpl. lia.
Qed.

Lemma urlErr_Err_chainLength u i :
  urlErr_Err u = Some i -> (chainLength i < chainLength u)%nat.
Proof. destruct u; simpl; intros H; try discriminate. injection H as <-. lia. Qed.

(** The loop of [isRetryableURLError]:
    [err := urlErr.Err; for err != nil { ... }; return false]. *)
Equations? unwrapLoop (err : error) : bool by wf (chainLengthOpt err) lt :=
unwrapLoop None := false;
unwrapLoop (Some e) :=
  if isContextCanceled e then false
  else if errorsIs KInvalidRequest e then false
  else if isEOFLike e then true
  else match asURLError e as o return asURLError e = o -> bool with
       | Some inner => fun _ => unwrapLoop (urlErr_Err inner)
       | None => fun _ => isNetError e
       end eq_refl.
Proof.
  pose proof (asURLError_chainLength _ _ e0) as Hle.
  destruct (urlErr_Err inner) as [i|] eqn:Hi; simpl.
  - apply urlErr_Err_chainLength in Hi. lia.
  - destruct e; simpl; lia.
Qed.

Definition isRetryableURLError (urlErr : GoErr) : bool :=
  if isContextCanceled urlErr then false
  else if errorsIs KInvalidRequest urlErr then false
  else if isEOFLike urlErr then true
  else unwrapLoop (urlErr_Err urlErr).

Definition isRetryableError (e : GoErr) : bool :=
  if isContextCanceled e then false
  else if errorsIs KInvalidRequest e then false
  else if isEOFLike e then true
  else match asURLError e with
       | Some urlErr => isRetryableURLError urlErr
       | None => isNetError e
       end.

Definition isRetryable (statusCode : Z) (err : error) : bool :=
  match err with
  | Some e => isRetryableError e
  | None =>
      if statusCode =? StatusTooManyRequests then true
      else statusCode >=? StatusInternalServerError
  end.

(** ** Results and the world one [Fetch] call runs in *)

(** [http.Header], as the list of its keys and values. *)
Definition Header := list (string * list string).

(** [fetcher.Result]; [Body] is a byte slice that can be [nil]. *)
Record Result := mkResult {
  StatusCode : Z;
  ResHeader : Header;
  Body : option string
}.

(** [Result{}] *)
Definition emptyResult : Result :=
  {| StatusCode := 0; ResHeader := []; Body := None |}.

(** What [io.ReadAll(response.Body)] gives. *)
Inductive ReadOutcome :=
| ReadOK (body : string)
| ReadErr (e : GoErr).

(** What [f.client.Do(request)] gives, with the reading of the body. *)
Inductive DoOutcome :=
| DoErr (e : GoErr)
| DoResp (status : Z) (header : Header) (body : ReadOutcome).

(** What the [attempt]-th iteration of the loop of [Fetch] meets. *)
Record Attempt := mkAttempt {
  waitErr : error;     (* f.limiter.Wait(ctx), when a limiter is configured *)
  doOut : DoOutcome;   (* f.client.Do(request), io.ReadAll(response.Body) *)
  ctxErr : error;      (* ctx.Err(), read after the attempt *)
  sleepErr : error     (* f.clock.Sleep(ctx, sleepDelay), the backoff *)
}.

(** The world of one [Fetch(ctx, rawURL)] call.  The request is the same
    in every attempt ([rawURL] with an empty path replaced by [/]), so the
    transport's answer is indexed by the attempt alone. *)
Record World := mkWorld {
  parseErr : string -> error;        (* err of url.Parse(rawURL) *)
  newRequestErr : string -> error;   (* err of http.NewRequestWithContext *)
  attemptAt : nat -> Attempt;
  http_StatusText : Z -> string      (* http.StatusText *)
}.

(** [fetcher.Fetcher]; the client, clock and limiter act through [World]. *)
Record Fetcher := mkFetcher {
  timeout : Z;
  userAgent : string;
  hasLimiter : bool;   (* f.limiter != nil *)
  retries : Z;
  retryDelay : Z
}.

(** [fetcher.New] *)
Definition New (timeout : Z) (userAgent : string) (hasLimiter : bool)
    (retries : Z) (retryDelay : Z) : Fetcher :=
  let retryDelay := if retryDelay <=? 0 then baseRetryDelay else retryDelay in
  {| timeout := timeout; userAgent := userAgent; hasLimiter := hasLimiter;
     retries := retries; retryDelay := retryDelay |}.

(** [fmt.Errorf("%w: %v", errInvalidRequest, err)] *)
Definition invalidRequest (e : GoErr) : GoErr :=
  ErrWrap KPlain ("invalid request: " ++ Error e)
    (ErrLeaf KInvalidRequest "invalid request").

Definition doRequest (w : World) (rawURL : string) (attempt : nat)
  : Result * error :=
  match parseErr w rawURL with
  | Some e => (emptyResult, Some (invalidRequest e))
  | None =>
      match newRequestErr w rawURL with
      | Some e => (emptyResult, Some (invalidRequest e))
      | None =>
          match doOut (attemptAt w attempt) with
          | DoErr e => (emptyResult, Some e)
          | DoResp status header (ReadErr e) =>
              ({| StatusCode := status; ResHeader := header; Body := None |},
               Some (ErrWrap KPlain ("read body: " ++ Error e) e))
          | DoResp status header (ReadOK body) =>
              ({| StatusCode := status; ResHeader := header; Body := Some body |},
               None)
          end
      end
  end.

Definition fetchOnce (f : Fetcher) (w : World) (rawURL : string)
    (attempt : nat) : Result * error :=
  if hasLimiter f then
    match waitErr (attemptAt w attempt) with
    | Some e => (emptyResult, Some e)
    | None => doRequest w rawURL attempt
    end
  else doRequest w rawURL attempt.

Definition statusText (w : World) (statusCode : Z) : string :=
  let text := http_StatusText w statusCode in
  if String.eqb text "" then "http status " ++ pretty statusCode else text.

Definition errorForStatus (w : World) (err : error) (statusCode : Z) : error :=
  match err with
  | Some e => Some e
  | None =>
      if statusCode >=? StatusBadRequest
      then Some (ErrLeaf KPlain (statusText w statusCode))
      else None
  end.

Definition coalesceError (primary fallback : error) : error :=
  match primary with
  | Some e => Some e
  | None => fallback
  end.

(** The loop of [retryDelayFor], [for i := 1; i < attempt; i++]: [iters]
    is the number of iterations left; the result is what the function
    returns. *)
Fixpoint retryDelayLoop (iters : nat) (delay : Z) : Z :=
  match iters with
  | O => if delay >? maxRetryDelay then maxRetryDelay else delay
  | S iters' =>
      if delay >=? maxRetryDelay then maxRetryDelay
      else retryDelayLoop iters' (wrap64 (delay * 2))
  end.

Definition retryDelayFor (f : Fetcher) (attempt : Z) : Z :=
  let attempt := if attempt <? 1 then 1 else attempt in
  retryDelayLoop (Z.to_nat (attempt - 1)) (retryDelay f).

(** [shouldRetry]: the decision, the error returned with it, and the
    backoff it slept ([None]: it did not reach [Sleep]). *)
Definition shouldRetry (f : Fetcher) (w : World) (attempt : nat) (attempts : Z)
    (result : Result) (err : error) : bool * error * option Z :=
  let env := attemptAt w attempt in
  match ctxErr env with
  | Some c => (false, coalesceError err (Some c), None)
  | None =>
      if negb (isRetryable (StatusCode result) err)
         || (Z.of_nat attempt =? attempts - 1)
      then (false, errorForStatus w err (StatusCode result), None)
      else
        let sleepDelay := retryDelayFor f (Z.of_nat attempt + 1) in
        match sleepErr env with
        | Some e => (false, Some e, Some sleepDelay)
        | None => (true, None, Some sleepDelay)
        end
  end.

(** What a [Fetch] call returns, with what it did on the way: the number
    of attempts ([fetchOnce] calls) and the backoffs slept, in order. *)
Record FetchOut := mkFetchOut {
  outResult : Result;
  outErr : error;
  outAttempts : nat;
  outSleeps : list Z
}.

Definition addSleep (s : option Z) (sleeps : list Z) : list Z :=
  match s with Some d => sleeps ++ [d] | None => sleeps end.

(** The loop of [Fetch], [for attempt := range attempts]: [left] is the
    number of iterations left, [attempt] the loop variable. *)
Fixpoint fetchLoop (f : Fetcher) (w : World) (rawURL : string) (attempts : Z)
    (left : nat) (attempt : nat) (lastResult : Result) (lastErr : error)
    (sleeps : list Z) : FetchOut :=
  match left with
  | O => {| outResult := lastResult; outErr := lastErr;
            outAttempts := attempt; outSleeps := sleeps |}
  | S left' =>
      let '(result, err) := fetchOnce f w rawURL attempt in
      if (match err with None => true | Some _ => false end)
         && (StatusCode result <? StatusBadRequest)
      then
        match ctxErr (attemptAt w attempt) with
        | Some c => {| outResult := emptyResult; outErr := Some c;
                       outAttempts := S attempt; outSleeps := sleeps |}
        | None => {| outResult := result; outErr := None;
                     outAttempts := S attempt; outSleeps := sleeps |}
        end
      else
        let '(retry, retryErr, slept) :=
          shouldRetry f w attempt attempts result err in
        if negb retry then
          {| outResult := result; outErr := retryErr;
             outAttempts := S attempt; outSleeps := addSleep slept sleeps |}
        else
          fetchLoop f w rawURL attempts left' (S attempt) result err
            (addSleep slept sleeps)
  end.

Definition Fetch (f : Fetcher) (w : World) (rawURL : string) : FetchOut :=
  let attempts := wrap64 (retries f + 1) in
  fetchLoop f w rawURL attempts (Z.to_nat attempts) 0 emptyResult None [].

(** ** Vocabulary for the properties of [Fetch] *)

(** The test [err == nil && result.StatusCode < http.StatusBadRequest]. *)
Definition succeeded (o : Result * error) : bool :=
  (match o.2 with None => true | Some _ => false end)
  && (StatusCode o.1 <? StatusBadRequest).

(** What [Fetch] returns when the attempt [k] is its last one: after a
    successful attempt, its result with no error, or the empty result with
    the context's error when the context is done by then; after a failed
    attempt, its result, with the error [shouldRetry] gives. *)
Definition returnsAfter (f : Fetcher) (w : World) (rawURL : string)
    (attempts : Z) (k : nat) (out : FetchOut) : Prop :=
  let o := fetchOnce f w rawURL k in
  if succeeded o then
    match ctxErr (attemptAt w k) with
    | None => outResult out = o.1 /\ outErr out = None
    | Some c => outResult out = emptyResult /\ outErr out = Some c
    end
  else
    outResult out = o.1 /\
    match ctxErr (attemptAt w k) with
    | Some c => outErr out = coalesceError o.2 (Some c)
    | None =>
        if negb (isRetryable (StatusCode o.1) o.2)
           || (Z.of_nat k =? attempts - 1)
        then outErr out = errorForStatus w o.2 (StatusCode o.1)
        else exists e, sleepErr (attemptAt w k) = Some e /\ outErr out = Some e
    end.

(** The underlying error of a transport error: what is left of the chain
    once every [*url.Error] in it is unwrapped ([None]: the last one holds
    a [nil] error). *)
Fixpoint underlying (e : GoErr) : option GoErr :=
  match e with
  | ErrLeaf _ _ => Some e
  | ErrWrap _ _ inner =>
      match asURLError inner with
      | Some _ => underlying inner
      | None => Some e
      end
  | ErrURL _ inner => underlying inner
  | ErrURLNil _ => None
  end.

(** The underlying error is of the network class: it implements
    [net.Error]. *)
Definition netUnder (e : GoErr) : bool :=
  match underlying e with Some u => isNetError u | None => false end.

(** [e] inside [n] nested [*url.Error] wrappers. *)
Fixpoint nestURL (n : nat) (e : GoErr) : GoErr :=
  match n with
  | O => e
  | S n' => ErrURL "Get" (nestURL n' e)
  end.

End Fetcher.

(* ===================================================================== *)
(** * crawler: the data model *)
(* ===================================================================== *)

Module Crawler.
Import Fetcher.
Local Open Scope Z_scope.

Definition Time := Limiter.Time.

Definition statusOK : string := "ok".
Definition statusError : string := "error".

(** A value or an error, for the calls that return [(T, error)]. *)
Inductive result (A : Type) :=
| Ok (a : A)
| Err (e : GoErr).
Arguments Ok {A} a.
Arguments Err {A} e.

(** [net/url.URL] *)
Record URL := mkURL {
  Scheme : string;
  Opaque : string;
  User : option string;
  Host : string;
  Path : string;
  RawPath : string;
  OmitHost : bool;
  ForceQuery : bool;
  RawQuery : string;
  Fragment : string;
  RawFragment : string
}.

Definition setScheme (u : URL) (v : string) : URL :=
  mkURL v (Opaque u) (User u) (Host u) (Path u) (RawPath u) (OmitHost u)
        (ForceQuery u) (RawQuery u) (Fragment u) (RawFragment u).
Definition setHost (u : URL) (v : string) : URL :=
  mkURL (Scheme u) (Opaque u) (User u) v (Path u) (RawPath u) (OmitHost u)
        (ForceQuery u) (RawQuery u) (Fragment u) (RawFragment u).
Definition setPath (u : URL) (v : string) : URL :=
  mkURL (Scheme u) (Opaque u) (User u) (Host u) v (RawPath u) (OmitHost u)
        (ForceQuery u) (RawQuery u) (Fragment u) (RawFragment u).
Definition setRawPath (u : URL) (v : string) : URL :=
  mkURL (Scheme u) (Opaque u) (User u) (Host u) (Path u) v (OmitHost u)
        (ForceQuery u) (RawQuery u) (Fragment u) (RawFragment u).
Definition setForceQuery (u : URL) (v : bool) : URL :=
  mkURL (Scheme u) (Opaque u) (User u) (Host u) (Path u) (RawPath u) (OmitHost u)
        v (RawQuery u) (Fragment u) (RawFragment u).
Definition setFragment (u : URL) (v : string) : URL :=
  mkURL (Scheme u) (Opaque u) (User u) (Host u) (Path u) (RawPath u) (OmitHost u)
        (ForceQuery u) (RawQuery u) v (RawFragment u).

(** The structs of the report (crawler/types.go), one name space each. *)
Module SEO.
Record t := mk {
  HasTitle : bool;
  Title : string;
  HasDescription : bool;
  Description : string;
  HasH1 : bool
}.
Definition zero : t := mk false "" false "" false.
End SEO.

Module BrokenLink.
Record t := mk {
  URL : string;
  StatusCode : Z;
  Error : string
}.
Definition zero : t := mk "" 0 "".
Definition setURL (b : t) (v : string) : t := mk v (StatusCode b) (Error b).
End BrokenLink.

Module Asset.
Record t := mk {
  URL : string;
  Type_ : string;
  StatusCode : Z;
  SizeBytes : Z;
  Error : string
}.
End Asset.

(** [BrokenLinks] and [Assets] are slices: [None] is the [nil] slice, which
    the serializer writes as [null]; [Some []] is an empty one. *)
Module Page.
Record t := mk {
  URL : string;
  Depth : Z;
  HTTPStatus : Z;
  Status : string;
  Error : string;
  SEO : SEO.t;
  BrokenLinks : option (list BrokenLink.t);
  Assets : option (list Asset.t);
  DiscoveredAt : string
}.
Definition setHTTPStatus (p : t) (v : Z) : t :=
  mk (URL p) (Depth p) v (Status p) (Error p) (SEO p) (BrokenLinks p)
     (Assets p) (DiscoveredAt p).
Definition setStatus (p : t) (v : string) : t :=
  mk (URL p) (Depth p) (HTTPStatus p) v (Error p) (SEO p) (BrokenLinks p)
     (Assets p) (DiscoveredAt p).
Definition setError (p : t) (v : string) : t :=
  mk (URL p) (Depth p) (HTTPStatus p) (Status p) v (SEO p) (BrokenLinks p)
     (Assets p) (DiscoveredAt p).
Definition setSEO (p : t) (v : SEO.t) : t :=
  mk (URL p) (Depth p) (HTTPStatus p) (Status p) (Error p) v (BrokenLinks p)
     (Assets p) (DiscoveredAt p).
Definition setBrokenLinks (p : t) (v : option (list BrokenLink.t)) : t :=
  mk (URL p) (Depth p) (HTTPStatus p) (Status p) (Error p) (SEO p) v
     (Assets p) (DiscoveredAt p).
Definition setAssets (p : t) (v : option (list Asset.t)) : t :=
  mk (URL p) (Depth p) (HTTPStatus p) (Status p) (Error p) (SEO p)
     (BrokenLinks p) v (DiscoveredAt p).
End Page.

Module Report.
Record t := mk {
  RootURL : string;
  Depth : Z;
  GeneratedAt : string;
  Pages : list Page.t
}.
Definition setRootURL (r : t) (v : string) : t :=
  mk v (Depth r) (GeneratedAt r) (Pages r).
Definition setPages (r : t) (v : list Page.t) : t :=
  mk (RootURL r) (Depth r) (GeneratedAt r) v.
End Report.

(** [Options].  [HTTPClient] is a pointer: [None] is [nil].  [Clock] gives
    the readings of [opts.Clock.Now()], by the number of earlier readings.
    The field [RPS] (a [float64]) only enters [rateInterval], which is
    taken from the environment below. *)
Module Options.
Record t := mk {
  URL : string;
  Depth : Z;
  Retries : Z;
  Delay : Z;
  Timeout : Z;
  UserAgent : string;
  Concurrency : Z;
  MaxConcurrentFetch : Z;
  IndentJSON : bool;
  HTTPClient : option unit;
  Clock : nat -> Time
}.
End Options.

(** internal/parser *)
Module AssetRef.
Record t := mk { URL : string; Type_ : string }.
End AssetRef.

Module ParseResult.
Record t := mk {
  Links : list string;
  SEO : SEO.t;        (* parser.SEOData has the fields of SEO *)
  Assets : list AssetRef.t
}.
End ParseResult.

(** The internal structs of the analyzer. *)
Module crawlJob.
Record t := mk {
  url : string;
  depth : Z;
  discoveredAt : Time;
  seq : N             (* uint64 *)
}.
Definition setSeq (j : t) (v : N) : t := mk (url j) (depth j) (discoveredAt j) v.
Definition setDepth (j : t) (v : Z) : t := mk (url j) v (discoveredAt j) (seq j).
End crawlJob.

Module pageResult.
Record t := mk {
  job : crawlJob.t;
  page : Page.t;
  links : list string;
  err : error
}.
End pageResult.

Module linkCheck.
Record t := mk {
  broken : bool;
  link : BrokenLink.t;
  url : string
}.
Definition zero : t := mk false BrokenLink.zero "".
End linkCheck.

Module assetFetchResult.
Record t := mk {
  statusCode : Z;
  sizeBytes : Z;
  err : string
}.
End assetFetchResult.

(** What the crawler calls and this embedding does not look into: Go's
    standard library ([net/url], [strings], [net], [net/http], [time],
    [encoding/json]), the HTML parser built on goquery, and
    [rateInterval], which computes in floating point. *)
Class Externals := {
  url_Parse : string -> result URL;
  url_String : URL -> string;
  url_ResolveReference : URL -> URL -> URL;   (* base.ResolveReference(ref) *)
  url_Hostname : URL -> string;
  url_Port : URL -> string;
  strings_TrimSpace : string -> string;
  strings_ToLower : string -> string;
  net_JoinHostPort : string -> string -> string;
  http_StatusText : Z -> string;
  time_FormatRFC3339UTC : Time -> string;     (* t.UTC().Format(time.RFC3339) *)
  parser_ParseHTML : option string -> result ParseResult.t;
  json_Marshal : Report.t -> bool -> result string;
  rateInterval : Options.t -> Z
}.

(* ===================================================================== *)
(** * crawler: helpers, URL rules and the page processor *)
(* ===================================================================== *)

Section Operations.
Context `{Externals}.

Definition isNil {A} (e : option A) : bool :=
  match e with None => true | Some _ => false end.

(** ** analyzer.go: error helpers, report and page constructors *)

Definition statusText (statusCode : Z) : string :=
  let text := http_StatusText statusCode in
  if String.eqb text "" then "http status " ++ pretty statusCode else text.

Definition errorString (err : error) (statusCode : Z) : string :=
  match err with
  | Some e => Error e
  | None => if statusCode >=? 400 then statusText statusCode else ""
  end.

Definition errorForStatus (err : error) (statusCode : Z) : error :=
  match err with
  | Some e => Some e
  | None =>
      if statusCode >=? 400 then Some (ErrLeaf KPlain (statusText statusCode))
      else None
  end.

Definition newReport (opts : Options.t) : Report.t :=
  {| Report.RootURL := Options.URL opts;
     Report.Depth := Options.Depth opts;
     Report.GeneratedAt := time_FormatRFC3339UTC (Options.Clock opts 0%nat);
     Report.Pages := [] |}.

Definition newPage (pageURL : string) (depth : Z) (discoveredAt : Time) : Page.t :=
  {| Page.URL := pageURL;
     Page.Depth := depth;
     Page.HTTPStatus := 0;
     Page.Status := "";
     Page.Error := "";
     Page.SEO := SEO.zero;
     Page.BrokenLinks := Some [];
     Page.Assets := Some [];
     Page.DiscoveredAt := time_FormatRFC3339UTC discoveredAt |}.

Definition parseRootURL (rawURL : string) : result URL :=
  match url_Parse rawURL with
  | Err e => Err e
  | Ok parsed =>
      if String.eqb (Scheme parsed) "" || String.eqb (Host parsed) ""
      then Err (ErrLeaf KPlain "missing scheme or host")
      else
        let parsed :=
          if String.eqb (Path parsed) "/"
          then setRawPath (setPath parsed "") ""
          else parsed in
        Ok (setFragment parsed "")
  end.

(** ** analyzer_internal.go: normalisation of the options *)

Definition normalizeMaxDepth (depth : Z) : Z :=
  if depth <? 0 then 0 else depth.

Definition normalizeMaxConcurrentFetch (opts : Options.t) : Z :=
  let maxConcurrentFetch := Options.MaxConcurrentFetch opts in
  let maxConcurrentFetch :=
    if maxConcurrentFetch <=? 0 then Options.Concurrency opts
    else maxConcurrentFetch in
  if maxConcurrentFetch <? 1 then 1 else maxConcurrentFetch.

Definition linkCheckPoolSize (opts : Options.t) : Z :=
  let maxConcurrentFetch := normalizeMaxConcurrentFetch opts in
  let workerCount := 2 in
  let workerCount :=
    if workerCount >? maxConcurrentFetch then maxConcurrentFetch
    else workerCount in
  if workerCount <? 1 then 1 else workerCount.

(** ** internal/urlutil *)

Definition isHTTP (scheme : string) : bool :=
  String.eqb scheme "http" || String.eqb scheme "https".

Definition Resolve (base : URL) (href : string) : string * bool :=
  let trimmed := strings_TrimSpace href in
  if String.eqb trimmed "" then ("", false)
  else if String.prefix "#" trimmed then ("", false)
  else
    match url_Parse trimmed with
    | Err _ => ("", false)
    | Ok parsed =>
        if negb (String.eqb (Scheme parsed) "") && negb (isHTTP (Scheme parsed))
        then ("", false)
        else
          let resolved :=
            if String.eqb (Scheme parsed) ""
            then url_ResolveReference base parsed
            else parsed in
          let resolved := setFragment resolved "" in
          if negb (isHTTP (Scheme resolved)) then ("", false)
          else (url_String resolved, true)
    end.

Definition SameOrigin (base : URL) (raw : string) : bool :=
  match url_Parse raw with
  | Err _ => false
  | Ok parsed =>
      String.eqb (Scheme parsed) (Scheme base)
      && String.eqb (Host parsed) (Host base)
  end.

(** ** Broken links *)

Definition canonicalBrokenURL (raw : string) : string :=
  if String.eqb raw "" then ""
  else
    match url_Parse raw with
    | Err _ => raw
    | Ok parsed =>
        let parsed := setFragment parsed "" in
        let parsed := setScheme parsed (strings_ToLower (Scheme parsed)) in
        let host := strings_ToLower (url_Hostname parsed) in
        let port := url_Port parsed in
        let port :=
          if String.eqb (Scheme parsed) "http" && String.eqb port "80" then ""
          else if String.eqb (Scheme parsed) "https" && String.eqb port "443"
               then ""
               else port in
        let parsed :=
          if String.eqb port "" then setHost parsed host
          else setHost parsed (net_JoinHostPort host port) in
        let parsed :=
          if String.eqb (Path parsed) "/" then setPath parsed "" else parsed in
        let parsed := setRawPath parsed "" in
        let parsed :=
          if String.eqb (RawQuery parsed) "" then setForceQuery parsed false
          else parsed in
        url_String parsed
    end.

(** The loop of [dedupBrokenLinks] over [links], with [unique] and [seen]. *)
Definition dedupStep (acc : list BrokenLink.t * gset string)
    (link : BrokenLink.t) : list BrokenLink.t * gset string :=
  let '(unique, seen) := acc in
  let key := canonicalBrokenURL (BrokenLink.URL link) in
  if decide (key ∈ seen) then (unique, seen)
  else (unique ++ [BrokenLink.setURL link key], {[key]} ∪ seen).

Definition dedupBrokenLinks (links : option (list BrokenLink.t))
  : option (list BrokenLink.t) :=
  match links with
  | None => None           (* len(nil) = 0: [return links] *)
  | Some [] => Some []
  | Some [out] =>
      Some [BrokenLink.setURL out (canonicalBrokenURL (BrokenLink.URL out))]
  | Some l => Some (fold_left dedupStep l ([], ∅)).1
  end.

(** The loop of [buildLinkResults] over [results[:len(processed)]], with
    [brokenLinks], [crawlLinks] and [seenBroken]. *)
Definition buildStep
    (acc : list BrokenLink.t * list string * gset string)
    (entry : linkCheck.t * bool)
  : list BrokenLink.t * list string * gset string :=
  let '(brokenLinks, crawlLinks, seenBroken) := acc in
  let '(res, processed) := entry in
  if negb processed then acc
  else if linkCheck.broken res then
    let key := linkCheck.url res in
    let key :=
      if String.eqb key "" then BrokenLink.URL (linkCheck.link res) else key in
    let key := canonicalBrokenURL key in
    if decide (key ∈ seenBroken) then acc
    else (brokenLinks ++ [BrokenLink.setURL (linkCheck.link res) key],
          crawlLinks, {[key]} ∪ seenBroken)
  else (brokenLinks, crawlLinks ++ [linkCheck.url res], seenBroken).

(** [zip] stops at the shorter list, as the truncation of [processed] and
    the slice [results[:len(processed)]] do. *)
Definition buildLinkResults (results : list linkCheck.t) (processed : list bool)
  : list BrokenLink.t * list string :=
  (fold_left buildStep (zip results processed) ([], [], ∅)).1.

(** The loop of [resolveLinks], with [resolved] and [seen]. *)
Definition resolveStep (base : URL) (acc : list string * gset string)
    (link : string) : list string * gset string :=
  let '(resolved, seen) := acc in
  let '(absoluteURL, ok) := Resolve base link in
  if negb ok then acc
  else if decide (absoluteURL ∈ seen) then acc
  else (resolved ++ [absoluteURL], {[absoluteURL]} ∪ seen).

Definition resolveLinks (pageURL : string) (links : list string) : list string :=
  match url_Parse pageURL with
  | Err _ => []
  | Ok base => (fold_left (resolveStep base) links ([], ∅)).1
  end.

(** ** The environment of one [processJob] call

    What the shared caches, the pool and the context give to this call:
    the outcome of [fetchWithCache] for the page and for each probed link,
    the outcome of the asset fetch per URL, and how many link-check jobs
    the feed loop of [runLinkChecks] sent before it saw the context
    cancelled (any number from the length of the list on: all of them). *)
Record JobEnv := mkJobEnv {
  pageFetch : Result * error;
  linkFetch : string -> Result * error;
  assetFetch : string -> assetFetchResult.t;
  linksSent : nat
}.

Definition checkBrokenLink (env : JobEnv) (absoluteURL : string)
  : BrokenLink.t * bool :=
  let '(result, err) := linkFetch env absoluteURL in
  let broken := negb (isNil err) || (StatusCode result >=? StatusBadRequest) in
  if negb broken then (BrokenLink.zero, false)
  else
    ({| BrokenLink.URL := absoluteURL;
        BrokenLink.StatusCode := StatusCode result;
        BrokenLink.Error := errorString err (StatusCode result) |}, true).

(** A worker of the link-check pool on one job. *)
Definition linkCheckWorker (env : JobEnv) (url : string) : linkCheck.t :=
  let '(brokenLink, broken) := checkBrokenLink env url in
  {| linkCheck.broken := broken; linkCheck.link := brokenLink;
     linkCheck.url := url |}.

(** [runLinkChecks]: [results], [processed], and the URLs handed to the
    link-check pool (each is fetched by a pool worker). *)
Definition runLinkChecks (env : JobEnv) (resolved : list string)
  : list linkCheck.t * list bool * list string :=
  let sent := Nat.min (linksSent env) (length resolved) in
  (imap (fun idx url =>
           if (idx <? sent)%nat then linkCheckWorker env url
           else linkCheck.zero) resolved,
   imap (fun idx _ => (idx <? sent)%nat) resolved,
   take sent resolved).

Definition checkLinks (env : JobEnv) (job : crawlJob.t) (links : list string)
  : option (list BrokenLink.t) * list string * list string :=
  let resolved := resolveLinks (crawlJob.url job) links in
  if (length resolved =? 0)%nat then (Some [], [], [])
  else
    let '(results, processed, probed) := runLinkChecks env resolved in
    let '(brokenLinks, crawlLinks) := buildLinkResults results processed in
    (Some brokenLinks, crawlLinks, probed).

(** ** Assets *)

Definition buildAssetFromResult (absoluteURL assetType : string)
    (r : assetFetchResult.t) : Asset.t :=
  {| Asset.URL := absoluteURL;
     Asset.Type_ := assetType;
     Asset.StatusCode := assetFetchResult.statusCode r;
     Asset.SizeBytes := assetFetchResult.sizeBytes r;
     Asset.Error := assetFetchResult.err r |}.

(** [getAsset]: every branch builds the asset from a fetch result (the
    cached one, the fetched one, or status 0 with the context's error). *)
Definition getAsset (env : JobEnv) (absoluteURL assetType : string) : Asset.t :=
  buildAssetFromResult absoluteURL assetType (assetFetch env absoluteURL).

Definition assetStep (env : JobEnv) (base : URL)
    (acc : list Asset.t * gset string) (assetRef : AssetRef.t)
  : list Asset.t * gset string :=
  let '(resolved, seen) := acc in
  let '(absoluteURL, ok) := Resolve base (AssetRef.URL assetRef) in
  if negb ok then acc
  else if decide (absoluteURL ∈ seen) then acc
  else (resolved ++ [getAsset env absoluteURL (AssetRef.Type_ assetRef)],
        {[absoluteURL]} ∪ seen).

Definition collectAssets (env : JobEnv) (pageURL : string)
    (assets : list AssetRef.t) : option (list Asset.t) :=
  match url_Parse pageURL with
  | Err _ => Some []
  | Ok base => Some (fold_left (assetStep env base) assets ([], ∅)).1
  end.

(** ** The page processor *)

Definition errorPage (page : Page.t) (msg : string) : Page.t :=
  Page.setAssets
    (Page.setBrokenLinks
       (Page.setError (Page.setStatus page statusError) msg) None) None.

(** [processJob]: the page result, and the URLs it handed to the
    link-check pool. *)
Definition processJob (env : JobEnv) (job : crawlJob.t)
  : pageResult.t * list string :=
  let page := newPage (crawlJob.url job) (crawlJob.depth job)
                (crawlJob.discoveredAt job) in
  let '(result, err) := pageFetch env in
  let page := Page.setHTTPStatus page (StatusCode result) in
  if negb (isNil err) || (StatusCode result >=? StatusBadRequest) then
    ({| pageResult.job := job;
        pageResult.page :=
          errorPage page (errorString err (StatusCode result));
        pageResult.links := [];
        pageResult.err := errorForStatus err (StatusCode result) |}, [])
  else
    match parser_ParseHTML (Body result) with
    | Err parseErr =>
        ({| pageResult.job := job;
            pageResult.page :=
              errorPage page ("parse html: " ++ Error parseErr);
            pageResult.links := [];
            pageResult.err :=
              Some (ErrWrap KPlain ("parse html: " ++ Error parseErr) parseErr) |},
         [])
    | Ok parsed =>
        let page := Page.setStatus page statusOK in
        let page := Page.setSEO page (ParseResult.SEO parsed) in
        let '(brokenLinks, pageLinks, probed) :=
          checkLinks env job (ParseResult.Links parsed) in
        let page := Page.setBrokenLinks page (dedupBrokenLinks brokenLinks) in
        let page :=
          Page.setAssets page
            (collectAssets env (crawlJob.url job) (ParseResult.Assets parsed)) in
        ({| pageResult.job := job; pageResult.page := page;
            pageResult.links := pageLinks; pageResult.err := None |}, probed)
    end.

End Operations.

(* ===================================================================== *)
(** * crawler: the aggregator and the run of the analyzer *)
(* ===================================================================== *)

(** [analyzer]: the fields that do not change during a run. *)
Record analyzer := mkAnalyzer {
  options : Options.t;
  baseURL : URL;
  fetch : Fetcher;
  maxDepth : Z
}.

(** [aggregator], with the [crawlState] it points to.  [jobs] is the jobs
    channel seen from the aggregator: the jobs it has sent whose result it
    has not handled yet (waiting in the channel or held by a worker). *)
Record aggregator := mkAggregator {
  seen : gset string;           (* state.seen, a map[string]bool of trues *)
  analysisErr : error;          (* state.analysisErr *)
  jobs : list crawlJob.t;
  pending : Z;
  jobsClosed : bool;
  aggMaxDepth : Z;
  report : Report.t;
  aggBaseURL : URL;
  nextSeq : N;
  nextCommit : N;
  pendingPages : gmap N Page.t
}.

(** [n++] on a [uint64] *)
Definition incr64 (n : N) : N := ((n + 1) mod 2 ^ 64)%N.

Definition appendPage (r : Report.t) (p : Page.t) : Report.t :=
  Report.setPages r (Report.Pages r ++ [p]).

Section Scheduler.
Context `{Externals}.

Definition newAnalyzer (opts : Options.t) (baseURL : URL) (fetch : Fetcher)
  : analyzer :=
  {| options := opts; baseURL := baseURL; fetch := fetch;
     maxDepth := normalizeMaxDepth (Options.Depth opts) |}.

(** [enqueue].  [ctxFirst] tells which case the [select] takes: the send
    on the jobs channel, or [<-ctx.Done()]. *)
Definition enqueue (a : aggregator) (ctxFirst : bool) (job : crawlJob.t)
  : aggregator :=
  if decide (crawlJob.url job ∈ seen a) then a
  else
    let jobWithSeq := crawlJob.setSeq job (nextSeq a) in
    if ctxFirst then a
    else
      {| seen := {[crawlJob.url job]} ∪ seen a;
         analysisErr := analysisErr a;
         jobs := jobs a ++ [jobWithSeq];
         pending := pending a + 1;
         jobsClosed := jobsClosed a;
         aggMaxDepth := aggMaxDepth a;
         report := report a;
         aggBaseURL := aggBaseURL a;
         nextSeq := incr64 (nextSeq a);
         nextCommit := nextCommit a;
         pendingPages := pendingPages a |}.

Definition closeJobsIfNeeded (a : aggregator) : aggregator :=
  if negb (pending a =? 0) || jobsClosed a then a
  else
    {| seen := seen a; analysisErr := analysisErr a; jobs := jobs a;
       pending := pending a; jobsClosed := true;
       aggMaxDepth := aggMaxDepth a; report := report a;
       aggBaseURL := aggBaseURL a; nextSeq := nextSeq a;
       nextCommit := nextCommit a; pendingPages := pendingPages a |}.

(** One iteration of the loop of [flushCommitted] that found a page. *)
Definition commitNext (a : aggregator) (page : Page.t) : aggregator :=
  {| seen := seen a; analysisErr := analysisErr a; jobs := jobs a;
     pending := pending a; jobsClosed := jobsClosed a;
     aggMaxDepth := aggMaxDepth a;
     report := appendPage (report a) page;
     aggBaseURL := aggBaseURL a; nextSeq := nextSeq a;
     nextCommit := incr64 (nextCommit a);
     pendingPages := delete (nextCommit a) (pendingPages a) |}.

Equations? flushCommitted (a : aggregator) : aggregator
  by wf (size (pendingPages a)) lt :=
flushCommitted a :=
  match pendingPages a !! nextCommit a as o
        return pendingPages a !! nextCommit a = o -> aggregator with
  | None => fun _ => a
  | Some page => fun _ => flushCommitted (commitNext a page)
  end eq_refl.
Proof.
  simpl. rewrite map_size_delete, e. pose proof (map_size_non_empty_iff (pendingPages a)) as Hne.
  destruct (size (pendingPages a)) eqn:Hs; [|lia].
  apply map_size_empty_inv in Hs. rewrite Hs, lookup_empty in e. discriminate.
Qed.

Definition setPendingPage (a : aggregator) (seq : N) (page : Page.t)
  : aggregator :=
  {| seen := seen a; analysisErr := analysisErr a; jobs := jobs a;
     pending := pending a; jobsClosed := jobsClosed a;
     aggMaxDepth := aggMaxDepth a; report := report a;
     aggBaseURL := aggBaseURL a; nextSeq := nextSeq a;
     nextCommit := nextCommit a;
     pendingPages := <[seq := page]> (pendingPages a) |}.

Definition setAnalysisErr (a : aggregator) (e : error) : aggregator :=
  {| seen := seen a; analysisErr := e; jobs := jobs a;
     pending := pending a; jobsClosed := jobsClosed a;
     aggMaxDepth := aggMaxDepth a; report := report a;
     aggBaseURL := aggBaseURL a; nextSeq := nextSeq a;
     nextCommit := nextCommit a; pendingPages := pendingPages a |}.

Definition setPending (a : aggregator) (n : Z) : aggregator :=
  {| seen := seen a; analysisErr := analysisErr a; jobs := jobs a;
     pending := n; jobsClosed := jobsClosed a;
     aggMaxDepth := aggMaxDepth a; report := report a;
     aggBaseURL := aggBaseURL a; nextSeq := nextSeq a;
     nextCommit := nextCommit a; pendingPages := pendingPages a |}.

Definition setJobs (a : aggregator) (js : list crawlJob.t) : aggregator :=
  {| seen := seen a; analysisErr := analysisErr a; jobs := js;
     pending := pending a; jobsClosed := jobsClosed a;
     aggMaxDepth := aggMaxDepth a; report := report a;
     aggBaseURL := aggBaseURL a; nextSeq := nextSeq a;
     nextCommit := nextCommit a; pendingPages := pendingPages a |}.

(** What the aggregator meets while it handles one result: per link of
    the result (by its index), which case the [select] of [enqueue] takes
    and what [a.clock.Now()] reads. *)
Record HandleEnv := mkHandleEnv {
  ctxFirstAt : nat -> bool;
  nowAt : nat -> Time
}.

(** The loop of [handleResult] over [result.links]. *)
Fixpoint enqueueLinks (a : aggregator) (henv : HandleEnv) (nextDepth : Z)
    (idx : nat) (links : list string) : aggregator :=
  match links with
  | [] => a
  | link :: rest =>
      if negb (SameOrigin (aggBaseURL a) link)
      then enqueueLinks a henv nextDepth (S idx) rest
      else
        enqueueLinks
          (enqueue a (ctxFirstAt henv idx)
             {| crawlJob.url := link; crawlJob.depth := nextDepth;
                crawlJob.discoveredAt := nowAt henv idx;
                crawlJob.seq := 0%N |})
          henv nextDepth (S idx) rest
  end.

Definition handleResult (a : aggregator) (henv : HandleEnv)
    (result : pageResult.t) : aggregator :=
  let a := setPendingPage a (crawlJob.seq (pageResult.job result))
             (pageResult.page result) in
  let a := flushCommitted a in
  let a :=
    if (crawlJob.depth (pageResult.job result) =? 0)
       && negb (isNil (pageResult.err result))
       && isNil (analysisErr a)
    then setAnalysisErr a (pageResult.err result)
    else a in
  let nextDepth := wrap64 (crawlJob.depth (pageResult.job result) + 1) in
  if nextDepth >? aggMaxDepth a then a
  else enqueueLinks a henv nextDepth 0 (pageResult.links result).

Definition onResult (a : aggregator) (henv : HandleEnv) (result : pageResult.t)
  : aggregator :=
  let a := setPending a (pending a - 1) in
  let a := handleResult a henv result in
  closeJobsIfNeeded a.

(** ** The run

    [analyzer.run] starts the workers and the aggregator, enqueues the
    root and drains the results.  The state of a run is the aggregator
    and whether the context is done.  A step is one of:
    - a worker finishes some job that is out, in some environment, and the
      aggregator handles its result ([onResult]); the [select] of
      [enqueue] can take [<-ctx.Done()] only when the context is done;
    - the context becomes done;
    - [drainResults] sees the context done and calls [closeJobsIfNeeded].
    Workers finish in any order, so any job that is out can be next. *)
Record RunState := mkRunState {
  agg : aggregator;
  ctxDone : bool
}.

Definition rootJob (an : analyzer) : crawlJob.t :=
  {| crawlJob.url := url_String (baseURL an);
     crawlJob.depth := 0;
     crawlJob.discoveredAt := Options.Clock (options an) 1%nat;
     crawlJob.seq := 0%N |}.

Definition newAggregator (an : analyzer) (rep : Report.t) : aggregator :=
  {| seen := ∅; analysisErr := None; jobs := []; pending := 0;
     jobsClosed := false; aggMaxDepth := maxDepth an; report := rep;
     aggBaseURL := baseURL an; nextSeq := 0%N; nextCommit := 0%N;
     pendingPages := ∅ |}.

(** The state when [run] reaches [drainResults]. *)
Definition runInit (an : analyzer) (rep : Report.t) (ctxDone0 ctxFirst : bool)
  : RunState :=
  {| agg := closeJobsIfNeeded
              (enqueue (newAggregator an rep) ctxFirst (rootJob an));
     ctxDone := ctxDone0 |}.

Inductive step : RunState -> RunState -> Prop :=
| step_result st before j after env henv :
    jobs (agg st) = before ++ j :: after ->
    (forall i, ctxFirstAt henv i = true -> ctxDone st = true) ->
    step st {| agg := onResult (setJobs (agg st) (before ++ after)) henv
                        (processJob env j).1;
               ctxDone := ctxDone st |}
| step_ctx_done st :
    step st {| agg := agg st; ctxDone := true |}
| step_drain_cancel st :
    ctxDone st = true ->
    step st {| agg := closeJobsIfNeeded (agg st); ctxDone := ctxDone st |}.

Inductive steps : RunState -> RunState -> Prop :=
| steps_refl st : steps st st
| steps_step st1 st2 st3 : steps st1 st2 -> step st2 st3 -> steps st1 st3.

(** ** analyzeReport *)

(** The part of [analyzeReport] before the crawl: it returns a report and
    an error, or the analyzer and the report the crawl starts from. *)
Definition analyzeSetup (opts : Options.t)
  : (Report.t * GoErr) + (analyzer * Report.t) :=
  let report := newReport opts in
  if String.eqb (Options.URL opts) "" then
    inl (report, ErrLeaf KPlain "url is required")
  else
    match parseRootURL (Options.URL opts) with
    | Err err =>
        let page := newPage (Options.URL opts) 0 (Options.Clock opts 1%nat) in
        let page := Page.setStatus page statusError in
        let page := Page.setError page ("invalid url: " ++ Error err) in
        inl (appendPage report page,
             ErrWrap KPlain ("invalid root url: " ++ Error err) err)
    | Ok baseURL =>
        let baseURL := setFragment baseURL "" in
        let rootURL := url_String baseURL in
        let report := Report.setRootURL report rootURL in
        match Options.HTTPClient opts with
        | None =>
            let page := newPage rootURL 0 (Options.Clock opts 1%nat) in
            let page := Page.setStatus page statusError in
            let page := Page.setError page "http client is required" in
            inl (appendPage report page,
                 ErrLeaf KPlain "http client is required")
        | Some _ =>
            let fetch :=
              Fetcher.New (Options.Timeout opts) (Options.UserAgent opts)
                (0 <? rateInterval opts) (Options.Retries opts)
                (Options.Delay opts) in
            inr (newAnalyzer opts baseURL fetch, report)
        end
    end.

(** [analyzeReport opts] returns [(report, err)]: either from the setup,
    or from a run that has come to its end (the jobs channel is closed, so
    the workers leave and [drainResults] returns). *)
Inductive analyzeReport (opts : Options.t) : Report.t -> error -> Prop :=
| analyze_setup report err :
    analyzeSetup opts = inl (report, err) ->
    analyzeReport opts report (Some err)
| analyze_run an rep ctxDone0 ctxFirst st :
    analyzeSetup opts = inr (an, rep) ->
    (ctxFirst = true -> ctxDone0 = true) ->
    steps (runInit an rep ctxDone0 ctxFirst) st ->
    jobsClosed (agg st) = true ->
    analyzeReport opts (report (agg st)) (analysisErr (agg st)).

(** ** The vocabulary of the statements about a run *)

(** A page that some [processJob] call built. *)
Definition producedPage (page : Page.t) : Prop :=
  exists env job, page = pageResult.page (processJob env job).1.

(** The two shapes of the aggregator in such a run: the root job is out
    and nothing has come back, or no job is out and at most the page of
    the root job is in the report. *)
Definition rootOut (an : analyzer) (a : aggregator) : Prop :=
  jobs a = [crawlJob.setSeq (rootJob an) 0%N]
  /\ pending a = 1 /\ nextSeq a = 1%N /\ nextCommit a = 0%N
  /\ pendingPages a = ∅ /\ Report.Pages (report a) = [].

Definition rootDone (an : analyzer) (a : aggregator) : Prop :=
  jobs a = [] /\ pending a = 0 /\ jobsClosed a = true /\ pendingPages a = ∅
  /\ (nextSeq a = 0%N /\ Report.Pages (report a) = []
      \/ nextSeq a = 1%N
         /\ exists env,
              Report.Pages (report a)
              = [pageResult.page
                   (processJob env (crawlJob.setSeq (rootJob an) 0%N)).1]).

End Scheduler.

(* ===================================================================== *)
(** * crawler: report assembly (analyze.go) *)
(* ===================================================================== *)

(** The [less] function [sortPages] gives to [sort.SliceStable]; [<] on Go
    strings compares byte by byte, as [String.ltb] does. *)
Definition pageLess (p q : Page.t) : bool :=
  if negb (Page.Depth p =? Page.Depth q) then Page.Depth p <? Page.Depth q
  else String.ltb (Page.URL p) (Page.URL q).

(** [p] does not come after [q]: depth first, then URL. *)
Definition pageOrdered (p q : Page.t) : Prop :=
  Page.Depth p < Page.Depth q
  \/ (Page.Depth p = Page.Depth q
      /\ String.leb (Page.URL p) (Page.URL q) = true).

(** The inner loop of the insertion sort,
    [for j := i; j > a && less(data[j], data[j-1]); j-- { swap(j, j-1) }]:
    [x] is the element that moves left, [sortedRev] the part before it,
    last element first. *)
Fixpoint insertLeft (x : Page.t) (sortedRev : list Page.t) : list Page.t :=
  match sortedRev with
  | [] => [x]
  | y :: rest =>
      if pageLess x y then y :: insertLeft x rest
      else x :: y :: rest
  end.

(** [sort.SliceStable(pages, less)].  A stable sort has one result; it is
    computed here by the insertion sort the library runs on short slices
    (it merges sorted blocks of longer ones, with the same result). *)
Definition sortPages (pages : list Page.t) : list Page.t :=
  rev (fold_left (fun sortedRev x => insertLeft x sortedRev) pages []).

Definition newline : string := String (ascii_of_nat 10) EmptyString.
Definition quote : string := String (ascii_of_nat 34) EmptyString.

Fixpoint endsWithNewline (data : string) : bool :=
  match data with
  | EmptyString => false
  | String c EmptyString => Ascii.eqb c (ascii_of_nat 10)
  | String _ rest => endsWithNewline rest
  end.

Definition ensureNewline (data : string) : string :=
  if negb (endsWithNewline data) then data ++ newline else data.

Section Assembly.
Context `{Externals}.

(** What [marshalReport] serializes: [sortPages] sorts [report.Pages] in
    place before [json.Marshal] reads the report. *)
Definition emittedReport (report : Report.t) : Report.t :=
  Report.setPages report (sortPages (Report.Pages report)).

Definition marshalReport (report : Report.t) (indent : bool) : string :=
  let data :=
    match json_Marshal (emittedReport report) indent with
    | Ok data => data
    | Err _ =>
        ("{" ++ quote ++ "error" ++ quote ++ ":" ++ quote
             ++ "failed to marshal report" ++ quote ++ "}")%string
    end in
  ensureNewline data.

(** [Analyze] returns [(marshalReport(report, opts.IndentJSON), err)] for
    what [analyzeReport] returns. *)
Inductive Analyze (opts : Options.t) : string -> error -> Prop :=
| Analyze_intro report err :
    analyzeReport opts report err ->
    Analyze opts (marshalReport report (Options.IndentJSON opts)) err.

End Assembly.

End Crawler.
(* ===================================================================== *)
(** * crawler: the fetch cache (analyzer_internal.go, fetchWithCache) *)
(* ===================================================================== *)

(** [fetchWithCache] is called by the page workers and by the workers of
    the link-check pools, concurrently, on one analyzer.  What they share:
    the map [a.fetchCache] under [a.fetchMu], the entries the map points
    to, the semaphore [a.fetchSem] and the context.  The model is a step
    relation on this shared state and on the place each call is at; one
    step is one critical section, one [select], one call of the
    semaphore, or the fetch.

    An entry is written by the call that made it only, and read by the
    others only after [<-ready]; so the two stores and [close(ready)] are
    one step. *)
Module FetchCache.
Import Fetcher.

(** [fetchCacheEntry]; [entryReady] is whether [ready] is closed. *)
Record fetchCacheEntry := mkEntry {
  entryResult : Result;
  entryErr : error;
  entryReady : bool
}.

(** [&fetchCacheEntry{ready: make(chan struct{})}] *)
Definition newEntry : fetchCacheEntry :=
  {| entryResult := emptyResult; entryErr := None; entryReady := false |}.

(** The four [return] statements of [fetchWithCache], with the entry the
    call holds there. *)
Inductive ReturnSite :=
| ViaReady (e : nat)     (* case <-ready: return cached.result, cached.err *)
| ViaCtx                 (* case <-ctx.Done(): return fetcher.Result{}, ctx.Err() *)
| ViaCancel (e : nat)    (* after !a.acquireFetch(ctx): return entry.result, entry.err *)
| ViaFetch (e : nat).    (* return result, err *)

(** Where a call is; [e] is the pointer [cached] or [entry]. *)
Inductive pc :=
| AtLock                 (* before a.fetchMu.Lock() *)
| AtSelect (e : nat)     (* found the entry, unlocked, at the select *)
| AtAcquire (e : nat)    (* inserted the entry, unlocked, at acquireFetch *)
| AtDelete (e : nat)     (* acquireFetch failed, before the Lock *)
| AtStore (e : nat)      (* deleted, before the stores and close(ready) *)
| AtFetch (e : nat)      (* acquired, before a.fetch.Fetch *)
| InFetch (e : nat)      (* in a.fetch.Fetch *)
| Returned (site : ReturnSite) (result : Result) (err : error).

Record State := mkState {
  fetchCache : gmap string nat;         (* a.fetchCache: URL to pointer *)
  heap : gmap nat fetchCacheEntry;      (* the entries, by pointer *)
  calls : gmap nat (string * pc);       (* each call: its URL, where it is *)
  fetched : list string;                (* the calls of a.fetch.Fetch, by URL *)
  semFree : nat;                        (* what is left of a.fetchSem *)
  ctxErr : error                        (* ctx.Err(): nil until ctx is done *)
}.

Definition setCall (s : State) (i : nat) (u : string) (p : pc) : State :=
  {| fetchCache := fetchCache s; heap := heap s;
     calls := <[i := (u, p)]> (calls s);
     fetched := fetched s; semFree := semFree s; ctxErr := ctxErr s |}.

Definition setEntry (s : State) (e : nat) (ent : fetchCacheEntry) : State :=
  {| fetchCache := fetchCache s; heap := <[e := ent]> (heap s);
     calls := calls s;
     fetched := fetched s; semFree := semFree s; ctxErr := ctxErr s |}.

Definition setFetchCache (s : State) (m : gmap string nat) : State :=
  {| fetchCache := m; heap := heap s; calls := calls s;
     fetched := fetched s; semFree := semFree s; ctxErr := ctxErr s |}.

Definition setSemFree (s : State) (n : nat) : State :=
  {| fetchCache := fetchCache s; heap := heap s; calls := calls s;
     fetched := fetched s; semFree := n; ctxErr := ctxErr s |}.

Definition logFetch (s : State) (u : string) : State :=
  {| fetchCache := fetchCache s; heap := heap s; calls := calls s;
     fetched := fetched s ++ [u]; semFree := semFree s; ctxErr := ctxErr s |}.

Definition setCtxErr (s : State) (c : GoErr) : State :=
  {| fetchCache := fetchCache s; heap := heap s; calls := calls s;
     fetched := fetched s; semFree := semFree s; ctxErr := Some c |}.

(** The analyzer when [run] starts: empty cache, a semaphore of [n]. *)
Definition init (n : nat) : State :=
  {| fetchCache := ∅; heap := ∅; calls := ∅; fetched := [];
     semFree := n; ctxErr := None |}.

Inductive step : State -> State -> Prop :=
(* a worker calls a.fetchWithCache(ctx, u) *)
| step_call s i u :
    calls s !! i = None ->
    step s (setCall s i u AtLock)
(* Lock; cached, ok := a.fetchCache[u]; ok; ready := cached.ready; Unlock *)
| step_lock_hit s i u e :
    calls s !! i = Some (u, AtLock) ->
    fetchCache s !! u = Some e ->
    step s (setCall s i u (AtSelect e))
(* Lock; !ok; entry := &fetchCacheEntry{...}; a.fetchCache[u] = entry; Unlock *)
| step_lock_miss s i u e :
    calls s !! i = Some (u, AtLock) ->
    fetchCache s !! u = None ->
    heap s !! e = None ->
    step s (setCall
              (setEntry (setFetchCache s (<[u := e]> (fetchCache s))) e newEntry)
              i u (AtAcquire e))
(* select: case <-ready *)
| step_select_ready s i u e ent :
    calls s !! i = Some (u, AtSelect e) ->
    heap s !! e = Some ent ->
    entryReady ent = true ->
    step s (setCall s i u
              (Returned (ViaReady e) (entryResult ent) (entryErr ent)))
(* select: case <-ctx.Done() *)
| step_select_ctx s i u e c :
    calls s !! i = Some (u, AtSelect e) ->
    ctxErr s = Some c ->
    step s (setCall s i u (Returned ViaCtx emptyResult (Some c)))
(* a.fetchSem.Acquire(ctx, 1) == nil: a unit was free *)
| step_acquire_ok s i u e n :
    calls s !! i = Some (u, AtAcquire e) ->
    semFree s = S n ->
    step s (setCall (setSemFree s n) i u (AtFetch e))
(* a.fetchSem.Acquire(ctx, 1) returns ctx.Err() *)
| step_acquire_fail s i u e c :
    calls s !! i = Some (u, AtAcquire e) ->
    ctxErr s = Some c ->
    step s (setCall s i u (AtDelete e))
(* Lock; delete(a.fetchCache, u); Unlock *)
| step_delete s i u e :
    calls s !! i = Some (u, AtDelete e) ->
    step s (setCall (setFetchCache s (delete u (fetchCache s))) i u (AtStore e))
(* entry.result = fetcher.Result{}; entry.err = ctx.Err(); close(entry.ready);
   return entry.result, entry.err *)
| step_cancel_store s i u e c :
    calls s !! i = Some (u, AtStore e) ->
    ctxErr s = Some c ->
    step s (setCall
              (setEntry s e
                 {| entryResult := emptyResult; entryErr := Some c;
                    entryReady := true |})
              i u (Returned (ViaCancel e) emptyResult (Some c)))
(* a.fetch.Fetch(ctx, u) is called *)
| step_fetch_call s i u e :
    calls s !! i = Some (u, AtFetch e) ->
    step s (setCall (logFetch s u) i u (InFetch e))
(* result, err := a.fetch.Fetch(...); entry.result = result; entry.err = err;
   close(entry.ready); return result, err; and the deferred releaseFetch *)
| step_fetch_return s i u e result err :
    calls s !! i = Some (u, InFetch e) ->
    step s (setCall
              (setSemFree
                 (setEntry s e
                    {| entryResult := result; entryErr := err;
                       entryReady := true |})
                 (S (semFree s)))
              i u (Returned (ViaFetch e) result err))
(* the context becomes done *)
| step_ctx_done s c :
    ctxErr s = None ->
    step s (setCtxErr s c).

(** The states of an analyzer whose semaphore has [n] units. *)
Definition reachable (n : nat) (s : State) : Prop := rtc step (init n) s.

(** The entry a call made ([entry] in the source), if it made one. *)
Definition ownerOf (p : pc) : option nat :=
  match p with
  | AtAcquire e | AtDelete e | AtStore e | AtFetch e | InFetch e => Some e
  | Returned (ViaCancel e) _ _ | Returned (ViaFetch e) _ _ => Some e
  | _ => None
  end.

(** The entry a call made and has not deleted from the map. *)
Definition cachedOf (p : pc) : option nat :=
  match p with
  | AtAcquire e | AtDelete e | AtFetch e | InFetch e => Some e
  | Returned (ViaFetch e) _ _ => Some e
  | _ => None
  end.

(** The entry of a call that has called the fetcher. *)
Definition fetchOf (p : pc) : option nat :=
  match p with
  | InFetch e | Returned (ViaFetch e) _ _ => Some e
  | _ => None
  end.

(** The entry a call found in the map ([cached] in the source). *)
Definition followOf (p : pc) : option nat :=
  match p with
  | AtSelect e | Returned (ViaReady e) _ _ => Some e
  | _ => None
  end.

(** The call is on the path of a context that is done. *)
Definition cancelled (p : pc) : bool :=
  match p with
  | AtDelete _ | AtStore _ => true
  | Returned ViaCtx _ _ | Returned (ViaCancel _) _ _ => true
  | _ => false
  end.

(** What holds of every state an analyzer can reach. *)
Record Inv (s : State) : Prop := mkInv {
  inv_cache_owner : forall u e, fetchCache s !! u = Some e ->
    exists i p, calls s !! i = Some (u, p) /\ cachedOf p = Some e;
  inv_cached : forall i u p e, calls s !! i = Some (u, p) ->
    cachedOf p = Some e -> fetchCache s !! u = Some e;
  inv_owner_heap : forall i u p e, calls s !! i = Some (u, p) ->
    ownerOf p = Some e -> is_Some (heap s !! e);
  inv_follow_owner : forall i u p e, calls s !! i = Some (u, p) ->
    followOf p = Some e ->
    exists j q, calls s !! j = Some (u, q) /\ ownerOf q = Some e;
  inv_owner_unique : forall i j ui uj pi pj e,
    calls s !! i = Some (ui, pi) -> calls s !! j = Some (uj, pj) ->
    ownerOf pi = Some e -> ownerOf pj = Some e -> i = j;
  inv_fetched : forall u, u ∈ fetched s ->
    exists i p e, calls s !! i = Some (u, p) /\ fetchOf p = Some e;
  inv_fetch_logged : forall i u p e, calls s !! i = Some (u, p) ->
    fetchOf p = Some e -> u ∈ fetched s;
  inv_nodup : NoDup (fetched s);
  inv_ready : forall e ent, heap s !! e = Some ent -> entryReady ent = true ->
    exists i u site,
      calls s !! i = Some (u, Returned site (entryResult ent) (entryErr ent))
      /\ (site = ViaFetch e \/ site = ViaCancel e);
  inv_returned : forall i u site r er e,
    calls s !! i = Some (u, Returned site r er) ->
    site = ViaReady e \/ site = ViaFetch e \/ site = ViaCancel e ->
    heap s !! e = Some (mkEntry r er true);
  inv_returned_ctx : forall i u site r er,
    calls s !! i = Some (u, Returned site r er) ->
    cancelled (Returned site r er) = true ->
    r = emptyResult /\ er = ctxErr s /\ is_Some er;
  inv_live : ctxErr s = None -> forall i u p, calls s !! i = Some (u, p) ->
    cancelled p = false
    /\ (p = AtLock
        \/ exists e, fetchCache s !! u = Some e
                     /\ (ownerOf p = Some e \/ followOf p = Some e))
}.

End FetchCache.

(* ===================================================================== *)
(** * Concrete environments: the fixtures of the repository's tests *)
(* ===================================================================== *)

(** The site of crawler/broken_links_contract_test.go: the root
    [https://example.com] links to [/missing] and to
    [https://evil.test/broken], which both answer 404.  The externals
    below stand for Go's library on the strings of these fixtures only:
    they agree with [net/url], [strings] and [net/http] there. *)
Module Fixture.
Import Fetcher Crawler.
Local Open Scope Z_scope.

Definition plainURL (scheme host path : string) : URL :=
  {| Scheme := scheme; Opaque := ""; User := None; Host := host;
     Path := path; RawPath := ""; OmitHost := false; ForceQuery := false;
     RawQuery := ""; Fragment := ""; RawFragment := "" |}.

(** [url.Parse] on the URLs of the fixtures; ["://broken"] is the invalid
    URL of TestParseRootURL. *)
Definition fixtureParse (s : string) : result URL :=
  if String.eqb s "https://example.com" then Ok (plainURL "https" "example.com" "")
  else if String.eqb s "https://example.com/" then Ok (plainURL "https" "example.com" "/")
  else if String.eqb s "https://example.com/missing"
       then Ok (plainURL "https" "example.com" "/missing")
  else if String.eqb s "https://evil.test/broken"
       then Ok (plainURL "https" "evil.test" "/broken")
  else if String.eqb s "/missing" then Ok (plainURL "" "" "/missing")
  else Err (ErrLeaf KPlain "parse: missing protocol scheme").

(** [u.String()] for a URL with no user, opaque part or escaping. *)
Definition fixtureString (u : URL) : string :=
  ((if String.eqb (Scheme u) "" then "" else Scheme u ++ ":")
   ++ (if String.eqb (Host u) "" then "" else "//" ++ Host u)
   ++ Path u
   ++ (if String.eqb (RawQuery u) "" then "" else "?" ++ RawQuery u)
   ++ (if String.eqb (Fragment u) "" then "" else "#" ++ Fragment u))%string.

(** [base.ResolveReference(ref)] for a reference that is absolute, has a
    host, or has an absolute path. *)
Definition fixtureResolveReference (base ref : URL) : URL :=
  if negb (String.eqb (Scheme ref) "") then ref
  else if negb (String.eqb (Host ref) "") then setScheme ref (Scheme base)
  else plainURL (Scheme base) (Host base) (Path ref).

Definition fixtureStatusText (code : Z) : string :=
  if code =? 200 then "OK"
  else if code =? 404 then "Not Found"
  else if code =? 500 then "Internal Server Error"
  else "".

Definition rootBody : string :=
  "<html><body><a href='/missing'>m</a><a href='https://evil.test/broken'>e</a></body></html>".

Definition depthZeroBody : string :=
  "<html><body><a href='/missing'>m</a></body></html>".

(** [parser.ParseHTML] on the bodies of the fixtures. *)
Definition fixtureParseHTML (body : option string) : result ParseResult.t :=
  match body with
  | Some b =>
      if String.eqb b rootBody
      then Ok {| ParseResult.Links := ["/missing"; "https://evil.test/broken"];
                 ParseResult.SEO := SEO.zero; ParseResult.Assets := [] |}
      else if String.eqb b depthZeroBody
      then Ok {| ParseResult.Links := ["/missing"];
                 ParseResult.SEO := SEO.zero; ParseResult.Assets := [] |}
      else Ok {| ParseResult.Links := []; ParseResult.SEO := SEO.zero;
                 ParseResult.Assets := [] |}
  | None => Ok {| ParseResult.Links := []; ParseResult.SEO := SEO.zero;
                  ParseResult.Assets := [] |}
  end.

Definition fixtureExternals : Externals :=
  {| url_Parse := fixtureParse;
     url_String := fixtureString;
     url_ResolveReference := fixtureResolveReference;
     url_Hostname := Host;          (* the hosts of the fixtures have no port *)
     url_Port := fun _ => "";
     strings_TrimSpace := fun s => s;   (* no blanks around the hrefs *)
     strings_ToLower := fun s => s;     (* the fixtures are in lower case *)
     net_JoinHostPort := fun h p => (h ++ ":" ++ p)%string;
     http_StatusText := fixtureStatusText;
     time_FormatRFC3339UTC := fun _ => "2024-06-01T12:34:56Z";
     parser_ParseHTML := fixtureParseHTML;
     json_Marshal := fun _ _ => Ok "{}";
     rateInterval := fun opts => Z.max 0 (Options.Delay opts) |}.

(** What a fetch through the cache gives for a URL of the site: the
    fetcher returns the status with the error made from it. *)
Definition notFound : Result * error :=
  ({| StatusCode := 404; ResHeader := []; Body := Some "missing" |},
   Some (ErrLeaf KPlain "Not Found")).

Definition okPage (body : string) : Result * error :=
  ({| StatusCode := 200; ResHeader := []; Body := Some body |}, None).

(** The environment of [processJob] on the root page with [body]: every
    link answers 404, and the context is never cancelled (the feed loop
    sends every job). *)
Definition siteEnv (body : string) : JobEnv :=
  {| pageFetch := okPage body;
     linkFetch := fun _ => notFound;
     assetFetch := fun _ =>
       {| assetFetchResult.statusCode := 404; assetFetchResult.sizeBytes := 0;
          assetFetchResult.err := "http status 404" |};
     linksSent := 2 |}.

Definition fixtureTime : Time := 63852842096000000000.

Definition rootJobAt (depth : Z) : crawlJob.t :=
  {| crawlJob.url := "https://example.com"; crawlJob.depth := depth;
     crawlJob.discoveredAt := fixtureTime; crawlJob.seq := 0%N |}.

(** [optionsForContract(fixtureBaseURL, depth, 0, client, clock)] *)
Definition contractOptions (rootURL : string) (depth : Z) : Options.t :=
  {| Options.URL := rootURL; Options.Depth := depth; Options.Retries := 0;
     Options.Delay := 0; Options.Timeout := Second;
     Options.UserAgent := "test-agent"; Options.Concurrency := 1;
     Options.MaxConcurrentFetch := 0; Options.IndentJSON := false;
     Options.HTTPClient := Some tt; Options.Clock := fun _ => fixtureTime |}.

(** The world of TestFetchRetriesSuccess: status 500 twice, then 200. *)
Definition flakyWorld : World :=
  {| parseErr := fun _ => None;
     newRequestErr := fun _ => None;
     attemptAt := fun i =>
       {| waitErr := None;
          doOut := DoResp (if (i <? 2)%nat then 500 else 200) [] (ReadOK "ok");
          ctxErr := None; sleepErr := None |};
     Fetcher.http_StatusText := fun _ => "" |}.

(** A world in which the only attempt gets status 200 while the context is
    cancelled before [Fetch] looks at it. *)
Definition cancelledWorld : World :=
  {| parseErr := fun _ => None;
     newRequestErr := fun _ => None;
     attemptAt := fun _ =>
       {| waitErr := None;
          doOut := DoResp 200 [] (ReadOK "ok");
          ctxErr := Some (ErrLeaf KCanceled "context canceled");
          sleepErr := None |};
     Fetcher.http_StatusText := fun _ => "" |}.

(** [contractOptions] with the option [Delay] set. *)
Definition optionsWithDelay (delay : Z) : Options.t :=
  {| Options.URL := "https://example.com"; Options.Depth := 1;
     Options.Retries := 2; Options.Delay := delay; Options.Timeout := Second;
     Options.UserAgent := "test-agent"; Options.Concurrency := 1;
     Options.MaxConcurrentFetch := 0; Options.IndentJSON := false;
     Options.HTTPClient := Some tt; Options.Clock := fun _ => fixtureTime |}.

(** A server that answers the root with status 101 (Switching Protocols),
    which the HTTP client hands over as it is, with no error and an empty
    body. *)
Definition switchingEnv : JobEnv :=
  {| pageFetch := ({| StatusCode := 101; ResHeader := []; Body := Some "" |}, None);
     linkFetch := fun _ => notFound;
     assetFetch := fun _ =>
       {| assetFetchResult.statusCode := 404; assetFetchResult.sizeBytes := 0;
          assetFetchResult.err := "http status 404" |};
     linksSent := 0 |}.

(** The context is never done: every [select] of [enqueue] sends. *)
Definition liveHandleEnv : HandleEnv :=
  {| ctxFirstAt := fun _ => false; nowAt := fun _ => fixtureTime |}.

(** The run of [analyzeReport] on the root of the fixture site at depth 0:
    the state when the run starts, and the state after the only result,
    produced in [env], is handled. *)
Definition rootAnalyzer : analyzer :=
  newAnalyzer (contractOptions "https://example.com" 0)
    (plainURL "https" "example.com" "")
    (Fetcher.New Second "test-agent" false 0 0).

Definition rootReport : Report.t :=
  {| Report.RootURL := "https://example.com"; Report.Depth := 0;
     Report.GeneratedAt := "2024-06-01T12:34:56Z"; Report.Pages := [] |}.

Definition rootRunStart : RunState :=
  @runInit fixtureExternals rootAnalyzer rootReport false false.

Definition rootRunEnd (env : JobEnv) : RunState :=
  {| agg := @onResult fixtureExternals (setJobs (agg rootRunStart) [])
              liveHandleEnv
              (@processJob fixtureExternals env (rootJobAt 0)).1;
     ctxDone := false |}.

(** The root page with [body] on a site where every link answers 200. *)
Definition healthyEnv (body : string) : JobEnv :=
  {| pageFetch := okPage body;
     linkFetch := fun _ => okPage "";
     assetFetch := fun _ =>
       {| assetFetchResult.statusCode := 200; assetFetchResult.sizeBytes := 0;
          assetFetchResult.err := "" |};
     linksSent := 2 |}.

(** The same run with [Depth: -1] in the options. *)
Definition negativeAnalyzer : analyzer :=
  newAnalyzer (contractOptions "https://example.com" (-1))
    (plainURL "https" "example.com" "")
    (Fetcher.New Second "test-agent" false 0 0).

Definition negativeReport : Report.t :=
  {| Report.RootURL := "https://example.com"; Report.Depth := -1;
     Report.GeneratedAt := "2024-06-01T12:34:56Z"; Report.Pages := [] |}.

Definition negativeRunStart : RunState :=
  @runInit fixtureExternals negativeAnalyzer negativeReport false false.

Definition negativeRunEnd (env : JobEnv) : RunState :=
  {| agg := @onResult fixtureExternals (setJobs (agg negativeRunStart) [])
              liveHandleEnv
              (@processJob fixtureExternals env (rootJobAt 0)).1;
     ctxDone := false |}.

End Fixture.

(** Two calls of [fetchWithCache] for one URL, on a semaphore of one
    unit: call 0 comes first, inserts the entry (pointer 0) and fetches;
    call 1 finds the entry.  [cacheAfterFetch] is the state when call 0
    has returned; then call 1 takes the [<-ready] case
    ([cacheFollowerReady]), or the context is cancelled and call 1 takes
    the [<-ctx.Done()] case ([cacheFollowerCancelled]). *)
Module CacheFixture.
Import Fetcher FetchCache.

Definition linkURL : string := "https://example.com/a".

Definition fetchedResult : Result :=
  {| StatusCode := 200; ResHeader := []; Body := Some "ok" |}.

Definition canceled : GoErr := ErrLeaf KCanceled "context canceled".

Definition cacheCalled : State :=
  setCall (setCall (init 1) 0 linkURL AtLock) 1 linkURL AtLock.

Definition cacheInserted : State :=
  setCall
    (setEntry (setFetchCache cacheCalled (<[linkURL := 0%nat]> (fetchCache cacheCalled)))
       0 newEntry)
    0 linkURL (AtAcquire 0).

Definition cacheFound : State := setCall cacheInserted 1 linkURL (AtSelect 0).

Definition cacheAcquired : State :=
  setCall (setSemFree cacheFound 0) 0 linkURL (AtFetch 0).

Definition cacheFetching : State :=
  setCall (logFetch cacheAcquired linkURL) 0 linkURL (InFetch 0).

Definition cacheAfterFetch : State :=
  setCall
    (setSemFree
       (setEntry cacheFetching 0
          {| entryResult := fetchedResult; entryErr := None; entryReady := true |})
       (S (semFree cacheFetching)))
    0 linkURL (Returned (ViaFetch 0) fetchedResult None).

Definition cacheFollowerReady : State :=
  setCall cacheAfterFetch 1 linkURL (Returned (ViaReady 0) fetchedResult None).

Definition cacheFollowerCancelled : State :=
  setCall (setCtxErr cacheAfterFetch canceled) 1 linkURL
    (Returned ViaCtx emptyResult (Some canceled)).

End CacheFixture.

(* ===================================================================== *)
(** * crawler: the vocabulary of the properties of a run *)
(* ===================================================================== *)

Module Run.
Import Fetcher Crawler.
Local Open Scope Z_scope.

Section WithExternals.
Context `{Externals}.

(** The count [pending] is the number of jobs that are out, and the
    channel is closed exactly when that is zero. *)
Definition countsJobs (a : aggregator) : Prop :=
  pending a = Z.of_nat (length (jobs a))
  /\ (jobsClosed a = true <-> pending a = 0).

Definition root0 (an : analyzer) : crawlJob.t := crawlJob.setSeq (rootJob an) 0%N.

(** A job made from a link: below the root, within the maximum depth, for
    a URL of the origin of the root. *)
Definition childJob (an : analyzer) (j : crawlJob.t) : Prop :=
  1 <= crawlJob.depth j <= maxDepth an
  /\ SameOrigin (baseURL an) (crawlJob.url j) = true.

Definition crawlJobOk (an : analyzer) (j : crawlJob.t) : Prop :=
  j = root0 an \/ childJob an j.

(** A page of the crawl: the root page, at depth 0, or the page of a link. *)
Definition crawledPage (an : analyzer) (p : Page.t) : Prop :=
  (Page.Depth p = 0 /\ Page.URL p = url_String (baseURL an))
  \/ (1 <= Page.Depth p <= maxDepth an
      /\ SameOrigin (baseURL an) (Page.URL p) = true).



Record crawlInv (an : analyzer) (a : aggregator) : Prop := mkCrawlInv {
  ci_maxDepth : aggMaxDepth a = maxDepth an;
  ci_baseURL : aggBaseURL a = baseURL an;
  ci_jobs : Forall (crawlJobOk an) (jobs a);
  ci_pages : Forall (crawledPage an) (Report.Pages (report a));
  ci_pending : map_Forall (fun _ p => crawledPage an p) (pendingPages a)
}.

(** The URLs the aggregator holds: of the pages in the report, of the
    pages that wait for their turn, and of the jobs that are out. *)
Definition pendingURLs (a : aggregator) : list string :=
  map Page.URL (map_to_list (pendingPages a)).*2.

Definition heldURLs (a : aggregator) : list string :=
  map Page.URL (Report.Pages (report a)) ++ pendingURLs a
  ++ map crawlJob.url (jobs a).

(** Fewer than [2^64] URLs have been sent, so [nextSeq] has not wrapped. *)
Definition bounded (a : aggregator) : Prop :=
  (N.of_nat (size (seen a)) < 2 ^ 64)%N.

Record seqInv (a : aggregator) : Prop := mkSeqInv {
  si_nextSeq : nextSeq a = N.of_nat (size (seen a));
  si_commit : nextCommit a = N.of_nat (length (Report.Pages (report a)));
  si_order : (nextCommit a <= nextSeq a)%N;
  si_nodup : NoDup (map crawlJob.seq (jobs a));
  si_apart : forall k, k ∈ dom (pendingPages a) ->
                       k ∉ map crawlJob.seq (jobs a);
  si_range : forall k,
    (k ∈ dom (pendingPages a) \/ k ∈ map crawlJob.seq (jobs a))
    <-> (nextCommit a <= k < nextSeq a)%N;
  si_urls : heldURLs a ≡ₚ elements (seen a)
}.

(** No page waits at [nextCommit]. *)
Definition flushed (a : aggregator) : Prop :=
  pendingPages a !! nextCommit a = None.

Definition seqState (a : aggregator) : Prop :=
  bounded a -> seqInv a /\ flushed a.

End WithExternals.
End Run.

(** The crawl of the fixture site with [Depth: 1], on a site where every
    link answers 200: the root hands on its link [/missing], whose job is
    sent at depth 1 ([linkedRunMid]); then the page of that job, which has
    no link, comes back and the run is over ([linkedRunEnd]). *)
Module RunFixture.
Import Fetcher Crawler Fixture.
Local Open Scope Z_scope.

Definition linkedAnalyzer : analyzer :=
  newAnalyzer (contractOptions "https://example.com" 1)
    (plainURL "https" "example.com" "")
    (Fetcher.New Second "test-agent" false 0 0).

Definition linkedReport : Report.t :=
  {| Report.RootURL := "https://example.com"; Report.Depth := 1;
     Report.GeneratedAt := "2024-06-01T12:34:56Z"; Report.Pages := [] |}.

Definition linkedRunStart : RunState :=
  @runInit fixtureExternals linkedAnalyzer linkedReport false false.

Definition linkedRunMid : RunState :=
  {| agg := @onResult fixtureExternals (setJobs (agg linkedRunStart) [])
              liveHandleEnv
              (@processJob fixtureExternals (healthyEnv depthZeroBody)
                 (rootJobAt 0)).1;
     ctxDone := false |}.

Definition linkedChildJob : crawlJob.t :=
  {| crawlJob.url := "https://example.com/missing"; crawlJob.depth := 1;
     crawlJob.discoveredAt := fixtureTime; crawlJob.seq := 1%N |}.

Definition linkedRunEnd : RunState :=
  {| agg := @onResult fixtureExternals (setJobs (agg linkedRunMid) [])
              liveHandleEnv
              (@processJob fixtureExternals (healthyEnv "") linkedChildJob).1;
     ctxDone := false |}.

(** The root answers 404. *)
Definition failingEnv : JobEnv :=
  {| pageFetch := notFound;
     linkFetch := fun _ => notFound;
     assetFetch := fun _ =>
       {| assetFetchResult.statusCode := 404; assetFetchResult.sizeBytes := 0;
          assetFetchResult.err := "http status 404" |};
     linksSent := 0 |}.

(** A world in which the limiter's wait of every attempt is cancelled. *)
Definition waitCancelledWorld : World :=
  {| parseErr := fun _ => None;
     newRequestErr := fun _ => None;
     attemptAt := fun _ =>
       {| waitErr := Some (ErrLeaf KCanceled "context canceled");
          doOut := DoResp 200 [] (ReadOK "ok");
          Fetcher.ctxErr := Some (ErrLeaf KCanceled "context canceled");
          sleepErr := None |};
     Fetcher.http_StatusText := fun _ => "" |}.

End RunFixture.

(* ===================================================================== *)
(** * crawler: the vocabulary of the properties of a page's links *)
(* ===================================================================== *)

Module Links.
Import Fetcher Crawler.
Local Open Scope Z_scope.

(** [resolveLinks], [collectAssets], [buildLinkResults] and
    [dedupBrokenLinks] run the same loop: an element with a key that the
    map [seen] does not hold is appended and its key is marked; any other
    element is skipped. *)
Section KeepFirst.
Context {A B : Type} (key : A -> option string) (mk : A -> string -> B).

Definition keepFirstStep (acc : list B * gset string) (x : A)
  : list B * gset string :=
  match key x with
  | None => acc
  | Some k =>
      if decide (k ∈ acc.2) then acc
      else (acc.1 ++ [mk x k], {[k]} ∪ acc.2)
  end.

(** [x] is the first element of [l] with the key [k]. *)
Definition firstWith (l : list A) (x : A) (k : string) : Prop :=
  exists before after,
    l = before ++ x :: after /\ key x = Some k
    /\ forall y, y ∈ before -> key y <> Some k.

(** What an element gives when it is kept. *)
Definition kept (x : A) : option B :=
  match key x with Some k => Some (mk x k) | None => None end.

End KeepFirst.

Section WithExternals.
Context `{Externals}.

(** [urlutil.Resolve] as a partial function: the URL when [ok]. *)
Definition resolvedURL (base : URL) (href : string) : option string :=
  let '(absoluteURL, ok) := Resolve base href in
  if ok then Some absoluteURL else None.

(** The verdict of [checkBrokenLink] on a URL. *)
Definition linkBroken (env : JobEnv) (absoluteURL : string) : bool :=
  (checkBrokenLink env absoluteURL).2.

(** The key under which [buildLinkResults] files a probed URL: the
    canonical URL when the link is broken. *)
Definition brokenKey (env : JobEnv) (absoluteURL : string) : option string :=
  if linkBroken env absoluteURL then Some (canonicalBrokenURL absoluteURL)
  else None.

(** The entry [buildLinkResults] appends for a broken link: the link
    of [checkBrokenLink] with the key as its URL. *)
Definition brokenEntry (env : JobEnv) (absoluteURL key : string)
  : BrokenLink.t :=
  BrokenLink.setURL (checkBrokenLink env absoluteURL).1 key.

(** The key of [dedupBrokenLinks]. *)
Definition canonicalKey (link : BrokenLink.t) : option string :=
  Some (canonicalBrokenURL (BrokenLink.URL link)).

End WithExternals.
End Links.

(* ===================================================================== *)
(** * crawler: the fetch semaphore (analyzer_internal.go, acquireFetch) *)
(* ===================================================================== *)

Module FetchSem.
Import Fetcher Crawler FetchCache.

(** [semaphore.NewWeighted(int64(maxConcurrentFetch))] in [newAnalyzer]:
    the number of units of [a.fetchSem]. *)
Definition semUnits (opts : Options.t) : nat :=
  Z.to_nat (normalizeMaxConcurrentFetch opts).

(** The call holds a unit of [a.fetchSem]: [acquireFetch] gave it one and
    the deferred [releaseFetch] has not run. *)
Definition holdsUnit (p : pc) : bool :=
  match p with
  | AtFetch _ | InFetch _ => true
  | _ => false
  end.

(** The call is inside [a.fetch.Fetch]. *)
Definition isInFetch (p : pc) : bool :=
  match p with
  | InFetch _ => true
  | _ => false
  end.

(** The calls that hold a unit, and those inside the fetcher. *)
Definition holders (s : State) : gmap nat (string * pc) :=
  filter (fun call => holdsUnit call.2.2 = true) (calls s).

Definition fetching (s : State) : gmap nat (string * pc) :=
  filter (fun call => isInFetch call.2.2 = true) (calls s).

End FetchSem.

(* ===================================================================== *)
(** * crawler: the result of an asset fetch (analyze.go) *)
(* ===================================================================== *)

Module AssetFetch.
Import Fetcher Crawler.
Local Open Scope Z_scope.

(** [h.Get(key)] for a key in canonical form: the first value of the
    key, or the empty string. *)
Fixpoint headerGet (h : Header) (key : string) : string :=
  match h with
  | [] => ""
  | (k, values) :: rest =>
      if String.eqb k key then
        match values with
        | value :: _ => value
        | [] => ""
        end
      else headerGet rest key
  end.

Definition setSizeBytes (r : assetFetchResult.t) (v : Z) : assetFetchResult.t :=
  assetFetchResult.mk (assetFetchResult.statusCode r) v (assetFetchResult.err r).

Definition setErr (r : assetFetchResult.t) (v : string) : assetFetchResult.t :=
  assetFetchResult.mk (assetFetchResult.statusCode r)
    (assetFetchResult.sizeBytes r) v.

Section WithExternals.
Context `{Externals}.

(** What this part of analyze.go calls beside the class above:
    [strconv.ParseInt(s, 10, 64)] and the verb [%q] of [fmt]. *)
Context (strconv_ParseInt : string -> result Z)
        (strconv_Quote : string -> string).

Definition parseContentLength (value : string) : Z * error :=
  let trimmed := strings_TrimSpace value in
  match strconv_ParseInt trimmed with
  | Err err =>
      (0, Some (ErrWrap KPlain
                  ("invalid content length " ++ strconv_Quote trimmed
                   ++ ": " ++ Error err) err))
  | Ok parsedValue =>
      if parsedValue <? 0 then
        (0, Some (ErrLeaf KPlain
                    ("invalid content length " ++ strconv_Quote trimmed
                     ++ ": negative value")))
      else (parsedValue, None)
  end.

Definition sizeFromResult (result : Result) : Z * error :=
  let contentLength := headerGet (ResHeader result) "Content-Length" in
  if negb (String.eqb contentLength "") then
    match parseContentLength contentLength with
    | (_, Some err) => (0, Some err)
    | (value, None) => (value, None)
    end
  else
    match Body result with
    | None => (0, Some (ErrLeaf KPlain "unable to determine asset size"))
    | Some body => (Z.of_nat (String.length body), None)
    end.

(** [fetchAssetResult], from what [fetch.Fetch(ctx, absoluteURL)]
    returned; [String.concat] is [strings.Join]. *)
Definition fetchAssetResult (fetched : Result * error) : assetFetchResult.t :=
  let '(result, err) := fetched in
  let fetchResult :=
    {| assetFetchResult.statusCode := StatusCode result;
       assetFetchResult.sizeBytes := 0;
       assetFetchResult.err := "" |} in
  let errMsg :=
    if negb (isNil err) then errorString err (StatusCode result) else "" in
  if negb (isNil err) && (StatusCode result =? 0) then setErr fetchResult errMsg
  else
    let '(sizeBytes, sizeErr) := sizeFromResult result in
    let fetchResult :=
      if isNil sizeErr then setSizeBytes fetchResult sizeBytes
      else fetchResult in
    let parts : list string := [] in
    let parts :=
      if StatusCode result >=? StatusBadRequest
      then parts ++ [("http status " ++ pretty (StatusCode result))%string]
      else parts in
    let parts :=
      if negb (String.eqb errMsg "") then parts ++ [errMsg] else parts in
    let parts :=
      match sizeErr with
      | Some e => parts ++ [Error e]
      | None => parts
      end in
    if (0 <? length parts)%nat
    then setErr fetchResult (String.concat ": " parts)
    else fetchResult.

End WithExternals.
End AssetFetch.

(* ===================================================================== *)
(** * internal/parser: the text of a title or a description (text.go) *)
(* ===================================================================== *)

Module Text.

(** A rune is a code point.  A string is taken as the runes that
    [for _, r := range value] yields, and what the builder holds as the
    runes written to it. *)
Definition rune := N.

(** [' '] *)
Definition space : rune := 32%N.

Section Runes.
(** [unicode.IsSpace] *)
Context (unicode_IsSpace : rune -> bool).

(** The loop of [collapseSpaces], with [previousSpace]; the result is
    what the rest of the loop writes. *)
Fixpoint collapseLoop (previousSpace : bool) (value : list rune) : list rune :=
  match value with
  | [] => []
  | r :: rest =>
      if unicode_IsSpace r then
        if previousSpace then collapseLoop true rest
        else space :: collapseLoop true rest
      else r :: collapseLoop false rest
  end.

Definition collapseSpaces (value : list rune) : list rune :=
  collapseLoop false value.

End Runes.

(** [unicode.IsSpace] on Latin-1: tab, line feed, vertical tab, form
    feed, carriage return, space, NEL and the no-break space. *)
Definition latin1IsSpace (r : rune) : bool :=
  ((9 <=? r) && (r <=? 13) || (r =? 32) || (r =? 133) || (r =? 160))%N.

End Text.

(* ===================================================================== *)
(** * internal/cache *)
(* ===================================================================== *)

(** [Cache[T]] is its map [items], a [gmap string T]; the mutex makes
    every [Get] and [Set] one step.  [Set] is written [Put], [Set] being
    a word of the language. *)
Module Cache.
Section Cache.
Context {T : Type} (zero : T).   (* the zero value of [T] *)

Definition New : gmap string T := ∅.

(** [value, ok := c.items[key]] *)
Definition Get (c : gmap string T) (key : string) : T * bool :=
  match c !! key with
  | Some value => (value, true)
  | None => (zero, false)
  end.

Definition Put (c : gmap string T) (key : string) (value : T)
  : gmap string T :=
  <[key := value]> c.

(** A sequence of [Set] calls, in the order in which they take the
    mutex. *)
Definition puts (c : gmap string T) (calls : list (string * T))
  : gmap string T :=
  fold_left (fun c call => Put c call.1 call.2) calls c.

End Cache.
End Cache.

(* ===================================================================== *)
(** * internal/parser: what is read from a document (parser.go) *)
(* ===================================================================== *)

Module Parser.
Import Fetcher Crawler.

(** What the parser calls and this embedding does not look into: goquery
    (a document, the selection of one node that [Each] passes to its
    function, [Find] in document order, [Attr], [Text]), the functions of
    [strings], and [cleanHumanText] of text.go, whose loop is [Text]. *)
Class Dom := {
  Document : Type;
  Node : Type;
  goquery_NewDocumentFromReader : option string -> result Document;
  Find : Document -> string -> list Node;
  Attr : Node -> string -> option string;     (* value, ok *)
  NodeText : Node -> string;
  strings_TrimSpace : string -> string;
  strings_ToLower : string -> string;
  strings_Contains : string -> string -> bool;
  strings_EqualFold : string -> string -> bool;
  cleanHumanText : string -> string
}.

Section Parser.
Context `{Dom}.

(** The function [parseLinks] gives to [Each]: what it appends. *)
Definition linkOf (selection : Node) : option string :=
  match Attr selection "href" with
  | None => None
  | Some href => Some (strings_TrimSpace href)
  end.

Definition parseLinks (doc : Document) : list string :=
  omap linkOf (Find doc "a[href]").

Definition assetOf (attr assetType : string) (selection : Node)
  : option AssetRef.t :=
  match Attr selection attr with
  | None => None
  | Some value =>
      let trimmed := strings_TrimSpace value in
      if String.eqb trimmed "" then None
      else Some {| AssetRef.URL := trimmed; AssetRef.Type_ := assetType |}
  end.

Definition parseAssetBySelector (doc : Document)
    (selector attr assetType : string) : list AssetRef.t :=
  omap (assetOf attr assetType) (Find doc selector).

Definition stylesheetOf (selection : Node) : option AssetRef.t :=
  match Attr selection "rel" with
  | None => None
  | Some relValue =>
      if negb (strings_Contains (strings_ToLower relValue) "stylesheet")
      then None
      else
        match Attr selection "href" with
        | None => None
        | Some href =>
            let trimmed := strings_TrimSpace href in
            if String.eqb trimmed "" then None
            else Some {| AssetRef.URL := trimmed; AssetRef.Type_ := "style" |}
        end
  end.

Definition parseStylesheets (doc : Document) : list AssetRef.t :=
  omap stylesheetOf (Find doc "link[href]").

Definition parseAssets (doc : Document) : list AssetRef.t :=
  parseAssetBySelector doc "img[src]" "src" "image"
  ++ parseAssetBySelector doc "script[src]" "src" "script"
  ++ parseStylesheets doc.

(** The vocabulary of the statement about [parseAssets]: whether an
    element has the attribute with a trimmed value that is not empty;
    that trimmed value; whether its [rel], in lower case, contains
    [stylesheet]; and one reference per element of a list, in its order. *)
Definition hasValue (attr : string) (selection : Node) : bool :=
  match Attr selection attr with
  | None => false
  | Some value => negb (String.eqb (strings_TrimSpace value) "")
  end.

Definition trimmedAttr (attr : string) (selection : Node) : string :=
  match Attr selection attr with
  | None => ""
  | Some value => strings_TrimSpace value
  end.

Definition relStylesheet (selection : Node) : bool :=
  match Attr selection "rel" with
  | None => false
  | Some relValue => strings_Contains (strings_ToLower relValue) "stylesheet"
  end.

Definition refsOf (attr assetType : string) (selections : list Node)
  : list AssetRef.t :=
  map (fun selection =>
         {| AssetRef.URL := trimmedAttr attr selection;
            AssetRef.Type_ := assetType |})
    selections.

(** The loop of [EachWithBreak] in [findMetaDescription]: the function
    returns [true] to go on and [false] to stop. *)
Fixpoint findMeta (selections : list Node) : bool * string :=
  match selections with
  | [] => (false, "")
  | selection :: rest =>
      match Attr selection "name" with
      | None => findMeta rest
      | Some name =>
          if negb (strings_EqualFold (strings_TrimSpace name) "description")
          then findMeta rest
          else
            let content :=
              match Attr selection "content" with
              | Some content => content
              | None => ""
              end in
            (true, cleanHumanText content)
      end
  end.

Definition findMetaDescription (doc : Document) : bool * string :=
  findMeta (Find doc "meta[name]").

(** [selection.Text()]: the texts of the nodes of the selection, joined. *)
Definition SelectionText (selection : list Node) : string :=
  String.concat "" (map NodeText selection).

Definition parseSEO (doc : Document) : SEO.t :=
  let titleSelection := take 1 (Find doc "title") in   (* .First() *)
  let hasTitle := (0 <? length titleSelection)%nat in
  let title :=
    if hasTitle then cleanHumanText (SelectionText titleSelection) else "" in
  let '(hasDescription, description) := findMetaDescription doc in
  {| SEO.HasTitle := hasTitle;
     SEO.Title := title;
     SEO.HasDescription := hasDescription;
     SEO.Description := description;
     SEO.HasH1 := (0 <? length (Find doc "h1"))%nat |}.

Definition ParseHTML (body : option string) : result ParseResult.t :=
  match goquery_NewDocumentFromReader body with
  | Err err => Err err
  | Ok doc =>
      Ok {| ParseResult.Links := parseLinks doc;
            ParseResult.SEO := parseSEO doc;
            ParseResult.Assets := parseAssets doc |}
  end.

End Parser.
End Parser.
(* ===================================================================== *)
(** * crawler: the vocabulary of the tree of a crawl *)
(* ===================================================================== *)

Module Tree.
Import Fetcher Crawler.
Local Open Scope Z_scope.

Section WithExternals.
Context `{Externals}.

(** A result the aggregator handles is the result of one [processJob]
    call: of the job a worker took, in the environment that worker met. *)
Definition resultOf (h : JobEnv * crawlJob.t) : pageResult.t :=
  (processJob h.1 h.2).1.

Definition pageOf (h : JobEnv * crawlJob.t) : Page.t :=
  pageResult.page (resultOf h).

(** The steps of a run ([step]), each with the result the aggregator
    handles in it, if it handles one. *)
Inductive stepLog : RunState -> option (JobEnv * crawlJob.t) -> RunState -> Prop :=
| stepLog_result st before j after env henv :
    jobs (agg st) = before ++ j :: after ->
    (forall i, ctxFirstAt henv i = true -> ctxDone st = true) ->
    stepLog st (Some (env, j))
      {| agg := onResult (setJobs (agg st) (before ++ after)) henv
                  (processJob env j).1;
         ctxDone := ctxDone st |}
| stepLog_ctx_done st :
    stepLog st None {| agg := agg st; ctxDone := true |}
| stepLog_drain_cancel st :
    ctxDone st = true ->
    stepLog st None
      {| agg := closeJobsIfNeeded (agg st); ctxDone := ctxDone st |}.

(** A run with its log: the results the aggregator has handled, in the
    order in which it handled them. *)
Inductive stepsLog : RunState -> list (JobEnv * crawlJob.t) -> RunState -> Prop :=
| stepsLog_refl st : stepsLog st [] st
| stepsLog_step st1 st2 st3 log o :
    stepsLog st1 log st2 -> stepLog st2 o st3 ->
    stepsLog st1 (log ++ option_list o) st3.

(** The pages the aggregator holds: those of the report and those that
    wait for their turn. *)
Definition heldPages (a : aggregator) : list Page.t :=
  Report.Pages (report a) ++ (map_to_list (pendingPages a)).*2.

(** The URL [u] was handed on, to be crawled at depth [d], by a result
    of the log: the result of a job at depth [d - 1] that has [u] among
    its links. *)
Definition handedOn (log : list (JobEnv * crawlJob.t)) (u : string) (d : Z)
  : Prop :=
  exists parent,
    parent ∈ log
    /\ crawlJob.depth parent.2 = d - 1
    /\ u ∈ pageResult.links (resultOf parent).

(** Every job that is out and every job whose result was handled is at
    depth 0 or was handed on by a result of the log. *)
Definition treeInv (a : aggregator) (log : list (JobEnv * crawlJob.t)) : Prop :=
  (forall j, j ∈ jobs a ->
     crawlJob.depth j = 0 \/ handedOn log (crawlJob.url j) (crawlJob.depth j))
  /\ (forall h, h ∈ log ->
        crawlJob.depth h.2 = 0
        \/ handedOn log (crawlJob.url h.2) (crawlJob.depth h.2)).

(** Every link to crawl of every result of the log (a link of the origin
    of the root, of a job above the maximum depth) is in the set [sent]. *)
Definition linksSeen (an : analyzer) (sent : gset string)
    (log : list (JobEnv * crawlJob.t)) : Prop :=
  forall h u,
    h ∈ log -> u ∈ pageResult.links (resultOf h) ->
    SameOrigin (baseURL an) u = true ->
    crawlJob.depth h.2 + 1 <= maxDepth an ->
    u ∈ sent.

End WithExternals.
End Tree.

(* ===================================================================== *)
(** * Properties of the rate limiter *)
(* ===================================================================== *)

Module LimiterSpec.
Import Limiter.
Local Open Scope Z_scope.

Lemma Sub_exact (t u : Time) :
  minDuration <= t - u <= maxDuration -> Sub t u = t - u.
Proof.
  intros [Hlo Hhi]. unfold Sub.
  destruct (Z.gtb_spec (t - u) maxDuration); [lia|].
  destruct (Z.ltb_spec (t - u) minDuration); [lia|]. reflexivity.
Qed.

(** What one [Wait] does when it is not the first. *)
Lemma Wait_later (l : Limiter) (now : Time) :
  last l <> 0 ->
  Wait l now =
    if now <? last l + interval l
    then ({| interval := interval l; last := last l + interval l |},
          Some (Sub (last l + interval l) now))
    else ({| interval := interval l; last := now |}, None).
Proof.
  intros Hlast. unfold Wait, IsZero, Before, Add.
  destruct (Z.eqb_spec (last l) 0); [contradiction|]. reflexivity.
Qed.

Lemma Wait_interval (l : Limiter) (now : Time) :
  interval (Wait l now).1 = interval l.
Proof.
  unfold Wait. destruct (IsZero (last l)); [reflexivity|].
  simpl. destruct (Before now (Add (last l) (interval l))); reflexivity.
Qed.

Lemma Wait_last_pos (l : Limiter) (now : Time) :
  0 < interval l -> 0 <= last l -> 0 < now -> 0 < last (Wait l now).1.
Proof.
  intros HI Hl Hn. unfold Wait, Add.
  destruct (IsZero (last l)); simpl; [lia|].
  destruct (Before now (last l + interval l)); simpl; lia.
Qed.

Lemma run_length (l : Limiter) (nows : list Time) :
  length (run l nows) = length nows.
Proof.
  revert l. induction nows as [|x xs IH]; intros l; simpl; [reflexivity|].
  destruct (Wait l x). simpl. rewrite IH. reflexivity.
Qed.

(** The calls after the first: every grant is at least one interval after
    the grant before it, and is what [Wait] is said to record. *)
Lemma run_later (l : Limiter) (nows : list Time) :
  0 < interval l -> 0 < last l -> Forall (fun t => 0 < t) nows ->
  forall k (now : Time) (prev : Time),
    nows !! k = Some now ->
    (last l :: grants l nows) !! k = Some prev ->
    0 < prev /\
    run l nows !! k =
      Some (if now <? prev + interval l
            then (prev + interval l, Some (Sub (prev + interval l) now))
            else (now, None)).
Proof.
  intros HI Hl Hpos. revert l HI Hl.
  induction Hpos as [|t rest Ht Hrest IH]; intros l HI Hl k now prev Hk Hprev.
  - rewrite lookup_nil in Hk. discriminate.
  - unfold grants in *. simpl in *.
    destruct (Wait l t) as [l' w] eqn:HW.
    assert (Hl' : l' = (Wait l t).1) by (rewrite HW; reflexivity).
    assert (HI' : interval l' = interval l) by (rewrite Hl'; apply Wait_interval).
    assert (Hlast' : 0 < last l').
    { rewrite Hl'. apply Wait_last_pos; lia. }
    destruct k as [|k]; simpl in *.
    + injection Hk as <-. injection Hprev as <-. split; [lia|].
      rewrite Wait_later in HW by lia.
      destruct (t <? last l + interval l); injection HW as <- <-; reflexivity.
    + specialize (IH l' ltac:(lia) Hlast' k now prev Hk Hprev).
      rewrite HI' in IH. exact IH.
Qed.

(** C8. For the shared limiter made with interval [I] (so [0 < I]) and any
    sequence of [Wait] calls, taken in the order in which they hold the
    mutex, whose clock readings are real instants (after the zero value of
    [time.Time], which the limiter uses for "no grant yet"): the first call
    records its reading as the last grant and returns without sleeping;
    every later call that reads [now < last + I] records [last + I] and
    sleeps [next.Sub(now)], which is the difference [last + I - now]
    whenever that fits a [Duration]; every other later call records [now]
    and returns without sleeping; and any two successive grants are at
    least [I] apart. *)
Theorem limiter_grants_spaced (I : Duration) (l0 : Limiter) (nows : list Time) :
  NewWithTimer I = Some l0 ->
  Forall (fun t => 0 < t) nows ->
  (forall now, nows !! 0%nat = Some now -> run l0 nows !! 0%nat = Some (now, None))
  /\ (forall k now prev,
        nows !! S k = Some now -> grants l0 nows !! k = Some prev ->
        run l0 nows !! S k =
          Some (if now <? prev + I
                then (prev + I, Some (Sub (prev + I) now))
                else (now, None))
        /\ (now < prev + I -> prev + I - now <= maxDuration ->
            Sub (prev + I) now = prev + I - now))
  /\ (forall k g1 g2,
        grants l0 nows !! k = Some g1 -> grants l0 nows !! S k = Some g2 ->
        g1 + I <= g2).
Proof.
  intros Hnew Hpos. unfold NewWithTimer in Hnew.
  destruct (Z.leb_spec I 0) as [|HI]; [discriminate|].
  injection Hnew as <-.
  destruct nows as [|t rest].
  { repeat split; intros; unfold grants in *; simpl in *;
      rewrite ?lookup_nil in *; discriminate. }
  apply Forall_cons in Hpos as [Ht Hrest].
  set (l1 := {| interval := I; last := t |}).
  assert (Hrun : run {| interval := I; last := 0 |} (t :: rest)
                 = (t, None) :: run l1 rest) by reflexivity.
  assert (Hgr : grants {| interval := I; last := 0 |} (t :: rest)
                = t :: grants l1 rest) by (unfold grants; rewrite Hrun; reflexivity).
  assert (Hlater : forall k now prev,
            rest !! k = Some now -> (t :: grants l1 rest) !! k = Some prev ->
            0 < prev /\
            run l1 rest !! k =
              Some (if now <? prev + I
                    then (prev + I, Some (Sub (prev + I) now))
                    else (now, None))).
  { intros k now prev Hk Hp.
    exact (run_later l1 rest HI Ht Hrest k now prev Hk Hp). }
  rewrite Hrun, Hgr. split; [|split].
  - intros now Hnow. simpl in Hnow. injection Hnow as <-. reflexivity.
  - intros k now prev Hk Hp. simpl in Hk.
    destruct (Hlater k now prev Hk Hp) as [Hprev Hr]. split.
    + simpl. exact Hr.
    + intros Hlt Hfit. apply Sub_exact. unfold minDuration. lia.
  - intros k g1 g2 H1 H2. simpl in H2.
    unfold grants in H2. rewrite list_lookup_fmap in H2.
    destruct (run l1 rest !! k) as [[g w]|] eqn:Hr; [|discriminate].
    simpl in H2. injection H2 as <-.
    assert (Hk : is_Some (rest !! k)).
    { apply lookup_lt_is_Some. apply lookup_lt_Some in Hr.
      rewrite run_length in Hr. exact Hr. }
    destruct Hk as [now Hk].
    destruct (Hlater k now g1 Hk H1) as [Hg1 Hr'].
    pose proof (eq_trans (eq_sym Hr) Hr') as Heq. injection Heq as Heq.
    destruct (Z.ltb_spec now (g1 + I)); injection Heq as -> _; lia.
Qed.

(** The theorem at an interval of 100 ms and three calls: the second comes
    40 ms after the first and waits 60 ms, the third comes late. *)
Lemma limiter_grants_spaced_witness :
  let I := 100000000 in
  let l0 := {| interval := I; last := 0 |} in
  let nows := [1000000000; 1040000000; 1300000000] in
  run l0 nows = [(1000000000, None); (1100000000, Some 60000000); (1300000000, None)]
  /\ (forall k g1 g2,
        grants l0 nows !! k = Some g1 -> grants l0 nows !! S k = Some g2 ->
        g1 + I <= g2).
Proof.
  split; [reflexivity|].
  apply (limiter_grants_spaced 100000000 {| interval := 100000000; last := 0 |}
           [1000000000; 1040000000; 1300000000]).
  - reflexivity.
  - repeat constructor.
Defined.

(** C8 as stated fails for a clock that reads the zero value of
    [time.Time] (the clock comes from [Options.Clock]).  Such a reading
    leaves [last] zero, so the next call is taken for a first call again:
    with an interval of 100 ns and the readings 0, 0 and 5, no call
    sleeps, the second call is not the first one and yet returns at once,
    and the grants 0, 0 and 5 are less than the interval apart. *)
Lemma limiter_zero_reading_counterexample :
  let l0 := {| interval := 100; last := 0 |} in
  NewWithTimer 100 = Some l0
  /\ run l0 [0; 0; 5] = [(0, None); (0, None); (5, None)]
  /\ grants l0 [0; 0; 5] = [0; 0; 5]
  /\ ~ (forall k g1 g2,
          grants l0 [0; 0; 5] !! k = Some g1 ->
          grants l0 [0; 0; 5] !! S k = Some g2 ->
          g1 + 100 <= g2).
Proof.
  cbn zeta. split; [reflexivity|]. split; [reflexivity|].
  split; [reflexivity|].
  intros Hspaced. specialize (Hspaced 0%nat 0 0 eq_refl eq_refl). lia.
Qed.

End LimiterSpec.

(* ===================================================================== *)
(** * Properties of the fetcher *)
(* ===================================================================== *)

Module FetcherSpec.
Import Fetcher Fixture.
Local Open Scope Z_scope.

(** ** Backoff *)

Lemma wrap64_small (z : Z) : - 2 ^ 63 <= z < 2 ^ 63 -> wrap64 z = z.
Proof.
  intros Hz. unfold wrap64.
  rewrite Z.mod_small by lia. lia.
Qed.

Lemma wrap64_le (z : Z) : - 2 ^ 63 <= z -> wrap64 z <= z.
Proof.
  intros Hz. unfold wrap64.
  pose proof (Z.mod_le (z + 2 ^ 63) (2 ^ 64) ltac:(lia) ltac:(lia)). lia.
Qed.

(** The loop doubles a positive delay [iters] times and caps it. *)
Lemma retryDelayLoop_closed (iters : nat) (delay : Z) :
  0 < delay ->
  retryDelayLoop iters delay = Z.min (delay * 2 ^ Z.of_nat iters) maxRetryDelay.
Proof.
  revert delay. induction iters as [|k IH]; intros delay Hpos.
  - simpl retryDelayLoop. rewrite Z.mul_1_r.
    destruct (Z.gtb_spec delay maxRetryDelay); lia.
  - cbn [retryDelayLoop].
    assert (Hpow : 2 ^ Z.of_nat (S k) = 2 * 2 ^ Z.of_nat k).
    { rewrite Nat2Z.inj_succ, Z.pow_succ_r by lia. reflexivity. }
    assert (Hk : 1 <= 2 ^ Z.of_nat k) by (apply Z.pow_le_mono_r with (b := 0); lia).
    destruct (Z.geb_spec delay maxRetryDelay) as [Hge|Hlt].
    + rewrite Hpow. nia.
    + assert (Hw : wrap64 (delay * 2) = delay * 2).
      { apply wrap64_small. unfold maxRetryDelay, Second in Hlt. lia. }
      rewrite Hw, IH by lia. rewrite Hpow. f_equal. lia.
Qed.

Lemma retryDelayFor_closed (f : Fetcher) (n : Z) :
  0 < retryDelay f -> 1 <= n ->
  retryDelayFor f n = Z.min (retryDelay f * 2 ^ (n - 1)) maxRetryDelay.
Proof.
  intros Hpos Hn. unfold retryDelayFor.
  destruct (Z.ltb_spec n 1); [lia|].
  rewrite retryDelayLoop_closed by assumption.
  rewrite Z2Nat.id by lia. reflexivity.
Qed.

Lemma New_retryDelay (t : Z) (ua : string) (lim : bool) (r d : Z) :
  retryDelay (New t ua lim r d) = (if d <=? 0 then baseRetryDelay else d)
  /\ 0 < retryDelay (New t ua lim r d).
Proof.
  unfold New. simpl.
  destruct (Z.leb_spec d 0); split;
    (reflexivity || (unfold baseRetryDelay, Millisecond; lia)).
Qed.

Lemma fetchLoop_spec (f : Fetcher) (w : World) (rawURL : string) (attempts : Z) :
  forall (left a : nat) (lastR : Result) (lastE : error) (sl : list Z),
    (0 < left)%nat -> Z.of_nat (a + left) = attempts -> length sl = a ->
    let out := fetchLoop f w rawURL attempts left a lastR lastE sl in
    (a < outAttempts out <= a + left)%nat
    /\ (forall i, (a <= i)%nat -> (S i < outAttempts out)%nat ->
          succeeded (fetchOnce f w rawURL i) = false
          /\ isRetryable (StatusCode (fetchOnce f w rawURL i).1)
               (fetchOnce f w rawURL i).2 = true
          /\ ctxErr (attemptAt w i) = None
          /\ sleepErr (attemptAt w i) = None
          /\ Z.of_nat i < attempts - 1)
    /\ (forall k, outAttempts out = S k -> returnsAfter f w rawURL attempts k out)
    /\ (forall k d, outSleeps out !! k = Some d ->
          (k < length sl)%nat /\ sl !! k = Some d
          \/ (length sl <= k)%nat /\ d = retryDelayFor f (Z.of_nat k + 1)).
Proof.
  induction left as [|left' IH]; intros a lastR lastE sl Hleft Hrel Hsl; [lia|].
  cbn [fetchLoop].
  destruct (fetchOnce f w rawURL a) as [r e] eqn:Hone.
  assert (Hsucc : succeeded (fetchOnce f w rawURL a)
                  = (match e with None => true | Some _ => false end)
                    && (StatusCode r <? StatusBadRequest)).
  { rewrite Hone. reflexivity. }
  destruct ((match e with None => true | Some _ => false end)
            && (StatusCode r <? StatusBadRequest)) eqn:Hs.
  - (* a successful attempt ends the loop *)
    destruct (ctxErr (attemptAt w a)) as [c|] eqn:Hctx; cbn zeta; simpl;
      (split; [lia|]; split; [intros i Hi Hlt; lia|]; split;
       [intros k Hk; injection Hk as <-; unfold returnsAfter;
        rewrite Hsucc, Hctx, ?Hone; simpl; split; reflexivity
       |intros k d Hk; left; split; [apply lookup_lt_Some in Hk; exact Hk|exact Hk]]).
  - unfold shouldRetry.
    destruct (ctxErr (attemptAt w a)) as [c|] eqn:Hctx.
    { simpl. split; [lia|]. split; [intros i Hi Hlt; lia|]. split.
      - intros k Hk. injection Hk as <-. unfold returnsAfter.
        rewrite Hsucc, Hctx, Hone. simpl. split; reflexivity.
      - intros k d Hk. left. split; [apply lookup_lt_Some in Hk; exact Hk|exact Hk]. }
    destruct (negb (isRetryable (StatusCode r) e) || (Z.of_nat a =? attempts - 1))
      eqn:Hstop.
    { simpl. split; [lia|]. split; [intros i Hi Hlt; lia|]. split.
      - intros k Hk. injection Hk as <-. unfold returnsAfter.
        rewrite Hsucc, Hctx, Hone. simpl. rewrite Hstop. split; reflexivity.
      - intros k d Hk. left. split; [apply lookup_lt_Some in Hk; exact Hk|exact Hk]. }
    apply orb_false_iff in Hstop as [Hretry Hnotlast].
    apply negb_false_iff in Hretry. apply Z.eqb_neq in Hnotlast.
    assert (Hsleepidx : forall k d,
              (sl ++ [retryDelayFor f (Z.of_nat a + 1)]) !! k = Some d ->
              (k < length sl)%nat /\ sl !! k = Some d
              \/ (length sl <= k)%nat /\ d = retryDelayFor f (Z.of_nat k + 1)).
    { intros k d Hk. destruct (decide (k < length sl)%nat) as [Hlt|Hge].
      - left. split; [exact Hlt|]. rewrite lookup_app_l in Hk by exact Hlt. exact Hk.
      - right. split; [lia|]. rewrite lookup_app_r in Hk by lia.
        destruct (k - length sl)%nat as [|n] eqn:Hn; simpl in Hk; [|rewrite lookup_nil in Hk; discriminate].
        injection Hk as <-. replace k with a by lia. reflexivity. }
    destruct (sleepErr (attemptAt w a)) as [se|] eqn:Hsleep.
    { simpl. split; [lia|]. split; [intros i Hi Hlt; lia|]. split.
      - intros k Hk. injection Hk as <-. unfold returnsAfter.
        rewrite Hsucc, Hctx, Hone. simpl. rewrite Hretry. simpl.
        destruct (Z.eqb_spec (Z.of_nat a) (attempts - 1)); [contradiction|].
        split; [reflexivity|]. exists se. split; [exact Hsleep|reflexivity].
      - exact Hsleepidx. }
    simpl.
    assert (Hleft' : (0 < left')%nat) by lia.
    specialize (IH (S a) r e (sl ++ [retryDelayFor f (Z.of_nat a + 1)]) Hleft'
                  ltac:(lia) ltac:(rewrite length_app; simpl; lia)).
    cbn zeta in IH. destruct IH as (Hbound & Hbefore & Hlastk & Hsleeps).
    split; [lia|]. split; [|split].
    + intros i Hi Hlt. destruct (decide (i = a)) as [->|Hne].
      * rewrite Hsucc, Hone. simpl. repeat split; try assumption. lia.
      * apply Hbefore; lia.
    + exact Hlastk.
    + intros k d Hk. destruct (Hsleeps k d Hk) as [[Hlt Hin]|[Hge Hd]].
      * apply Hsleepidx. exact Hin.
      * right. split; [|exact Hd]. rewrite length_app in Hge. simpl in Hge. lia.
Qed.

(** ** Classification of errors *)
Lemma match_with_proof (x : option GoErr) (f : GoErr -> bool) (d : bool) :
  forall (o : option GoErr) (Hx : x = o),
    match o as o' return x = o' -> bool with
    | Some i => fun _ => f i
    | None => fun _ => d
    end Hx
    = match o with Some i => f i | None => d end.
Proof. intros o Hx. destruct o; reflexivity. Qed.

Lemma unwrapLoop_Some (e : GoErr) :
  unwrapLoop (Some e) =
    if isContextCanceled e then false
    else if errorsIs KInvalidRequest e then false
    else if isEOFLike e then true
    else match asURLError e with
         | Some inner => unwrapLoop (urlErr_Err inner)
         | None => isNetError e
         end.
Proof.
  rewrite unwrapLoop_equation_1.
  destruct (isContextCanceled e); [reflexivity|].
  destruct (errorsIs KInvalidRequest e); [reflexivity|].
  destruct (isEOFLike e); [reflexivity|].
  exact (match_with_proof (asURLError e) (fun i => unwrapLoop (urlErr_Err i))
           (isNetError e) (asURLError e) eq_refl).
Qed.

Lemma errorsIs_nestURL k n e : errorsIs k (nestURL n e) = errorsIs k e.
Proof. induction n as [|n IH]; simpl; auto. Qed.

Lemma unwrapLoop_nest_leaf n k msg :
  k = KNet \/ k = KPlain ->
  unwrapLoop (Some (nestURL n (ErrLeaf k msg))) = ErrKind_eqb k KNet.
Proof.
  intros Hk. induction n as [|n IH].
  - rewrite unwrapLoop_Some. destruct Hk as [-> | ->]; reflexivity.
  - rewrite unwrapLoop_Some. unfold isContextCanceled, isEOFLike.
    rewrite !errorsIs_nestURL. 
    replace (errorsIs KCanceled (ErrLeaf k msg)) with false by (destruct Hk as [-> | ->]; reflexivity).
    replace (errorsIs KDeadlineExceeded (ErrLeaf k msg)) with false by (destruct Hk as [-> | ->]; reflexivity).
    replace (errorsIs KInvalidRequest (ErrLeaf k msg)) with false by (destruct Hk as [-> | ->]; reflexivity).
    replace (errorsIs KEOF (ErrLeaf k msg)) with false by (destruct Hk as [-> | ->]; reflexivity).
    replace (errorsIs KUnexpectedEOF (ErrLeaf k msg)) with false by (destruct Hk as [-> | ->]; reflexivity).
    simpl. exact IH.
Qed.

Lemma asURLError_errorsIs k e u :
  asURLError e = Some u -> errorsIs k u = true -> errorsIs k e = true.
Proof.
  induction e as [k' m|k' m inner IH|m inner IH|m]; simpl; intros Hu Hk.
  - discriminate.
  - rewrite (IH Hu Hk). apply orb_true_r.
  - injection Hu as <-. exact Hk.
  - injection Hu as <-. exact Hk.
Qed.

Lemma urlErr_Err_errorsIs k u i :
  urlErr_Err u = Some i -> errorsIs k i = true -> errorsIs k u = true.
Proof. destruct u; simpl; intros Hi Hk; try discriminate. injection Hi as <-. exact Hk. Qed.

Lemma suffix_errorsIs_false k e u i :
  asURLError e = Some u -> urlErr_Err u = Some i ->
  errorsIs k e = false -> errorsIs k i = false.
Proof.
  intros Hu Hi He. destruct (errorsIs k i) eqn:Hki; [|reflexivity].
  rewrite (asURLError_errorsIs k e u Hu (urlErr_Err_errorsIs k u i Hi Hki)) in He.
  discriminate.
Qed.

Lemma underlying_no_url e : asURLError e = None -> underlying e = Some e.
Proof.
  destruct e as [k m|k m inner|m inner|m]; simpl; intros Hn;
    try reflexivity; try discriminate.
  rewrite Hn. reflexivity.
Qed.

Lemma underlying_asURLError e u :
  asURLError e = Some u -> underlying e = underlying u.
Proof.
  induction e as [k m|k m inner IH|m inner IH|m]; simpl; intros Hu.
  - discriminate.
  - rewrite Hu. apply IH. exact Hu.
  - injection Hu as <-. reflexivity.
  - injection Hu as <-. reflexivity.
Qed.

(** The unwrapping loop computes whether the underlying error is a
    [net.Error]. *)
Lemma unwrapLoop_closed (n : nat) :
  forall e, (chainLength e <= n)%nat ->
    isContextCanceled e = false -> errorsIs KInvalidRequest e = false ->
    isEOFLike e = false ->
    unwrapLoop (Some e) = netUnder e.
Proof.
  induction n as [|n IH]; intros e Hlen Hc Hi Heof.
  { destruct e; simpl in Hlen; lia. }
  rewrite unwrapLoop_Some, Hc, Hi, Heof. unfold netUnder.
  destruct (asURLError e) as [u|] eqn:Hu.
  - rewrite (underlying_asURLError e u Hu).
    pose proof (asURLError_chainLength e u Hu) as Hle.
    destruct u as [k m|k m inner|m inner|m];
      try (destruct e; simpl in Hu; discriminate).
    + exfalso. clear -Hu. induction e; simpl in Hu; try discriminate; auto.
    + exfalso. clear -Hu. induction e; simpl in Hu; try discriminate; auto.
    + simpl urlErr_Err. simpl underlying. simpl in Hle.
      unfold isContextCanceled, isEOFLike in *.
      apply orb_false_iff in Hc as [Hc1 Hc2].
      apply orb_false_iff in Heof as [He1 He2].
      rewrite IH; [reflexivity|lia| | |].
      * rewrite (suffix_errorsIs_false _ e _ inner Hu eq_refl Hc1),
                (suffix_errorsIs_false _ e _ inner Hu eq_refl Hc2). reflexivity.
      * exact (suffix_errorsIs_false _ e _ inner Hu eq_refl Hi).
      * rewrite (suffix_errorsIs_false _ e _ inner Hu eq_refl He1),
                (suffix_errorsIs_false _ e _ inner Hu eq_refl He2). reflexivity.
    + simpl. rewrite unwrapLoop_equation_2. reflexivity.
  - rewrite (underlying_no_url e Hu). reflexivity.
Qed.

Lemma isRetryableError_closed (e : GoErr) :
  isRetryableError e =
    if isContextCanceled e then false
    else if errorsIs KInvalidRequest e then false
    else if isEOFLike e then true
    else netUnder e.
Proof.
  unfold isRetryableError.
  destruct (isContextCanceled e) eqn:Hc; [reflexivity|].
  destruct (errorsIs KInvalidRequest e) eqn:Hi; [reflexivity|].
  destruct (isEOFLike e) eqn:Heof; [reflexivity|].
  destruct (asURLError e) as [u|] eqn:Hu.
  - unfold isRetryableURLError.
    assert (Hsub : forall k, errorsIs k e = false -> errorsIs k u = false).
    { intros k Hk. destruct (errorsIs k u) eqn:Hku; [|reflexivity].
      rewrite (asURLError_errorsIs k e u Hu Hku) in Hk. discriminate. }
    unfold isContextCanceled, isEOFLike in *.
    apply orb_false_iff in Hc as [Hc1 Hc2].
    apply orb_false_iff in Heof as [He1 He2].
    rewrite (Hsub _ Hc1), (Hsub _ Hc2), (Hsub _ Hi), (Hsub _ He1), (Hsub _ He2).
    simpl. unfold netUnder. rewrite (underlying_asURLError e u Hu).
    destruct u as [k m|k m inner|m inner|m].
    + exfalso. clear -Hu. induction e; simpl in Hu; try discriminate; auto.
    + exfalso. clear -Hu. induction e; simpl in Hu; try discriminate; auto.
    + simpl urlErr_Err. simpl underlying.
      apply (unwrapLoop_closed (chainLength inner) inner); [lia| | |].
      * unfold isContextCanceled.
        rewrite (suffix_errorsIs_false _ e _ inner Hu eq_refl Hc1),
                (suffix_errorsIs_false _ e _ inner Hu eq_refl Hc2). reflexivity.
      * exact (suffix_errorsIs_false _ e _ inner Hu eq_refl Hi).
      * unfold isEOFLike.
        rewrite (suffix_errorsIs_false _ e _ inner Hu eq_refl He1),
                (suffix_errorsIs_false _ e _ inner Hu eq_refl He2). reflexivity.
    + simpl. rewrite unwrapLoop_equation_2. reflexivity.
  - unfold netUnder. rewrite (underlying_no_url e Hu). reflexivity.
Qed.

Lemma asURLError_nestURL n k msg :
  asURLError (nestURL n (ErrLeaf k msg)) =
    match n with O => None | S _ => Some (nestURL n (ErrLeaf k msg)) end.
Proof. destruct n; reflexivity. Qed.

Lemma underlying_nestURL n k msg :
  underlying (nestURL n (ErrLeaf k msg)) = Some (ErrLeaf k msg).
Proof. induction n as [|n IH]; simpl; auto. Qed.

Lemma isRetryableError_nest_leaf n k msg :
  k = KNet \/ k = KPlain ->
  isRetryableError (nestURL n (ErrLeaf k msg)) = ErrKind_eqb k KNet.
Proof.
  intros Hk. rewrite isRetryableError_closed.
  unfold isContextCanceled, isEOFLike, netUnder.
  rewrite !errorsIs_nestURL, underlying_nestURL.
  destruct Hk as [-> | ->]; reflexivity.
Qed.


Lemma isRetryable_status_only :
  isRetryable 429 None = true
  /\ (forall s, 500 <= s -> isRetryable s None = true)
  /\ (forall s, 400 <= s < 500 -> s <> 429 -> isRetryable s None = false).
Proof.
  unfold isRetryable, StatusTooManyRequests, StatusInternalServerError.
  split; [reflexivity|]. split; intros s Hs.
  - destruct (Z.eqb_spec s 429); [reflexivity|]. apply Z.geb_le. lia.
  - intros Hne. destruct (Z.eqb_spec s 429); [contradiction|].
    destruct (Z.geb_spec s 500); [lia|reflexivity].
Qed.

Lemma doRequest_invalid (w : World) (rawURL : string) (i : nat) (e0 : GoErr) :
  parseErr w rawURL = Some e0 \/ newRequestErr w rawURL = Some e0 ->
  exists e, (doRequest w rawURL i).2 = Some e /\ errorsIs KInvalidRequest e = true.
Proof.
  unfold doRequest. intros [Hp|Hn].
  - rewrite Hp. eexists. split; reflexivity.
  - destruct (parseErr w rawURL); [eexists; split; reflexivity|].
    rewrite Hn. eexists. split; reflexivity.
Qed.

Lemma failed_has_error (w : World) (o : Result * error) :
  succeeded o = false -> errorForStatus w o.2 (StatusCode o.1) <> None.
Proof.
  destruct o as [r [e|]]; unfold succeeded, errorForStatus, StatusBadRequest; simpl.
  - discriminate.
  - intros Hs. destruct (Z.ltb_spec (StatusCode r) 400); [discriminate|].
    destruct (Z.geb_spec (StatusCode r) 400); [discriminate|lia].
Qed.

(** C6 (amended). For every [Fetch] call with [retries >= 0] and below
    the largest [int] (at the largest [int], [retries + 1] wraps and no
    attempt is made):
    - between one and [retries + 1] attempts are made;
    - an attempt with no error and a status below 400 ends the loop;
    - a failed attempt that [isRetryable] accepts is followed by another
      one as long as attempts are left, the context is live and the
      backoff sleep returns no error;
    - a failed attempt that [isRetryable] refuses, or after which the
      context is done, is the last;
    - the call returns what [returnsAfter] says for its last attempt: the
      result of that attempt, with no error if it succeeded and with an
      error if it failed -- except that after a successful attempt with
      the context already done it returns the empty result and the
      context's error;
    - [isRetryable] accepts status 429 and every status from 500 on, and
      refuses every other status from 400 to 499; it refuses every error
      whose chain holds a context cancellation or deadline, or the
      invalid-request error that [doRequest] makes from a URL that does not
      parse or a request that cannot be built; for any other error it
      accepts exactly an EOF or an underlying error (every [*url.Error]
      unwrapped) that is a [net.Error]: so a network error under any
      number of [*url.Error] wrappers is retried and an unsupported-scheme
      error under them is not. *)
Theorem fetch_retry_policy (f : Fetcher) (w : World) (rawURL : string) :
  0 <= retries f < 2 ^ 63 - 1 ->
  let out := Fetch f w rawURL in
  let o := fetchOnce f w rawURL in
  1 <= Z.of_nat (outAttempts out) <= retries f + 1
  /\ (forall i, (i < outAttempts out)%nat -> succeeded (o i) = true ->
        outAttempts out = S i)
  /\ (forall i, (i < outAttempts out)%nat -> succeeded (o i) = false ->
        isRetryable (StatusCode (o i).1) (o i).2 = true ->
        Z.of_nat i < retries f ->
        ctxErr (attemptAt w i) = None -> sleepErr (attemptAt w i) = None ->
        (S i < outAttempts out)%nat)
  /\ (forall i, (i < outAttempts out)%nat -> succeeded (o i) = false ->
        isRetryable (StatusCode (o i).1) (o i).2 = false
        \/ ctxErr (attemptAt w i) <> None ->
        outAttempts out = S i)
  /\ (forall k, outAttempts out = S k ->
        returnsAfter f w rawURL (retries f + 1) k out
        /\ (succeeded (o k) = false ->
            outResult out = (o k).1 /\ outErr out <> None))
  /\ isRetryable 429 None = true
  /\ (forall s, 500 <= s -> isRetryable s None = true)
  /\ (forall s, 400 <= s < 500 -> s <> 429 -> isRetryable s None = false)
  /\ (forall s e, isContextCanceled e = true -> isRetryable s (Some e) = false)
  /\ (forall s e, errorsIs KInvalidRequest e = true ->
        isRetryable s (Some e) = false)
  /\ (forall i e0,
        parseErr w rawURL = Some e0 \/ newRequestErr w rawURL = Some e0 ->
        exists e, (doRequest w rawURL i).2 = Some e
                  /\ errorsIs KInvalidRequest e = true)
  /\ (forall s e, isContextCanceled e = false ->
        errorsIs KInvalidRequest e = false ->
        isRetryable s (Some e) = isEOFLike e || netUnder e)
  /\ (forall s n msg, isRetryable s (Some (nestURL n (ErrLeaf KNet msg))) = true)
  /\ (forall s n msg, isRetryable s (Some (nestURL n (ErrLeaf KPlain msg))) = false).
Proof.
  intros Hret out o.
  assert (Hattempts : wrap64 (retries f + 1) = retries f + 1)
    by (apply wrap64_small; lia).
  pose proof (fetchLoop_spec f w rawURL (retries f + 1)
                (Z.to_nat (retries f + 1)) 0 emptyResult None []
                ltac:(lia) ltac:(simpl; lia) eq_refl) as Hspec.
  cbn zeta in Hspec.
  assert (Hout : out = fetchLoop f w rawURL (retries f + 1)
                         (Z.to_nat (retries f + 1)) 0 emptyResult None []).
  { unfold out, Fetch. rewrite Hattempts. reflexivity. }
  rewrite <- Hout in Hspec. destruct Hspec as (Hbound & Hbefore & Hlast & _).
  assert (Hlastof : forall i, (i < outAttempts out)%nat ->
            outAttempts out = S i \/ (S i < outAttempts out)%nat) by (intros; lia).
  split; [lia|].
  split.
  { intros i Hi Hs. destruct (Hlastof i Hi) as [Heq|Hlt]; [exact Heq|].
    destruct (Hbefore i ltac:(lia) Hlt) as (Hf & _). fold (o i) in Hf. congruence. }
  split.
  { intros i Hi Hs Hr Hleft Hctx Hsleep.
    destruct (Hlastof i Hi) as [Heq|Hlt]; [|exact Hlt]. exfalso.
    specialize (Hlast i Heq). unfold returnsAfter in Hlast. cbn zeta in Hlast.
    fold (o i) in Hlast. rewrite Hs, Hctx, Hr, Hsleep in Hlast. simpl in Hlast.
    destruct (Z.eqb_spec (Z.of_nat i) (retries f + 1 - 1)) as [Heqi|_]; [lia|].
    destruct Hlast as (_ & e & He & _). discriminate. }
  split.
  { intros i Hi Hs Hstop. destruct (Hlastof i Hi) as [Heq|Hlt]; [exact Heq|].
    destruct (Hbefore i ltac:(lia) Hlt) as (_ & Hr & Hctx & _).
    fold (o i) in Hr. destruct Hstop as [Hn|Hc]; [congruence|contradiction]. }
  split.
  { intros k Hk. specialize (Hlast k Hk). split; [exact Hlast|].
    intros Hs. unfold returnsAfter in Hlast. cbn zeta in Hlast.
    fold (o k) in Hlast. rewrite Hs in Hlast. destruct Hlast as [Hres Herr].
    split; [exact Hres|].
    destruct (ctxErr (attemptAt w k)) as [c|].
    - rewrite Herr. destruct ((o k).2); discriminate.
    - destruct (negb (isRetryable (StatusCode (o k).1) (o k).2)
                || (Z.of_nat k =? retries f + 1 - 1)).
      + rewrite Herr. apply failed_has_error. exact Hs.
      + destruct Herr as (e & _ & ->). discriminate. }
  destruct isRetryable_status_only as (H429 & H5xx & H4xx).
  split; [exact H429|]. split; [exact H5xx|]. split; [exact H4xx|].
  split.
  { intros s e Hc. simpl. rewrite isRetryableError_closed, Hc. reflexivity. }
  split.
  { intros s e Hi. simpl. rewrite isRetryableError_closed, Hi.
    destruct (isContextCanceled e); reflexivity. }
  split.
  { intros i e0 Hinv. exact (doRequest_invalid w rawURL i e0 Hinv). }
  split.
  { intros s e Hc Hi. simpl. rewrite isRetryableError_closed, Hc, Hi.
    destruct (isEOFLike e); reflexivity. }
  split.
  - intros s n msg. simpl. rewrite isRetryableError_nest_leaf by (left; reflexivity).
    reflexivity.
  - intros s n msg. simpl. rewrite isRetryableError_nest_leaf by (right; reflexivity).
    reflexivity.
Qed.


(** The theorem at [retries = 2] in that world: three attempts. *)
Lemma fetch_retry_policy_witness :
  0 <= 2 < 2 ^ 63 - 1
  /\ outAttempts (Fetch (New Second "" false 2 baseRetryDelay) flakyWorld
                    "https://example.com/") = 3%nat
  /\ 1 <= Z.of_nat (outAttempts (Fetch (New Second "" false 2 baseRetryDelay)
                                   flakyWorld "https://example.com/")) <= 2 + 1.
Proof.
  split; [lia|]. split; [reflexivity|].
  apply (fetch_retry_policy (New Second "" false 2 baseRetryDelay) flakyWorld
           "https://example.com/").
  simpl. lia.
Defined.


(** C6 as stated fails: the one attempt has no error and status 200, yet
    [Fetch] returns the empty result with the context's error, not the
    result of its last attempt. *)
Lemma fetch_last_result_counterexample :
  let f := New Second "" false 0 baseRetryDelay in
  let out := Fetch f cancelledWorld "https://example.com/" in
  outAttempts out = 1%nat
  /\ fetchOnce f cancelledWorld "https://example.com/" 0
     = ({| StatusCode := 200; ResHeader := []; Body := Some "ok" |}, None)
  /\ outResult out = emptyResult
  /\ outErr out = Some (ErrLeaf KCanceled "context canceled")
  /\ outResult out <> (fetchOnce f cancelledWorld "https://example.com/" 0).1.
Proof. repeat split; discriminate. Qed.


(** ** The backoff of a configured fetcher *)

Lemma Fetch_sleeps (f : Fetcher) (w : World) (rawURL : string) (k : nat) (d : Z) :
  outSleeps (Fetch f w rawURL) !! k = Some d ->
  d = retryDelayFor f (Z.of_nat k + 1).
Proof.
  unfold Fetch. set (attempts := wrap64 (retries f + 1)).
  destruct (Z.to_nat attempts) as [|left'] eqn:Hleft.
  - simpl. rewrite lookup_nil. discriminate.
  - pose proof (fetchLoop_spec f w rawURL attempts (S left') 0 emptyResult None []
                  ltac:(lia) ltac:(simpl; lia) eq_refl) as Hspec.
    cbn zeta in Hspec. destruct Hspec as (_ & _ & _ & Hsl).
    intros Hk. destruct (Hsl k d Hk) as [[Hlt _]|[_ Hd]]; [simpl in Hlt; lia|exact Hd].
Qed.

(** C7 (amended). For every configuration that reaches the crawl, the
    fetcher's base delay is the option [Delay] when that is positive and
    100 ms otherwise; with that base, the backoff before the [n]-th retry
    ([n >= 1]) is [min(base * 2^(n-1), 2s)], and that is what every
    [Fetch] sleeps before its [n]-th retry. *)
Theorem backoff_from_delay `{Crawler.Externals} (opts : Crawler.Options.t)
    (an : Crawler.analyzer) (rep : Crawler.Report.t)
    (w : World) (rawURL : string) :
  Crawler.analyzeSetup opts = inr (an, rep) ->
  let base := if Crawler.Options.Delay opts <=? 0 then baseRetryDelay
              else Crawler.Options.Delay opts in
  retryDelay (Crawler.fetch an) = base
  /\ (forall n, 1 <= n ->
        retryDelayFor (Crawler.fetch an) n
        = Z.min (base * 2 ^ (n - 1)) maxRetryDelay)
  /\ (forall (n : nat) d, (1 <= n)%nat ->
        outSleeps (Fetch (Crawler.fetch an) w rawURL) !! (n - 1)%nat = Some d ->
        d = Z.min (base * 2 ^ (Z.of_nat n - 1)) maxRetryDelay).
Proof.
  intros Hsetup base.
  assert (Hfetch : Crawler.fetch an
            = New (Crawler.Options.Timeout opts) (Crawler.Options.UserAgent opts)
                  (0 <? Crawler.rateInterval opts) (Crawler.Options.Retries opts)
                  (Crawler.Options.Delay opts)).
  { unfold Crawler.analyzeSetup in Hsetup.
    destruct (String.eqb (Crawler.Options.URL opts) ""); [discriminate|].
    destruct (Crawler.parseRootURL (Crawler.Options.URL opts)); [|discriminate].
    destruct (Crawler.Options.HTTPClient opts); [|discriminate].
    injection Hsetup as <- _. reflexivity. }
  destruct (New_retryDelay (Crawler.Options.Timeout opts)
              (Crawler.Options.UserAgent opts) (0 <? Crawler.rateInterval opts)
              (Crawler.Options.Retries opts) (Crawler.Options.Delay opts))
    as [Hbase Hpos].
  rewrite <- Hfetch in Hbase, Hpos. fold base in Hbase.
  split; [exact Hbase|]. split.
  - intros n Hn. rewrite retryDelayFor_closed by assumption.
    rewrite Hbase. reflexivity.
  - intros n d Hn Hk. apply Fetch_sleeps in Hk.
    rewrite Hk, retryDelayFor_closed by (try assumption; lia).
    rewrite Hbase. f_equal. f_equal. f_equal. lia.
Qed.

(** The theorem at the options of the contract tests ([Delay] is 0): the
    third retry waits 400 ms. *)
Lemma backoff_from_delay_witness :
  exists an rep,
    @Crawler.analyzeSetup fixtureExternals (optionsWithDelay 0) = inr (an, rep)
    /\ retryDelayFor (Crawler.fetch an) 3 = 400 * Millisecond.
Proof.
  eexists. eexists. split; [reflexivity|].
  pose proof (@backoff_from_delay fixtureExternals (optionsWithDelay 0) _ _
                flakyWorld "https://example.com/" eq_refl) as (_ & Hn & _).
  rewrite (Hn 3) by lia. reflexivity.
Defined.

(** C7 as stated fails: with the option [Delay] at 500 ms the first retry
    waits 500 ms, not [min(100ms * 2^0, 2s)]. *)
Lemma backoff_base_counterexample :
  exists an rep,
    @Crawler.analyzeSetup fixtureExternals (optionsWithDelay (500 * Millisecond))
      = inr (an, rep)
    /\ retryDelayFor (Crawler.fetch an) 1 = 500 * Millisecond
    /\ retryDelayFor (Crawler.fetch an) 1
       <> Z.min (baseRetryDelay * 2 ^ (1 - 1)) maxRetryDelay.
Proof.
  eexists. eexists. split; [reflexivity|]. split; [reflexivity|]. discriminate.
Qed.

End FetcherSpec.

(* ===================================================================== *)
(** * Properties of the report assembly *)
(* ===================================================================== *)

Module AssemblySpec.
Import Fetcher Crawler.
Local Open Scope Z_scope.

(** ** The order on pages *)

Lemma ltb_lt (s1 s2 : string) :
  String.ltb s1 s2 = true <-> String_as_OT.lt s1 s2.
Proof.
  unfold String.ltb. rewrite <- String_as_OT.cmp_lt. unfold String_as_OT.cmp.
  destruct (String.compare s1 s2) eqn:Hc; split; intros Hx;
    first [reflexivity | discriminate Hx].
Qed.

Lemma ltb_trans (s1 s2 s3 : string) :
  String.ltb s1 s2 = true -> String.ltb s2 s3 = true -> String.ltb s1 s3 = true.
Proof.
  rewrite !ltb_lt. apply String_as_OT.lt_trans.
Qed.

Lemma ltb_asym (s1 s2 : string) :
  String.ltb s1 s2 = true -> String.ltb s2 s1 = false.
Proof.
  unfold String.ltb. rewrite (String.compare_antisym s1 s2).
  destruct (String.compare s2 s1) eqn:Hc; simpl; intros Hx;
    first [reflexivity | discriminate Hx].
Qed.

Lemma ltb_false_leb (s1 s2 : string) :
  String.ltb s2 s1 = false <-> String.leb s1 s2 = true.
Proof.
  unfold String.ltb, String.leb. rewrite (String.compare_antisym s1 s2).
  destruct (String.compare s2 s1) eqn:Hc; simpl; split; intros Hx;
    first [reflexivity | discriminate Hx].
Qed.

Lemma ltb_total (s1 s2 : string) :
  String.ltb s1 s2 = false -> String.ltb s2 s1 = false -> s1 = s2.
Proof.
  unfold String.ltb. rewrite (String.compare_antisym s1 s2).
  destruct (String.compare s2 s1) eqn:Hc; simpl; try discriminate.
  intros _ _. symmetry. apply String.compare_eq_iff. exact Hc.
Qed.

Lemma pageLess_spec (p q : Page.t) :
  pageLess p q = true <->
  Page.Depth p < Page.Depth q
  \/ (Page.Depth p = Page.Depth q /\ String.ltb (Page.URL p) (Page.URL q) = true).
Proof.
  unfold pageLess.
  destruct (Z.eqb_spec (Page.Depth p) (Page.Depth q)) as [Heq|Hne]; simpl.
  - rewrite Heq. split; [intros Hlt; right; split; [reflexivity|exact Hlt]|].
    intros [Hlt|[_ Hlt]]; [lia|exact Hlt].
  - rewrite Z.ltb_lt. split; [intros Hlt; left; exact Hlt|].
    intros [Hlt|[Heq _]]; [exact Hlt|contradiction].
Qed.

Lemma not_pageLess_ordered (p q : Page.t) :
  pageLess q p = false <-> pageOrdered p q.
Proof.
  unfold pageOrdered. split.
  - intros Hnl.
    destruct (Z.lt_trichotomy (Page.Depth p) (Page.Depth q)) as [Hlt|[Heq|Hgt]].
    + left. exact Hlt.
    + right. split; [exact Heq|]. apply ltb_false_leb.
      destruct (String.ltb (Page.URL q) (Page.URL p)) eqn:Hl; [|reflexivity].
      rewrite (proj2 (pageLess_spec q p)) in Hnl; [discriminate|].
      right. split; [lia|exact Hl].
    + rewrite (proj2 (pageLess_spec q p)) in Hnl; [discriminate|]. left. lia.
  - intros Hord. destruct (pageLess q p) eqn:Hl; [|reflexivity].
    apply pageLess_spec in Hl.
    destruct Hord as [Hlt|[Heq Hle]], Hl as [Hlt'|[Heq' Hlt']]; try lia.
    apply ltb_false_leb in Hle. congruence.
Qed.

Lemma pageLess_ordered (p q : Page.t) : pageLess p q = true -> pageOrdered p q.
Proof.
  intros Hl. apply not_pageLess_ordered.
  apply pageLess_spec in Hl. destruct (pageLess q p) eqn:Hl'; [|reflexivity].
  apply pageLess_spec in Hl'.
  destruct Hl as [Hlt|[Heq Hlt]], Hl' as [Hlt'|[Heq' Hlt']]; try lia.
  apply ltb_asym in Hlt. congruence.
Qed.

Lemma pageOrdered_trans (p q r : Page.t) :
  pageOrdered p q -> pageOrdered q r -> pageOrdered p r.
Proof.
  unfold pageOrdered. intros [H1|[E1 L1]] [H2|[E2 L2]]; try (left; lia).
  right. split; [lia|].
  apply ltb_false_leb. apply ltb_false_leb in L1, L2.
  destruct (String.ltb (Page.URL r) (Page.URL p)) eqn:Hrp; [|reflexivity].
  destruct (String.ltb (Page.URL q) (Page.URL r)) eqn:Hqr.
  - rewrite (ltb_trans _ _ _ Hqr Hrp) in L1. discriminate.
  - pose proof (ltb_total _ _ L2 Hqr) as Heq. rewrite Heq in Hrp. congruence.
Qed.

(** ** The insertion sort *)

Lemma insertLeft_perm (x : Page.t) (l : list Page.t) : insertLeft x l ≡ₚ x :: l.
Proof.
  induction l as [|y rest IH]; simpl; [reflexivity|].
  destruct (pageLess x y); [|reflexivity].
  rewrite IH. apply Permutation_swap.
Qed.

Lemma insertLeft_sorted (x : Page.t) (l : list Page.t) :
  StronglySorted (flip pageOrdered) l ->
  StronglySorted (flip pageOrdered) (insertLeft x l).
Proof.
  induction l as [|y rest IH]; simpl; intros Hs.
  - repeat constructor.
  - apply StronglySorted_inv in Hs as [Hrest Hall].
    destruct (pageLess x y) eqn:Hl.
    + constructor; [apply IH; exact Hrest|].
      rewrite insertLeft_perm. constructor; [|exact Hall].
      apply pageLess_ordered. exact Hl.
    + apply not_pageLess_ordered in Hl.
      constructor; [constructor; assumption|].
      constructor; [exact Hl|].
      eapply Forall_impl; [exact Hall|].
      intros z Hz. unfold flip in *. eapply pageOrdered_trans; eassumption.
Qed.

Lemma insertAll_sorted (pages acc : list Page.t) :
  StronglySorted (flip pageOrdered) acc ->
  StronglySorted (flip pageOrdered)
    (fold_left (fun sortedRev x => insertLeft x sortedRev) pages acc)
  /\ fold_left (fun sortedRev x => insertLeft x sortedRev) pages acc
     ≡ₚ rev pages ++ acc.
Proof.
  revert acc. induction pages as [|x rest IH]; intros acc Hs; simpl.
  - split; [exact Hs|reflexivity].
  - destruct (IH (insertLeft x acc) (insertLeft_sorted x acc Hs)) as [Hs' Hp].
    split; [exact Hs'|]. rewrite Hp, insertLeft_perm.
    rewrite <- app_assoc. reflexivity.
Qed.

Lemma StronglySorted_rev {A} (R : relation A) (l : list A) :
  StronglySorted (flip R) l -> StronglySorted R (rev l).
Proof.
  induction l as [|a l IH]; simpl; intros Hs; [constructor|].
  apply StronglySorted_inv in Hs as [Hl Hall].
  apply StronglySorted_app.
  split; [|split; [apply IH; exact Hl|repeat constructor]].
  intros x1 x2 H1 H2. apply list_elem_of_singleton in H2 as ->.
  rewrite Forall_forall in Hall. apply Hall.
  apply list_elem_of_In, in_rev. apply list_elem_of_In. exact H1.
Qed.

Lemma StronglySorted_lookup {A} (R : relation A) (l : list A) :
  StronglySorted R l ->
  forall i j x y, (i < j)%nat -> l !! i = Some x -> l !! j = Some y -> R x y.
Proof.
  induction 1 as [|a l Hs IH Hall]; intros i j x y Hij Hi Hj.
  - rewrite lookup_nil in Hi. discriminate.
  - destruct j as [|j]; [lia|]. simpl in Hj. destruct i as [|i]; simpl in Hi.
    + injection Hi as <-. rewrite Forall_forall in Hall. apply Hall.
      eapply list_elem_of_lookup_2. exact Hj.
    + eapply IH; [|exact Hi|exact Hj]. lia.
Qed.

Lemma sortPages_sorted (pages : list Page.t) :
  StronglySorted pageOrdered (sortPages pages) /\ sortPages pages ≡ₚ pages.
Proof.
  unfold sortPages.
  destruct (insertAll_sorted pages [] ltac:(constructor)) as [Hs Hp]. split.
  - apply StronglySorted_rev. exact Hs.
  - rewrite <- Permutation_rev, Hp, app_nil_r, <- Permutation_rev. reflexivity.
Qed.

(** C4. In the report that [marshalReport] serializes, the pages are the
    pages of the report in ascending order of depth and, within one depth,
    in ascending byte-wise lexicographic order of URL. *)
Theorem emitted_pages_sorted `{Externals} (report : Report.t) :
  Report.Pages (emittedReport report) ≡ₚ Report.Pages report
  /\ forall i j p q, (i < j)%nat ->
       Report.Pages (emittedReport report) !! i = Some p ->
       Report.Pages (emittedReport report) !! j = Some q ->
       Page.Depth p < Page.Depth q
       \/ (Page.Depth p = Page.Depth q
           /\ String.leb (Page.URL p) (Page.URL q) = true).
Proof.
  unfold emittedReport. simpl.
  destruct (sortPages_sorted (Report.Pages report)) as [Hs Hp].
  split; [exact Hp|].
  intros i j p q Hij Hi Hj.
  exact (StronglySorted_lookup pageOrdered _ Hs i j p q Hij Hi Hj).
Qed.

End AssemblySpec.

(* ===================================================================== *)
(** * Properties of the crawl *)
(* ===================================================================== *)

Module CrawlerSpec.
Import Fetcher Crawler Fixture.
Local Open Scope Z_scope.

Section WithExternals.
Context `{Externals}.

(** ** Configuration errors *)

Lemma analyzeReport_setup_only (opts : Options.t) (report : Report.t) (err : GoErr) :
  analyzeSetup opts = inl (report, err) ->
  analyzeReport opts report (Some err)
  /\ forall report' err', analyzeReport opts report' err' ->
       report' = report /\ err' = Some err.
Proof.
  intros Hsetup. split; [constructor; exact Hsetup|].
  intros report' err' Hrun. destruct Hrun as [r e Hs|an rep c0 cf st Hs _ _ _].
  - rewrite Hsetup in Hs. injection Hs as <- <-. split; reflexivity.
  - rewrite Hsetup in Hs. discriminate.
Qed.


(** ** The aggregator *)

Lemma match_lookup_with_proof (x : option Page.t) (f : Page.t -> aggregator)
    (d : aggregator) :
  forall (o : option Page.t) (Hx : x = o),
    match o as o' return x = o' -> aggregator with
    | None => fun _ => d
    | Some p => fun _ => f p
    end Hx
    = match o with None => d | Some p => f p end.
Proof. intros o Hx. destruct o; reflexivity. Qed.

Lemma flushCommitted_unfold (a : aggregator) :
  flushCommitted a =
    match pendingPages a !! nextCommit a with
    | None => a
    | Some page => flushCommitted (commitNext a page)
    end.
Proof.
  rewrite flushCommitted_equation_1.
  exact (match_lookup_with_proof (pendingPages a !! nextCommit a)
           (fun page => flushCommitted (commitNext a page)) a
           (pendingPages a !! nextCommit a) eq_refl).
Qed.

(** What [flushCommitted] leaves alone, and what it does to the pages:
    for any property of pages that holds of the committed and of the
    pending ones, it still does afterwards. *)
Lemma flushCommitted_frame (P : Page.t -> Prop) (n : nat) :
  forall a, (size (pendingPages a) <= n)%nat ->
    Forall P (Report.Pages (report a)) ->
    map_Forall (fun _ p => P p) (pendingPages a) ->
    let a' := flushCommitted a in
    seen a' = seen a /\ analysisErr a' = analysisErr a /\ jobs a' = jobs a
    /\ pending a' = pending a /\ jobsClosed a' = jobsClosed a
    /\ aggMaxDepth a' = aggMaxDepth a /\ aggBaseURL a' = aggBaseURL a
    /\ nextSeq a' = nextSeq a
    /\ Report.Depth (report a') = Report.Depth (report a)
    /\ Report.RootURL (report a') = Report.RootURL (report a)
    /\ Forall P (Report.Pages (report a'))
    /\ map_Forall (fun _ p => P p) (pendingPages a').
Proof.
  induction n as [|n IH]; intros a Hsize Hpages Hpend; cbn zeta;
    rewrite flushCommitted_unfold;
    destruct (pendingPages a !! nextCommit a) as [page|] eqn:Hlook;
    try (repeat split; assumption).
  - apply Nat.le_0_r, map_size_empty_inv in Hsize.
    rewrite Hsize, lookup_empty in Hlook. discriminate.
  - assert (Hsize' : (size (pendingPages (commitNext a page)) <= n)%nat).
    { simpl. rewrite map_size_delete, Hlook. lia. }
    assert (Hpages' : Forall P (Report.Pages (report (commitNext a page)))).
    { simpl. apply Forall_app. split; [exact Hpages|].
      constructor; [|constructor]. exact (Hpend _ _ Hlook). }
    assert (Hpend' : map_Forall (fun _ p => P p) (pendingPages (commitNext a page))).
    { simpl. apply map_Forall_delete. exact Hpend. }
    specialize (IH (commitNext a page) Hsize' Hpages' Hpend').
    cbn zeta in IH. simpl in IH. exact IH.
Qed.

Lemma enqueue_frame (a : aggregator) (c : bool) (j : crawlJob.t) :
  report (enqueue a c j) = report a
  /\ pendingPages (enqueue a c j) = pendingPages a
  /\ aggMaxDepth (enqueue a c j) = aggMaxDepth a
  /\ aggBaseURL (enqueue a c j) = aggBaseURL a.
Proof.
  unfold enqueue. destruct (decide (crawlJob.url j ∈ seen a)); [auto|].
  destruct c; auto.
Qed.

Lemma enqueueLinks_frame (henv : HandleEnv) (d : Z) (links : list string) :
  forall (a : aggregator) (idx : nat),
    report (enqueueLinks a henv d idx links) = report a
    /\ pendingPages (enqueueLinks a henv d idx links) = pendingPages a
    /\ aggMaxDepth (enqueueLinks a henv d idx links) = aggMaxDepth a
    /\ aggBaseURL (enqueueLinks a henv d idx links) = aggBaseURL a.
Proof.
  induction links as [|l rest IH]; intros a idx; simpl; [auto|].
  destruct (negb (SameOrigin (aggBaseURL a) l)); [apply IH|].
  destruct (IH (enqueue a (ctxFirstAt henv idx)
                  {| crawlJob.url := l; crawlJob.depth := d;
                     crawlJob.discoveredAt := nowAt henv idx;
                     crawlJob.seq := 0%N |}) (S idx)) as (Hr & Hp & Hm & Hb).
  destruct (enqueue_frame a (ctxFirstAt henv idx)
              {| crawlJob.url := l; crawlJob.depth := d;
                 crawlJob.discoveredAt := nowAt henv idx;
                 crawlJob.seq := 0%N |}) as (Hr' & Hp' & Hm' & Hb').
  repeat split; congruence.
Qed.

Lemma closeJobsIfNeeded_frame (a : aggregator) :
  report (closeJobsIfNeeded a) = report a
  /\ pendingPages (closeJobsIfNeeded a) = pendingPages a
  /\ aggMaxDepth (closeJobsIfNeeded a) = aggMaxDepth a
  /\ aggBaseURL (closeJobsIfNeeded a) = aggBaseURL a
  /\ jobs (closeJobsIfNeeded a) = jobs a
  /\ nextSeq (closeJobsIfNeeded a) = nextSeq a
  /\ pending (closeJobsIfNeeded a) = pending a
  /\ analysisErr (closeJobsIfNeeded a) = analysisErr a.
Proof.
  unfold closeJobsIfNeeded.
  destruct (negb (pending a =? 0) || jobsClosed a); repeat split; reflexivity.
Qed.

(** [onResult] keeps the depth and root of the report and the maximum
    depth, and every property of pages that holds of the page it is given
    and of the pages the aggregator holds. *)
Lemma onResult_pages (P : Page.t -> Prop) (a : aggregator) (henv : HandleEnv)
    (result : pageResult.t) :
  P (pageResult.page result) ->
  Forall P (Report.Pages (report a)) ->
  map_Forall (fun _ p => P p) (pendingPages a) ->
  let a' := onResult a henv result in
  Forall P (Report.Pages (report a'))
  /\ map_Forall (fun _ p => P p) (pendingPages a')
  /\ Report.Depth (report a') = Report.Depth (report a)
  /\ Report.RootURL (report a') = Report.RootURL (report a)
  /\ aggMaxDepth a' = aggMaxDepth a
  /\ aggBaseURL a' = aggBaseURL a.
Proof.
  intros Hpage Hpages Hpend. cbn zeta. unfold onResult, handleResult.
  set (a1 := setPendingPage (setPending a (pending a - 1))
               (crawlJob.seq (pageResult.job result)) (pageResult.page result)).
  assert (Hpend1 : map_Forall (fun _ p => P p) (pendingPages a1)).
  { simpl. apply map_Forall_insert_2; assumption. }
  destruct (flushCommitted_frame P (size (pendingPages a1)) a1 ltac:(lia)
              Hpages Hpend1)
    as (_ & _ & _ & _ & _ & Hmax & Hbase & _ & Hdepth & Hroot & Hpages2 & Hpend2).
  set (a2 := flushCommitted a1) in *.
  set (a3 := if (crawlJob.depth (pageResult.job result) =? 0)
                && negb (isNil (pageResult.err result))
                && isNil (analysisErr a2)
             then setAnalysisErr a2 (pageResult.err result) else a2).
  assert (H3 : report a3 = report a2 /\ pendingPages a3 = pendingPages a2
               /\ aggMaxDepth a3 = aggMaxDepth a2 /\ aggBaseURL a3 = aggBaseURL a2).
  { unfold a3. destruct ((crawlJob.depth (pageResult.job result) =? 0)
                         && negb (isNil (pageResult.err result))
                         && isNil (analysisErr a2)); repeat split; reflexivity. }
  destruct H3 as (Hr3 & Hp3 & Hm3 & Hb3).
  set (a4 := if wrap64 (crawlJob.depth (pageResult.job result) + 1) >? aggMaxDepth a3
             then a3
             else enqueueLinks a3 henv
                    (wrap64 (crawlJob.depth (pageResult.job result) + 1)) 0
                    (pageResult.links result)).
  assert (H4 : report a4 = report a3 /\ pendingPages a4 = pendingPages a3
               /\ aggMaxDepth a4 = aggMaxDepth a3 /\ aggBaseURL a4 = aggBaseURL a3).
  { unfold a4. destruct (wrap64 (crawlJob.depth (pageResult.job result) + 1)
                         >? aggMaxDepth a3); [repeat split; reflexivity|].
    apply enqueueLinks_frame. }
  destruct H4 as (Hr4 & Hp4 & Hm4 & Hb4).
  destruct (closeJobsIfNeeded_frame a4) as (Hr5 & Hp5 & Hm5 & Hb5 & _).
  rewrite Hr5, Hp5, Hm5, Hb5, Hr4, Hp4, Hm4, Hb4, Hr3, Hp3, Hm3, Hb3.
  repeat split; assumption.
Qed.

(** ** The page processor *)

Lemma processJob_job (env : JobEnv) (job : crawlJob.t) :
  pageResult.job (processJob env job).1 = job.
Proof.
  unfold processJob. destruct (pageFetch env) as [r e].
  destruct (negb (isNil e) || (StatusCode r >=? StatusBadRequest)); [reflexivity|].
  destruct (parser_ParseHTML (Body r)); [|reflexivity].
  destruct (checkLinks env job (ParseResult.Links a)) as [[b l] p]. reflexivity.
Qed.

Lemma checkLinks_not_nil (env : JobEnv) (job : crawlJob.t) (links : list string) :
  exists l, (checkLinks env job links).1.1 = Some l.
Proof.
  unfold checkLinks.
  destruct (length (resolveLinks (crawlJob.url job) links) =? 0)%nat;
    [eexists; reflexivity|].
  destruct (runLinkChecks env (resolveLinks (crawlJob.url job) links)) as [[r p] q].
  destruct (buildLinkResults r p). eexists. reflexivity.
Qed.

Lemma dedupBrokenLinks_not_nil (l : list BrokenLink.t) :
  dedupBrokenLinks (Some l) <> None.
Proof. destruct l as [|x [|y rest]]; discriminate. Qed.

Lemma collectAssets_not_nil (env : JobEnv) (pageURL : string)
    (assets : list AssetRef.t) :
  collectAssets env pageURL assets <> None.
Proof. unfold collectAssets. destruct (url_Parse pageURL); discriminate. Qed.

(** The page [processJob] builds: it is for the job's URL and depth, it
    carries the status code of the fetch, and it is an [ok] page with both
    lists present exactly when the fetch gave no error and a status below
    400 and the body parsed; otherwise it is an [error] page with both
    lists [nil]. *)
Lemma processJob_page (env : JobEnv) (job : crawlJob.t) :
  let page := pageResult.page (processJob env job).1 in
  let fetched := pageFetch env in
  let received :=
    fetched.2 = None /\ StatusCode fetched.1 < 400
    /\ exists parsed, parser_ParseHTML (Body fetched.1) = Ok parsed in
  Page.URL page = crawlJob.url job
  /\ Page.Depth page = crawlJob.depth job
  /\ Page.HTTPStatus page = StatusCode fetched.1
  /\ (received /\ Page.Status page = statusOK
      /\ Page.BrokenLinks page <> None /\ Page.Assets page <> None
      \/ ~ received /\ Page.Status page = statusError
         /\ Page.BrokenLinks page = None /\ Page.Assets page = None).
Proof.
  cbn zeta. unfold processJob. destruct (pageFetch env) as [r e]. simpl.
  destruct (negb (isNil e) || (StatusCode r >=? StatusBadRequest)) eqn:Hbad.
  { simpl. repeat split. right. repeat split.
    intros (He & Hs & _). subst e. simpl in Hbad. unfold StatusBadRequest in Hbad.
    destruct (Z.geb_spec (StatusCode r) 400); [lia|discriminate]. }
  apply orb_false_iff in Hbad as [He Hs]. apply negb_false_iff in He.
  destruct e; [discriminate|]. unfold StatusBadRequest in Hs.
  destruct (Z.geb_spec (StatusCode r) 400); [discriminate|].
  destruct (parser_ParseHTML (Body r)) as [parsed|perr] eqn:Hparse.
  - destruct (checkLinks_not_nil env job (ParseResult.Links parsed)) as [bl Hbl].
    destruct (checkLinks env job (ParseResult.Links parsed)) as [[b l] p].
    simpl in Hbl. subst b. simpl. repeat split. left. repeat split; try lia.
    + exists parsed. reflexivity.
    + apply dedupBrokenLinks_not_nil.
    + apply collectAssets_not_nil.
  - simpl. repeat split. right. repeat split.
    intros (_ & _ & parsed & Hp). discriminate.
Qed.

(** ** The run *)

Lemma setup_report_empty (opts : Options.t) (an : analyzer) (rep : Report.t) :
  analyzeSetup opts = inr (an, rep) ->
  Report.Pages rep = [] /\ Report.Depth rep = Options.Depth opts
  /\ maxDepth an = normalizeMaxDepth (Options.Depth opts)
  /\ options an = opts.
Proof.
  unfold analyzeSetup. destruct (String.eqb (Options.URL opts) ""); [discriminate|].
  destruct (parseRootURL (Options.URL opts)); [|discriminate].
  destruct (Options.HTTPClient opts); [|discriminate].
  intros Heq. injection Heq as <- <-. repeat split; reflexivity.
Qed.

Lemma runInit_frame (an : analyzer) (rep : Report.t) (c0 cf : bool) :
  report (agg (runInit an rep c0 cf)) = rep
  /\ pendingPages (agg (runInit an rep c0 cf)) = ∅
  /\ aggMaxDepth (agg (runInit an rep c0 cf)) = maxDepth an.
Proof.
  unfold runInit. simpl.
  destruct (closeJobsIfNeeded_frame (enqueue (newAggregator an rep) cf (rootJob an)))
    as (Hr & Hp & Hm & _).
  destruct (enqueue_frame (newAggregator an rep) cf (rootJob an))
    as (Hr' & Hp' & Hm' & _).
  rewrite Hr, Hp, Hm, Hr', Hp', Hm'. repeat split; reflexivity.
Qed.

(** Every page a run holds, committed or pending, was built by
    [processJob]; the depth of the report does not change. *)
Lemma steps_pages_produced (an : analyzer) (rep : Report.t) (c0 cf : bool)
    (st : RunState) :
  Report.Pages rep = [] ->
  steps (runInit an rep c0 cf) st ->
  Forall producedPage (Report.Pages (report (agg st)))
  /\ map_Forall (fun _ p => producedPage p) (pendingPages (agg st))
  /\ Report.Depth (report (agg st)) = Report.Depth rep
  /\ aggMaxDepth (agg st) = maxDepth an.
Proof.
  intros Hempty Hsteps.
  remember (runInit an rep c0 cf) as st0 eqn:Hst0.
  induction Hsteps as [st|st1 st2 st3 Hsteps IH Hstep].
  - subst st. destruct (runInit_frame an rep c0 cf) as (Hr & Hp & Hm).
    rewrite Hr, Hp, Hm, Hempty. repeat split; [constructor|apply map_Forall_empty].
  - specialize (IH Hst0). destruct IH as (Hpages & Hpend & Hdepth & Hmax).
    destruct Hstep as [st before j after env henv Hjobs Hctx|st|st Hdone]; simpl.
    + destruct (onResult_pages producedPage (setJobs (agg st) (before ++ after))
                  henv (processJob env j).1
                  ltac:(exists env, j; reflexivity) Hpages Hpend)
        as (Hpages' & Hpend' & Hdepth' & _ & Hmax' & _).
      repeat split; try assumption.
      * rewrite Hdepth'. exact Hdepth.
      * rewrite Hmax'. exact Hmax.
    + repeat split; assumption.
    + destruct (closeJobsIfNeeded_frame (agg st)) as (Hr & Hp & Hm & _).
      rewrite Hr, Hp, Hm. repeat split; assumption.
Qed.

(** ** A run whose maximum depth is 0 *)

Lemma flushCommitted_one (a : aggregator) (page : Page.t) :
  pendingPages a = {[ nextCommit a := page ]} ->
  flushCommitted a = commitNext a page.
Proof.
  intros Hp. rewrite flushCommitted_unfold, Hp, lookup_singleton_eq.
  rewrite flushCommitted_unfold. simpl. rewrite Hp, delete_singleton_eq.
  rewrite lookup_empty. reflexivity.
Qed.

Lemma runInit_root (an : analyzer) (rep : Report.t) (c0 cf : bool) :
  Report.Pages rep = [] ->
  rootOut an (agg (runInit an rep c0 cf))
  \/ rootDone an (agg (runInit an rep c0 cf)).
Proof.
  intros Hempty. unfold runInit, enqueue. simpl.
  destruct (decide (url_String (baseURL an) ∈ (∅ : gset string))) as [Hin|_];
    [set_solver|].
  destruct cf.
  - right. unfold rootDone. simpl. repeat split. left. split; [reflexivity|exact Hempty].
  - left. unfold rootOut. simpl. repeat split. exact Hempty.
Qed.

Lemma onResult_root (an : analyzer) (a : aggregator) (henv : HandleEnv)
    (env : JobEnv) :
  aggMaxDepth a = 0 ->
  rootOut an a ->
  rootDone an (onResult (setJobs a []) henv
                 (processJob env (crawlJob.setSeq (rootJob an) 0%N)).1).
Proof.
  intros Hmax (Hjobs & Hpend & Hseq & Hcommit & Hpp & Hpages).
  set (root := crawlJob.setSeq (rootJob an) 0%N).
  set (r := (processJob env root).1).
  assert (Hjob : pageResult.job r = root) by apply processJob_job.
  unfold onResult, handleResult. rewrite Hjob.
  set (a1 := setPendingPage (setPending (setJobs a []) (pending (setJobs a []) - 1))
               (crawlJob.seq root) (pageResult.page r)).
  assert (Hflush : flushCommitted a1 = commitNext a1 (pageResult.page r)).
  { apply flushCommitted_one. simpl. rewrite Hpp, Hcommit. reflexivity. }
  rewrite Hflush.
  set (a2 := commitNext a1 (pageResult.page r)).
  set (a3 := if (crawlJob.depth root =? 0) && negb (isNil (pageResult.err r))
                && isNil (analysisErr a2)
             then setAnalysisErr a2 (pageResult.err r) else a2).
  assert (H3 : jobs a3 = [] /\ pending a3 = 0 /\ pendingPages a3 = ∅
               /\ nextSeq a3 = 1%N /\ aggMaxDepth a3 = 0
               /\ Report.Pages (report a3) = [pageResult.page r]).
  { assert (H2 : jobs a2 = [] /\ pending a2 = 0 /\ pendingPages a2 = ∅
                 /\ nextSeq a2 = 1%N /\ aggMaxDepth a2 = 0
                 /\ Report.Pages (report a2) = [pageResult.page r]).
    { simpl. rewrite Hpend, Hpp, Hcommit, Hseq, Hmax, Hpages.
      repeat split; try apply delete_insert_eq. }
    subst a3. destruct (_ && _ && _); [simpl|]; exact H2. }
  destruct H3 as (Hj3 & Hp3 & Hpp3 & Hs3 & Hm3 & Hr3).
  assert (Hnext : (wrap64 (crawlJob.depth root + 1) >? aggMaxDepth a3) = true).
  { rewrite Hm3. reflexivity. }
  rewrite Hnext.
  destruct (closeJobsIfNeeded_frame a3) as (Hr & Hp & _ & _ & Hj & Hs & Hpe & _).
  unfold rootDone. rewrite Hj, Hpe, Hp, Hs, Hr, Hj3, Hp3, Hpp3, Hs3, Hr3.
  repeat split.
  - unfold closeJobsIfNeeded. rewrite Hp3. simpl.
    destruct (jobsClosed a3) eqn:Hc; [exact Hc|reflexivity].
  - right. split; [reflexivity|]. exists env. reflexivity.
Qed.

Lemma steps_root_only (an : analyzer) (rep : Report.t) (c0 cf : bool)
    (st : RunState) :
  maxDepth an = 0 ->
  Report.Pages rep = [] ->
  steps (runInit an rep c0 cf) st ->
  rootOut an (agg st) \/ rootDone an (agg st).
Proof.
  intros Hmax Hempty Hsteps.
  remember (runInit an rep c0 cf) as st0 eqn:Hst0.
  induction Hsteps as [st|st1 st2 st3 Hsteps IH Hstep].
  - subst st. apply runInit_root. exact Hempty.
  - specialize (IH Hst0).
    assert (Hm2 : aggMaxDepth (agg st2) = 0).
    { rewrite Hst0 in Hsteps.
      destruct (steps_pages_produced an rep c0 cf st2 Hempty Hsteps)
        as (_ & _ & _ & Hm). congruence. }
    destruct Hstep as [st before j after env henv Hjobs Hctx|st|st Hdone]; cbn [agg].
    + destruct IH as [Hout|Hdone].
      * right. pose proof Hout as (Hj & _). rewrite Hj in Hjobs.
        destruct before as [|b before]; simpl in Hjobs.
        -- injection Hjobs as <- <-. simpl. apply onResult_root; assumption.
        -- destruct before; discriminate.
      * destruct Hdone as (Hj & _). rewrite Hj in Hjobs.
        destruct before; discriminate.
    + exact IH.
    + destruct IH as [Hout|Hd].
      * left. unfold closeJobsIfNeeded. destruct Hout as (Hj & Hp & Hrest).
        rewrite Hp. simpl. unfold rootOut. tauto.
      * right. unfold closeJobsIfNeeded. destruct Hd as (Hj & Hp & Hc & Hrest).
        rewrite Hc, orb_true_r. unfold rootDone. tauto.
Qed.

(** ** The pages of a crawl *)

(** For every page of the report that [marshalReport] serializes after
    a crawl (the setup of [analyzeReport] found no configuration error):
    the page was built by [processJob] from some fetch of a job, and
    - its status is [ok] or [error];
    - it is [ok] exactly when that fetch gave no error and a status code
      below 400 and the body parsed;
    - when it is [ok], its [http_status] is the status code of the
      response, below 400, and [broken_links] and [assets] are not [nil];
    - when it is [error], [broken_links] and [assets] are both [nil]. *)
Lemma crawled_page_status (opts : Options.t) (an : analyzer) (rep : Report.t)
    (report : Report.t) (err : error) (page : Page.t) :
  analyzeSetup opts = inr (an, rep) ->
  analyzeReport opts report err ->
  page ∈ Report.Pages (emittedReport report) ->
  exists env job,
    page = pageResult.page (processJob env job).1
    /\ (Page.Status page = statusOK \/ Page.Status page = statusError)
    /\ (Page.Status page = statusOK <->
        (pageFetch env).2 = None /\ StatusCode (pageFetch env).1 < 400
        /\ exists parsed,
             parser_ParseHTML (Body (pageFetch env).1) = Ok parsed)
    /\ (Page.Status page = statusOK ->
        Page.HTTPStatus page = StatusCode (pageFetch env).1
        /\ Page.HTTPStatus page < 400
        /\ Page.BrokenLinks page <> None /\ Page.Assets page <> None)
    /\ (Page.Status page = statusError ->
        Page.BrokenLinks page = None /\ Page.Assets page = None).
Proof.
  intros Hsetup Hrun Hin.
  destruct Hrun as [r e Hs|an' rep' c0 cf st Hs Hcf Hsteps Hclosed];
    rewrite Hsetup in Hs; [discriminate|].
  injection Hs as <- <-.
  destruct (setup_report_empty opts an rep Hsetup) as (Hempty & _).
  destruct (steps_pages_produced an rep c0 cf st Hempty Hsteps) as (Hpages & _).
  unfold emittedReport in Hin. simpl in Hin.
  destruct (AssemblySpec.sortPages_sorted (Report.Pages (Crawler.report (agg st))))
    as [_ Hperm].
  rewrite Hperm in Hin.
  rewrite Forall_forall in Hpages. destruct (Hpages page Hin) as (env & job & Hpage).
  exists env, job. split; [exact Hpage|].
  pose proof (processJob_page env job) as Hp. cbn zeta in Hp. rewrite <- Hpage in Hp.
  destruct Hp as (_ & _ & Hstatus & [(Hrec & Hok & Hbl & Has)|(Hnot & Herr & Hbl & Has)]).
  - assert (Hne : Page.Status page <> statusError) by (rewrite Hok; discriminate).
    split; [left; exact Hok|]. split; [tauto|]. split.
    + intros _. destruct Hrec as (_ & Hlt & _). rewrite Hstatus. auto.
    + intros Hx. contradiction.
  - assert (Hne : Page.Status page <> statusOK) by (rewrite Herr; discriminate).
    split; [right; exact Herr|]. split; [tauto|]. split.
    + intros Hx. contradiction.
    + intros _. auto.
Qed.

(** The report that comes with a configuration error has at most one
    page, built by [newPage] and marked as an error: its lists are the
    empty lists of [newPage], which nothing sets to [nil]. *)
Lemma setup_error_pages (opts : Options.t) (report : Report.t) (err : GoErr)
    (page : Page.t) :
  analyzeSetup opts = inl (report, err) ->
  page ∈ Report.Pages (emittedReport report) ->
  Report.Pages report = [page]
  /\ Page.Depth page = 0
  /\ Page.HTTPStatus page = 0
  /\ Page.Status page = statusError
  /\ Page.BrokenLinks page = Some []
  /\ Page.Assets page = Some [].
Proof.
  intros Hsetup Hin. unfold emittedReport in Hin. simpl in Hin.
  destruct (AssemblySpec.sortPages_sorted (Report.Pages report)) as [_ Hperm].
  rewrite Hperm in Hin. clear Hperm. revert Hsetup Hin. unfold analyzeSetup.
  destruct (String.eqb (Options.URL opts) "").
  { intros Heq. injection Heq as <- _. intros Hin. inversion Hin. }
  destruct (parseRootURL (Options.URL opts)) as [base|e].
  - destruct (Options.HTTPClient opts); [discriminate|].
    intros Heq. injection Heq as <- _. simpl. intros Hin.
    apply list_elem_of_singleton in Hin as ->. repeat split; reflexivity.
  - intros Heq. injection Heq as <- _. simpl. intros Hin.
    apply list_elem_of_singleton in Hin as ->. repeat split; reflexivity.
Qed.

(** C3 (what the code does). Every page of the report that
    [marshalReport] serializes has status [ok] or [error], and:
    - after a crawl (the setup of [analyzeReport] found no configuration
      error) the page was built by [processJob] from some fetch of a job;
      it is [ok] exactly when that fetch gave no error and a status code
      below 400 and the body parsed; when it is [ok], its [http_status] is
      the status code of the response, below 400 (nothing bounds it from
      below), and [broken_links] and [assets] are not [nil]; when it is
      [error], both are [nil];
    - after a configuration error (a URL that does not parse, a missing
      HTTP client) the page is the only one of the report, at depth 0,
      with [http_status] 0 and status [error], and its [broken_links] and
      [assets] are the empty list, not [nil]: an error page that is
      serialized with empty arrays where the error pages of a crawl
      have [null]. *)
Theorem emitted_page_status (opts : Options.t) (report : Report.t)
    (err : error) (page : Page.t) :
  analyzeReport opts report err ->
  page ∈ Report.Pages (emittedReport report) ->
  (Page.Status page = statusOK \/ Page.Status page = statusError)
  /\ (forall an rep, analyzeSetup opts = inr (an, rep) ->
      exists env job,
        page = pageResult.page (processJob env job).1
        /\ (Page.Status page = statusOK <->
            (pageFetch env).2 = None /\ StatusCode (pageFetch env).1 < 400
            /\ exists parsed,
                 parser_ParseHTML (Body (pageFetch env).1) = Ok parsed)
        /\ (Page.Status page = statusOK ->
            Page.HTTPStatus page = StatusCode (pageFetch env).1
            /\ Page.HTTPStatus page < 400
            /\ Page.BrokenLinks page <> None /\ Page.Assets page <> None)
        /\ (Page.Status page = statusError ->
            Page.BrokenLinks page = None /\ Page.Assets page = None))
  /\ (forall report0 err0, analyzeSetup opts = inl (report0, err0) ->
      report = report0 /\ err = Some err0
      /\ Report.Pages report = [page]
      /\ Page.Depth page = 0
      /\ Page.HTTPStatus page = 0
      /\ Page.Status page = statusError
      /\ Page.BrokenLinks page = Some []
      /\ Page.Assets page = Some []).
Proof.
  intros Hrun Hin.
  destruct (analyzeSetup opts) as [[report0 err0]|[an rep]] eqn:Hsetup.
  - destruct (analyzeReport_setup_only opts report0 err0 Hsetup) as [_ Honly].
    destruct (Honly report err Hrun) as [-> ->].
    pose proof (setup_error_pages opts report0 err0 page Hsetup Hin) as Hpage.
    split; [right; tauto|]. split; [intros an rep Heq; discriminate|].
    intros r e Heq. injection Heq as <- <-.
    split; [reflexivity|]. split; [reflexivity|]. exact Hpage.
  - destruct (crawled_page_status opts an rep report err page Hsetup Hrun Hin)
      as (env & job & Hpage & Hstatus & Hiff & Hok & Herr).
    split; [exact Hstatus|]. split; [|intros r e Heq; discriminate].
    intros an' rep' Heq. exists env, job. repeat split; tauto.
Qed.

(** ** A negative depth *)

(** C10. When [Options.Depth] is negative and the crawl starts, the
    maximum depth of the analyzer is the one of depth 0, and in every
    state of the run: the only job that is ever out is the root job, at
    most one job has been given a sequence number, the report holds at
    most one page, which is the page of the root URL at depth 0, and the
    depth field of the report is the negative value of the options.  So
    is the report that [marshalReport] serializes for what
    [analyzeReport] returns. *)
Theorem negative_depth_root_only (opts : Options.t) (an : analyzer)
    (rep : Report.t) :
  Options.Depth opts < 0 ->
  analyzeSetup opts = inr (an, rep) ->
  maxDepth an = normalizeMaxDepth 0
  /\ (forall c0 cf st, steps (runInit an rep c0 cf) st ->
        (forall j, j ∈ jobs (agg st) -> j = crawlJob.setSeq (rootJob an) 0%N)
        /\ (nextSeq (agg st) <= 1)%N
        /\ (length (Report.Pages (report (agg st))) <= 1)%nat
        /\ (forall page, page ∈ Report.Pages (report (agg st)) ->
              Page.URL page = url_String (baseURL an) /\ Page.Depth page = 0)
        /\ Report.Depth (report (agg st)) = Options.Depth opts)
  /\ (forall report err, analyzeReport opts report err ->
        Report.Depth (emittedReport report) = Options.Depth opts
        /\ (length (Report.Pages (emittedReport report)) <= 1)%nat
        /\ forall page, page ∈ Report.Pages (emittedReport report) ->
             Page.URL page = url_String (baseURL an) /\ Page.Depth page = 0).
Proof.
  intros Hneg Hsetup.
  destruct (setup_report_empty opts an rep Hsetup) as (Hempty & Hdepth & Hmax & _).
  assert (Hmax0 : maxDepth an = 0).
  { rewrite Hmax. unfold normalizeMaxDepth.
    destruct (Z.ltb_spec (Options.Depth opts) 0); [reflexivity|lia]. }
  assert (Hstates : forall c0 cf st, steps (runInit an rep c0 cf) st ->
        (forall j, j ∈ jobs (agg st) -> j = crawlJob.setSeq (rootJob an) 0%N)
        /\ (nextSeq (agg st) <= 1)%N
        /\ (length (Report.Pages (report (agg st))) <= 1)%nat
        /\ (forall page, page ∈ Report.Pages (report (agg st)) ->
              Page.URL page = url_String (baseURL an) /\ Page.Depth page = 0)
        /\ Report.Depth (report (agg st)) = Options.Depth opts).
  { intros c0 cf st Hsteps.
    destruct (steps_pages_produced an rep c0 cf st Hempty Hsteps)
      as (_ & _ & Hd & _).
    rewrite Hd, Hdepth.
    destruct (steps_root_only an rep c0 cf st Hmax0 Hempty Hsteps)
      as [(Hj & _ & Hs & _ & _ & Hp)
         |(Hj & _ & _ & _ & [(Hs & Hp)|(Hs & env & Hp)])];
      rewrite Hj, Hs, Hp; simpl; (split; [|split; [lia|split; [lia|split; [|reflexivity]]]]);
      intros x Hx;
      try (apply elem_of_nil in Hx; destruct Hx);
      apply list_elem_of_singleton in Hx; subst x.
    - reflexivity.
    - destruct (processJob_page env (crawlJob.setSeq (rootJob an) 0%N))
        as (Hu & Hd0 & _). split; [exact Hu|exact Hd0]. }
  split; [rewrite Hmax0; reflexivity|]. split; [exact Hstates|].
  intros report err Hrun.
  destruct Hrun as [r e Hs|an' rep' c0 cf st Hs Hcf Hsteps Hclosed];
    rewrite Hsetup in Hs; [discriminate|].
  injection Hs as <- <-.
  destruct (Hstates c0 cf st Hsteps) as (_ & _ & Hlen & Hpage & Hd).
  unfold emittedReport. simpl.
  destruct (AssemblySpec.sortPages_sorted (Report.Pages (Crawler.report (agg st))))
    as [_ Hperm].
  split; [exact Hd|]. split; [rewrite Hperm; exact Hlen|].
  intros page Hin. rewrite Hperm in Hin. exact (Hpage page Hin).
Qed.

(** ** Link checks *)

(** What [processJob] hands to the link-check pool and what it records
    as broken do not depend on the depth of the job. *)
Lemma processJob_depth_blind (env : JobEnv) (job : crawlJob.t) (d : Z) :
  (processJob env (crawlJob.setDepth job d)).2 = (processJob env job).2
  /\ Page.BrokenLinks (pageResult.page (processJob env (crawlJob.setDepth job d)).1)
     = Page.BrokenLinks (pageResult.page (processJob env job).1).
Proof.
  assert (Hc : forall links,
             checkLinks env (crawlJob.setDepth job d) links = checkLinks env job links)
    by reflexivity.
  unfold processJob. destruct (pageFetch env) as [r e].
  destruct (negb (isNil e) || (StatusCode r >=? StatusBadRequest));
    [split; reflexivity|].
  destruct (parser_ParseHTML (Body r)) as [parsed|]; [|split; reflexivity].
  rewrite Hc.
  destruct (checkLinks env job (ParseResult.Links parsed)) as [[b l] p].
  split; reflexivity.
Qed.

(** X1. A result for a job at the maximum depth makes no new crawl job:
    [handleResult] leaves the jobs that are out, the sequence counter and
    the count of pending jobs as they are. *)
Lemma handleResult_max_depth (a : aggregator) (henv : HandleEnv)
    (result : pageResult.t) :
  crawlJob.depth (pageResult.job result) = aggMaxDepth a ->
  0 <= aggMaxDepth a < 2 ^ 63 - 1 ->
  jobs (handleResult a henv result) = jobs a
  /\ nextSeq (handleResult a henv result) = nextSeq a
  /\ pending (handleResult a henv result) = pending a.
Proof.
  intros Hd Hrange. unfold handleResult.
  set (a1 := setPendingPage a (crawlJob.seq (pageResult.job result))
               (pageResult.page result)).
  destruct (flushCommitted_frame (fun _ => True) (size (pendingPages a1)) a1
              ltac:(lia) ltac:(apply Forall_true; auto)
              ltac:(intros ? ? ?; exact I))
    as (_ & _ & Hj & Hp & _ & Hm & _ & Hs & _).
  set (a2 := flushCommitted a1) in *.
  set (a3 := if (crawlJob.depth (pageResult.job result) =? 0)
                && negb (isNil (pageResult.err result))
                && isNil (analysisErr a2)
             then setAnalysisErr a2 (pageResult.err result) else a2).
  assert (H3 : jobs a3 = jobs a2 /\ nextSeq a3 = nextSeq a2
               /\ pending a3 = pending a2 /\ aggMaxDepth a3 = aggMaxDepth a2).
  { subst a3. destruct (_ && _ && _); repeat split; reflexivity. }
  destruct H3 as (Hj3 & Hs3 & Hp3 & Hm3).
  assert (Hnext : (wrap64 (crawlJob.depth (pageResult.job result) + 1)
                   >? aggMaxDepth a3) = true).
  { rewrite Hm3, Hm, Hd. simpl. rewrite FetcherSpec.wrap64_small by lia.
    apply Z.gtb_lt. lia. }
  rewrite Hnext, Hj3, Hs3, Hp3, Hj, Hs, Hp. repeat split; reflexivity.
Qed.

End WithExternals.



(** ** The fixture runs *)

Lemma rootRun_steps (env : JobEnv) :
  @steps fixtureExternals rootRunStart (rootRunEnd env).
Proof.
  eapply steps_step; [apply steps_refl|].
  exact (@step_result fixtureExternals rootRunStart [] (rootJobAt 0) [] env
           liveHandleEnv eq_refl (fun i (Hi : false = true) => Hi)).
Qed.

Lemma negativeRun_steps (env : JobEnv) :
  @steps fixtureExternals negativeRunStart (negativeRunEnd env).
Proof.
  eapply steps_step; [apply steps_refl|].
  exact (@step_result fixtureExternals negativeRunStart [] (rootJobAt 0) [] env
           liveHandleEnv eq_refl (fun i (Hi : false = true) => Hi)).
Qed.

Lemma switching_run_analyzed :
  @analyzeReport fixtureExternals (contractOptions "https://example.com" 0)
    (report (agg (rootRunEnd switchingEnv)))
    (analysisErr (agg (rootRunEnd switchingEnv))).
Proof.
  apply (@analyze_run fixtureExternals _ rootAnalyzer rootReport false false
           (rootRunEnd switchingEnv)).
  - reflexivity.
  - discriminate.
  - apply rootRun_steps.
  - reflexivity.
Qed.

Lemma broken_url_analyzed :
  @analyzeReport fixtureExternals (contractOptions "://broken" 1)
    (appendPage (@newReport fixtureExternals (contractOptions "://broken" 1))
       (Page.setError
          (Page.setStatus
             (@newPage fixtureExternals "://broken" 0 fixtureTime) statusError)
          ("invalid url: " ++ "parse: missing protocol scheme")))
    (Some (ErrWrap KPlain
             ("invalid root url: " ++ "parse: missing protocol scheme")
             (ErrLeaf KPlain "parse: missing protocol scheme"))).
Proof. constructor. reflexivity. Qed.

(** The theorem at the run on the root that answers 101, and at the
    invalid URL of TestParseRootURL. *)
Lemma emitted_page_status_witness :
  (exists page,
     page ∈ Report.Pages (emittedReport (report (agg (rootRunEnd switchingEnv))))
     /\ (Page.Status page = statusOK -> Page.HTTPStatus page < 400))
  /\ (exists page,
        Page.URL page = "://broken"
        /\ Page.Status page = statusError
        /\ Page.BrokenLinks page = Some []
        /\ Page.Assets page = Some []).
Proof.
  split.
  - set (page := pageResult.page
                   (@processJob fixtureExternals switchingEnv (rootJobAt 0)).1).
    assert (Hin : page ∈ Report.Pages
                    (emittedReport (report (agg (rootRunEnd switchingEnv)))))
      by (vm_compute; left).
    destruct (@emitted_page_status fixtureExternals
                (contractOptions "https://example.com" 0)
                (report (agg (rootRunEnd switchingEnv)))
                (analysisErr (agg (rootRunEnd switchingEnv)))
                page switching_run_analyzed Hin) as (_ & Hcrawl & _).
    destruct (Hcrawl rootAnalyzer rootReport eq_refl)
      as (env & job & _ & _ & Hok & _).
    exists page. split; [exact Hin|]. intros Hs. apply Hok. exact Hs.
  - set (page := Page.setError
                   (Page.setStatus
                      (@newPage fixtureExternals "://broken" 0 fixtureTime)
                      statusError)
                   ("invalid url: " ++ "parse: missing protocol scheme")).
    destruct (@emitted_page_status fixtureExternals
                (contractOptions "://broken" 1) _ _ page broken_url_analyzed
                ltac:(vm_compute; left)) as (_ & _ & Hsetup).
    destruct (Hsetup _ _ eq_refl) as (_ & _ & _ & _ & _ & Hs & Hbl & Has).
    exists page. split; [reflexivity|]. split; [exact Hs|].
    split; [exact Hbl|exact Has].
Defined.

(** C3 as stated fails twice.  A root that answers 101 Switching
    Protocols gives a page with status [ok] whose [http_status] is below
    200; and the page of a configuration error has status [error] with
    [broken_links] and [assets] the empty list, not [nil]. *)
Lemma page_status_counterexample :
  (exists report err page,
     @analyzeReport fixtureExternals (contractOptions "https://example.com" 0)
       report err
     /\ page ∈ Report.Pages (emittedReport report)
     /\ Page.Status page = statusOK
     /\ Page.HTTPStatus page = 101
     /\ ~ (200 <= Page.HTTPStatus page <= 399))
  /\ (exists report err page,
        @analyzeReport fixtureExternals (contractOptions "://broken" 1)
          report err
        /\ page ∈ Report.Pages (emittedReport report)
        /\ Page.Status page = statusError
        /\ Page.BrokenLinks page = Some []
        /\ Page.Assets page = Some []).
Proof.
  split.
  - exists (report (agg (rootRunEnd switchingEnv))),
           (analysisErr (agg (rootRunEnd switchingEnv))),
           (pageResult.page
              (@processJob fixtureExternals switchingEnv (rootJobAt 0)).1).
    split; [exact switching_run_analyzed|].
    split; [vm_compute; left|].
    split; [reflexivity|]. split; [reflexivity|]. vm_compute. intros [Hx _].
    apply Hx. reflexivity.
  - set (page := Page.setError
                   (Page.setStatus
                      (@newPage fixtureExternals "://broken" 0 fixtureTime)
                      statusError)
                   ("invalid url: " ++ "parse: missing protocol scheme")).
    exists (appendPage (@newReport fixtureExternals (contractOptions "://broken" 1))
              page),
           (Some (ErrWrap KPlain
                    ("invalid root url: " ++ "parse: missing protocol scheme")
                    (ErrLeaf KPlain "parse: missing protocol scheme"))),
           page.
    split; [constructor; reflexivity|].
    split; [vm_compute; left|]. repeat split; reflexivity.
Qed.

(** The theorem at [Depth: -1], for the run on a root whose only link
    answers 200: the link is handed on by the page ([pageResult.links])
    and no job is made for it. *)
Lemma negative_depth_root_only_witness :
  Options.Depth (contractOptions "https://example.com" (-1)) < 0
  /\ pageResult.links
       (@processJob fixtureExternals (healthyEnv depthZeroBody) (rootJobAt 0)).1
     = ["https://example.com/missing"]
  /\ jobs (agg (negativeRunEnd (healthyEnv depthZeroBody))) = []
  /\ (nextSeq (agg (negativeRunEnd (healthyEnv depthZeroBody))) <= 1)%N
  /\ (length (Report.Pages
               (report (agg (negativeRunEnd (healthyEnv depthZeroBody))))) <= 1)%nat
  /\ Report.Depth (report (agg (negativeRunEnd (healthyEnv depthZeroBody)))) = -1.
Proof.
  assert (Hneg : Options.Depth (contractOptions "https://example.com" (-1)) < 0)
    by (simpl; lia).
  destruct (@negative_depth_root_only fixtureExternals
              (contractOptions "https://example.com" (-1))
              negativeAnalyzer negativeReport Hneg eq_refl)
    as (_ & Hstates & _).
  destruct (Hstates false false (negativeRunEnd (healthyEnv depthZeroBody))
              (negativeRun_steps _))
    as (_ & Hseq & Hlen & _ & Hdepth).
  split; [exact Hneg|]. split; [reflexivity|]. split; [reflexivity|].
  split; [exact Hseq|]. split; [exact Hlen|exact Hdepth].
Defined.

(** C1 (what the code does). On the site of
    TestSpec_BrokenLinks_DepthZero_NoLinkChecks, with maximum depth 0, the
    root page is at the maximum depth; [processJob] hands its link
    [/missing] to the link-check pool, which fetches it, and records it
    as a broken link of the page in the report; no new job is made.  For
    every job, on every site, the links handed to the pool and the broken
    links recorded are the same at every depth. *)
Theorem max_depth_page_probes_links :
  crawlJob.depth (rootJobAt 0) = maxDepth rootAnalyzer
  /\ (@processJob fixtureExternals (siteEnv depthZeroBody) (rootJobAt 0)).2
     = ["https://example.com/missing"]
  /\ map Page.BrokenLinks
       (Report.Pages (report (agg (rootRunEnd (siteEnv depthZeroBody)))))
     = [Some [{| BrokenLink.URL := "https://example.com/missing";
                 BrokenLink.StatusCode := 404;
                 BrokenLink.Error := "Not Found" |}]]
  /\ jobs (agg (rootRunEnd (siteEnv depthZeroBody))) = []
  /\ nextSeq (agg (rootRunEnd (siteEnv depthZeroBody))) = 1%N
  /\ forall (E : Externals) (env : JobEnv) (job : crawlJob.t) (d : Z),
       (@processJob E env (crawlJob.setDepth job d)).2 = (@processJob E env job).2
       /\ Page.BrokenLinks
            (pageResult.page (@processJob E env (crawlJob.setDepth job d)).1)
          = Page.BrokenLinks (pageResult.page (@processJob E env job).1).
Proof.
  repeat split; try reflexivity; apply processJob_depth_blind.
Qed.

(** C5 (what the code does). On the site of
    TestSpec_BrokenLinks_ExternalLinksAreIgnored, the link
    [https://evil.test/broken] is not of the origin of the root, and
    [processJob] on the root page hands it to the link-check pool, which
    fetches it, and records it as a broken link of the page. *)
Theorem external_link_probed :
  @SameOrigin fixtureExternals (baseURL rootAnalyzer) "https://evil.test/broken"
  = false
  /\ (@processJob fixtureExternals (siteEnv rootBody) (rootJobAt 0)).2
     = ["https://example.com/missing"; "https://evil.test/broken"]
  /\ Page.BrokenLinks
       (pageResult.page
          (@processJob fixtureExternals (siteEnv rootBody) (rootJobAt 0)).1)
     = Some [{| BrokenLink.URL := "https://example.com/missing";
                BrokenLink.StatusCode := 404;
                BrokenLink.Error := "Not Found" |};
             {| BrokenLink.URL := "https://evil.test/broken";
                BrokenLink.StatusCode := 404;
                BrokenLink.Error := "Not Found" |}].
Proof. repeat split; reflexivity. Qed.

(** The lemma at the root of the fixture site at maximum depth 0, whose
    page hands on a link that answers 200. *)
Lemma handleResult_max_depth_witness :
  pageResult.links
    (@processJob fixtureExternals (healthyEnv depthZeroBody) (rootJobAt 0)).1
  = ["https://example.com/missing"]
  /\ jobs (@handleResult fixtureExternals (setJobs (agg rootRunStart) [])
             liveHandleEnv
             (@processJob fixtureExternals (healthyEnv depthZeroBody)
                (rootJobAt 0)).1)
     = [].
Proof.
  split; [reflexivity|].
  destruct (@handleResult_max_depth fixtureExternals
              (setJobs (agg rootRunStart) []) liveHandleEnv
              (@processJob fixtureExternals (healthyEnv depthZeroBody)
                 (rootJobAt 0)).1
              eq_refl
              ltac:(vm_compute; split; [discriminate|reflexivity]))
    as (Hjobs & _).
  exact Hjobs.
Defined.

End CrawlerSpec.

(* ===================================================================== *)
(** * Properties of the fetch cache *)
(* ===================================================================== *)

Module FetchCacheSpec.
Import Fetcher FetchCache.

Lemma cachedOf_ownerOf (p : pc) (e : nat) :
  cachedOf p = Some e -> ownerOf p = Some e.
Proof. destruct p as [| | | | | | |[]]; simpl; congruence. Qed.

Lemma fetchOf_cachedOf (p : pc) (e : nat) :
  fetchOf p = Some e -> cachedOf p = Some e.
Proof. destruct p as [| | | | | | |[]]; simpl; congruence. Qed.

Lemma Inv_init (n : nat) : Inv (init n).
Proof.
  constructor; simpl; intros;
    repeat match goal with
           | H : ∅ !! _ = Some _ |- _ => rewrite lookup_empty in H; discriminate
           | H : _ ∈ [] |- _ => apply elem_of_nil in H; destruct H
           end.
  constructor.
Qed.

Ltac split_lookups :=
  repeat match goal with
         | H : <[_ := _]> _ !! _ = Some _ |- _ =>
             apply lookup_insert_Some in H; destruct H as [[? ?]|[? ?]]
         | H : delete _ _ !! _ = Some _ |- _ =>
             apply lookup_delete_Some in H; destruct H as [? ?]
         end; simplify_eq/=.

(** The cases of a step, with the call [i] that moves and its place
    [Hi] before the step. *)
Ltac step_cases H :=
  destruct H as
    [? i u Hi
    |? i u e Hi Hhit
    |? i u e Hi Hmiss Hfresh
    |? i u e ent Hi Hent Hready
    |? i u e c Hi Hctx
    |? i u e n Hi Hsem
    |? i u e c Hi Hctx
    |? i u e Hi
    |? i u e c Hi Hctx
    |? i u e Hi
    |? i u e result err Hi
    |? c Hctx];
  simpl in *.

Ltac keep_call j q i0 :=
  destruct (decide (j = i0)) as [->|?];
  [simplify_eq/=
  |try (exists j, q; split; [rewrite lookup_insert_ne by done; done|done])].

Ltac new_call :=
  eexists _, _; split; [apply lookup_insert_eq|reflexivity].

Lemma step_cache_owner (s s' : State) :
  Inv s -> step s s' ->
  forall u e, fetchCache s' !! u = Some e ->
    exists i p, calls s' !! i = Some (u, p) /\ cachedOf p = Some e.
Proof.
  intros HI Hstep u0 e0 Hc.
  step_cases Hstep; split_lookups;
    try new_call;
    match goal with
    | H : fetchCache s !! _ = Some _ |- _ =>
        destruct (inv_cache_owner s HI _ _ H) as (j & q & Hj & Hq)
    end;
    try (keep_call j q i; try new_call); try (exists j, q; done).
Qed.

Lemma step_cached (s s' : State) :
  Inv s -> step s s' ->
  forall i u p e, calls s' !! i = Some (u, p) ->
    cachedOf p = Some e -> fetchCache s' !! u = Some e.
Proof.
  intros HI Hstep i0 u0 p0 e0 Hc Hp.
  step_cases Hstep; split_lookups;
    try (apply lookup_insert_eq);
    try (pose proof (inv_cached s HI _ _ _ _ Hi eq_refl) as Hold);
    try match goal with
    | H : calls s !! i0 = Some (_, _) |- _ =>
        pose proof (inv_cached s HI i0 _ _ _ H Hp) as Hold0
    end;
    try done.
  - rewrite lookup_insert_ne; [done|]. intros ->. congruence.
  - rewrite lookup_delete_ne; [done|]. intros ->.
    assert (e = e0) as -> by congruence.
    match goal with
    | H : calls s !! i0 = Some _ |- _ =>
        pose proof (inv_owner_unique s HI _ _ _ _ _ _ _ Hi H eq_refl
                      (cachedOf_ownerOf _ _ Hp))
    end. done.
Qed.

Lemma step_owner_heap (s s' : State) :
  Inv s -> step s s' ->
  forall i u p e, calls s' !! i = Some (u, p) ->
    ownerOf p = Some e -> is_Some (heap s' !! e).
Proof.
  intros HI Hstep i0 u0 p0 e0 Hc Hp.
  step_cases Hstep; split_lookups;
    try (pose proof (inv_owner_heap s HI _ _ _ _ Hi eq_refl) as Hold);
    try match goal with
    | H : calls s !! i0 = Some (_, _) |- _ =>
        pose proof (inv_owner_heap s HI i0 _ _ _ H Hp) as Hold0
    end;
    try done;
    try (apply lookup_insert_is_Some'; auto).
Qed.

(** Apply [tac] to the call that moves. *)
Ltac mover Hi tac := lazymatch type of Hi with calls _ !! ?k = _ => tac k end.

Lemma step_follow_owner (s s' : State) :
  Inv s -> step s s' ->
  forall i u p e, calls s' !! i = Some (u, p) ->
    followOf p = Some e ->
    exists j q, calls s' !! j = Some (u, q) /\ ownerOf q = Some e.
Proof.
  intros HI Hstep i0 u0 p0 e0 Hc Hp.
  step_cases Hstep; split_lookups;
    first
      [ match goal with
        | H : calls s !! i0 = Some (_, _), Hne : _ <> i0 |- _ =>
            destruct (inv_follow_owner s HI i0 _ _ _ H Hp) as (j & q & Hj & Hq)
        end
      | destruct (inv_follow_owner s HI _ _ _ _ Hi eq_refl) as (j & q & Hj & Hq)
      | destruct (inv_cache_owner s HI _ _ Hhit)
          as (j & q & Hj & Hq%cachedOf_ownerOf)
      | destruct (inv_follow_owner s HI _ _ _ _ Hc Hp) as (j & q & Hj & Hq) ];
    try (mover Hi ltac:(fun k => keep_call j q k); try new_call);
    try (exists j, q; done).
Qed.

Lemma step_owner_unique (s s' : State) :
  Inv s -> step s s' ->
  forall i j ui uj pi pj e,
    calls s' !! i = Some (ui, pi) -> calls s' !! j = Some (uj, pj) ->
    ownerOf pi = Some e -> ownerOf pj = Some e -> i = j.
Proof.
  intros HI Hstep i0 j0 ui uj pi pj e0 Hci Hcj Hpi Hpj.
  step_cases Hstep; split_lookups; try done;
    try (eapply (inv_owner_unique s HI i0 j0); eauto; done);
    match goal with
    | H : calls s !! _ = Some (_, ?p), Hp : ownerOf ?p = Some _ |- _ =>
        destruct (inv_owner_heap s HI _ _ _ _ H Hp) as [? ?]; congruence
    end.
Qed.

Lemma step_fetched (s s' : State) :
  Inv s -> step s s' ->
  forall u, u ∈ fetched s' ->
    exists i p e, calls s' !! i = Some (u, p) /\ fetchOf p = Some e.
Proof.
  intros HI Hstep u0 Hin.
  step_cases Hstep;
    try (apply elem_of_app in Hin as [Hin|Hin%list_elem_of_singleton]);
    try (subst u0; eexists _, _, _; split; [apply lookup_insert_eq|reflexivity]);
    destruct (inv_fetched s HI _ Hin) as (j & q & e1 & Hj & Hq);
    try (destruct (decide (j = i)) as [->|?];
         [simplify_eq/=; try (eexists _, _, _; split;
                              [apply lookup_insert_eq|reflexivity])
         |exists j, q, e1; split; [rewrite lookup_insert_ne by done; done|done]]);
    try (exists j, q, e1; done).
Qed.

Lemma step_fetch_logged (s s' : State) :
  Inv s -> step s s' ->
  forall i u p e, calls s' !! i = Some (u, p) ->
    fetchOf p = Some e -> u ∈ fetched s'.
Proof.
  intros HI Hstep i0 u0 p0 e0 Hc Hp.
  step_cases Hstep; split_lookups;
    try (apply elem_of_app);
    try (right; apply list_elem_of_singleton; reflexivity);
    try left;
    first [ exact (inv_fetch_logged s HI _ _ _ _ Hi eq_refl)
          | eapply (inv_fetch_logged s HI); eauto; done ].
Qed.

Lemma step_nodup (s s' : State) :
  Inv s -> step s s' -> NoDup (fetched s').
Proof.
  intros HI Hstep.
  step_cases Hstep; try exact (inv_nodup s HI).
  apply NoDup_app. split; [exact (inv_nodup s HI)|].
  split; [|apply NoDup_singleton].
  intros x Hin Hx%list_elem_of_singleton. subst x.
  destruct (inv_fetched s HI _ Hin) as (j & q & e1 & Hj & Hf).
  pose proof (fetchOf_cachedOf _ _ Hf) as Hq.
  pose proof (inv_cached s HI _ _ _ _ Hj Hq) as Hc1.
  pose proof (inv_cached s HI _ _ _ _ Hi eq_refl) as Hc2.
  assert (e1 = e) as -> by congruence.
  pose proof (inv_owner_unique s HI _ _ _ _ _ _ _ Hi Hj eq_refl
                (cachedOf_ownerOf _ _ Hq)) as ->.
  rewrite Hi in Hj. simplify_eq/=.
Qed.

Lemma step_ready (s s' : State) :
  Inv s -> step s s' ->
  forall e ent, heap s' !! e = Some ent -> entryReady ent = true ->
    exists i u site,
      calls s' !! i = Some (u, Returned site (entryResult ent) (entryErr ent))
      /\ (site = ViaFetch e \/ site = ViaCancel e).
Proof.
  intros HI Hstep e0 ent0 Hh Hr.
  step_cases Hstep; split_lookups;
    try (eexists _, _, _; split; [apply lookup_insert_eq|auto]; fail);
    match goal with
    | H : heap s !! e0 = Some _ |- _ =>
        destruct (inv_ready s HI _ _ H Hr) as (j & uj & site & Hj & Hsite)
    end;
    try (exists j, uj, site; split; [|exact Hsite];
         rewrite lookup_insert_ne; [exact Hj|];
         intros <-; rewrite Hi in Hj; discriminate);
    try (exists j, uj, site; split; [exact Hj|exact Hsite]).
Qed.

(** The entry of a call that has not stored yet is not ready. *)
Lemma owner_not_ready (s : State) (i : nat) (u : string) (p : pc) (e : nat)
    (ent : fetchCacheEntry) :
  Inv s -> calls s !! i = Some (u, p) -> ownerOf p = Some e ->
  (forall site r er, p <> Returned site r er) ->
  heap s !! e = Some ent -> entryReady ent = false.
Proof.
  intros HI Hi Hp Hnot Hent.
  destruct (entryReady ent) eqn:Hr; [|reflexivity].
  destruct (inv_ready s HI _ _ Hent Hr) as (k & uk & sk & Hk & Hsk).
  assert (Hown : ownerOf (Returned sk (entryResult ent) (entryErr ent)) = Some e)
    by (destruct Hsk; subst sk; reflexivity).
  pose proof (inv_owner_unique s HI _ _ _ _ _ _ _ Hk Hi Hown Hp) as ->.
  rewrite Hi in Hk. injection Hk as _ ->. exfalso. exact (Hnot _ _ _ eq_refl).
Qed.

Lemma step_returned (s s' : State) :
  Inv s -> step s s' ->
  forall i u site r er e,
    calls s' !! i = Some (u, Returned site r er) ->
    site = ViaReady e \/ site = ViaFetch e \/ site = ViaCancel e ->
    heap s' !! e = Some (mkEntry r er true).
Proof.
  intros HI Hstep i0 u0 site0 r0 er0 e0 Hc Hsite.
  step_cases Hstep; split_lookups;
    try match goal with
    | H : calls s !! i0 = Some (_, Returned _ _ _) |- _ =>
        pose proof (inv_returned s HI i0 _ _ _ _ _ H Hsite) as Hold
    end;
    try done;
    try (destruct Hsite as [?|[?|?]]; simplify_eq/=;
         try apply lookup_insert_eq;
         try (destruct ent; simpl in *; subst; done); fail);
    (rewrite lookup_insert_ne; [exact Hold|]; intros <-;
     first [congruence
           |pose proof (owner_not_ready s _ _ _ _ _ HI Hi eq_refl
                          ltac:(discriminate) Hold); discriminate]).
Qed.

Lemma step_returned_ctx (s s' : State) :
  Inv s -> step s s' ->
  forall i u site r er, calls s' !! i = Some (u, Returned site r er) ->
    cancelled (Returned site r er) = true ->
    r = emptyResult /\ er = ctxErr s' /\ is_Some er.
Proof.
  intros HI Hstep i0 u0 site0 r0 er0 Hc Hsite.
  step_cases Hstep; split_lookups;
    try (eapply (inv_returned_ctx s HI); eauto; done);
    try (repeat split; eauto; done).
  destruct (inv_returned_ctx s HI _ _ _ _ _ Hc Hsite) as (_ & -> & [x Hx]).
  congruence.
Qed.

Lemma step_live (s s' : State) :
  Inv s -> step s s' ->
  ctxErr s' = None -> forall i u p, calls s' !! i = Some (u, p) ->
    cancelled p = false
    /\ (p = AtLock
        \/ exists e, fetchCache s' !! u = Some e
                     /\ (ownerOf p = Some e \/ followOf p = Some e)).
Proof.
  intros HI Hstep Hlive i0 u0 p0 Hc.
  step_cases Hstep; try congruence; split_lookups;
    try (pose proof (inv_live s HI Hlive _ _ _ Hi) as Hmove);
    try match goal with
    | H : calls s !! i0 = Some (_, _), Hne : _ <> i0 |- _ =>
        pose proof (inv_live s HI Hlive _ _ _ H) as Hold
    end;
    try done;
    try (destruct Hmove as [? ?]; discriminate);
    try (split; [done|left; done]);
    try (split; [done|right; eexists; split; [eassumption|auto]]; fail);
    try (destruct Hmove as [_ [?|(e1 & Hc1 & [Hp1|Hp1])]]; simplify_eq/=;
         split; [done|right; eexists; split; [eassumption|auto]]; fail).
  - split; [done|]. right. exists e. rewrite lookup_insert_eq. auto.
  - destruct Hold as [Hcan [->|(e1 & Hc1 & Hp1)]]; split; auto.
    right. exists e1. split; [|exact Hp1].
    rewrite lookup_insert_ne; [exact Hc1|]. intros ->. congruence.
Qed.

Lemma step_Inv (s s' : State) : Inv s -> step s s' -> Inv s'.
Proof.
  intros HI Hstep. constructor.
  - exact (step_cache_owner s s' HI Hstep).
  - exact (step_cached s s' HI Hstep).
  - exact (step_owner_heap s s' HI Hstep).
  - exact (step_follow_owner s s' HI Hstep).
  - exact (step_owner_unique s s' HI Hstep).
  - exact (step_fetched s s' HI Hstep).
  - exact (step_fetch_logged s s' HI Hstep).
  - exact (step_nodup s s' HI Hstep).
  - exact (step_ready s s' HI Hstep).
  - exact (step_returned s s' HI Hstep).
  - exact (step_returned_ctx s s' HI Hstep).
  - exact (step_live s s' HI Hstep).
Qed.

Lemma reachable_Inv (n : nat) (s : State) : reachable n s -> Inv s.
Proof.
  unfold reachable. revert s.
  apply (rtc_ind_r (fun s => Inv s)); [apply Inv_init|].
  intros y z _ Hstep IH. eapply step_Inv; eassumption.
Qed.

(** C2 (amended). In every state an analyzer can reach:
    - the fetcher has been called at most once for each URL, and a call
      of the fetcher for a URL is by the call of [fetchWithCache] that
      inserted the entry the map holds for that URL;
    - a call that returns at the ready signal of an entry returns exactly
      the result and error that another call for the same URL, the one
      that inserted the entry, stored in it and returned;
    - a call that returns otherwise without a fetch (the context is done
      at the [select], or before the semaphore is acquired) returns the
      zero result and the error of the context, which is not [nil];
    - while the context is not done, all the calls for one URL that have
      returned have returned the same result and error, and the fetcher
      has been called for that URL. *)
Theorem fetch_cache_single_flight (n : nat) (s : State) :
  reachable n s ->
  NoDup (fetched s)
  /\ (forall u, u ∈ fetched s ->
        exists i p e, calls s !! i = Some (u, p) /\ fetchOf p = Some e
                      /\ fetchCache s !! u = Some e)
  /\ (forall i u e r er,
        calls s !! i = Some (u, Returned (ViaReady e) r er) ->
        exists j site, j <> i
          /\ calls s !! j = Some (u, Returned site r er)
          /\ (site = ViaFetch e \/ site = ViaCancel e)
          /\ heap s !! e = Some (mkEntry r er true))
  /\ (forall i u site r er,
        calls s !! i = Some (u, Returned site r er) ->
        site = ViaCtx \/ (exists e, site = ViaCancel e) ->
        r = emptyResult /\ er = ctxErr s /\ is_Some er)
  /\ (ctxErr s = None ->
      forall i j u si sj ri ei rj ej,
        calls s !! i = Some (u, Returned si ri ei) ->
        calls s !! j = Some (u, Returned sj rj ej) ->
        ri = rj /\ ei = ej /\ u ∈ fetched s).
Proof.
  intros HI%reachable_Inv. split; [exact (inv_nodup s HI)|].
  split; [|split; [|split]].
  - intros u Hin. destruct (inv_fetched s HI u Hin) as (i & p & e & Hi & Hp).
    exists i, p, e. split; [exact Hi|]. split; [exact Hp|].
    exact (inv_cached s HI _ _ _ _ Hi (fetchOf_cachedOf _ _ Hp)).
  - intros i u e r er Hi.
    pose proof (inv_returned s HI _ _ _ _ _ e Hi ltac:(auto)) as Hent.
    destruct (inv_ready s HI _ _ Hent eq_refl) as (k & uk & sk & Hk & Hsk).
    simpl in Hk.
    destruct (inv_follow_owner s HI _ _ _ _ Hi eq_refl) as (j & q & Hj & Hq).
    assert (Hown : ownerOf (Returned sk r er) = Some e)
      by (destruct Hsk; subst sk; reflexivity).
    pose proof (inv_owner_unique s HI _ _ _ _ _ _ _ Hk Hj Hown Hq) as ->.
    rewrite Hj in Hk. injection Hk as <- ->.
    exists j, sk. split; [|split; [exact Hj|split; [exact Hsk|exact Hent]]].
    intros ->. rewrite Hi in Hj. destruct Hsk; subst sk; discriminate.
  - intros i u site r er Hi Hsite.
    apply (inv_returned_ctx s HI _ _ _ _ _ Hi).
    destruct Hsite as [-> | [e ->]]; reflexivity.
  - intros Hlive i j u si sj ri ei rj ej Hi Hj.
    assert (Hentry : forall k sk rk ek,
               calls s !! k = Some (u, Returned sk rk ek) ->
               exists e, fetchCache s !! u = Some e
                         /\ heap s !! e = Some (mkEntry rk ek true)).
    { intros k sk rk ek Hk.
      destruct (inv_live s HI Hlive _ _ _ Hk) as [Hcan [?|(e & Hc & He)]];
        [discriminate|].
      exists e. split; [exact Hc|].
      apply (inv_returned s HI _ _ _ _ _ e Hk).
      destruct sk; simpl in *; destruct He; simplify_eq/=; auto. }
    destruct (Hentry _ _ _ _ Hi) as (e & Hc & Hei).
    destruct (Hentry _ _ _ _ Hj) as (e' & Hc' & Hej).
    assert (e' = e) as -> by congruence.
    rewrite Hei in Hej. injection Hej as <- <-.
    split; [reflexivity|]. split; [reflexivity|].
    destruct (inv_ready s HI _ _ Hei eq_refl) as (k & uk & sk & Hk & Hsk).
    simpl in Hk.
    destruct (inv_live s HI Hlive _ _ _ Hk) as [Hcan _].
    destruct Hsk as [-> | ->]; [|discriminate].
    destruct (inv_cache_owner s HI _ _ Hc) as (o & q & Ho & Hq).
    pose proof (inv_owner_unique s HI _ _ _ _ _ _ _ Hk Ho eq_refl
                  (cachedOf_ownerOf _ _ Hq)) as ->.
    rewrite Ho in Hk. injection Hk as <- ->.
    exact (inv_fetch_logged s HI _ _ _ _ Ho eq_refl).
Qed.

(** ** The two calls of the fixture *)

Import CacheFixture.

Lemma cacheAfterFetch_reachable : reachable 1 cacheAfterFetch.
Proof.
  unfold reachable.
  eapply rtc_r; [|exact (step_fetch_return cacheFetching 0 linkURL 0
                           fetchedResult None eq_refl)].
  eapply rtc_r; [|exact (step_fetch_call cacheAcquired 0 linkURL 0 eq_refl)].
  eapply rtc_r; [|exact (step_acquire_ok cacheFound 0 linkURL 0 0 eq_refl eq_refl)].
  eapply rtc_r; [|exact (step_lock_hit cacheInserted 1 linkURL 0 eq_refl eq_refl)].
  eapply rtc_r; [|exact (step_lock_miss cacheCalled 0 linkURL 0
                           eq_refl eq_refl eq_refl)].
  eapply rtc_r; [|exact (step_call (setCall (init 1) 0 linkURL AtLock) 1 linkURL
                           eq_refl)].
  eapply rtc_r; [|exact (step_call (init 1) 0 linkURL eq_refl)].
  apply rtc_refl.
Qed.

Lemma cacheFollowerReady_reachable : reachable 1 cacheFollowerReady.
Proof.
  eapply rtc_r; [exact cacheAfterFetch_reachable|].
  exact (step_select_ready cacheAfterFetch 1 linkURL 0
           {| entryResult := fetchedResult; entryErr := None; entryReady := true |}
           eq_refl eq_refl eq_refl).
Qed.

Lemma cacheFollowerCancelled_reachable : reachable 1 cacheFollowerCancelled.
Proof.
  eapply rtc_r;
    [|exact (step_select_ctx (setCtxErr cacheAfterFetch canceled) 1 linkURL 0
               canceled eq_refl eq_refl)].
  eapply rtc_r; [exact cacheAfterFetch_reachable|].
  exact (step_ctx_done cacheAfterFetch canceled eq_refl).
Qed.

(** The theorem at the state where both calls have returned and the
    context is not done: call 1 returns what call 0 stored. *)
Lemma fetch_cache_single_flight_witness :
  fetched cacheFollowerReady = [linkURL]
  /\ exists j site,
       j <> 1%nat
       /\ calls cacheFollowerReady !! j
          = Some (linkURL, Returned site fetchedResult None)
       /\ (site = ViaFetch 0 \/ site = ViaCancel 0)
       /\ heap cacheFollowerReady !! 0%nat
          = Some (mkEntry fetchedResult None true).
Proof.
  split; [reflexivity|].
  destruct (fetch_cache_single_flight 1 cacheFollowerReady
              cacheFollowerReady_reachable) as (_ & _ & Hready & _).
  exact (Hready 1%nat linkURL 0%nat fetchedResult None eq_refl).
Defined.

(** C2 as stated fails when the context is cancelled: call 0 has fetched
    and stored [(fetchedResult, nil)] in the entry, which is ready; call
    1, a later call for the same URL, returns the zero result and the
    error of the context instead. *)
Lemma follower_cancelled_counterexample :
  exists s,
    reachable 1 s
    /\ fetchCache s !! linkURL = Some 0%nat
    /\ heap s !! 0%nat = Some (mkEntry fetchedResult None true)
    /\ calls s !! 0%nat = Some (linkURL, Returned (ViaFetch 0) fetchedResult None)
    /\ calls s !! 1%nat
       = Some (linkURL, Returned ViaCtx emptyResult (Some canceled))
    /\ (emptyResult, Some canceled) <> (fetchedResult, None).
Proof.
  exists cacheFollowerCancelled.
  split; [exact cacheFollowerCancelled_reachable|].
  repeat split; try reflexivity. discriminate.
Qed.

End FetchCacheSpec.

(* ===================================================================== *)
(** * Properties of a run of the analyzer *)
(* ===================================================================== *)

Module RunSpec.
Import Fetcher Crawler Fixture CrawlerSpec Run RunFixture.
Local Open Scope Z_scope.

Section WithExternals.
Context `{Externals}.


(** ** Induction over the loops of the aggregator *)

(** What holds before [flushCommitted] and is kept by every commit holds
    after it, and then no page waits at [nextCommit]. *)
Lemma flushCommitted_ind (I : aggregator -> Prop) :
  (forall a page, I a -> pendingPages a !! nextCommit a = Some page ->
                  I (commitNext a page)) ->
  forall a, I a ->
    I (flushCommitted a)
    /\ pendingPages (flushCommitted a) !! nextCommit (flushCommitted a) = None.
Proof.
  intros Hcommit a.
  remember (size (pendingPages a)) as n eqn:Hn.
  revert a Hn. induction n as [n IH] using lt_wf_ind. intros a Hn Ha.
  rewrite flushCommitted_unfold.
  destruct (pendingPages a !! nextCommit a) as [page|] eqn:Hlook.
  - apply (IH (size (pendingPages (commitNext a page)))).
    + subst n. simpl. rewrite map_size_delete, Hlook.
      assert (size (pendingPages a) <> 0%nat); [|lia].
      intros Hz. apply map_size_empty_inv in Hz.
      rewrite Hz, lookup_empty in Hlook. discriminate.
    + reflexivity.
    + apply Hcommit; assumption.
  - split; assumption.
Qed.

(** What holds before the loop of [handleResult] over the links and is
    kept by every [enqueue] of a link of the origin of the root holds
    after it. *)
Lemma enqueueLinks_ind (I : aggregator -> Prop) (henv : HandleEnv) (d : Z) :
  (forall a idx link, I a -> SameOrigin (aggBaseURL a) link = true ->
     I (enqueue a (ctxFirstAt henv idx)
          {| crawlJob.url := link; crawlJob.depth := d;
             crawlJob.discoveredAt := nowAt henv idx; crawlJob.seq := 0%N |})) ->
  forall links a idx, I a -> I (enqueueLinks a henv d idx links).
Proof.
  intros Hstep links. induction links as [|l rest IH]; intros a idx Ha; simpl.
  - exact Ha.
  - destruct (SameOrigin (aggBaseURL a) l) eqn:Hso; simpl.
    + apply IH. apply Hstep; assumption.
    + apply IH. exact Ha.
Qed.

(** The two outcomes of [enqueue]. *)
Lemma enqueue_cases (a : aggregator) (c : bool) (job : crawlJob.t) :
  enqueue a c job = a
  \/ ((crawlJob.url job ∉ seen a) /\ c = false
      /\ enqueue a c job
         = {| seen := {[crawlJob.url job]} ∪ seen a;
              analysisErr := analysisErr a;
              jobs := jobs a ++ [crawlJob.setSeq job (nextSeq a)];
              pending := pending a + 1;
              jobsClosed := jobsClosed a;
              aggMaxDepth := aggMaxDepth a;
              report := report a;
              aggBaseURL := aggBaseURL a;
              nextSeq := incr64 (nextSeq a);
              nextCommit := nextCommit a;
              pendingPages := pendingPages a |}).
Proof.
  unfold enqueue. destruct (decide (crawlJob.url job ∈ seen a)); [left; reflexivity|].
  destruct c; [left; reflexivity|]. right. repeat split. assumption.
Qed.

(** [handleResult] by its parts: what [I] says of the aggregator once
    the page is stored is kept by every commit; when no page waits at
    [nextCommit] it gives [J], which the recording of the error and every
    [enqueue] of a link keep. *)
Lemma handleResult_ind (I J : aggregator -> Prop) (a : aggregator)
    (henv : HandleEnv) (result : pageResult.t) :
  let nextDepth := wrap64 (crawlJob.depth (pageResult.job result) + 1) in
  I (setPendingPage a (crawlJob.seq (pageResult.job result))
       (pageResult.page result)) ->
  (forall x page, I x -> pendingPages x !! nextCommit x = Some page ->
                  I (commitNext x page)) ->
  (forall x, I x -> pendingPages x !! nextCommit x = None -> J x) ->
  (forall x, J x -> crawlJob.depth (pageResult.job result) = 0 ->
             pageResult.err result <> None -> analysisErr x = None ->
             J (setAnalysisErr x (pageResult.err result))) ->
  (forall x idx link, J x -> nextDepth <= aggMaxDepth a ->
     SameOrigin (aggBaseURL x) link = true ->
     J (enqueue x (ctxFirstAt henv idx)
          {| crawlJob.url := link; crawlJob.depth := nextDepth;
             crawlJob.discoveredAt := nowAt henv idx; crawlJob.seq := 0%N |})) ->
  J (handleResult a henv result).
Proof.
  intros nextDepth Hstore Hcommit Hflush Herr Henq. unfold handleResult.
  set (a0 := setPendingPage a (crawlJob.seq (pageResult.job result))
               (pageResult.page result)) in *.
  destruct (flushCommitted_ind
              (fun x => I x /\ aggMaxDepth x = aggMaxDepth a) 
              ltac:(intros x page [Hx Hm] Hl; split;
                    [apply Hcommit; assumption|exact Hm])
              a0 ltac:(split; [exact Hstore|reflexivity]))
    as [[HI Hmax] Hnone].
  pose proof (Hflush _ HI Hnone) as HJ.
  set (a1 := flushCommitted a0) in *.
  set (a2 := if (crawlJob.depth (pageResult.job result) =? 0)
                && negb (isNil (pageResult.err result))
                && isNil (analysisErr a1)
             then setAnalysisErr a1 (pageResult.err result) else a1).
  assert (H2 : J a2 /\ aggMaxDepth a2 = aggMaxDepth a).
  { subst a2.
    destruct (crawlJob.depth (pageResult.job result) =? 0) eqn:Hd; simpl;
      [|split; assumption].
    destruct (negb (isNil (pageResult.err result))) eqn:He; simpl;
      [|split; assumption].
    destruct (analysisErr a1) eqn:Ha; simpl; [split; assumption|].
    split; [|exact Hmax]. apply Herr; try assumption.
    - apply Z.eqb_eq. exact Hd.
    - intros Hx. rewrite Hx in He. discriminate. }
  destruct H2 as [HJ2 Hmax2].
  fold nextDepth.
  destruct (Z.gtb_spec nextDepth (aggMaxDepth a2)) as [Hgt|Hle]; [exact HJ2|].
  apply enqueueLinks_ind; [|exact HJ2].
  intros x idx link Hx Hso. apply Henq; try assumption. lia.
Qed.

(** ** The jobs channel *)

Lemma enqueue_pending (a : aggregator) (c : bool) (job : crawlJob.t) :
  pending a = Z.of_nat (length (jobs a)) ->
  pending (enqueue a c job) = Z.of_nat (length (jobs (enqueue a c job)))
  /\ jobsClosed (enqueue a c job) = jobsClosed a.
Proof.
  intros Hp. destruct (enqueue_cases a c job) as [->|(_ & _ & ->)]; [auto|].
  simpl. rewrite length_app. simpl. split; [lia|reflexivity].
Qed.

Lemma handleResult_pending (a : aggregator) (henv : HandleEnv)
    (result : pageResult.t) :
  pending a = Z.of_nat (length (jobs a)) ->
  pending (handleResult a henv result)
  = Z.of_nat (length (jobs (handleResult a henv result)))
  /\ jobsClosed (handleResult a henv result) = jobsClosed a.
Proof.
  intros Hp.
  set (I := fun x : aggregator =>
              pending x = Z.of_nat (length (jobs x))
              /\ jobsClosed x = jobsClosed a).
  apply (handleResult_ind I I).
  - split; [exact Hp|reflexivity].
  - intros x page Hx _. exact Hx.
  - intros x Hx _. exact Hx.
  - intros x Hx _ _ _. exact Hx.
  - intros x idx link [Hx Hc] _ _.
    destruct (enqueue_pending x (ctxFirstAt henv idx)
                {| crawlJob.url := link;
                   crawlJob.depth :=
                     wrap64 (crawlJob.depth (pageResult.job result) + 1);
                   crawlJob.discoveredAt := nowAt henv idx;
                   crawlJob.seq := 0%N |} Hx)
      as [Hp' Hc'].
    split; [exact Hp'|]. rewrite Hc'. exact Hc.
Qed.

Lemma closeJobsIfNeeded_countsJobs (a : aggregator) :
  pending a = Z.of_nat (length (jobs a)) ->
  (jobsClosed a = true -> pending a = 0) ->
  countsJobs (closeJobsIfNeeded a).
Proof.
  intros Hp Hc. unfold countsJobs, closeJobsIfNeeded.
  destruct (pending a =? 0) eqn:Hz; simpl.
  - apply Z.eqb_eq in Hz. destruct (jobsClosed a) eqn:Hcl; simpl;
      rewrite ?Hcl; split; try exact Hp; split; auto.
  - apply Z.eqb_neq in Hz. split; [exact Hp|]. split; [intros Hx; auto|].
    intros Hx. contradiction.
Qed.

Lemma onResult_countsJobs (a : aggregator) (henv : HandleEnv)
    (before after : list crawlJob.t) (j : crawlJob.t) (result : pageResult.t) :
  countsJobs a -> jobs a = before ++ j :: after ->
  countsJobs (onResult (setJobs a (before ++ after)) henv result).
Proof.
  intros [Hp Hc] Hjobs. unfold onResult.
  assert (Hopen : jobsClosed a = false).
  { destruct (jobsClosed a) eqn:Hcl; [|reflexivity].
    assert (pending a = 0) by (apply Hc; reflexivity).
    rewrite Hjobs, length_app in Hp. simpl in Hp. lia. }
  set (a1 := setPending (setJobs a (before ++ after))
               (pending (setJobs a (before ++ after)) - 1)).
  assert (Hp1 : pending a1 = Z.of_nat (length (jobs a1))).
  { simpl. rewrite Hp, Hjobs, !length_app. simpl. lia. }
  destruct (handleResult_pending a1 henv result Hp1) as [Hp2 Hc2].
  apply closeJobsIfNeeded_countsJobs; [exact Hp2|].
  rewrite Hc2. simpl. rewrite Hopen. discriminate.
Qed.

Lemma runInit_countsJobs (an : analyzer) (rep : Report.t) (c0 cf : bool) :
  countsJobs (agg (runInit an rep c0 cf)).
Proof.
  unfold runInit. simpl.
  destruct (enqueue_pending (newAggregator an rep) cf (rootJob an) eq_refl)
    as [Hp Hc].
  apply closeJobsIfNeeded_countsJobs; [exact Hp|].
  rewrite Hc. simpl. discriminate.
Qed.

Lemma steps_countsJobs (an : analyzer) (rep : Report.t) (c0 cf : bool)
    (st : RunState) :
  steps (runInit an rep c0 cf) st -> countsJobs (agg st).
Proof.
  intros Hsteps. remember (runInit an rep c0 cf) as st0 eqn:Hst0.
  induction Hsteps as [st|st1 st2 st3 Hsteps IH Hstep].
  - subst st. apply runInit_countsJobs.
  - specialize (IH Hst0).
    destruct Hstep as [st before j after env henv Hjobs Hctx|st|st Hdone];
      cbn [agg].
    + eapply onResult_countsJobs; eassumption.
    + exact IH.
    + destruct IH as [Hp Hc]. apply closeJobsIfNeeded_countsJobs; [exact Hp|].
      apply Hc.
Qed.

(** X2. In every state of a run: [pending] counts the jobs that are out;
    the jobs channel is closed exactly when no job is out; and once it is
    closed no step changes the aggregator any more: no result arrives,
    nothing is enqueued (so nothing is sent on the closed channel), and
    the report and the error are final. *)
Theorem jobs_closed_when_idle (an : analyzer) (rep : Report.t) (c0 cf : bool)
    (st : RunState) :
  steps (runInit an rep c0 cf) st ->
  pending (agg st) = Z.of_nat (length (jobs (agg st)))
  /\ (jobsClosed (agg st) = true <-> jobs (agg st) = [])
  /\ (forall st', step st st' -> jobsClosed (agg st) = true ->
        agg st' = agg st).
Proof.
  intros Hsteps. destruct (steps_countsJobs an rep c0 cf st Hsteps) as [Hp Hc].
  assert (Hiff : jobsClosed (agg st) = true <-> jobs (agg st) = []).
  { rewrite Hc, Hp. split.
    - intros Hz. destruct (jobs (agg st)); [reflexivity|simpl in Hz; lia].
    - intros ->. reflexivity. }
  split; [exact Hp|]. split; [exact Hiff|].
  intros st' Hstep Hclosed.
  destruct Hstep as [st before j after env henv Hjobs Hctx|st|st Hdone];
    cbn [agg].
  - apply Hiff in Hclosed. rewrite Hclosed in Hjobs.
    destruct before; discriminate.
  - reflexivity.
  - unfold closeJobsIfNeeded. rewrite Hclosed, orb_true_r. reflexivity.
Qed.

(** ** Depth, origin and the error of a run *)


Lemma crawlJobOk_page (an : analyzer) (env : JobEnv) (j : crawlJob.t) :
  crawlJobOk an j ->
  crawledPage an (pageResult.page (processJob env j).1).
Proof.
  destruct (processJob_page env j) as (Hu & Hd & _). cbn zeta in Hu, Hd.
  intros [->|[Hdepth Hso]].
  - left. rewrite Hu, Hd. split; reflexivity.
  - right. rewrite Hu, Hd. split; assumption.
Qed.

Lemma enqueue_crawlInv (an : analyzer) (a : aggregator) (c : bool)
    (job : crawlJob.t) :
  crawlInv an a ->
  crawlJobOk an (crawlJob.setSeq job (nextSeq a)) ->
  crawlInv an (enqueue a c job).
Proof.
  intros Ha Hjob. destruct (enqueue_cases a c job) as [->|(_ & _ & ->)]; [exact Ha|].
  destruct Ha. constructor; simpl; try assumption.
  apply Forall_app. split; [assumption|]. constructor; [exact Hjob|constructor].
Qed.

Lemma closeJobsIfNeeded_crawlInv (an : analyzer) (a : aggregator) :
  crawlInv an a -> crawlInv an (closeJobsIfNeeded a).
Proof.
  intros Ha. unfold closeJobsIfNeeded.
  destruct (negb (pending a =? 0) || jobsClosed a); [exact Ha|].
  destruct Ha. constructor; assumption.
Qed.

Lemma onResult_crawlInv (an : analyzer) (a : aggregator) (henv : HandleEnv)
    (env : JobEnv) (before after : list crawlJob.t) (j : crawlJob.t) :
  0 <= maxDepth an < 2 ^ 63 - 1 ->
  crawlInv an a -> jobs a = before ++ j :: after ->
  crawlInv an (onResult (setJobs a (before ++ after)) henv (processJob env j).1).
Proof.
  intros Hbound Ha Hjobs.
  pose proof (ci_jobs an a Ha) as Hall. rewrite Hjobs in Hall.
  apply Forall_app in Hall as [Hb Hall].
  apply Forall_cons in Hall as [Hj Haft].
  assert (Hdepth : 0 <= crawlJob.depth j <= maxDepth an).
  { destruct Hj as [->|[Hd _]]; [simpl|]; lia. }
  unfold onResult. apply closeJobsIfNeeded_crawlInv.
  set (a1 := setPending (setJobs a (before ++ after))
               (pending (setJobs a (before ++ after)) - 1)).
  assert (Ha1 : crawlInv an a1).
  { destruct Ha. constructor; simpl; try assumption.
    apply Forall_app. split; assumption. }
  assert (Hmax1 : aggMaxDepth a1 = maxDepth an) by exact (ci_maxDepth an a1 Ha1).
  apply (handleResult_ind (crawlInv an) (crawlInv an)).
  - destruct Ha1. constructor; simpl; try assumption.
    apply map_Forall_insert_2; [|assumption].
    apply crawlJobOk_page. exact Hj.
  - intros x page Hx Hlook. destruct Hx as [? ? ? Hpg Hpp].
    constructor; simpl; try assumption.
    + apply Forall_app. split; [exact Hpg|].
      constructor; [exact (Hpp _ _ Hlook)|constructor].
    + apply map_Forall_delete. exact Hpp.
  - intros x Hx _. exact Hx.
  - intros x Hx _ _ _. destruct Hx. constructor; assumption.
  - rewrite processJob_job. intros x idx link Hx Hle Hso.
    apply enqueue_crawlInv; [exact Hx|]. right. split; simpl.
    + rewrite Hmax1 in Hle.
      rewrite FetcherSpec.wrap64_small in Hle |- * by lia. lia.
    + rewrite <- (ci_baseURL an x Hx). exact Hso.
Qed.

Lemma runInit_crawlInv (an : analyzer) (rep : Report.t) (c0 cf : bool) :
  Report.Pages rep = [] ->
  crawlInv an (agg (runInit an rep c0 cf)).
Proof.
  intros Hempty. unfold runInit. cbn [agg].
  apply closeJobsIfNeeded_crawlInv. apply enqueue_crawlInv.
  - constructor; simpl; try reflexivity.
    + constructor.
    + rewrite Hempty. constructor.
    + apply map_Forall_empty.
  - left. reflexivity.
Qed.

Lemma steps_crawlInv (an : analyzer) (rep : Report.t) (c0 cf : bool)
    (st : RunState) :
  0 <= maxDepth an < 2 ^ 63 - 1 ->
  Report.Pages rep = [] ->
  steps (runInit an rep c0 cf) st -> crawlInv an (agg st).
Proof.
  intros Hbound Hempty Hsteps. remember (runInit an rep c0 cf) as st0 eqn:Hst0.
  induction Hsteps as [st|st1 st2 st3 Hsteps IH Hstep].
  - subst st. apply runInit_crawlInv. exact Hempty.
  - specialize (IH Hst0).
    destruct Hstep as [st before j after env henv Hjobs Hctx|st|st Hdone];
      cbn [agg].
    + eapply onResult_crawlInv; eassumption.
    + exact IH.
    + apply closeJobsIfNeeded_crawlInv. exact IH.
Qed.

(** ** The error of the run *)





Lemma steps_pages_root (an : analyzer) (rep : Report.t) (c0 cf : bool)
    (st : RunState) :
  steps (runInit an rep c0 cf) st ->
  Report.RootURL (report (agg st)) = Report.RootURL rep.
Proof.
  intros Hsteps. remember (runInit an rep c0 cf) as st0 eqn:Hst0.
  induction Hsteps as [st|st1 st2 st3 Hsteps IH Hstep].
  - subst st. destruct (runInit_frame an rep c0 cf) as (-> & _). reflexivity.
  - specialize (IH Hst0).
    destruct Hstep as [st before j after env henv Hjobs Hctx|st|st Hdone];
      cbn [agg].
    + destruct (onResult_pages (fun _ => True)
                  (setJobs (agg st) (before ++ after)) henv (processJob env j).1
                  I ltac:(apply Forall_true; auto) ltac:(intros ? ? ?; exact I))
        as (_ & _ & _ & Hr & _).
      cbn zeta in Hr. rewrite Hr. exact IH.
    + exact IH.
    + destruct (closeJobsIfNeeded_frame (agg st)) as (-> & _). exact IH.
Qed.




Lemma setup_bounds (opts : Options.t) (an : analyzer) (rep : Report.t) :
  analyzeSetup opts = inr (an, rep) ->
  Options.Depth opts < 2 ^ 63 - 1 ->
  0 <= maxDepth an < 2 ^ 63 - 1 /\ Report.Pages rep = []
  /\ Report.RootURL rep = url_String (baseURL an).
Proof.
  intros Hsetup Hd.
  destruct (setup_report_empty opts an rep Hsetup) as (Hempty & _ & Hmax & _).
  split; [|split; [exact Hempty|]].
  - rewrite Hmax. unfold normalizeMaxDepth.
    destruct (Z.ltb_spec (Options.Depth opts) 0); lia.
  - unfold analyzeSetup in Hsetup.
    destruct (String.eqb (Options.URL opts) ""); [discriminate|].
    destruct (parseRootURL (Options.URL opts)); [|discriminate].
    destruct (Options.HTTPClient opts); [|discriminate].
    injection Hsetup as <- <-. reflexivity.
Qed.

(** X3. A crawl stays within the maximum depth and the origin of the
    root.  When the configured depth is below the largest [int], every
    job the aggregator sends is the root job or a job at a depth from 1 to
    the maximum depth for a URL of the origin of the root; and every page
    of the report that [marshalReport] serializes is the page of the root
    URL at depth 0, or a page at a depth from 1 to the maximum depth whose
    URL is of the origin of the root. *)
Theorem crawl_within_depth_and_origin (opts : Options.t) (an : analyzer)
    (rep : Report.t) :
  analyzeSetup opts = inr (an, rep) ->
  Options.Depth opts < 2 ^ 63 - 1 ->
  (forall c0 cf st, steps (runInit an rep c0 cf) st ->
     Forall (crawlJobOk an) (jobs (agg st)))
  /\ (forall report err page,
        analyzeReport opts report err ->
        page ∈ Report.Pages (emittedReport report) ->
        (Page.Depth page = 0 /\ Page.URL page = Report.RootURL report)
        \/ (1 <= Page.Depth page <= normalizeMaxDepth (Options.Depth opts)
            /\ SameOrigin (baseURL an) (Page.URL page) = true)).
Proof.
  intros Hsetup Hd.
  destruct (setup_bounds opts an rep Hsetup Hd) as (Hbound & Hempty & Hroot).
  destruct (setup_report_empty opts an rep Hsetup) as (_ & _ & Hmax & _).
  split.
  - intros c0 cf st Hsteps.
    exact (ci_jobs an _ (steps_crawlInv an rep c0 cf st Hbound Hempty Hsteps)).
  - intros report err page Hrun Hin.
    destruct Hrun as [r e Hs|an' rep' c0 cf st Hs Hcf Hsteps Hclosed];
      rewrite Hsetup in Hs; [discriminate|].
    injection Hs as <- <-.
    pose proof (steps_crawlInv an rep c0 cf st Hbound Hempty Hsteps) as Hinv.
    unfold emittedReport in Hin. simpl in Hin.
    destruct (AssemblySpec.sortPages_sorted (Report.Pages (Crawler.report (agg st))))
      as [_ Hperm].
    rewrite Hperm in Hin.
    pose proof (ci_pages an _ Hinv) as Hpages. rewrite Forall_forall in Hpages.
    pose proof (steps_pages_root an rep c0 cf st Hsteps) as Hr.
    destruct (Hpages page Hin) as [[Hz Hu]|[Hdp Hso]].
    + left. split; [exact Hz|]. rewrite Hr, Hroot. exact Hu.
    + right. rewrite <- Hmax. split; assumption.
Qed.




(** ** Sequence numbers and the pages of the URLs seen *)

Lemma incr64_small (n : N) : (n + 1 < 2 ^ 64)%N -> incr64 n = (n + 1)%N.
Proof. intros Hn. unfold incr64. apply N.mod_small. exact Hn. Qed.

Lemma enqueue_bounded (a : aggregator) (c : bool) (job : crawlJob.t) :
  bounded (enqueue a c job) -> bounded a.
Proof.
  destruct (enqueue_cases a c job) as [->|(Hnew & _ & ->)]; [auto|].
  unfold bounded. simpl. intros Hb.
  assert (size (seen a) <= size ({[crawlJob.url job]} ∪ seen a))%nat
    by (apply subseteq_size; set_solver).
  lia.
Qed.

Lemma enqueue_seqInv (a : aggregator) (c : bool) (job : crawlJob.t) :
  bounded (enqueue a c job) -> seqInv a -> seqInv (enqueue a c job).
Proof.
  destruct (enqueue_cases a c job) as [->|(Hnew & _ & ->)]; [auto|].
  unfold bounded. simpl. intros Hb Ha.
  assert (Hsize : size ({[crawlJob.url job]} ∪ seen a) = S (size (seen a))).
  { rewrite size_union by set_solver. rewrite size_singleton. reflexivity. }
  rewrite Hsize in Hb.
  destruct Ha as [Hns Hnc Hord Hnd Hap Hrg Hurls].
  assert (Hincr : incr64 (nextSeq a) = (nextSeq a + 1)%N).
  { apply incr64_small. rewrite Hns. lia. }
  assert (Hold : forall k, k ∈ map crawlJob.seq (jobs a) -> (k < nextSeq a)%N).
  { intros k Hk. apply (Hrg k). right. exact Hk. }
  constructor; simpl.
  - rewrite Hincr, Hsize, Hns. lia.
  - exact Hnc.
  - rewrite Hincr. lia.
  - rewrite map_app. simpl. apply NoDup_app. split; [exact Hnd|]. split.
    + intros k Hk Hx. apply list_elem_of_singleton in Hx. subst k.
      apply Hold in Hk. lia.
    + apply NoDup_singleton.
  - intros k Hk. rewrite map_app. simpl. intros Hx.
    apply elem_of_app in Hx as [Hx|Hx].
    + exact (Hap k Hk Hx).
    + apply list_elem_of_singleton in Hx. subst k.
      assert (nextCommit a <= nextSeq a < nextSeq a)%N; [|lia].
      apply Hrg. left. exact Hk.
  - intros k. rewrite map_app, elem_of_app. simpl.
    rewrite list_elem_of_singleton, Hincr.
    specialize (Hrg k). split.
    + intros [Hk|[Hk| ->]]; [| |lia].
      * assert (nextCommit a <= k < nextSeq a)%N by (apply Hrg; auto). lia.
      * assert (nextCommit a <= k < nextSeq a)%N by (apply Hrg; auto). lia.
    + intros Hk. destruct (decide (k = nextSeq a)) as [->|Hne]; [auto|].
      assert (Hin : k ∈ dom (pendingPages a)
                    \/ k ∈ map crawlJob.seq (jobs a)) by (apply Hrg; lia).
      destruct Hin; auto.
  - unfold heldURLs in *. simpl. rewrite map_app. simpl.
    rewrite elements_union_singleton by exact Hnew.
    rewrite <- Hurls. unfold pendingURLs. simpl.
    rewrite !app_assoc. rewrite <- Permutation_cons_append. reflexivity.
Qed.

Lemma pendingURLs_insert (a : aggregator) (k : N) (page : Page.t) :
  pendingPages a !! k = None ->
  map Page.URL (map_to_list (<[k := page]> (pendingPages a))).*2
  ≡ₚ Page.URL page :: map Page.URL (map_to_list (pendingPages a)).*2.
Proof.
  intros Hk. rewrite map_to_list_insert by exact Hk. reflexivity.
Qed.

Lemma pendingURLs_delete (a : aggregator) (k : N) (page : Page.t) :
  pendingPages a !! k = Some page ->
  Page.URL page :: map Page.URL (map_to_list (delete k (pendingPages a))).*2
  ≡ₚ map Page.URL (map_to_list (pendingPages a)).*2.
Proof.
  intros Hk.
  rewrite <- (map_to_list_delete (pendingPages a) k page Hk). reflexivity.
Qed.

(** A result comes back: its job leaves the jobs that are out and its
    page is stored under the job's sequence number. *)
Lemma store_seqInv (a : aggregator) (before after : list crawlJob.t)
    (j : crawlJob.t) (page : Page.t) (n : Z) :
  seqInv a -> jobs a = before ++ j :: after ->
  Page.URL page = crawlJob.url j ->
  seqInv (setPendingPage (setPending (setJobs a (before ++ after)) n)
            (crawlJob.seq j) page).
Proof.
  intros [Hns Hnc Hord Hnd Hap Hrg Hurls] Hjobs Hurl.
  assert (Hperm : map crawlJob.seq (jobs a)
                  ≡ₚ crawlJob.seq j :: map crawlJob.seq (before ++ after)).
  { rewrite Hjobs, !map_app. simpl. rewrite <- Permutation_middle. reflexivity. }
  assert (Hnd' : NoDup (crawlJob.seq j :: map crawlJob.seq (before ++ after))).
  { rewrite <- Hperm. exact Hnd. }
  apply NoDup_cons in Hnd' as [Hfresh Hnd'].
  assert (Hin : crawlJob.seq j ∈ map crawlJob.seq (jobs a)).
  { rewrite Hperm. left. }
  assert (Hnone : pendingPages a !! crawlJob.seq j = None).
  { apply not_elem_of_dom. intros Hd. exact (Hap _ Hd Hin). }
  assert (Hmem : forall k, k ∈ map crawlJob.seq (jobs a)
                           <-> k = crawlJob.seq j
                               \/ k ∈ map crawlJob.seq (before ++ after)).
  { intros k. rewrite Hperm, elem_of_cons. reflexivity. }
  constructor; simpl.
  - exact Hns.
  - exact Hnc.
  - exact Hord.
  - exact Hnd'.
  - intros k Hk. rewrite dom_insert in Hk.
    apply elem_of_union in Hk as [Hk|Hk].
    + apply elem_of_singleton in Hk. subst k. exact Hfresh.
    + intros Hx. apply (Hap k Hk). apply Hmem. right. exact Hx.
  - intros k. rewrite dom_insert, elem_of_union, elem_of_singleton.
    rewrite <- (Hrg k), Hmem. tauto.
  - unfold heldURLs, pendingURLs in *. simpl.
    rewrite pendingURLs_insert by exact Hnone. rewrite <- Hurls, Hjobs.
    rewrite Hurl, !map_app. simpl.
    rewrite <- !Permutation_middle. reflexivity.
Qed.

Lemma commitNext_seqInv (a : aggregator) (page : Page.t) :
  bounded a -> seqInv a -> pendingPages a !! nextCommit a = Some page ->
  seqInv (commitNext a page).
Proof.
  unfold bounded. intros Hb [Hns Hnc Hord Hnd Hap Hrg Hurls] Hlook.
  assert (Hdom : nextCommit a ∈ dom (pendingPages a)).
  { apply elem_of_dom. eexists. exact Hlook. }
  assert (Hlt : (nextCommit a < nextSeq a)%N).
  { apply (Hrg (nextCommit a)). left. exact Hdom. }
  assert (Hincr : incr64 (nextCommit a) = (nextCommit a + 1)%N).
  { apply incr64_small. lia. }
  constructor; simpl.
  - exact Hns.
  - rewrite Hincr, length_app. simpl. lia.
  - rewrite Hincr. lia.
  - exact Hnd.
  - intros k Hk. rewrite dom_delete in Hk.
    apply elem_of_difference in Hk as [Hk _]. exact (Hap k Hk).
  - intros k. rewrite dom_delete, elem_of_difference, elem_of_singleton, Hincr.
    specialize (Hrg k). split.
    + intros [[Hk Hne]|Hk].
      * assert (nextCommit a <= k < nextSeq a)%N by (apply Hrg; auto). lia.
      * assert (nextCommit a <= k < nextSeq a)%N by (apply Hrg; auto).
        assert (k <> nextCommit a); [|lia].
        intros ->. exact (Hap _ Hdom Hk).
    + intros Hk.
      assert (Hin : k ∈ dom (pendingPages a)
                    \/ k ∈ map crawlJob.seq (jobs a)) by (apply Hrg; lia).
      destruct Hin as [Hin|Hin]; [left|right; exact Hin].
      split; [exact Hin|lia].
  - unfold heldURLs, pendingURLs in *. simpl. rewrite <- Hurls, map_app. simpl.
    rewrite <- (pendingURLs_delete a (nextCommit a) page Hlook).
    rewrite <- !app_assoc. simpl. reflexivity.
Qed.

(** What [seqInv] gives once it holds of a state where no page waits at
    [nextCommit] and no job is out. *)
Lemma seqInv_idle (a : aggregator) :
  seqInv a -> pendingPages a !! nextCommit a = None -> jobs a = [] ->
  pendingPages a = ∅
  /\ map Page.URL (Report.Pages (report a)) ≡ₚ elements (seen a)
  /\ length (Report.Pages (report a)) = size (seen a).
Proof.
  intros [Hns Hnc Hord Hnd Hap Hrg Hurls] Hnone Hjobs.
  assert (Hempty : pendingPages a = ∅).
  { apply map_empty. intros k. apply not_elem_of_dom. intros Hk.
    assert (Hk' : (nextCommit a <= k < nextSeq a)%N) by (apply Hrg; auto).
    assert (Hc : nextCommit a ∈ dom (pendingPages a)
                 \/ nextCommit a ∈ map crawlJob.seq (jobs a))
      by (apply Hrg; lia).
    destruct Hc as [Hc|Hc].
    - apply not_elem_of_dom in Hnone. contradiction.
    - rewrite Hjobs in Hc. simpl in Hc. apply elem_of_nil in Hc. exact Hc. }
  split; [exact Hempty|].
  assert (Hp : map Page.URL (Report.Pages (report a)) ≡ₚ elements (seen a)).
  { unfold heldURLs, pendingURLs in Hurls.
    rewrite Hempty, map_to_list_empty, Hjobs in Hurls. simpl in Hurls.
    rewrite app_nil_r in Hurls. exact Hurls. }
  split; [exact Hp|].
  apply Permutation_length in Hp. rewrite length_map in Hp. exact Hp.
Qed.

Lemma closeJobsIfNeeded_seqState (a : aggregator) :
  seqState a -> seqState (closeJobsIfNeeded a).
Proof.
  unfold closeJobsIfNeeded.
  destruct (negb (pending a =? 0) || jobsClosed a); [auto|].
  intros Ha Hb. destruct (Ha Hb) as [[? ? ? ? ? ? ?] Hf].
  split; [constructor; assumption|exact Hf].
Qed.

Lemma onResult_seqState (a : aggregator) (henv : HandleEnv) (env : JobEnv)
    (before after : list crawlJob.t) (j : crawlJob.t) :
  seqState a -> jobs a = before ++ j :: after ->
  seqState (onResult (setJobs a (before ++ after)) henv (processJob env j).1).
Proof.
  intros Ha Hjobs. unfold onResult. apply closeJobsIfNeeded_seqState.
  apply (handleResult_ind (fun x => bounded x -> seqInv x) seqState).
  - rewrite processJob_job. intros Hb.
    destruct (Ha Hb) as [Hinv _]. apply store_seqInv; [exact Hinv|exact Hjobs|].
    destruct (processJob_page env j) as (Hu & _). exact Hu.
  - intros x page Hx Hlook Hb. apply commitNext_seqInv; auto.
  - intros x Hx Hnone Hb. split; [apply Hx; exact Hb|exact Hnone].
  - intros x Hx _ _ _ Hb. destruct (Hx Hb) as [[? ? ? ? ? ? ?] Hf].
    split; [constructor; assumption|exact Hf].
  - intros x idx link Hx _ _ Hb.
    destruct (Hx (enqueue_bounded _ _ _ Hb)) as [Hinv Hf].
    split; [apply enqueue_seqInv; assumption|].
    destruct (enqueue_cases x (ctxFirstAt henv idx)
                {| crawlJob.url := link;
                   crawlJob.depth :=
                     wrap64 (crawlJob.depth (pageResult.job (processJob env j).1) + 1);
                   crawlJob.discoveredAt := nowAt henv idx;
                   crawlJob.seq := 0%N |})
      as [->|(_ & _ & ->)]; exact Hf.
Qed.

Lemma runInit_seqState (an : analyzer) (rep : Report.t) (c0 cf : bool) :
  Report.Pages rep = [] ->
  seqState (agg (runInit an rep c0 cf)).
Proof.
  intros Hempty. unfold runInit. cbn [agg]. apply closeJobsIfNeeded_seqState.
  intros Hb. split.
  - apply enqueue_seqInv; [exact Hb|].
    constructor; simpl; rewrite ?Hempty; try reflexivity.
    + constructor.
    + intros k Hk. rewrite dom_empty in Hk. apply elem_of_empty in Hk. destruct Hk.
    + intros k. rewrite dom_empty. split.
      * intros [Hk|Hk]; [apply elem_of_empty in Hk|apply elem_of_nil in Hk];
          destruct Hk.
      * lia.
    + unfold heldURLs, pendingURLs. simpl.
      rewrite Hempty, map_to_list_empty, elements_empty. reflexivity.
  - destruct (enqueue_cases (newAggregator an rep) cf (rootJob an))
      as [->|(_ & _ & ->)]; reflexivity.
Qed.

Lemma steps_seqState (an : analyzer) (rep : Report.t) (c0 cf : bool)
    (st : RunState) :
  Report.Pages rep = [] ->
  steps (runInit an rep c0 cf) st -> seqState (agg st).
Proof.
  intros Hempty Hsteps. remember (runInit an rep c0 cf) as st0 eqn:Hst0.
  induction Hsteps as [st|st1 st2 st3 Hsteps IH Hstep].
  - subst st. apply runInit_seqState. exact Hempty.
  - specialize (IH Hst0).
    destruct Hstep as [st before j after env henv Hjobs Hctx|st|st Hdone];
      cbn [agg].
    + apply onResult_seqState; assumption.
    + exact IH.
    + apply closeJobsIfNeeded_seqState. exact IH.
Qed.

(** X5. One page for each URL.  In a crawl that has sent fewer than
    [2^64] URLs: no URL is held twice among the pages of the report, the
    pages that wait for their turn and the jobs that are out, and the URLs
    held are the URLs marked as seen; the report has as many pages as
    pages were committed; and when the jobs channel is closed (the run is
    over) no page is left waiting, the URLs of the pages of the report
    are the URLs seen, each once, and so no two pages of the report that
    [marshalReport] serializes have the same URL. *)
Theorem one_page_per_url (opts : Options.t) (an : analyzer) (rep : Report.t)
    (c0 cf : bool) (st : RunState) :
  analyzeSetup opts = inr (an, rep) ->
  steps (runInit an rep c0 cf) st ->
  (N.of_nat (size (seen (agg st))) < 2 ^ 64)%N ->
  NoDup (heldURLs (agg st))
  /\ (forall u, u ∈ heldURLs (agg st) <-> u ∈ seen (agg st))
  /\ nextCommit (agg st) = N.of_nat (length (Report.Pages (report (agg st))))
  /\ (jobsClosed (agg st) = true ->
      pendingPages (agg st) = ∅
      /\ map Page.URL (Report.Pages (report (agg st)))
         ≡ₚ elements (seen (agg st))
      /\ NoDup (map Page.URL
                  (Report.Pages (emittedReport (report (agg st)))))).
Proof.
  intros Hsetup Hsteps Hb.
  destruct (setup_report_empty opts an rep Hsetup) as (Hempty & _).
  destruct (steps_seqState an rep c0 cf st Hempty Hsteps Hb) as [Hinv Hf].
  pose proof (si_urls _ Hinv) as Hurls.
  split; [rewrite Hurls; apply NoDup_elements|].
  split; [intros u; rewrite Hurls; apply elem_of_elements|].
  split; [exact (si_commit _ Hinv)|].
  intros Hclosed.
  destruct (steps_countsJobs an rep c0 cf st Hsteps) as [Hp Hc].
  assert (Hjobs : jobs (agg st) = []).
  { apply Hc in Hclosed. rewrite Hclosed in Hp.
    destruct (jobs (agg st)); [reflexivity|simpl in Hp; lia]. }
  destruct (seqInv_idle _ Hinv Hf Hjobs) as (Hpp & Hperm & _).
  split; [exact Hpp|]. split; [exact Hperm|].
  unfold emittedReport. simpl.
  destruct (AssemblySpec.sortPages_sorted (Report.Pages (Crawler.report (agg st))))
    as [_ Hsort].
  rewrite Hsort, Hperm. apply NoDup_elements.
Qed.

End WithExternals.

(** ** The runs of the fixtures *)

Lemma linkedRun_mid : @steps fixtureExternals linkedRunStart linkedRunMid.
Proof.
  eapply steps_step; [apply steps_refl|].
  exact (@step_result fixtureExternals linkedRunStart [] (rootJobAt 0) []
           (healthyEnv depthZeroBody) liveHandleEnv eq_refl
           (fun i (Hi : false = true) => Hi)).
Qed.

Lemma linkedRun_end : @steps fixtureExternals linkedRunStart linkedRunEnd.
Proof.
  eapply steps_step; [apply linkedRun_mid|].
  exact (@step_result fixtureExternals linkedRunMid [] linkedChildJob []
           (healthyEnv "") liveHandleEnv eq_refl
           (fun i (Hi : false = true) => Hi)).
Qed.

Lemma failing_run_analyzed :
  @analyzeReport fixtureExternals (contractOptions "https://example.com" 0)
    (report (agg (rootRunEnd failingEnv)))
    (analysisErr (agg (rootRunEnd failingEnv))).
Proof.
  apply (@analyze_run fixtureExternals _ rootAnalyzer rootReport false false
           (rootRunEnd failingEnv)).
  - reflexivity.
  - discriminate.
  - apply rootRun_steps.
  - reflexivity.
Qed.

(** The theorem at the state where the job of the link is out. *)
Lemma jobs_closed_when_idle_witness :
  pending (agg linkedRunMid) = 1
  /\ jobs (agg linkedRunMid) = [linkedChildJob]
  /\ jobsClosed (agg linkedRunMid) = false.
Proof.
  destruct (@jobs_closed_when_idle fixtureExternals linkedAnalyzer linkedReport
              false false linkedRunMid linkedRun_mid) as (Hp & _ & _).
  split; [exact Hp|]. split; reflexivity.
Defined.

(** The theorem at [Depth: 1]: the job of the link is a job at depth 1
    for a URL of the origin of the root. *)
Lemma crawl_within_depth_and_origin_witness :
  Forall (@crawlJobOk fixtureExternals linkedAnalyzer) [linkedChildJob].
Proof.
  destruct (@crawl_within_depth_and_origin fixtureExternals
              (contractOptions "https://example.com" 1)
              linkedAnalyzer linkedReport eq_refl
              ltac:(vm_compute; reflexivity)) as (Hjobs & _).
  exact (Hjobs false false linkedRunMid linkedRun_mid).
Defined.


(** The theorem at the end of the run with the link: two pages, for the
    two URLs seen. *)
Lemma one_page_per_url_witness :
  map Page.URL (Report.Pages (report (agg linkedRunEnd)))
  = ["https://example.com"; "https://example.com/missing"]
  /\ NoDup (map Page.URL
              (Report.Pages (emittedReport (report (agg linkedRunEnd)))))
  /\ pendingPages (agg linkedRunEnd) = ∅.
Proof.
  destruct (@one_page_per_url fixtureExternals
              (contractOptions "https://example.com" 1)
              linkedAnalyzer linkedReport false false linkedRunEnd
              eq_refl linkedRun_end ltac:(vm_compute; reflexivity))
    as (_ & _ & _ & Hend).
  destruct (Hend eq_refl) as (Hpp & _ & Hnd).
  split; [reflexivity|]. split; [exact Hnd|exact Hpp].
Defined.

End RunSpec.

(* ===================================================================== *)
(** * Properties of the links and the assets of a page *)
(* ===================================================================== *)

Module LinksSpec.
Import Fetcher Crawler Fixture Links.
Local Open Scope Z_scope.

Section KeepFirst.
Context {A B : Type} (key : A -> option string) (mk : A -> string -> B)
        (keyOf : B -> string).
Hypothesis keyOf_mk : forall x k, keyOf (mk x k) = k.

Lemma firstWith_skip (x : A) (l : list A) (y : A) (k : string) :
  key x <> Some k ->
  firstWith key (x :: l) y k <-> firstWith key l y k.
Proof.
  intros Hx. split.
  - intros (before & after & Hl & Hy & Hb).
    destruct before as [|z before]; simpl in Hl.
    + injection Hl as -> ->. contradiction.
    + injection Hl as -> ->. exists before, after.
      split; [reflexivity|]. split; [exact Hy|].
      intros w Hw. apply Hb. right. exact Hw.
  - intros (before & after & -> & Hy & Hb).
    exists (x :: before), after. split; [reflexivity|]. split; [exact Hy|].
    intros w Hw. apply elem_of_cons in Hw as [->|Hw]; [exact Hx|].
    apply Hb, Hw.
Qed.

Lemma firstWith_here (x : A) (l : list A) (y : A) (k : string) :
  key x = Some k ->
  firstWith key (x :: l) y k <-> y = x.
Proof.
  intros Hx. split.
  - intros (before & after & Hl & Hy & Hb).
    destruct before as [|z before]; simpl in Hl.
    + injection Hl as -> ->. reflexivity.
    + injection Hl as -> ->. exfalso. apply (Hb z); [left|exact Hx].
  - intros ->. exists [], l. split; [reflexivity|]. split; [exact Hx|].
    intros w Hw. inversion Hw.
Qed.

(** The loop from any state in which [seen] holds the keys of [res]. *)
Lemma keepFirst_fold (l : list A) (res : list B) (seen : gset string) :
  exists rest,
    (fold_left (keepFirstStep key mk) l (res, seen)).1 = res ++ rest
    /\ (forall k, k ∈ (fold_left (keepFirstStep key mk) l (res, seen)).2
                  <-> k ∈ seen \/ k ∈ map keyOf rest)
    /\ NoDup (map keyOf rest)
    /\ (forall b, b ∈ rest <->
          exists x k, firstWith key l x k /\ (k ∉ seen) /\ b = mk x k)
    /\ rest `sublist_of` omap (kept key mk) l.
Proof.
  revert res seen. induction l as [|x l IH]; intros res seen; simpl.
  - exists []. rewrite app_nil_r. split; [reflexivity|].
    split; [intros k; simpl; rewrite elem_of_nil; tauto|].
    split; [constructor|]. split; [|constructor].
    intros b. split; [intros Hb; inversion Hb|].
    intros (x & k & (before & after & Hl & _) & _).
    destruct before; discriminate.
  - unfold keepFirstStep at 2 4. unfold kept at 1. simpl.
    destruct (key x) as [k0|] eqn:Hk.
    + destruct (decide (k0 ∈ seen)) as [Hin|Hnin].
      * destruct (IH res seen) as (rest & Hr & Hs & Hnd & Hmem & Hsub).
        exists rest. split; [exact Hr|]. split; [exact Hs|].
        split; [exact Hnd|]. split.
        -- intros b. rewrite Hmem. split.
           ++ intros (y & k & Hf & Hk' & ->). exists y, k.
              split; [|split; [exact Hk'|reflexivity]].
              apply firstWith_skip; [|exact Hf].
              intros Heq. rewrite Hk in Heq. injection Heq as ->. contradiction.
           ++ intros (y & k & Hf & Hk' & ->). exists y, k.
              split; [|split; [exact Hk'|reflexivity]].
              apply firstWith_skip in Hf; [exact Hf|].
              intros Heq. rewrite Hk in Heq. injection Heq as ->. contradiction.
        -- apply sublist_cons. exact Hsub.
      * destruct (IH (res ++ [mk x k0]) ({[k0]} ∪ seen))
          as (rest & Hr & Hs & Hnd & Hmem & Hsub).
        exists (mk x k0 :: rest).
        split; [rewrite Hr, <- app_assoc; reflexivity|].
        split.
        { intros k. rewrite Hs. simpl. rewrite keyOf_mk.
          rewrite elem_of_union, elem_of_singleton, elem_of_cons. tauto. }
        split.
        { simpl. rewrite keyOf_mk. constructor; [|exact Hnd].
          intros Hin. apply list_elem_of_fmap in Hin as (b & Hb & Hin).
          apply Hmem in Hin as (y & k & _ & Hk' & ->).
          rewrite keyOf_mk in Hb. subst k. apply Hk'.
          apply elem_of_union_l, elem_of_singleton. reflexivity. }
        split.
        -- intros b. rewrite elem_of_cons, Hmem. split.
           ++ intros [->|(y & k & Hf & Hk' & ->)].
              ** exists x, k0. split; [|split; [exact Hnin|reflexivity]].
                 apply firstWith_here; [exact Hk|reflexivity].
              ** exists y, k.
                 rewrite not_elem_of_union, not_elem_of_singleton in Hk'.
                 destruct Hk' as [Hne Hk'].
                 split; [|split; [exact Hk'|reflexivity]].
                 apply firstWith_skip; [|exact Hf].
                 intros Heq. rewrite Hk in Heq. injection Heq as ->.
                 contradiction.
           ++ intros (y & k & Hf & Hk' & ->).
              destruct (decide (k = k0)) as [->|Hne].
              ** left. apply firstWith_here in Hf; [|exact Hk]. subst y.
                 reflexivity.
              ** right. exists y, k.
                 split; [|split; [|reflexivity]].
                 --- apply firstWith_skip in Hf; [exact Hf|].
                     intros Heq. rewrite Hk in Heq. injection Heq as ->.
                     contradiction.
                 --- rewrite not_elem_of_union, not_elem_of_singleton.
                     split; assumption.
        -- apply sublist_skip. exact Hsub.
    + destruct (IH res seen) as (rest & Hr & Hs & Hnd & Hmem & Hsub).
      exists rest. split; [exact Hr|]. split; [exact Hs|].
      split; [exact Hnd|]. split; [|exact Hsub].
      intros b. rewrite Hmem. split.
      * intros (y & k & Hf & Hk' & ->). exists y, k.
        split; [|split; [exact Hk'|reflexivity]].
        apply firstWith_skip; [|exact Hf]. rewrite Hk. discriminate.
      * intros (y & k & Hf & Hk' & ->). exists y, k.
        split; [|split; [exact Hk'|reflexivity]].
        apply firstWith_skip in Hf; [exact Hf|]. rewrite Hk. discriminate.
Qed.

(** The loop from the empty state. *)
Lemma keepFirst_spec (l : list A) :
  let out := (fold_left (keepFirstStep key mk) l ([], ∅)).1 in
  NoDup (map keyOf out)
  /\ (forall b, b ∈ out <-> exists x k, firstWith key l x k /\ b = mk x k)
  /\ out `sublist_of` omap (kept key mk) l.
Proof.
  destruct (keepFirst_fold l [] ∅) as (rest & Hr & _ & Hnd & Hmem & Hsub).
  simpl in Hr. cbn zeta. rewrite Hr.
  split; [exact Hnd|]. split; [|exact Hsub].
  intros b. rewrite Hmem. split.
  - intros (x & k & Hf & _ & ->). exists x, k. split; [exact Hf|reflexivity].
  - intros (x & k & Hf & ->). exists x, k.
    split; [exact Hf|]. split; [apply not_elem_of_empty|reflexivity].
Qed.

(** Every key of the list is the key of its first element with it. *)
Lemma firstWith_exists (l : list A) (x : A) (k : string) :
  x ∈ l -> key x = Some k -> exists y, firstWith key l y k.
Proof.
  induction l as [|z l IH]; intros Hin Hk; [inversion Hin|].
  destruct (decide (key z = Some k)) as [Hz|Hz].
  - exists z. apply firstWith_here; [exact Hz|reflexivity].
  - apply elem_of_cons in Hin as [->|Hin]; [contradiction|].
    destruct (IH Hin Hk) as (y & Hy). exists y.
    apply firstWith_skip; assumption.
Qed.

Lemma firstWith_elem (l : list A) (x : A) (k : string) :
  firstWith key l x k -> x ∈ l /\ key x = Some k.
Proof.
  intros (before & after & -> & Hk & _). split; [|exact Hk].
  apply elem_of_app. right. left.
Qed.

End KeepFirst.


Lemma fold_left_steps {A B : Type} (f g : B -> A -> B) (l : list A) (b : B) :
  (forall b a, f b a = g b a) -> fold_left f l b = fold_left g l b.
Proof.
  intros Hfg. revert b. induction l as [|a l IH]; intros b; simpl;
    [reflexivity|]. rewrite Hfg. apply IH.
Qed.

Section WithExternals.
Context `{Externals}.

(** ** resolveLinks *)

Lemma resolveStep_keepFirst (base : URL) (acc : list string * gset string)
    (link : string) :
  resolveStep base acc link
  = keepFirstStep (resolvedURL base) (fun _ k => k) acc link.
Proof.
  unfold resolveStep, keepFirstStep, resolvedURL. destruct acc as [res seen].
  destruct (Resolve base link) as [u ok]. destruct ok; simpl; [|reflexivity].
  destruct (decide (u ∈ seen)); reflexivity.
Qed.

Lemma resolvedURL_Some (base : URL) (href u : string) :
  resolvedURL base href = Some u <-> Resolve base href = (u, true).
Proof.
  unfold resolvedURL. destruct (Resolve base href) as [v ok].
  destruct ok; split; intros Heq; try discriminate; congruence.
Qed.

Lemma kept_id (base : URL) (links : list string) :
  omap (kept (resolvedURL base) (fun _ k => k)) links
  = omap (resolvedURL base) links.
Proof.
  induction links as [|x l IH]; [reflexivity|]. csimpl. rewrite IH.
  unfold kept. destruct (resolvedURL base x); reflexivity.
Qed.

Lemma resolveLinks_NoDup (pageURL : string) (links : list string) :
  NoDup (resolveLinks pageURL links).
Proof.
  unfold resolveLinks. destruct (url_Parse pageURL) as [base|e];
    [|constructor].
  rewrite (fold_left_steps _ _ _ _ (resolveStep_keepFirst base)).
  destruct (keepFirst_spec (resolvedURL base) (fun _ k => k) id
              ltac:(reflexivity) links) as (Hnd & _).
  cbn zeta in Hnd. rewrite map_id in Hnd. exact Hnd.
Qed.

(** X6. [resolveLinks] gives every URL once.  The list has no duplicate;
    it holds exactly the URLs that [urlutil.Resolve] accepts for a link of
    the page against the parsed page URL; its URLs come in the order of
    the links; and it is empty when the page URL does not parse. *)
Theorem resolved_links_distinct (pageURL : string) (links : list string) :
  NoDup (resolveLinks pageURL links)
  /\ (forall u, u ∈ resolveLinks pageURL links <->
        exists base link,
          url_Parse pageURL = Ok base /\ link ∈ links
          /\ Resolve base link = (u, true))
  /\ (forall base, url_Parse pageURL = Ok base ->
        resolveLinks pageURL links `sublist_of` omap (resolvedURL base) links)
  /\ (forall e, url_Parse pageURL = Err e -> resolveLinks pageURL links = []).
Proof.
  unfold resolveLinks. destruct (url_Parse pageURL) as [base|e] eqn:Hp.
  - rewrite (fold_left_steps _ _ _ _ (resolveStep_keepFirst base)).
    destruct (keepFirst_spec (resolvedURL base) (fun _ k => k) id
                ltac:(reflexivity) links) as (Hnd & Hmem & Hsub).
    cbn zeta in *. rewrite map_id in Hnd. rewrite kept_id in Hsub.
    split; [exact Hnd|]. split; [|split].
    + intros u. rewrite Hmem. split.
      * intros (x & k & Hf & ->). exists base, x.
        apply firstWith_elem in Hf as [Hin Hk].
        split; [reflexivity|]. split; [exact Hin|].
        apply resolvedURL_Some, Hk.
      * intros (base' & link & Hb & Hin & Hr). injection Hb as <-.
        apply resolvedURL_Some in Hr.
        destruct (firstWith_exists (resolvedURL base) links link u Hin Hr)
          as (y & Hy).
        exists y, u. split; [exact Hy|reflexivity].
    + intros base' Hb. injection Hb as <-. exact Hsub.
    + intros e He. discriminate.
  - split; [constructor|]. split; [|split].
    + intros u. split; [intros Hu; inversion Hu|].
      intros (base & link & Hb & _). discriminate.
    + intros base Hb. discriminate.
    + reflexivity.
Qed.

(** ** collectAssets *)

Lemma assetStep_keepFirst (env : JobEnv) (base : URL)
    (acc : list Asset.t * gset string) (assetRef : AssetRef.t) :
  assetStep env base acc assetRef
  = keepFirstStep (fun r => resolvedURL base (AssetRef.URL r))
      (fun r k => getAsset env k (AssetRef.Type_ r)) acc assetRef.
Proof.
  unfold assetStep, keepFirstStep, resolvedURL. destruct acc as [res seen].
  destruct (Resolve base (AssetRef.URL assetRef)) as [u ok].
  destruct ok; simpl; [|reflexivity].
  destruct (decide (u ∈ seen)); reflexivity.
Qed.

(** X7. [collectAssets] gives one asset for each URL.  The list is never
    [nil]; no two assets have the same URL; an asset is in the list
    exactly when its URL is what [urlutil.Resolve] accepts for a
    reference of the page, and then its type is the type of the first
    reference with that URL and its status, size and error are those of
    the fetch of that URL; and the list is empty when the page URL does
    not parse. *)
Theorem assets_one_per_url (env : JobEnv) (pageURL : string)
    (refs : list AssetRef.t) :
  exists assets,
    collectAssets env pageURL refs = Some assets
    /\ NoDup (map Asset.URL assets)
    /\ (forall a, a ∈ assets <->
          exists base ref,
            url_Parse pageURL = Ok base
            /\ firstWith (fun r => resolvedURL base (AssetRef.URL r)) refs
                 ref (Asset.URL a)
            /\ a = {| Asset.URL := Asset.URL a;
                      Asset.Type_ := AssetRef.Type_ ref;
                      Asset.StatusCode :=
                        assetFetchResult.statusCode (assetFetch env (Asset.URL a));
                      Asset.SizeBytes :=
                        assetFetchResult.sizeBytes (assetFetch env (Asset.URL a));
                      Asset.Error :=
                        assetFetchResult.err (assetFetch env (Asset.URL a)) |})
    /\ (forall base ref u,
          url_Parse pageURL = Ok base -> ref ∈ refs ->
          Resolve base (AssetRef.URL ref) = (u, true) ->
          u ∈ map Asset.URL assets)
    /\ (forall e, url_Parse pageURL = Err e -> assets = []).
Proof.
  unfold collectAssets. destruct (url_Parse pageURL) as [base|e] eqn:Hp.
  - rewrite (fold_left_steps _ _ _ _ (assetStep_keepFirst env base)).
    destruct (keepFirst_spec (fun r => resolvedURL base (AssetRef.URL r))
                (fun r k => getAsset env k (AssetRef.Type_ r)) Asset.URL
                ltac:(reflexivity) refs) as (Hnd & Hmem & _).
    cbn zeta in *. eexists. split; [reflexivity|].
    split; [exact Hnd|]. split; [|split].
    + intros a. rewrite Hmem. split.
      * intros (ref & k & Hf & ->). exists base, ref.
        split; [reflexivity|]. split; [exact Hf|reflexivity].
      * intros (base' & ref & Hb & Hf & Ha). injection Hb as <-.
        exists ref, (Asset.URL a). split; [exact Hf|exact Ha].
    + intros base' ref u Hb Hin Hr. injection Hb as <-.
      apply resolvedURL_Some in Hr.
      destruct (firstWith_exists (fun r => resolvedURL base (AssetRef.URL r))
                  refs ref u Hin Hr) as (y & Hy).
      apply list_elem_of_fmap. exists (getAsset env u (AssetRef.Type_ y)).
      split; [reflexivity|]. apply Hmem. exists y, u.
      split; [exact Hy|reflexivity].
    + intros e He. discriminate.
  - exists []. split; [reflexivity|]. split; [constructor|].
    split; [|split].
    + intros a. split; [intros Ha; inversion Ha|].
      intros (base & ref & Hb & _). discriminate.
    + intros base ref u Hb. discriminate.
    + reflexivity.
Qed.

(** ** checkLinks and dedupBrokenLinks *)

Lemma linkBroken_iff (env : JobEnv) (u : string) :
  linkBroken env u = true
  <-> (linkFetch env u).2 <> None \/ 400 <= StatusCode (linkFetch env u).1.
Proof.
  unfold linkBroken, checkBrokenLink.
  destruct (linkFetch env u) as [result err]. simpl.
  unfold StatusBadRequest.
  destruct err as [e|]; simpl.
  - split; [intros _; left; discriminate|reflexivity].
  - destruct (StatusCode result >=? 400) eqn:Hs; simpl.
    + split; [intros _; right; lia|reflexivity].
    + split; [discriminate|]. intros [Hn|Hge]; [contradiction|lia].
Qed.

Lemma brokenEntry_eq (env : JobEnv) (u k : string) :
  linkBroken env u = true ->
  brokenEntry env u k
  = {| BrokenLink.URL := k;
       BrokenLink.StatusCode := StatusCode (linkFetch env u).1;
       BrokenLink.Error :=
         errorString (linkFetch env u).2 (StatusCode (linkFetch env u).1) |}.
Proof.
  unfold brokenEntry, linkBroken, checkBrokenLink.
  destruct (linkFetch env u) as [result err]. simpl.
  destruct (negb (negb (isNil err) || (StatusCode result >=? StatusBadRequest)));
    simpl; [discriminate|reflexivity].
Qed.

Lemma checkBrokenLink_url (env : JobEnv) (u : string) :
  linkBroken env u = true -> BrokenLink.URL (checkBrokenLink env u).1 = u.
Proof.
  unfold linkBroken, checkBrokenLink.
  destruct (linkFetch env u) as [result err]. simpl.
  destruct (negb (negb (isNil err) || (StatusCode result >=? StatusBadRequest)));
    simpl; [discriminate|reflexivity].
Qed.

(** The entries [runLinkChecks] leaves unprocessed change nothing. *)
Lemma buildStep_unprocessed (rest : list string)
    (acc : list BrokenLink.t * list string * gset string) :
  fold_left buildStep (map (fun _ => (linkCheck.zero, false)) rest) acc = acc.
Proof.
  induction rest as [|u rest IH]; [reflexivity|]. simpl.
  destruct acc as [[bl cl] seen]. simpl. exact IH.
Qed.

(** A processed entry: a broken link goes through the keep-first loop,
    any other URL is handed on. *)
Lemma buildStep_processed (env : JobEnv) (us : list string)
    (bl : list BrokenLink.t) (cl : list string) (seen : gset string) :
  fold_left buildStep (map (fun u => (linkCheckWorker env u, true)) us)
    (bl, cl, seen)
  = ((fold_left (keepFirstStep (brokenKey env) (brokenEntry env)) us
        (bl, seen)).1,
     cl ++ filter (fun u => linkBroken env u = false) us,
     (fold_left (keepFirstStep (brokenKey env) (brokenEntry env)) us
        (bl, seen)).2).
Proof.
  revert bl cl seen. induction us as [|u us IH]; intros bl cl seen.
  - simpl. rewrite app_nil_r. reflexivity.
  - cbn [map fold_left]. rewrite filter_cons.
    assert (Hstep :
      buildStep (bl, cl, seen) (linkCheckWorker env u, true)
      = ((keepFirstStep (brokenKey env) (brokenEntry env) (bl, seen) u).1,
         if linkBroken env u then cl else cl ++ [u],
         (keepFirstStep (brokenKey env) (brokenEntry env) (bl, seen) u).2)).
    { unfold buildStep, keepFirstStep, brokenKey, brokenEntry. cbn [negb].
      pose proof (checkBrokenLink_url env u) as Hurl.
      unfold linkCheckWorker, linkBroken in *.
      destruct (checkBrokenLink env u) as [link broken]. cbn [fst snd] in *.
      cbn [linkCheck.broken linkCheck.link linkCheck.url].
      destruct broken; [|reflexivity].
      rewrite (Hurl eq_refl).
      replace (if String.eqb u "" then u else u) with u
        by (destruct (String.eqb u ""); reflexivity).
      destruct (decide (canonicalBrokenURL u ∈ seen)); reflexivity. }
    rewrite Hstep.
    destruct (keepFirstStep (brokenKey env) (brokenEntry env) (bl, seen) u)
      as [bl' seen'] eqn:Hk. cbn [fst snd].
    rewrite IH. destruct (linkBroken env u) eqn:Hb.
    + rewrite decide_False by discriminate. reflexivity.
    + rewrite decide_True by reflexivity. rewrite <- app_assoc. reflexivity.
Qed.

(** What [runLinkChecks] hands to [buildLinkResults]: processed entries
    for the jobs it sent, unprocessed ones for the rest. *)
Lemma runLinkChecks_zip (W : string -> linkCheck.t) (sent : nat)
    (l : list string) :
  zip (imap (fun idx url => if (idx <? sent)%nat then W url else linkCheck.zero) l)
      (imap (fun idx _ => (idx <? sent)%nat) l)
  = map (fun u => (W u, true)) (take sent l)
    ++ map (fun _ => (linkCheck.zero, false)) (drop sent l).
Proof.
  revert sent. induction l as [|u l IH]; intros sent.
  - rewrite take_nil, drop_nil. reflexivity.
  - destruct sent as [|n].
    + cbn [take drop app map imap zip zip_with]. f_equal.
      exact (IH 0%nat).
    + cbn [take drop app map imap zip zip_with]. f_equal.
      exact (IH n).
Qed.

Lemma take_min_length {A : Type} (n : nat) (l : list A) :
  take (Nat.min n (length l)) l = take n l.
Proof.
  destruct (Nat.min_spec n (length l)) as [[_ ->]|[Hle ->]]; [reflexivity|].
  rewrite firstn_all, take_ge by lia. reflexivity.
Qed.

Lemma checkLinks_eq (env : JobEnv) (job : crawlJob.t) (links : list string) :
  let probed :=
    take (linksSent env) (resolveLinks (crawlJob.url job) links) in
  checkLinks env job links
  = (Some (fold_left (keepFirstStep (brokenKey env) (brokenEntry env)) probed
             ([], ∅)).1,
     filter (fun u => linkBroken env u = false) probed,
     probed).
Proof.
  cbn zeta. unfold checkLinks.
  destruct (resolveLinks (crawlJob.url job) links) as [|u resolved] eqn:Hr.
  - simpl. rewrite take_nil. reflexivity.
  - rewrite <- Hr. replace (length (resolveLinks (crawlJob.url job) links) =? 0)%nat
      with false by (rewrite Hr; reflexivity).
    unfold runLinkChecks, buildLinkResults.
    rewrite runLinkChecks_zip, fold_left_app, buildStep_unprocessed.
    rewrite buildStep_processed, take_min_length. reflexivity.
Qed.

Lemma dedupStep_keepFirst (acc : list BrokenLink.t * gset string)
    (link : BrokenLink.t) :
  dedupStep acc link = keepFirstStep canonicalKey BrokenLink.setURL acc link.
Proof.
  unfold dedupStep, keepFirstStep, canonicalKey. destruct acc as [unique seen].
  simpl. destruct (decide (canonicalBrokenURL (BrokenLink.URL link) ∈ seen));
    reflexivity.
Qed.

(** The two short cases of [dedupBrokenLinks] give what the loop gives. *)
Lemma dedupBrokenLinks_fold (l : list BrokenLink.t) :
  dedupBrokenLinks (Some l)
  = Some (fold_left (keepFirstStep canonicalKey BrokenLink.setURL) l ([], ∅)).1.
Proof.
  destruct l as [|out [|b l]].
  - reflexivity.
  - simpl. unfold keepFirstStep, canonicalKey. simpl.
    rewrite decide_False by apply not_elem_of_empty. reflexivity.
  - unfold dedupBrokenLinks.
    rewrite (fold_left_steps _ _ _ _ dedupStep_keepFirst). reflexivity.
Qed.

(** [dedupBrokenLinks] alone, on any list. *)
Lemma dedupBrokenLinks_spec (l : list BrokenLink.t) :
  exists out,
    dedupBrokenLinks (Some l) = Some out
    /\ NoDup (map BrokenLink.URL out)
    /\ (forall b, b ∈ out <->
          exists b0, firstWith canonicalKey l b0 (BrokenLink.URL b)
                     /\ BrokenLink.URL b = canonicalBrokenURL (BrokenLink.URL b0)
                     /\ b = BrokenLink.setURL b0 (BrokenLink.URL b)).
Proof.
  rewrite dedupBrokenLinks_fold.
  destruct (keepFirst_spec canonicalKey BrokenLink.setURL BrokenLink.URL
              ltac:(reflexivity) l) as (Hnd & Hmem & _).
  cbn zeta in *. eexists. split; [reflexivity|]. split; [exact Hnd|].
  intros b. rewrite Hmem. split.
  - intros (b0 & k & Hf & ->). exists b0. split; [exact Hf|].
    destruct Hf as (_ & _ & _ & Hk & _). unfold canonicalKey in Hk.
    injection Hk as <-. split; reflexivity.
  - intros (b0 & Hf & _ & Hb). exists b0, (BrokenLink.URL b).
    split; assumption.
Qed.

(** X8. The links of a page that parsed.  [processJob] probes the first
    [linksSent] of the resolved links (all of them unless the context is
    cancelled while it feeds the pool), each once.  A probed link whose
    fetch gave no error and a status below 400 is handed on for crawling,
    in the order of the page; every other probed link is broken, and is
    listed in [broken_links] under the canonical URL of its canonical URL
    with the status code and the error of its fetch.  No two broken links
    of the page have the same URL, and nothing else is listed. *)
Theorem page_links_checked (env : JobEnv) (job : crawlJob.t)
    (parsed : ParseResult.t) :
  (pageFetch env).2 = None ->
  StatusCode (pageFetch env).1 < 400 ->
  parser_ParseHTML (Body (pageFetch env).1) = Ok parsed ->
  let out := processJob env job in
  let probed := out.2 in
  probed = take (linksSent env)
             (resolveLinks (crawlJob.url job) (ParseResult.Links parsed))
  /\ NoDup probed
  /\ pageResult.links out.1
     = filter (fun u => linkBroken env u = false) probed
  /\ (forall u, linkBroken env u = true <->
        (linkFetch env u).2 <> None \/ 400 <= StatusCode (linkFetch env u).1)
  /\ exists brokenLinks,
       Page.BrokenLinks (pageResult.page out.1) = Some brokenLinks
       /\ NoDup (map BrokenLink.URL brokenLinks)
       /\ (forall b, b ∈ brokenLinks ->
             exists u, u ∈ probed /\ linkBroken env u = true
               /\ b = {| BrokenLink.URL :=
                           canonicalBrokenURL (canonicalBrokenURL u);
                         BrokenLink.StatusCode := StatusCode (linkFetch env u).1;
                         BrokenLink.Error :=
                           errorString (linkFetch env u).2
                             (StatusCode (linkFetch env u).1) |})
       /\ (forall u, u ∈ probed -> linkBroken env u = true ->
             canonicalBrokenURL (canonicalBrokenURL u)
             ∈ map BrokenLink.URL brokenLinks).
Proof.
  intros Herr Hstatus Hparse. cbn zeta.
  unfold processJob.
  destruct (pageFetch env) as [result err] eqn:Hpf. simpl in Herr, Hstatus, Hparse.
  subst err. cbn [isNil negb orb].
  replace (StatusCode result >=? StatusBadRequest) with false
    by (unfold StatusBadRequest; lia).
  rewrite Hparse, checkLinks_eq. cbn zeta. cbn [fst snd].
  cbn [pageResult.links pageResult.page].
  set (probed := take (linksSent env)
                   (resolveLinks (crawlJob.url job) (ParseResult.Links parsed))).
  destruct (keepFirst_spec (brokenKey env) (brokenEntry env) BrokenLink.URL
              ltac:(reflexivity) probed) as (_ & Hbuilt & _).
  cbn zeta in Hbuilt.
  set (built := (fold_left (keepFirstStep (brokenKey env) (brokenEntry env))
                   probed ([], ∅)).1) in *.
  destruct (dedupBrokenLinks_spec built) as (final & Hfinal & Hnd & Hmem).
  split; [reflexivity|]. split.
  { unfold probed.
    eapply sublist_NoDup; [apply resolveLinks_NoDup|apply sublist_take]. }
  split; [reflexivity|]. split; [apply linkBroken_iff|].
  exists final. split; [exact Hfinal|]. split; [exact Hnd|]. split.
  - intros b Hb. apply Hmem in Hb as (b0 & Hf & Hurl & Hb).
    apply firstWith_elem in Hf as [Hin0 _].
    apply Hbuilt in Hin0 as (u & k & Hfu & ->).
    apply firstWith_elem in Hfu as [Hinu Hk].
    unfold brokenKey in Hk. destruct (linkBroken env u) eqn:Hbr; [|discriminate].
    injection Hk as <-. exists u. split; [exact Hinu|]. split; [exact Hbr|].
    rewrite Hb, Hurl. rewrite (brokenEntry_eq env u _ Hbr). reflexivity.
  - intros u Hin Hbr.
    assert (Hk : brokenKey env u = Some (canonicalBrokenURL u))
      by (unfold brokenKey; rewrite Hbr; reflexivity).
    destruct (firstWith_exists (brokenKey env) probed u _ Hin Hk) as (y & Hy).
    assert (Hb0 : brokenEntry env y (canonicalBrokenURL u) ∈ built)
      by (apply Hbuilt; exists y, (canonicalBrokenURL u); split;
          [exact Hy|reflexivity]).
    assert (Hk0 : canonicalKey (brokenEntry env y (canonicalBrokenURL u))
                  = Some (canonicalBrokenURL (canonicalBrokenURL u)))
      by reflexivity.
    destruct (firstWith_exists canonicalKey built _ _ Hb0 Hk0) as (z & Hz).
    apply list_elem_of_fmap.
    exists (BrokenLink.setURL z (canonicalBrokenURL (canonicalBrokenURL u))).
    split; [reflexivity|]. apply Hmem. exists z.
    split; [exact Hz|]. split; [|reflexivity].
    destruct Hz as (_ & _ & _ & Hkz & _). unfold canonicalKey in Hkz.
    injection Hkz as Hkz. simpl. symmetry. exact Hkz.
Qed.

End WithExternals.

(** The theorem at the root page of the fixture site, whose two links
    answer 404. *)
Lemma page_links_checked_witness :
  (@processJob fixtureExternals (siteEnv rootBody) (rootJobAt 0)).2
  = ["https://example.com/missing"; "https://evil.test/broken"]
  /\ pageResult.links
       (@processJob fixtureExternals (siteEnv rootBody) (rootJobAt 0)).1 = []
  /\ NoDup (@processJob fixtureExternals (siteEnv rootBody) (rootJobAt 0)).2.
Proof.
  destruct (@page_links_checked fixtureExternals (siteEnv rootBody)
              (rootJobAt 0)
              {| ParseResult.Links := ["/missing"; "https://evil.test/broken"];
                 ParseResult.SEO := SEO.zero; ParseResult.Assets := [] |}
              eq_refl ltac:(simpl; lia) eq_refl)
    as (Hprobed & Hnd & Hlinks & _).
  split; [exact Hprobed|]. split; [exact Hlinks|exact Hnd].
Defined.

End LinksSpec.

(* ===================================================================== *)
(** * More on the fetcher: no attempt, and the bounds of the backoff *)
(* ===================================================================== *)

Module FetchBoundsSpec.
Import Fetcher Fixture FetcherSpec.
Local Open Scope Z_scope.

(** X9. When [retries] is negative, or the largest [int] (so that
    [retries + 1] wraps around), [Fetch] makes no attempt at all: it
    sends no request, does not sleep, and returns the zero [Result] with a
    [nil] error.  For every other number of retries it makes at least one
    attempt. *)
Theorem fetch_without_attempt (f : Fetcher) (w : World) (rawURL : string) :
  - 2 ^ 63 <= retries f <= 2 ^ 63 - 1 ->
  (outAttempts (Fetch f w rawURL) = 0%nat
   <-> retries f < 0 \/ retries f = 2 ^ 63 - 1)
  /\ (outAttempts (Fetch f w rawURL) = 0%nat ->
      outResult (Fetch f w rawURL) = emptyResult
      /\ outErr (Fetch f w rawURL) = None
      /\ outSleeps (Fetch f w rawURL) = []).
Proof.
  intros Hr.
  assert (Hnone : retries f < 0 \/ retries f = 2 ^ 63 - 1 ->
                  Fetch f w rawURL
                  = {| outResult := emptyResult; outErr := None;
                       outAttempts := 0; outSleeps := [] |}).
  { intros Hcase. unfold Fetch.
    assert (Hw : wrap64 (retries f + 1) <= 0).
    { destruct Hcase as [Hneg|Hmax].
      - rewrite wrap64_small by lia. lia.
      - rewrite Hmax. vm_compute. discriminate. }
    replace (Z.to_nat (wrap64 (retries f + 1))) with 0%nat by lia.
    reflexivity. }
  assert (Hiff : outAttempts (Fetch f w rawURL) = 0%nat
                 <-> retries f < 0 \/ retries f = 2 ^ 63 - 1).
  { split.
    - intros Hz.
      destruct (Z_lt_le_dec (retries f) 0) as [Hneg|Hpos]; [left; exact Hneg|].
      destruct (Z.eq_dec (retries f) (2 ^ 63 - 1)) as [Hmax|Hne];
        [right; exact Hmax|].
      exfalso. unfold Fetch in Hz.
      rewrite wrap64_small in Hz by lia.
      pose proof (fetchLoop_spec f w rawURL (retries f + 1)
                    (Z.to_nat (retries f + 1)) 0 emptyResult None []
                    ltac:(lia) ltac:(lia) eq_refl) as Hspec.
      cbn zeta in Hspec. destruct Hspec as (Hlt & _). lia.
    - intros Hcase. rewrite (Hnone Hcase). reflexivity. }
  split; [exact Hiff|].
  intros Hz. apply Hiff in Hz. rewrite (Hnone Hz). repeat split.
Qed.

(** The theorem at [Retries: -1]. *)
Lemma fetch_without_attempt_witness :
  outAttempts (Fetch (New Second "" false (-1) 0) flakyWorld
                 "https://example.com/") = 0%nat
  /\ outResult (Fetch (New Second "" false (-1) 0) flakyWorld
                  "https://example.com/") = emptyResult
  /\ outErr (Fetch (New Second "" false (-1) 0) flakyWorld
               "https://example.com/") = None.
Proof.
  destruct (fetch_without_attempt (New Second "" false (-1) 0) flakyWorld
              "https://example.com/" ltac:(simpl; lia)) as [Hiff Hout].
  assert (Hz : outAttempts (Fetch (New Second "" false (-1) 0) flakyWorld
                              "https://example.com/") = 0%nat)
    by (apply Hiff; left; simpl; lia).
  destruct (Hout Hz) as (Hr & He & _).
  split; [exact Hz|]. split; [exact Hr|exact He].
Defined.

(** ** The number and the length of the backoffs *)

Lemma addSleep_length (s : option Z) (sl : list Z) :
  length (addSleep s sl)
  = (length sl + match s with Some _ => 1 | None => 0 end)%nat.
Proof.
  destruct s; simpl; [rewrite length_app; reflexivity|lia].
Qed.

(** The loop sleeps once after every attempt but the last, and after the
    last one only when that backoff is interrupted; never after the
    attempt number [attempts]. *)
Lemma fetchLoop_sleeps_length (f : Fetcher) (w : World) (rawURL : string)
    (attempts : Z) :
  forall (left a : nat) (lastR : Result) (lastE : error) (sl : list Z),
    (0 < left)%nat -> Z.of_nat (a + left) = attempts -> length sl = a ->
    let out := fetchLoop f w rawURL attempts left a lastR lastE sl in
    (outAttempts out - 1 <= length (outSleeps out) <= outAttempts out)%nat
    /\ Z.of_nat (length (outSleeps out)) <= attempts - 1.
Proof.
  induction left as [|left' IH]; intros a lastR lastE sl Hleft Hsum Hlen;
    [lia|].
  cbn zeta. cbn [fetchLoop].
  destruct (fetchOnce f w rawURL a) as [result err].
  destruct ((match err with None => true | Some _ => false end)
            && (StatusCode result <? StatusBadRequest)).
  - destruct (ctxErr (attemptAt w a)); simpl; lia.
  - unfold shouldRetry.
    destruct (ctxErr (attemptAt w a)) as [c|].
    + simpl. lia.
    + destruct (negb (isRetryable (StatusCode result) err)
                || (Z.of_nat a =? attempts - 1)) eqn:Hstop.
      * simpl. lia.
      * apply orb_false_iff in Hstop as [_ Hlast].
        apply Z.eqb_neq in Hlast.
        destruct (sleepErr (attemptAt w a)) as [e|].
        -- cbn [negb outAttempts outSleeps]. rewrite addSleep_length. lia.
        -- cbn [negb].
           destruct left' as [|left''].
           ++ exfalso. lia.
           ++ apply IH; [lia|lia|].
              rewrite addSleep_length. lia.
Qed.

Lemma sum_bounded (l : list Z) (b : Z) :
  Forall (fun d => d <= b) l -> foldr Z.add 0 l <= Z.of_nat (length l) * b.
Proof.
  induction 1 as [|d l Hd _ IH]; [simpl; lia|].
  cbn [foldr length]. rewrite Nat2Z.inj_succ. lia.
Qed.

(** X10. The backoff of a [Fetch] is bounded.  For a fetcher with a
    positive base delay (as [fetcher.New] makes it) and retries in
    [0, maxInt): [Fetch] sleeps after every attempt but the last, and
    after the last one only when that sleep is interrupted; so it sleeps
    at most [retries] times.  Every backoff is positive and at most 2 s,
    the backoffs never decrease, and their sum is at most
    [retries * 2 s]. *)
Theorem fetch_backoff_bounded (f : Fetcher) (w : World) (rawURL : string) :
  0 <= retries f < 2 ^ 63 - 1 ->
  0 < retryDelay f ->
  let out := Fetch f w rawURL in
  (outAttempts out - 1 <= length (outSleeps out) <= outAttempts out)%nat
  /\ Z.of_nat (length (outSleeps out)) <= retries f
  /\ Forall (fun d => 0 < d <= maxRetryDelay) (outSleeps out)
  /\ (forall i j di dj, (i <= j)%nat ->
        outSleeps out !! i = Some di -> outSleeps out !! j = Some dj ->
        di <= dj)
  /\ foldr Z.add 0 (outSleeps out) <= retries f * maxRetryDelay.
Proof.
  intros Hr Hd. cbn zeta. unfold Fetch.
  rewrite wrap64_small by lia.
  pose proof (fetchLoop_sleeps_length f w rawURL (retries f + 1)
                (Z.to_nat (retries f + 1)) 0 emptyResult None []
                ltac:(lia) ltac:(lia) eq_refl) as Hlen.
  pose proof (fetchLoop_spec f w rawURL (retries f + 1)
                (Z.to_nat (retries f + 1)) 0 emptyResult None []
                ltac:(lia) ltac:(lia) eq_refl) as Hspec.
  cbn zeta in Hlen, Hspec. destruct Hspec as (_ & _ & _ & Hsl).
  destruct Hlen as [Hlen Hmax].
  set (out := fetchLoop f w rawURL (retries f + 1)
                (Z.to_nat (retries f + 1)) 0 emptyResult None []) in *.
  assert (Hval : forall k d, outSleeps out !! k = Some d ->
                   d = Z.min (retryDelay f * 2 ^ Z.of_nat k) maxRetryDelay).
  { intros k d Hk. destruct (Hsl k d Hk) as [[Hlt _]|[_ ->]];
      [simpl in Hlt; lia|].
    rewrite retryDelayFor_closed by lia.
    replace (Z.of_nat k + 1 - 1) with (Z.of_nat k) by lia. reflexivity. }
  assert (Hpow : forall k : nat, 1 <= 2 ^ Z.of_nat k)
    by (intros k; apply Z.pow_le_mono_r with (b := 0); lia).
  assert (Hall : Forall (fun d => 0 < d <= maxRetryDelay) (outSleeps out)).
  { apply Forall_lookup. intros k d Hk. rewrite (Hval k d Hk).
    pose proof (Hpow k) as Hk1.
    assert (0 < retryDelay f * 2 ^ Z.of_nat k) by nia.
    unfold maxRetryDelay, Second. lia. }
  split; [exact Hlen|]. split; [lia|]. split; [exact Hall|]. split.
  - intros i j di dj Hij Hi Hj. rewrite (Hval i di Hi), (Hval j dj Hj).
    assert (2 ^ Z.of_nat i <= 2 ^ Z.of_nat j)
      by (apply Z.pow_le_mono_r; lia).
    apply Z.min_le_compat_r. nia.
  - etransitivity; [apply (sum_bounded _ maxRetryDelay)|].
    + eapply Forall_impl; [exact Hall|]. cbn beta. intros d Hd'. lia.
    + unfold maxRetryDelay, Second. nia.
Qed.

(** The theorem at the fetcher of TestFetchRetriesSuccess: two backoffs,
    of 100 ms and 200 ms. *)
Lemma fetch_backoff_bounded_witness :
  outSleeps (Fetch (New Second "" false 2 baseRetryDelay) flakyWorld
               "https://example.com/") = [100 * Millisecond; 200 * Millisecond]
  /\ foldr Z.add 0
       (outSleeps (Fetch (New Second "" false 2 baseRetryDelay) flakyWorld
                     "https://example.com/")) <= 2 * maxRetryDelay.
Proof.
  split; [reflexivity|].
  apply (fetch_backoff_bounded (New Second "" false 2 baseRetryDelay)
           flakyWorld "https://example.com/");
    [simpl; lia|vm_compute; reflexivity].
Defined.

End FetchBoundsSpec.

(* ===================================================================== *)
(** * More on the limiter: the bounds of the wait, and bursts *)
(* ===================================================================== *)

Module LimiterBoundsSpec.
Import Limiter LimiterSpec.
Local Open Scope Z_scope.

(** The first call of a fresh limiter, and what is left to the others. *)
Lemma run_fresh (I : Duration) (t : Time) (rest : list Time) :
  0 < t ->
  run {| interval := I; last := 0 |} (t :: rest)
  = (t, None) :: run {| interval := I; last := t |} rest.
Proof. intros Ht. reflexivity. Qed.

(** A call after the first one, from the grant before it. *)
Lemma run_step (I : Duration) (l0 : Limiter) (nows : list Time) :
  NewWithTimer I = Some l0 ->
  Forall (fun t => 0 < t) nows ->
  forall k now prev,
    nows !! S k = Some now -> grants l0 nows !! k = Some prev ->
    run l0 nows !! S k =
      Some (if now <? prev + I
            then (prev + I, Some (Sub (prev + I) now))
            else (now, None)).
Proof.
  intros HN Hpos k now prev Hnow Hprev.
  unfold NewWithTimer in HN. destruct (Z.leb_spec I 0) as [|HI]; [discriminate|].
  injection HN as <-.
  destruct Hpos as [|t rest Ht Hrest]; [rewrite lookup_nil in Hnow; discriminate|].
  unfold grants in Hprev. rewrite run_fresh in * by exact Ht.
  simpl in Hnow.
  destruct (run_later {| interval := I; last := t |} rest
              ltac:(simpl; lia) ltac:(simpl; lia) Hrest k now prev Hnow)
    as [_ Hrun].
  - exact Hprev.
  - simpl in Hrun. exact Hrun.
Qed.

Lemma run_first (I : Duration) (l0 : Limiter) (nows : list Time) (now : Time) :
  NewWithTimer I = Some l0 ->
  Forall (fun t => 0 < t) nows ->
  nows !! 0%nat = Some now ->
  run l0 nows !! 0%nat = Some (now, None).
Proof.
  intros HN Hpos Hnow.
  unfold NewWithTimer in HN. destruct (Z.leb_spec I 0) as [|HI]; [discriminate|].
  injection HN as <-.
  destruct Hpos as [|t rest Ht Hrest]; [discriminate|].
  injection Hnow as <-. reflexivity.
Qed.

Lemma grants_lookup (l : Limiter) (nows : list Time) (k : nat) :
  grants l nows !! k = fst <$> run l nows !! k.
Proof. unfold grants. apply list_lookup_fmap. Qed.

(** X11. No caller is released early, and the wait is bounded.  For the
    limiter made with interval [I] and any sequence of [Wait] calls with
    real clock readings: the grant a call records is never before its
    own reading of the clock; it sleeps exactly when the grant is later,
    for a positive time that ends at the grant (whenever that fits a
    [Duration]); and when the clock does not go back between the calls,
    the call number [k] (from 0) is granted at most [k * I] after its
    reading. *)
Theorem limiter_wait_bounded (I : Duration) (l0 : Limiter) (nows : list Time) :
  NewWithTimer I = Some l0 ->
  Forall (fun t => 0 < t) nows ->
  (forall k now (g : Time) (w : option Duration),
     nows !! k = Some now -> run l0 nows !! k = Some (g, w) ->
     now <= g
     /\ (w = None <-> g = now)
     /\ (forall d, w = Some d ->
           0 < d /\ (g - now <= maxDuration -> now + d = g)))
  /\ (StronglySorted Z.le nows ->
      forall (k : nat) now g,
        nows !! k = Some now -> grants l0 nows !! k = Some g ->
        g <= now + Z.of_nat k * I).
Proof.
  intros HN Hpos.
  assert (HI : 0 < I).
  { unfold NewWithTimer in HN. destruct (Z.leb_spec I 0); [discriminate|lia]. }
  assert (Hcall : forall k now (g : Time) (w : option Duration),
             nows !! k = Some now -> run l0 nows !! k = Some (g, w) ->
             (k = 0%nat /\ g = now /\ w = None)
             \/ (exists k' prev, k = S k' /\ grants l0 nows !! k' = Some prev
                   /\ ((now < prev + I /\ g = prev + I
                        /\ w = Some (Sub (prev + I) now))
                       \/ (prev + I <= now /\ g = now /\ w = None)))).
  { intros k now g w Hnow Hrun. destruct k as [|k'].
    - left. rewrite (run_first I l0 nows now HN Hpos Hnow) in Hrun.
      injection Hrun as <- <-. repeat split.
    - right.
      assert (Hlt : (k' < length (grants l0 nows))%nat).
      { unfold grants. rewrite length_fmap, run_length.
        apply lookup_lt_Some in Hnow. lia. }
      destruct (lookup_lt_is_Some_2 _ _ Hlt) as [prev Hprev].
      exists k', prev. split; [reflexivity|]. split; [exact Hprev|].
      pose proof (eq_trans (eq_sym Hrun)
                    (run_step I l0 nows HN Hpos k' now prev Hnow Hprev))
        as Heq.
      destruct (Z.ltb_spec now (prev + I)); injection Heq as -> ->;
        [left|right]; repeat split; lia. }
  split.
  - intros k now g w Hnow Hrun.
    destruct (Hcall k now g w Hnow Hrun)
      as [(_ & -> & ->)|(k' & prev & _ & _ & [(Hlt & -> & ->)|(Hge & -> & ->)])].
    + split; [lia|]. split; [tauto|]. intros d Hd. discriminate.
    + split; [lia|]. split; [split; [discriminate|lia]|].
      intros d Hd. injection Hd as <-. unfold Sub.
      destruct (Z.gtb_spec (prev + I - now) maxDuration) as [Hbig|Hfit].
      * split; [unfold maxDuration; lia|]. intros Hle. lia.
      * destruct (Z.ltb_spec (prev + I - now) minDuration) as [Hsmall|_];
          [unfold minDuration in Hsmall; lia|].
        split; [lia|]. intros _. lia.
    + split; [lia|]. split; [tauto|]. intros d Hd. discriminate.
  - intros Hsorted k. induction k as [|k IH]; intros now g Hnow Hg.
    + rewrite grants_lookup in Hg.
      rewrite (run_first I l0 nows now HN Hpos Hnow) in Hg.
      injection Hg as <-. lia.
    + rewrite grants_lookup in Hg.
      destruct (run l0 nows !! S k) as [[g' w]|] eqn:Hrun; [|discriminate].
      injection Hg as ->.
      destruct (Hcall (S k) now g w Hnow Hrun)
        as [(Hk & _)|(k' & prev & Hk & Hprev & Hcase)]; [discriminate|].
      injection Hk as <-.
      destruct (lookup_lt_is_Some_2 nows k
                  (Nat.lt_succ_l _ _ (lookup_lt_Some _ _ _ Hnow)))
        as [before Hbefore].
      pose proof (IH before prev Hbefore Hprev) as Hbound.
      assert (Hmono : before <= now).
      { apply (AssemblySpec.StronglySorted_lookup Z.le nows Hsorted k (S k) before now);
          [lia|exact Hbefore|exact Hnow]. }
      rewrite Nat2Z.inj_succ.
      destruct Hcase as [(_ & -> & _)|(_ & -> & _)]; nia.
Qed.

(** The theorem at three calls, the second of which comes 40 ms after
    the first. *)
Lemma limiter_wait_bounded_witness :
  let I := 100000000 in
  let l0 := {| interval := I; last := 0 |} in
  let nows := [1000000000; 1040000000; 1300000000] in
  grants l0 nows = [1000000000; 1100000000; 1300000000]
  /\ (forall (k : nat) now g,
        nows !! k = Some now -> grants l0 nows !! k = Some g ->
        g <= now + Z.of_nat k * I).
Proof.
  split; [reflexivity|].
  apply (limiter_wait_bounded 100000000 {| interval := 100000000; last := 0 |}
           [1000000000; 1040000000; 1300000000]).
  - reflexivity.
  - repeat constructor.
  - repeat constructor; lia.
Defined.

(** Calls that read the same instant, from a limiter whose last grant is
    not before it. *)
Lemma run_burst (n : nat) (t : Time) (l : Limiter) :
  0 < interval l -> 0 < last l -> t <= last l ->
  grants l (replicate n t)
  = map (fun i => last l + (Z.of_nat i + 1) * interval l) (seq 0 n).
Proof.
  revert l. induction n as [|n IH]; intros l HI Hl Ht; [reflexivity|].
  unfold grants in *. cbn [replicate run].
  rewrite Wait_later by lia.
  destruct (Z.ltb_spec t (last l + interval l)) as [_|Hge]; [|lia].
  cbn [fmap list_fmap last fst].
  rewrite IH by (simpl; lia). cbn [seq map last interval]. f_equal; [lia|].
  rewrite <- seq_shift, map_map. apply map_ext. intros i.
  rewrite Nat2Z.inj_succ. lia.
Qed.

(** A clock that reads the zero value of [time.Time] leaves the limiter
    as it was made: every call is taken for the first. *)
Lemma run_zero (n : nat) (I : Duration) :
  run {| interval := I; last := 0 |} (replicate n 0) = replicate n (0, None).
Proof.
  induction n as [|n IH]; [reflexivity|].
  cbn [replicate].
  change (run {| interval := I; last := 0 |} (0 :: replicate n 0))
    with ((0, @None Duration)
          :: run {| interval := I; last := 0 |} (replicate n 0)).
  rewrite IH. reflexivity.
Qed.

(** X12. A burst is paced.  When [n] callers read the same instant [t],
    after the zero value of [time.Time], from a fresh limiter with
    interval [I], they are granted [t], [t + I], [t + 2 I], ... in the
    order in which they took the mutex.  (At the zero value itself the
    limiter does not pace: all [n] callers are granted it, and none
    sleeps.) *)
Theorem limiter_burst_paced (I : Duration) (l0 : Limiter) (n : nat) (t : Time) :
  NewWithTimer I = Some l0 ->
  0 < t ->
  grants l0 (replicate n t) = map (fun i => t + Z.of_nat i * I) (seq 0 n)
  /\ run l0 (replicate n 0) = replicate n (0, None).
Proof.
  intros HN Ht.
  unfold NewWithTimer in HN. destruct (Z.leb_spec I 0) as [|HI]; [discriminate|].
  injection HN as <-.
  split; [|apply run_zero].
  destruct n as [|n]; [reflexivity|].
  unfold grants. cbn [replicate]. rewrite run_fresh by exact Ht.
  cbn [fmap list_fmap fst seq map].
  f_equal; [lia|].
  pose proof (run_burst n t {| interval := I; last := t |}
                ltac:(simpl; lia) ltac:(simpl; lia) ltac:(simpl; lia)) as Hb.
  unfold grants in Hb. rewrite Hb. cbn [last interval].
  rewrite <- seq_shift, map_map. apply map_ext. intros i.
  rewrite Nat2Z.inj_succ. lia.
Qed.

(** The theorem at three simultaneous calls, 100 ms apart. *)
Lemma limiter_burst_paced_witness :
  grants {| interval := 100000000; last := 0 |} (replicate 3 1000000000)
  = [1000000000; 1100000000; 1200000000]
  /\ run {| interval := 100000000; last := 0 |} (replicate 3 0)
     = [(0, None); (0, None); (0, None)].
Proof.
  exact (limiter_burst_paced 100000000 {| interval := 100000000; last := 0 |}
           3 1000000000 eq_refl eq_refl).
Defined.

End LimiterBoundsSpec.

(* ===================================================================== *)
(** * More on the output: the trailing newline, and the stable sort *)
(* ===================================================================== *)

Module OutputSpec.
Import Fetcher Crawler Fixture AssemblySpec.
Local Open Scope Z_scope.

(** ** The trailing newline *)

Lemma endsWithNewline_app (data : string) :
  endsWithNewline (data ++ newline) = true.
Proof.
  induction data as [|c rest IH]; [reflexivity|].
  change (String c rest +:+ newline) with (String c (rest +:+ newline)).
  destruct (rest +:+ newline) as [|c' rest'] eqn:Hrest;
    [destruct rest; discriminate|].
  exact IH.
Qed.

Lemma endsWithNewline_split (data : string) :
  endsWithNewline data = true -> exists body, data = (body ++ newline)%string.
Proof.
  induction data as [|c rest IH]; [discriminate|].
  cbn [endsWithNewline]. destruct rest as [|c' rest'].
  - intros Hc. apply Ascii.eqb_eq in Hc. subst c. exists "". reflexivity.
  - intros Hrest. destruct (IH Hrest) as (body & Hbody).
    exists (String c body).
    change (String c body +:+ newline) with (String c (body +:+ newline)).
    rewrite <- Hbody. reflexivity.
Qed.

Lemma ensureNewline_ends (data : string) :
  endsWithNewline (ensureNewline data) = true.
Proof.
  unfold ensureNewline. destruct (endsWithNewline data) eqn:He; simpl.
  - exact He.
  - apply endsWithNewline_app.
Qed.

(** X13. The output of [Analyze] ends with a newline.  Whatever
    [analyzeReport] returns, and whether [json.Marshal] succeeds or not,
    the bytes that [Analyze] returns are a body followed by one newline
    byte; [ensureNewline] leaves them as they are; and they are the JSON
    of the report, with a newline appended exactly when the JSON does not
    end with one. *)
Theorem output_ends_with_newline `{Externals} (opts : Options.t)
    (out : string) (err : error) :
  Analyze opts out err ->
  (exists body, out = (body ++ newline)%string)
  /\ ensureNewline out = out
  /\ exists report,
       analyzeReport opts report err
       /\ forall data,
            json_Marshal (emittedReport report) (Options.IndentJSON opts)
            = Ok data ->
            (endsWithNewline data = true /\ out = data)
            \/ (endsWithNewline data = false /\ out = (data ++ newline)%string).
Proof.
  intros [report err' Hrun].
  pose proof (ensureNewline_ends
                match json_Marshal (emittedReport report) (Options.IndentJSON opts)
                with
                | Ok data => data
                | Err _ =>
                    ("{" ++ quote ++ "error" ++ quote ++ ":" ++ quote
                         ++ "failed to marshal report" ++ quote ++ "}")%string
                end) as Hends.
  fold (marshalReport report (Options.IndentJSON opts)) in Hends.
  split; [apply endsWithNewline_split, Hends|].
  split; [unfold ensureNewline at 1; rewrite Hends; reflexivity|].
  exists report. split; [exact Hrun|].
  intros data Hdata. unfold marshalReport. rewrite Hdata. unfold ensureNewline.
  destruct (endsWithNewline data); simpl; [left|right]; split; reflexivity.
Qed.

(** The theorem at the options without a URL. *)
Lemma output_ends_with_newline_witness :
  exists body,
    @marshalReport fixtureExternals
      (@newReport fixtureExternals (contractOptions "" 0)) false
    = (body ++ newline)%string.
Proof.
  apply (@output_ends_with_newline fixtureExternals (contractOptions "" 0) _
           (Some (ErrLeaf KPlain "url is required"))).
  apply (@Analyze_intro fixtureExternals (contractOptions "" 0)).
  apply (@analyze_setup fixtureExternals). reflexivity.
Defined.

(** ** The sort is stable *)

Lemma pageLess_key (x y : Page.t) :
  pageLess x y = true ->
  ~ (Page.Depth x = Page.Depth y /\ Page.URL x = Page.URL y).
Proof.
  intros Hl [Hd Hu]. apply pageLess_spec in Hl as [Hlt|[_ Hlt]]; [lia|].
  rewrite Hu in Hlt. pose proof (ltb_asym _ _ Hlt). congruence.
Qed.

Section Stable.
Context (d : Z) (u : string).

Lemma insertLeft_tied (x : Page.t) (l : list Page.t) :
  filter (fun p => Page.Depth p = d /\ Page.URL p = u) (insertLeft x l)
  = filter (fun p => Page.Depth p = d /\ Page.URL p = u) (x :: l).
Proof.
  induction l as [|y rest IH]; [reflexivity|].
  cbn [insertLeft]. destruct (pageLess x y) eqn:Hl; [|reflexivity].
  rewrite filter_cons, IH, !filter_cons.
  pose proof (pageLess_key x y Hl) as Hne.
  destruct (decide (Page.Depth y = d /\ Page.URL y = u)) as [[Hyd Hyu]|Hy];
    [|reflexivity].
  destruct (decide (Page.Depth x = d /\ Page.URL x = u)) as [[Hxd Hxu]|Hx];
    [|reflexivity].
  exfalso. apply Hne. split; congruence.
Qed.

Lemma insertAll_tied (pages acc : list Page.t) :
  filter (fun p => Page.Depth p = d /\ Page.URL p = u)
    (fold_left (fun sortedRev x => insertLeft x sortedRev) pages acc)
  = rev (filter (fun p => Page.Depth p = d /\ Page.URL p = u) pages)
    ++ filter (fun p => Page.Depth p = d /\ Page.URL p = u) acc.
Proof.
  revert acc. induction pages as [|x rest IH]; intros acc; [reflexivity|].
  cbn [fold_left]. rewrite IH, insertLeft_tied, !filter_cons.
  destruct (decide (Page.Depth x = d /\ Page.URL x = u)); [|reflexivity].
  cbn [rev]. rewrite <- app_assoc. reflexivity.
Qed.

Lemma filter_rev_tied (l : list Page.t) :
  filter (fun p => Page.Depth p = d /\ Page.URL p = u) (rev l)
  = rev (filter (fun p => Page.Depth p = d /\ Page.URL p = u) l).
Proof.
  induction l as [|y l IH]; [reflexivity|].
  cbn [rev]. rewrite filter_app, IH, !filter_cons, filter_nil.
  destruct (decide (Page.Depth y = d /\ Page.URL y = u)); [reflexivity|].
  rewrite app_nil_r. reflexivity.
Qed.

Lemma sortPages_tied (pages : list Page.t) :
  filter (fun p => Page.Depth p = d /\ Page.URL p = u) (sortPages pages)
  = filter (fun p => Page.Depth p = d /\ Page.URL p = u) pages.
Proof.
  unfold sortPages.
  rewrite filter_rev_tied, insertAll_tied, filter_nil, app_nil_r.
  apply rev_involutive.
Qed.

End Stable.

Lemma sortPages_fixed (pages : list Page.t) :
  StronglySorted pageOrdered pages -> sortPages pages = pages.
Proof.
  intros Hs. unfold sortPages.
  assert (Hgen : forall acc,
             StronglySorted pageOrdered (rev acc ++ pages) ->
             fold_left (fun sortedRev x => insertLeft x sortedRev) pages acc
             = rev pages ++ acc).
  { clear Hs. induction pages as [|x rest IH]; intros acc Hs; [reflexivity|].
    cbn [fold_left].
    assert (Hx : insertLeft x acc = x :: acc).
    { destruct acc as [|y acc']; [reflexivity|].
      cbn [insertLeft].
      replace (pageLess x y) with false; [reflexivity|].
      symmetry. apply not_pageLess_ordered.
      cbn [rev] in Hs. rewrite <- app_assoc in Hs. cbn [app] in Hs.
      apply StronglySorted_app in Hs as (_ & _ & Hs).
      apply StronglySorted_inv in Hs as [_ Hall].
      apply Forall_inv in Hall. exact Hall. }
    rewrite Hx, IH.
    - cbn [rev]. rewrite <- app_assoc. reflexivity.
    - cbn [rev]. rewrite <- app_assoc. exact Hs. }
  rewrite (Hgen [] Hs), app_nil_r. apply rev_involutive.
Qed.

(** X14. [sortPages] is stable.  Pages with the same depth and the same
    URL come out in the order in which they were in the report; a list
    that is in order already is left as it is; and so sorting twice gives
    what sorting once gives. *)
Theorem sort_pages_stable (pages : list Page.t) :
  (forall d u,
     filter (fun p => Page.Depth p = d /\ Page.URL p = u) (sortPages pages)
     = filter (fun p => Page.Depth p = d /\ Page.URL p = u) pages)
  /\ (StronglySorted pageOrdered pages -> sortPages pages = pages)
  /\ sortPages (sortPages pages) = sortPages pages.
Proof.
  split; [|split].
  - intros d u.
    exact (sortPages_tied d u pages).
  - apply sortPages_fixed.
  - apply sortPages_fixed, sortPages_sorted.
Qed.

End OutputSpec.

(* ===================================================================== *)
(** * The fetch semaphore *)
(* ===================================================================== *)

Module FetchSemSpec.
Import Fetcher Crawler Fixture CacheFixture FetchCache FetchCacheSpec FetchSem.

(** What a move of the call [i] from [p] to [q] does to the number of
    holders. *)
Lemma holders_setCall (s : State) (i : nat) (u : string) (p q : pc) :
  calls s !! i = Some (u, p) ->
  (size (holders (setCall s i u q)) + (if holdsUnit p then 1 else 0)
   = size (holders s) + (if holdsUnit q then 1 else 0))%nat.
Proof.
  intros Hi. unfold holders. cbn [calls setCall].
  rewrite map_filter_insert. cbn [fst snd].
  destruct (decide (holdsUnit q = true)) as [Hq|Hq].
  - rewrite Hq, map_size_insert.
    destruct (holdsUnit p) eqn:Hp.
    + rewrite (map_lookup_filter_Some_2 _ _ i (u, p) Hi Hp). simpl. lia.
    + replace (filter (fun call => holdsUnit call.2.2 = true) (calls s) !! i)
        with (@None (string * pc)); [simpl; lia|].
      symmetry. apply map_lookup_filter_None. right.
      intros x Hx. rewrite Hi in Hx. injection Hx as <-. simpl. congruence.
  - apply not_true_is_false in Hq. rewrite Hq, map_filter_delete, map_size_delete.
    destruct (holdsUnit p) eqn:Hp.
    + rewrite (map_lookup_filter_Some_2 _ _ i (u, p) Hi Hp). simpl.
      assert (size (filter (fun call => holdsUnit call.2.2 = true) (calls s)) <> 0)%nat.
      { intros Hz. apply map_size_empty_inv in Hz.
        pose proof (map_lookup_filter_Some_2
                      (fun call => holdsUnit call.2.2 = true) _ i (u, p) Hi Hp)
          as Hl.
        rewrite Hz, lookup_empty in Hl. discriminate. }
      lia.
    + replace (filter (fun call => holdsUnit call.2.2 = true) (calls s) !! i)
        with (@None (string * pc)); [simpl; lia|].
      symmetry. apply map_lookup_filter_None. right.
      intros x Hx. rewrite Hi in Hx. injection Hx as <-. simpl. congruence.
Qed.

Lemma holders_new (s : State) (i : nat) (u : string) :
  calls s !! i = None ->
  holders (setCall s i u AtLock) = holders s.
Proof.
  intros Hi. unfold holders. cbn [calls setCall].
  rewrite map_filter_insert_not'; [reflexivity|simpl; discriminate|].
  intros y Hy. rewrite Hi in Hy. discriminate.
Qed.

(** The units that are free and the units that are held add up. *)
Lemma step_units (n : nat) (s s' : State) :
  step s s' ->
  (semFree s + size (holders s) = n)%nat ->
  (semFree s' + size (holders s') = n)%nat.
Proof.
  intros Hstep Hn.
  destruct Hstep as
    [s i u Hi
    |s i u e Hi Hhit
    |s i u e Hi Hmiss Hfresh
    |s i u e ent Hi Hent Hready
    |s i u e c Hi Hctx
    |s i u e m Hi Hsem
    |s i u e c Hi Hctx
    |s i u e Hi
    |s i u e c Hi Hctx
    |s i u e Hi
    |s i u e result err Hi
    |s c Hctx].
  - rewrite (holders_new s i u Hi). exact Hn.
  - pose proof (holders_setCall s i u _ (AtSelect e) Hi) as H. simpl in *. lia.
  - pose proof (holders_setCall
                  (setEntry (setFetchCache s (<[u:=e]> (fetchCache s))) e newEntry)
                  i u _ (AtAcquire e) Hi) as H.
    simpl in *. unfold holders in *. simpl in *. lia.
  - pose proof (holders_setCall s i u _
                  (Returned (ViaReady e) (entryResult ent) (entryErr ent)) Hi) as H.
    simpl in *. lia.
  - pose proof (holders_setCall s i u _
                  (Returned ViaCtx emptyResult (Some c)) Hi) as H.
    simpl in *. lia.
  - pose proof (holders_setCall (setSemFree s m) i u _ (AtFetch e) Hi) as H.
    simpl in *. unfold holders in *. simpl in *. lia.
  - pose proof (holders_setCall s i u _ (AtDelete e) Hi) as H. simpl in *. lia.
  - pose proof (holders_setCall (setFetchCache s (delete u (fetchCache s)))
                  i u _ (AtStore e) Hi) as H.
    simpl in *. unfold holders in *. simpl in *. lia.
  - pose proof (holders_setCall
                  (setEntry s e
                     {| entryResult := emptyResult; entryErr := Some c;
                        entryReady := true |})
                  i u _ (Returned (ViaCancel e) emptyResult (Some c)) Hi) as H.
    simpl in *. unfold holders in *. simpl in *. lia.
  - pose proof (holders_setCall (logFetch s u) i u _ (InFetch e) Hi) as H.
    simpl in *. unfold holders in *. simpl in *. lia.
  - pose proof (holders_setCall
                  (setSemFree
                     (setEntry s e
                        {| entryResult := result; entryErr := err;
                           entryReady := true |})
                     (S (semFree s)))
                  i u _ (Returned (ViaFetch e) result err) Hi) as H.
    simpl in *. unfold holders in *. simpl in *. lia.
  - exact Hn.
Qed.

Lemma reachable_units (n : nat) (s : State) :
  reachable n s -> (semFree s + size (holders s) = n)%nat.
Proof.
  unfold reachable. revert s.
  apply (rtc_ind_r (fun s => semFree s + size (holders s) = n)%nat).
  - unfold holders. simpl. rewrite map_filter_empty, map_size_empty. lia.
  - intros y z _ Hstep IH. eapply step_units; eassumption.
Qed.

(** X15. The fetch semaphore bounds the fetches in flight.  The
    semaphore of an analyzer has at least one unit
    ([normalizeMaxConcurrentFetch] is never below 1).  In every state the
    calls of [fetchWithCache] can reach, the units that are free and the
    calls that hold one add up to the units of the semaphore; so the
    calls that are inside [a.fetch.Fetch] at the same time are never more
    than [MaxConcurrentFetch] (or [Concurrency], or 1), and they are for
    different URLs. *)
Theorem fetch_concurrency_bounded (opts : Options.t) (s : State) :
  reachable (semUnits opts) s ->
  (1 <= semUnits opts)%nat
  /\ (semFree s + size (holders s) = semUnits opts)%nat
  /\ (size (fetching s) <= semUnits opts)%nat
  /\ (forall i j u e e',
        calls s !! i = Some (u, InFetch e) ->
        calls s !! j = Some (u, InFetch e') -> i = j).
Proof.
  intros Hr.
  assert (H1 : (1 <= semUnits opts)%nat).
  { unfold semUnits, normalizeMaxConcurrentFetch.
    destruct (Options.MaxConcurrentFetch opts <=? 0)%Z;
      match goal with |- context [(?x <? 1)%Z] => destruct (Z.ltb_spec x 1) end;
      lia. }
  pose proof (reachable_units _ _ Hr) as Hunits.
  split; [exact H1|]. split; [exact Hunits|]. split.
  - assert (Hsub : fetching s ⊆ holders s).
    { unfold fetching, holders. apply map_filter_subseteq_ext.
      intros i [u p] _. simpl. destruct p; simpl; congruence. }
    apply map_subseteq_size in Hsub. lia.
  - intros i j u e e' Hi Hj.
    pose proof (reachable_Inv _ _ Hr) as HI.
    pose proof (inv_cached s HI i u (InFetch e) e Hi eq_refl) as Hce.
    pose proof (inv_cached s HI j u (InFetch e') e' Hj eq_refl) as Hce'.
    rewrite Hce in Hce'. injection Hce' as <-.
    exact (inv_owner_unique s HI i j u u _ _ e Hi Hj eq_refl eq_refl).
Qed.

Lemma cacheFetching_reachable : reachable 1 cacheFetching.
Proof.
  unfold reachable.
  eapply rtc_r; [|exact (step_fetch_call cacheAcquired 0 linkURL 0 eq_refl)].
  eapply rtc_r; [|exact (step_acquire_ok cacheFound 0 linkURL 0 0 eq_refl eq_refl)].
  eapply rtc_r; [|exact (step_lock_hit cacheInserted 1 linkURL 0 eq_refl eq_refl)].
  eapply rtc_r; [|exact (step_lock_miss cacheCalled 0 linkURL 0
                           eq_refl eq_refl eq_refl)].
  eapply rtc_r; [|exact (step_call (setCall (init 1) 0 linkURL AtLock) 1 linkURL
                           eq_refl)].
  eapply rtc_r; [|exact (step_call (init 1) 0 linkURL eq_refl)].
  apply rtc_refl.
Qed.

(** The theorem at the analyzer of the contract tests (one unit), while
    the first call is inside the fetcher. *)
Lemma fetch_concurrency_bounded_witness :
  semFree cacheFetching = 0%nat
  /\ (semFree cacheFetching + size (holders cacheFetching)
      = semUnits (contractOptions "https://example.com" 0))%nat
  /\ (size (fetching cacheFetching)
      <= semUnits (contractOptions "https://example.com" 0))%nat.
Proof.
  destruct (fetch_concurrency_bounded (contractOptions "https://example.com" 0)
              cacheFetching cacheFetching_reachable)
    as (_ & Hunits & Hbound & _).
  split; [reflexivity|]. split; [exact Hunits|exact Hbound].
Defined.

End FetchSemSpec.

(* ===================================================================== *)
(** * Properties of the result of an asset fetch *)
(* ===================================================================== *)

Module AssetFetchSpec.
Import Fetcher Crawler Fixture AssetFetch.
Local Open Scope Z_scope.

Lemma prefix_app (a b : string) : String.prefix a (a ++ b) = true.
Proof.
  induction a as [|c a IH]; simpl; [destruct b; reflexivity|].
  destruct (ascii_dec c c); [exact IH|contradiction].
Qed.

Lemma prefix_refl (a : string) : String.prefix a a = true.
Proof.
  induction a as [|c a IH]; simpl; [reflexivity|].
  destruct (ascii_dec c c); [exact IH|contradiction].
Qed.

Lemma app_nonempty (a b : string) : a <> "" -> (a ++ b)%string <> "".
Proof. destruct a; [contradiction|discriminate]. Qed.

(** [strings.Join] of parts that are not empty is not empty, and starts
    with the first part. *)
Lemma concat_parts (first : string) (rest : list string) :
  first <> "" ->
  String.concat ": " (first :: rest) <> ""
  /\ String.prefix first (String.concat ": " (first :: rest)) = true.
Proof.
  intros Hne. destruct rest as [|second rest].
  - simpl. split; [exact Hne|apply prefix_refl].
  - cbn [String.concat]. split; [apply app_nonempty, Hne|apply prefix_app].
Qed.

Section WithExternals.
Context `{Externals}.
Context (strconv_ParseInt : string -> result Z)
        (strconv_Quote : string -> string).

(** [sizeFromResult] gives a size that is not negative, or an error with
    a text. *)
Lemma sizeFromResult_cases (result : Result) :
  (exists v, sizeFromResult strconv_ParseInt strconv_Quote result = (v, None)
             /\ 0 <= v)
  \/ (exists e, sizeFromResult strconv_ParseInt strconv_Quote result
                = (0, Some e) /\ Error e <> "").
Proof.
  unfold sizeFromResult, parseContentLength.
  destruct (negb (String.eqb (headerGet (ResHeader result) "Content-Length") "")).
  - destruct (strconv_ParseInt _) as [v|e].
    + destruct (Z.ltb_spec v 0).
      * right. eexists. split; [reflexivity|]. simpl. discriminate.
      * left. exists v. split; [reflexivity|assumption].
    + right. eexists. split; [reflexivity|]. simpl. discriminate.
  - destruct (Body result) as [body|].
    + left. eexists. split; [reflexivity|]. lia.
    + right. eexists. split; [reflexivity|]. simpl. discriminate.
Qed.

(** The parts of the error text, and [fetchAssetResult] in one
    expression. *)
Lemma fetchAssetResult_eq (result : Result) (err : error) :
  let size := sizeFromResult strconv_ParseInt strconv_Quote result in
  let errMsg :=
    match err with Some e => Error e | None => "" end in
  let parts :=
    (if StatusCode result >=? 400
     then [("http status " ++ pretty (StatusCode result))%string] else [])
    ++ (if String.eqb errMsg "" then [] else [errMsg])
    ++ (match size.2 with Some e => [Error e] | None => [] end) in
  fetchAssetResult strconv_ParseInt strconv_Quote (result, err)
  = if negb (isNil err) && (StatusCode result =? 0)
    then {| assetFetchResult.statusCode := StatusCode result;
            assetFetchResult.sizeBytes := 0;
            assetFetchResult.err := errMsg |}
    else {| assetFetchResult.statusCode := StatusCode result;
            assetFetchResult.sizeBytes := if isNil size.2 then size.1 else 0;
            assetFetchResult.err :=
              match parts with
              | [] => ""
              | _ => String.concat ": " parts
              end |}.
Proof.
  cbn zeta. unfold fetchAssetResult.
  destruct (sizeFromResult strconv_ParseInt strconv_Quote result)
    as [sizeBytes sizeErr].
  cbn [fst snd]. unfold StatusBadRequest.
  destruct err as [e|]; cbn [isNil negb andb errorString].
  - destruct (StatusCode result =? 0); [reflexivity|].
    destruct (StatusCode result >=? 400), (String.eqb (Error e) ""),
      sizeErr as [se|]; reflexivity.
  - destruct (StatusCode result >=? 400), sizeErr as [se|]; reflexivity.
Qed.

Lemma parts_text (status : list string) (msg : string) (size : list string) :
  Forall (fun part => part <> "") status ->
  Forall (fun part => part <> "") size ->
  let parts := status ++ (if String.eqb msg "" then [] else [msg]) ++ size in
  (match parts with [] => "" | _ => String.concat ": " parts end = ""
   <-> status = [] /\ msg = "" /\ size = [])
  /\ (forall first rest, status = first :: rest ->
        String.prefix first
          match parts with [] => "" | _ => String.concat ": " parts end = true).
Proof.
  intros Hstatus Hsize. cbn zeta. split.
  - destruct status as [|first rest].
    + cbn [app]. destruct (String.eqb_spec msg "") as [->|Hmsg].
      * cbn [app]. destruct size as [|s0 size'].
        -- split; [intros _; repeat split|reflexivity].
        -- apply Forall_inv in Hsize.
           split; [|intros (_ & _ & Hs); discriminate].
           intros Hempty. exfalso. revert Hempty.
           apply (concat_parts s0 size'), Hsize.
      * cbn [app]. split; [|intros (_ & Hm & _); contradiction].
        intros Hempty. exfalso. revert Hempty.
        apply (concat_parts msg size), Hmsg.
    + apply Forall_inv in Hstatus. cbn [app].
      split; [|intros (Hs & _); discriminate].
      intros Hempty. exfalso. revert Hempty.
      apply (concat_parts first), Hstatus.
  - intros first rest ->. apply Forall_inv in Hstatus. cbn [app].
    apply (concat_parts first), Hstatus.
Qed.

(** X16. The result of an asset fetch.  [fetchAssetResult] keeps the
    status code of the response, and its size is never negative.  After a
    transport error (an error with status 0) the size is 0 and the error
    is the text of that error.  Otherwise the size is what
    [sizeFromResult] gives, or 0 when that fails; the error is empty
    exactly when the status is below 400, the fetch gave no error text and
    the size could be determined; and from status 400 on the error starts
    with [http status N].  The size is the [Content-Length] header when
    it is there and parses to a number that is not negative, whatever the
    body is; the length of the body when the header is missing; and
    cannot be determined when the header is missing and the body is
    [nil], or when the header does not parse or is negative. *)
Theorem asset_result_table (result : Result) (err : error) :
  let r := fetchAssetResult strconv_ParseInt strconv_Quote (result, err) in
  let size := sizeFromResult strconv_ParseInt strconv_Quote result in
  let contentLength := headerGet (ResHeader result) "Content-Length" in
  assetFetchResult.statusCode r = StatusCode result
  /\ 0 <= assetFetchResult.sizeBytes r
  /\ (forall e, err = Some e -> StatusCode result = 0 ->
        assetFetchResult.sizeBytes r = 0
        /\ assetFetchResult.err r = Error e)
  /\ (err = None \/ StatusCode result <> 0 ->
        assetFetchResult.sizeBytes r = (if isNil size.2 then size.1 else 0)
        /\ (assetFetchResult.err r = "" <->
            StatusCode result < 400
            /\ (forall e, err = Some e -> Error e = "")
            /\ size.2 = None))
  /\ (400 <= StatusCode result ->
        String.prefix ("http status " ++ pretty (StatusCode result))
          (assetFetchResult.err r) = true)
  /\ (contentLength <> "" ->
        forall v, strconv_ParseInt (strings_TrimSpace contentLength) = Ok v ->
                  (0 <= v -> size = (v, None))
                  /\ (v < 0 -> size.2 <> None))
  /\ (contentLength <> "" ->
        forall e, strconv_ParseInt (strings_TrimSpace contentLength) = Err e ->
                  size.2 <> None)
  /\ (contentLength = "" ->
        forall body, Body result = Some body ->
                     size = (Z.of_nat (String.length body), None))
  /\ (contentLength = "" -> Body result = None -> size.2 <> None).
Proof.
  cbn zeta.
  assert (Hsize :
    (headerGet (ResHeader result) "Content-Length" <> "" ->
       forall v,
         strconv_ParseInt (strings_TrimSpace
                             (headerGet (ResHeader result) "Content-Length"))
         = Ok v ->
         (0 <= v -> sizeFromResult strconv_ParseInt strconv_Quote result
                    = (v, None))
         /\ (v < 0 -> (sizeFromResult strconv_ParseInt strconv_Quote result).2
                      <> None))
    /\ (headerGet (ResHeader result) "Content-Length" <> "" ->
        forall e,
          strconv_ParseInt (strings_TrimSpace
                              (headerGet (ResHeader result) "Content-Length"))
          = Err e ->
          (sizeFromResult strconv_ParseInt strconv_Quote result).2 <> None)
    /\ (headerGet (ResHeader result) "Content-Length" = "" ->
        forall body, Body result = Some body ->
          sizeFromResult strconv_ParseInt strconv_Quote result
          = (Z.of_nat (String.length body), None))
    /\ (headerGet (ResHeader result) "Content-Length" = "" ->
        Body result = None ->
        (sizeFromResult strconv_ParseInt strconv_Quote result).2 <> None)).
  { unfold sizeFromResult, parseContentLength.
    destruct (String.eqb_spec (headerGet (ResHeader result) "Content-Length") "")
      as [Hcl|Hcl]; cbn [negb].
    - split; [intros Hne; contradiction|]. split; [intros Hne; contradiction|].
      split; [intros _ body ->; reflexivity|].
      intros _ ->. simpl. discriminate.
    - split; [|split; [|split; intros Hz; contradiction]].
      + intros _ v ->. destruct (Z.ltb_spec v 0); split; intros Hv;
          try lia; [simpl; discriminate|reflexivity].
      + intros _ e ->. simpl. discriminate. }
  destruct Hsize as (Hs1 & Hs2 & Hs3 & Hs4).
  rewrite fetchAssetResult_eq. cbn zeta.
  set (size := sizeFromResult strconv_ParseInt strconv_Quote result) in *.
  assert (Hcases : (exists v, size = (v, None) /\ 0 <= v)
                   \/ (exists e, size = (0, Some e) /\ Error e <> ""))
    by apply sizeFromResult_cases.
  assert (Hnonneg : 0 <= (if isNil size.2 then size.1 else 0)).
  { destruct Hcases as [(v & -> & Hv)|(e & -> & _)]; simpl; lia. }
  assert (Hsizeparts :
            Forall (fun part => part <> "")
              match size.2 with Some e => [Error e] | None => [] end).
  { destruct Hcases as [(v & -> & Hv)|(e & -> & He)]; simpl;
      [constructor|repeat constructor; exact He]. }
  assert (Hstatusparts :
            Forall (fun part => part <> "")
              (if StatusCode result >=? 400
               then [("http status " ++ pretty (StatusCode result))%string]
               else [])).
  { destruct (StatusCode result >=? 400); repeat constructor. discriminate. }
  destruct (parts_text _ (match err with Some e => Error e | None => "" end) _
              Hstatusparts Hsizeparts) as [Hempty Hprefix].
  cbn zeta in Hempty, Hprefix.
  split; [|split; [|split; [|split; [|split]]]].
  - destruct (negb (isNil err) && (StatusCode result =? 0)); reflexivity.
  - destruct (negb (isNil err) && (StatusCode result =? 0)); simpl; lia.
  - intros e -> Hz. rewrite Hz. simpl. split; reflexivity.
  - intros Hcase.
    replace (negb (isNil err) && (StatusCode result =? 0)) with false.
    2:{ symmetry. destruct Hcase as [->|Hne]; [reflexivity|].
        apply andb_false_iff. right. apply Z.eqb_neq, Hne. }
    cbn [assetFetchResult.sizeBytes assetFetchResult.err].
    split; [reflexivity|]. rewrite Hempty. split.
    + intros (Hst & Hmsg & Hsz). split; [|split].
      * destruct (Z.geb_spec (StatusCode result) 400); [discriminate|lia].
      * intros e ->. exact Hmsg.
      * destruct (size.2); [discriminate|reflexivity].
    + intros (Hlt & Hmsg & Hnone). split; [|split].
      * destruct (Z.geb_spec (StatusCode result) 400); [lia|reflexivity].
      * destruct err as [e|]; [apply Hmsg; reflexivity|reflexivity].
      * rewrite Hnone. reflexivity.
  - intros Hge.
    replace (negb (isNil err) && (StatusCode result =? 0)) with false.
    2:{ symmetry. apply andb_false_iff. right. apply Z.eqb_neq. lia. }
    cbn [assetFetchResult.err]. apply (Hprefix _ []).
    destruct (Z.geb_spec (StatusCode result) 400); [reflexivity|lia].
  - exact (conj Hs1 (conj Hs2 (conj Hs3 Hs4))).
Qed.

End WithExternals.
End AssetFetchSpec.

(* ===================================================================== *)
(** * Properties of the text cleaner and of the cache *)
(* ===================================================================== *)

Module TextSpec.
Import Text.

Section Runes.
Context (unicode_IsSpace : rune -> bool).
Hypothesis space_IsSpace : unicode_IsSpace space = true.

(** What the loop writes first is a space only when the loop is not
    after a space. *)
Lemma collapseLoop_head (previousSpace : bool) (value : list rune) (r : rune)
    (rest : list rune) :
  collapseLoop unicode_IsSpace previousSpace value = r :: rest ->
  unicode_IsSpace r = true -> previousSpace = false /\ r = space.
Proof.
  revert previousSpace. induction value as [|x value IH]; intros prev Hout Hr;
    [discriminate|].
  cbn [collapseLoop] in Hout. destruct (unicode_IsSpace x) eqn:Hx.
  - destruct prev.
    + destruct (IH true Hout Hr) as [Hf _]. discriminate.
    + injection Hout as <- _. split; reflexivity.
  - injection Hout as <- _. congruence.
Qed.

Lemma collapseLoop_spaces (previousSpace : bool) (value : list rune) :
  forall r, r ∈ collapseLoop unicode_IsSpace previousSpace value ->
            unicode_IsSpace r = true -> r = space.
Proof.
  revert previousSpace. induction value as [|x value IH]; intros prev r Hin Hr;
    [inversion Hin|].
  cbn [collapseLoop] in Hin. destruct (unicode_IsSpace x) eqn:Hx.
  - destruct prev; [exact (IH true r Hin Hr)|].
    apply elem_of_cons in Hin as [->|Hin]; [reflexivity|].
    exact (IH true r Hin Hr).
  - apply elem_of_cons in Hin as [->|Hin]; [congruence|].
    exact (IH false r Hin Hr).
Qed.

Lemma collapseLoop_apart (previousSpace : bool) (value : list rune) :
  forall i a b,
    collapseLoop unicode_IsSpace previousSpace value !! i = Some a ->
    collapseLoop unicode_IsSpace previousSpace value !! S i = Some b ->
    ~ (unicode_IsSpace a = true /\ unicode_IsSpace b = true).
Proof.
  revert previousSpace. induction value as [|x value IH]; intros prev i a b Ha Hb;
    [simpl in Ha; rewrite lookup_nil in Ha; discriminate|].
  cbn [collapseLoop] in Ha, Hb. destruct (unicode_IsSpace x) eqn:Hx.
  - destruct prev; [exact (IH true i a b Ha Hb)|].
    destruct i as [|i]; [|exact (IH true i a b Ha Hb)].
    simpl in Ha, Hb. injection Ha as <-. intros [_ Hbs].
    destruct (collapseLoop unicode_IsSpace true value) as [|y out] eqn:Hout;
      [discriminate|].
    simpl in Hb. injection Hb as ->.
    destruct (collapseLoop_head true value b out Hout Hbs) as [Hf _].
    discriminate.
  - destruct i as [|i]; [|exact (IH false i a b Ha Hb)].
    simpl in Ha. injection Ha as <-. intros [Has _]. congruence.
Qed.

Lemma collapseLoop_others (previousSpace : bool) (value : list rune) :
  filter (fun r => unicode_IsSpace r = false)
    (collapseLoop unicode_IsSpace previousSpace value)
  = filter (fun r => unicode_IsSpace r = false) value.
Proof.
  revert previousSpace. induction value as [|x value IH]; intros prev;
    [reflexivity|].
  cbn [collapseLoop]. rewrite (filter_cons _ x value).
  destruct (unicode_IsSpace x) eqn:Hx.
  - rewrite decide_False by discriminate.
    destruct prev; [apply IH|].
    rewrite filter_cons, decide_False by (rewrite space_IsSpace; discriminate).
    apply IH.
  - rewrite decide_True by reflexivity.
    rewrite filter_cons, decide_True by exact Hx. f_equal. apply IH.
Qed.

Lemma collapseLoop_length (previousSpace : bool) (value : list rune) :
  length (collapseLoop unicode_IsSpace previousSpace value) <= length value.
Proof.
  revert previousSpace. induction value as [|x value IH]; intros prev;
    [reflexivity|].
  cbn [collapseLoop length]. destruct (unicode_IsSpace x).
  - destruct prev; [specialize (IH true); lia|].
    cbn [length]. specialize (IH true). lia.
  - cbn [length]. specialize (IH false). lia.
Qed.

(** The loop leaves alone what it has written: after a space, what
    follows has no space in front; anywhere, a text whose spaces are
    single [' '] runes. *)
Lemma collapseLoop_again (previousSpace : bool) (value : list rune) :
  collapseLoop unicode_IsSpace previousSpace
    (collapseLoop unicode_IsSpace previousSpace value)
  = collapseLoop unicode_IsSpace previousSpace value.
Proof.
  revert previousSpace. induction value as [|x value IH]; intros prev;
    [reflexivity|].
  cbn [collapseLoop]. destruct (unicode_IsSpace x) eqn:Hx.
  - destruct prev; [apply IH|].
    cbn [collapseLoop]. rewrite space_IsSpace. f_equal. apply IH.
  - cbn [collapseLoop]. rewrite Hx. f_equal. apply IH.
Qed.

Lemma collapseLoop_clean (value : list rune) :
  Forall (fun r => unicode_IsSpace r = false) value ->
  forall previousSpace,
    collapseLoop unicode_IsSpace previousSpace value = value.
Proof.
  induction 1 as [|x value Hx _ IH]; intros prev; [reflexivity|].
  cbn [collapseLoop]. rewrite Hx. f_equal. apply IH.
Qed.

(** X17. [collapseSpaces] turns every run of white space into one
    space.  In what it returns: every rune that is white space is the
    rune [' ']; no two runes that follow each other are both white space;
    the other runes are those of the argument, in the same order.  It
    never makes the text longer, leaves a text without white space as it
    is, and applied to its own result changes nothing. *)
Theorem collapse_spaces_single (value : list rune) :
  let out := collapseSpaces unicode_IsSpace value in
  (forall r, r ∈ out -> unicode_IsSpace r = true -> r = space)
  /\ (forall i a b, out !! i = Some a -> out !! S i = Some b ->
        ~ (unicode_IsSpace a = true /\ unicode_IsSpace b = true))
  /\ filter (fun r => unicode_IsSpace r = false) out
     = filter (fun r => unicode_IsSpace r = false) value
  /\ length out <= length value
  /\ (Forall (fun r => unicode_IsSpace r = false) value -> out = value)
  /\ collapseSpaces unicode_IsSpace out = out.
Proof.
  cbn zeta. unfold collapseSpaces.
  split; [apply collapseLoop_spaces|].
  split; [apply collapseLoop_apart|].
  split; [apply collapseLoop_others|].
  split; [apply collapseLoop_length|].
  split; [intros Hclean; apply collapseLoop_clean, Hclean|].
  apply collapseLoop_again.
Qed.

End Runes.

(** The theorem at the text [a], tab, space, line feed, [b], space. *)
Lemma collapse_spaces_single_witness :
  collapseSpaces latin1IsSpace [97; 9; 32; 10; 98; 32]%N = [97; 32; 98; 32]%N
  /\ collapseSpaces latin1IsSpace
       (collapseSpaces latin1IsSpace [97; 9; 32; 10; 98; 32]%N)
     = collapseSpaces latin1IsSpace [97; 9; 32; 10; 98; 32]%N.
Proof.
  split; [reflexivity|].
  apply (collapse_spaces_single latin1IsSpace eq_refl [97; 9; 32; 10; 98; 32]%N).
Defined.

End TextSpec.

Module CacheSpec.
Import Cache.

Section Cache.
Context {T : Type} (zero : T).

Lemma puts_snoc (c : gmap string T) (calls : list (string * T)) (key : string)
    (value : T) :
  puts c (calls ++ [(key, value)]) = Put (puts c calls) key value.
Proof. unfold puts. rewrite fold_left_app. reflexivity. Qed.

(** X18. The cache answers with the last value set.  After any sequence
    of [Set] calls on a new cache, [Get] of a key returns the value of the
    last [Set] for that key, with [true]; and the zero value, with
    [false], when there was no [Set] for it.  A [Set] for one key does
    not change what [Get] returns for another. *)
Theorem cache_last_set_wins (calls : list (string * T)) (key : string) :
  Get zero (puts New calls) key
  = match last (filter (fun call => call.1 = key) calls) with
    | Some call => (call.2, true)
    | None => (zero, false)
    end
  /\ (forall other value, other <> key ->
        Get zero (Put (puts New calls) other value) key
        = Get zero (puts New calls) key).
Proof.
  split.
  - induction calls as [|[k v] calls IH] using rev_ind; [reflexivity|].
    rewrite puts_snoc, filter_app, filter_cons, filter_nil. cbn [fst].
    unfold Get, Put in *.
    destruct (decide (k = key)) as [->|Hne].
    + rewrite lookup_insert_eq, last_snoc. reflexivity.
    + rewrite lookup_insert_ne by exact Hne. rewrite app_nil_r. exact IH.
  - intros other value Hne. unfold Get, Put.
    rewrite lookup_insert_ne by exact Hne. reflexivity.
Qed.

End Cache.
End CacheSpec.

(* ===================================================================== *)
(** * Properties of the HTML parser *)
(* ===================================================================== *)

Module ParserSpec.
Import Fetcher Crawler Parser.

Section Parser.
Context `{Dom}.

Lemma assetOf_shape (attr assetType : string) (selections : list Node) :
  Forall (fun ref =>
            AssetRef.Type_ ref = assetType /\ AssetRef.URL ref <> ""
            /\ exists selection value,
                 selection ∈ selections /\ Attr selection attr = Some value
                 /\ AssetRef.URL ref = strings_TrimSpace value)
    (omap (assetOf attr assetType) selections).
Proof.
  induction selections as [|selection rest IH]; [constructor|].
  assert (Hrest :
    Forall (fun ref =>
              AssetRef.Type_ ref = assetType /\ AssetRef.URL ref <> ""
              /\ exists selection' value,
                   selection' ∈ selection :: rest
                   /\ Attr selection' attr = Some value
                   /\ AssetRef.URL ref = strings_TrimSpace value)
      (omap (assetOf attr assetType) rest)).
  { eapply Forall_impl; [exact IH|]. cbn beta.
    intros ref (Ht & Hu & s & v & Hin & Ha & Hv).
    split; [exact Ht|]. split; [exact Hu|].
    exists s, v. split; [right; exact Hin|]. split; assumption. }
  csimpl. unfold assetOf at 1.
  destruct (Attr selection attr) as [value|] eqn:Hattr; [|exact Hrest].
  cbn zeta. destruct (String.eqb_spec (strings_TrimSpace value) "") as [He|Hne];
    [exact Hrest|].
  constructor; [|exact Hrest].
  split; [reflexivity|]. split; [exact Hne|].
  exists selection, value. split; [left|]. split; [exact Hattr|reflexivity].
Qed.

Lemma stylesheetOf_shape (selections : list Node) :
  Forall (fun ref =>
            AssetRef.Type_ ref = "style" /\ AssetRef.URL ref <> ""
            /\ exists selection rel href,
                 selection ∈ selections
                 /\ Attr selection "rel" = Some rel
                 /\ strings_Contains (strings_ToLower rel) "stylesheet" = true
                 /\ Attr selection "href" = Some href
                 /\ AssetRef.URL ref = strings_TrimSpace href)
    (omap stylesheetOf selections).
Proof.
  induction selections as [|selection rest IH]; [constructor|].
  assert (Hrest :
    Forall (fun ref =>
              AssetRef.Type_ ref = "style" /\ AssetRef.URL ref <> ""
              /\ exists selection' rel href,
                   selection' ∈ selection :: rest
                   /\ Attr selection' "rel" = Some rel
                   /\ strings_Contains (strings_ToLower rel) "stylesheet" = true
                   /\ Attr selection' "href" = Some href
                   /\ AssetRef.URL ref = strings_TrimSpace href)
      (omap stylesheetOf rest)).
  { eapply Forall_impl; [exact IH|]. cbn beta.
    intros ref (Ht & Hu & s & rel & href & Hin & Hrel & Hc & Hh & Hv).
    split; [exact Ht|]. split; [exact Hu|].
    exists s, rel, href. split; [right; exact Hin|]. repeat split; assumption. }
  csimpl. unfold stylesheetOf at 1.
  destruct (Attr selection "rel") as [rel|] eqn:Hrel; [|exact Hrest].
  destruct (strings_Contains (strings_ToLower rel) "stylesheet") eqn:Hc;
    cbn [negb]; [|exact Hrest].
  destruct (Attr selection "href") as [href|] eqn:Hhref; [|exact Hrest].
  cbn zeta. destruct (String.eqb_spec (strings_TrimSpace href) "") as [He|Hne];
    [exact Hrest|].
  constructor; [|exact Hrest].
  split; [reflexivity|]. split; [exact Hne|].
  exists selection, rel, href. split; [left|]. repeat split; assumption.
Qed.

Lemma omap_length {A B : Type} (f : A -> option B) (l : list A) :
  length (omap f l) <= length l.
Proof.
  induction l as [|x l IH]; [reflexivity|]. csimpl.
  destruct (f x); cbn [length]; lia.
Qed.

(** The loop of [parseAssetBySelector] keeps the elements that have the
    attribute with a value that is not empty, in their order, and gives
    one reference for each. *)
Lemma parseAssetBySelector_kept (attr assetType : string)
    (selections : list Node) :
  omap (assetOf attr assetType) selections
  = refsOf attr assetType (List.filter (hasValue attr) selections).
Proof.
  induction selections as [|selection rest IH]; [reflexivity|].
  csimpl. cbn [List.filter]. unfold assetOf at 1, hasValue at 1.
  destruct (Attr selection attr) as [value|] eqn:Hattr; [|exact IH].
  cbn zeta.
  destruct (String.eqb (strings_TrimSpace value) ""); cbn [negb]; [exact IH|].
  cbn [refsOf map]. unfold trimmedAttr at 1. rewrite Hattr.
  f_equal. exact IH.
Qed.

Lemma parseStylesheets_kept (selections : list Node) :
  omap stylesheetOf selections
  = refsOf "href" "style"
      (List.filter (fun selection =>
                      relStylesheet selection && hasValue "href" selection)
         selections).
Proof.
  induction selections as [|selection rest IH]; [reflexivity|].
  csimpl. cbn [List.filter].
  unfold stylesheetOf at 1, relStylesheet at 1, hasValue at 1.
  destruct (Attr selection "rel") as [rel|] eqn:Hrel; [|exact IH].
  destruct (strings_Contains (strings_ToLower rel) "stylesheet");
    cbn [negb andb]; [|exact IH].
  destruct (Attr selection "href") as [href|] eqn:Hhref; [|exact IH].
  cbn zeta.
  destruct (String.eqb (strings_TrimSpace href) ""); cbn [negb]; [exact IH|].
  cbn [refsOf map]. unfold trimmedAttr at 1. rewrite Hhref.
  f_equal. exact IH.
Qed.

(** X19. The assets read from a document.  [parseAssets] gives the
    images, then the scripts, then the style sheets, and of each kind
    exactly one reference for each element selected that has the
    attribute with a trimmed value that is not empty, in the order of the
    document: for every [img[src]] and every [script[src]] the trimmed
    [src], for every [link[href]] whose [rel], in lower case, contains
    [stylesheet] the trimmed [href].  So every reference has a URL that
    is not empty, read from an element selected, and the type [image],
    [script] or [style] of its kind; and there are no more references
    than elements selected. *)
Theorem parsed_assets_typed (doc : Document) :
  let images :=
    refsOf "src" "image" (List.filter (hasValue "src") (Find doc "img[src]")) in
  let scripts :=
    refsOf "src" "script"
      (List.filter (hasValue "src") (Find doc "script[src]")) in
  let styles :=
    refsOf "href" "style"
      (List.filter (fun selection =>
                      relStylesheet selection && hasValue "href" selection)
         (Find doc "link[href]")) in
  parseAssets doc = images ++ scripts ++ styles
  /\ Forall (fun ref =>
               AssetRef.Type_ ref = "image" /\ AssetRef.URL ref <> ""
               /\ exists selection value,
                    selection ∈ Find doc "img[src]"
                    /\ Attr selection "src" = Some value
                    /\ AssetRef.URL ref = strings_TrimSpace value) images
  /\ Forall (fun ref =>
               AssetRef.Type_ ref = "script" /\ AssetRef.URL ref <> ""
               /\ exists selection value,
                    selection ∈ Find doc "script[src]"
                    /\ Attr selection "src" = Some value
                    /\ AssetRef.URL ref = strings_TrimSpace value) scripts
  /\ Forall (fun ref =>
               AssetRef.Type_ ref = "style" /\ AssetRef.URL ref <> ""
               /\ exists selection rel href,
                    selection ∈ Find doc "link[href]"
                    /\ Attr selection "rel" = Some rel
                    /\ strings_Contains (strings_ToLower rel) "stylesheet"
                       = true
                    /\ Attr selection "href" = Some href
                    /\ AssetRef.URL ref = strings_TrimSpace href) styles
  /\ length images <= length (Find doc "img[src]")
  /\ length scripts <= length (Find doc "script[src]")
  /\ length styles <= length (Find doc "link[href]").
Proof.
  cbn zeta.
  rewrite <- !parseAssetBySelector_kept, <- parseStylesheets_kept.
  split; [reflexivity|].
  split; [apply assetOf_shape|]. split; [apply assetOf_shape|].
  split; [apply stylesheetOf_shape|].
  split; [apply omap_length|]. split; apply omap_length.
Qed.

(** The first [meta] element with the name [description]. *)
Lemma findMeta_first (selections : list Node) :
  (findMeta selections = (false, "")
   /\ forall selection name,
        selection ∈ selections -> Attr selection "name" = Some name ->
        strings_EqualFold (strings_TrimSpace name) "description" = false)
  \/ (exists before selection after name,
        selections = before ++ selection :: after
        /\ Attr selection "name" = Some name
        /\ strings_EqualFold (strings_TrimSpace name) "description" = true
        /\ (forall other name',
              other ∈ before -> Attr other "name" = Some name' ->
              strings_EqualFold (strings_TrimSpace name') "description" = false)
        /\ findMeta selections
           = (true,
              cleanHumanText
                match Attr selection "content" with
                | Some content => content
                | None => ""
                end)).
Proof.
  induction selections as [|selection rest IH].
  - left. split; [reflexivity|]. intros s name Hin. inversion Hin.
  - cbn [findMeta].
    destruct (Attr selection "name") as [name|] eqn:Hname.
    + destruct (strings_EqualFold (strings_TrimSpace name) "description")
        eqn:Hfold; cbn [negb].
      * right. exists [], selection, rest, name.
        split; [reflexivity|]. split; [exact Hname|]. split; [exact Hfold|].
        split; [|reflexivity]. intros other name' Hin. inversion Hin.
      * destruct IH as [[Hnone Hall]|(before & s & after & n & -> & Hn & Hf & Hb & Hr)].
        -- left. split; [exact Hnone|].
           intros s n Hin Hn. apply elem_of_cons in Hin as [->|Hin].
           ++ rewrite Hname in Hn. injection Hn as <-. exact Hfold.
           ++ exact (Hall s n Hin Hn).
        -- right. exists (selection :: before), s, after, n.
           split; [reflexivity|]. split; [exact Hn|]. split; [exact Hf|].
           split; [|exact Hr].
           intros other name' Hin Hn'. apply elem_of_cons in Hin as [->|Hin].
           ++ rewrite Hname in Hn'. injection Hn' as <-. exact Hfold.
           ++ exact (Hb other name' Hin Hn').
    + destruct IH as [[Hnone Hall]|(before & s & after & n & -> & Hn & Hf & Hb & Hr)].
      * left. split; [exact Hnone|].
        intros s n Hin Hn. apply elem_of_cons in Hin as [->|Hin].
        -- rewrite Hname in Hn. discriminate.
        -- exact (Hall s n Hin Hn).
      * right. exists (selection :: before), s, after, n.
        split; [reflexivity|]. split; [exact Hn|]. split; [exact Hf|].
        split; [|exact Hr].
        intros other name' Hin Hn'. apply elem_of_cons in Hin as [->|Hin].
        -- rewrite Hname in Hn'. discriminate.
        -- exact (Hb other name' Hin Hn').
Qed.

(** X20. Missing SEO elements give false flags and empty strings.  In
    what [parseSEO] returns: [HasTitle] says whether the document has a
    [title] element, and the title is the cleaned text of the first one,
    or empty; [HasDescription] says whether some [meta] element has a
    name that is [description] (trimmed, in any case), and the
    description is the cleaned [content] of the first such element (empty
    when it has no [content]), or empty; [HasH1] says whether the
    document has an [h1] element. *)
Theorem seo_missing_elements (doc : Document) :
  let seo := parseSEO doc in
  (SEO.HasTitle seo = true <-> Find doc "title" <> [])
  /\ (SEO.HasTitle seo = false -> SEO.Title seo = "")
  /\ (forall first rest, Find doc "title" = first :: rest ->
        SEO.Title seo = cleanHumanText (NodeText first))
  /\ (SEO.HasDescription seo = true <->
      exists selection name,
        selection ∈ Find doc "meta[name]"
        /\ Attr selection "name" = Some name
        /\ strings_EqualFold (strings_TrimSpace name) "description" = true)
  /\ (SEO.HasDescription seo = false -> SEO.Description seo = "")
  /\ (forall before selection after name,
        Find doc "meta[name]" = before ++ selection :: after ->
        Attr selection "name" = Some name ->
        strings_EqualFold (strings_TrimSpace name) "description" = true ->
        (forall other name',
           other ∈ before -> Attr other "name" = Some name' ->
           strings_EqualFold (strings_TrimSpace name') "description" = false) ->
        SEO.Description seo
        = cleanHumanText
            match Attr selection "content" with
            | Some content => content
            | None => ""
            end)
  /\ (SEO.HasH1 seo = true <-> Find doc "h1" <> []).
Proof.
  cbn zeta. unfold parseSEO, findMetaDescription.
  destruct (findMeta (Find doc "meta[name]")) as [hasDescription description]
    eqn:Hmeta.
  cbn [SEO.HasTitle SEO.Title SEO.HasDescription SEO.Description SEO.HasH1].
  split; [|split; [|split; [|split; [|split; [|split]]]]].
  - destruct (Find doc "title") as [|first rest]; cbn.
    + split; [discriminate|]. intros Hne. contradiction.
    + split; [discriminate|reflexivity].
  - intros ->. reflexivity.
  - intros first rest ->. simpl. reflexivity.
  - destruct (findMeta_first (Find doc "meta[name]"))
      as [[Hnone Hall]|(before & s & after & n & Hl & Hn & Hf & Hb & Hr)].
    + rewrite Hnone in Hmeta. injection Hmeta as <- <-.
      split; [discriminate|]. intros (s & n & Hin & Hn & Hf).
      rewrite (Hall s n Hin Hn) in Hf. discriminate.
    + rewrite Hr in Hmeta. injection Hmeta as <- <-.
      split; [|reflexivity]. intros _. exists s, n.
      split; [rewrite Hl; apply elem_of_app; right; left|].
      split; assumption.
  - intros ->.
    destruct (findMeta_first (Find doc "meta[name]"))
      as [[Hnone _]|(before & s & after & n & _ & _ & _ & _ & Hr)].
    + rewrite Hmeta in Hnone. injection Hnone as ->. reflexivity.
    + rewrite Hmeta in Hr. discriminate.
  - intros before selection after name Hl Hn Hf Hb.
    destruct (findMeta_first (Find doc "meta[name]"))
      as [[Hnone Hall]|(before' & s & after' & n & Hl' & Hn' & Hf' & Hb' & Hr)].
    + exfalso. rewrite (Hall selection name) in Hf; [discriminate| |exact Hn].
      rewrite Hl. apply elem_of_app. right. left.
    + rewrite Hr in Hmeta. injection Hmeta as _ <-.
      assert (Hsame : before = before' /\ selection = s).
      { rewrite Hl in Hl'. clear -Hl' Hn Hf Hb Hn' Hf' Hb'.
        revert before' Hl' Hb'.
        induction before as [|x before IH]; intros before' Hl' Hb'.
        - destruct before' as [|y before'].
          + injection Hl' as -> _. split; reflexivity.
          + injection Hl' as -> _. exfalso.
            rewrite (Hb' y name) in Hf; [discriminate|left|exact Hn].
        - destruct before' as [|y before'].
          + injection Hl' as -> _. exfalso.
            rewrite (Hb s n) in Hf'; [discriminate|left|exact Hn'].
          + injection Hl' as -> Hl'.
            destruct (IH (fun o n' Ho => Hb o n' (list_elem_of_further _ _ _ Ho))
                        before' Hl'
                        (fun o n' Ho => Hb' o n' (list_elem_of_further _ _ _ Ho)))
              as [-> ->].
            split; reflexivity. }
      destruct Hsame as [_ ->]. reflexivity.
  - destruct (Find doc "h1") as [|first rest]; cbn.
    + split; [discriminate|]. intros Hne. contradiction.
    + split; [discriminate|reflexivity].
Qed.

End Parser.
End ParserSpec.

(* ===================================================================== *)
(** * The tree of a crawl: every page was linked from a page *)
(* ===================================================================== *)

Module TreeSpec.
Import Fetcher Crawler Fixture CrawlerSpec Run RunFixture RunSpec Links
       LinksSpec Tree.
Local Open Scope Z_scope.

Section WithExternals.
Context `{Externals}.

(** ** The loop over the links, with the link *)

Lemma enqueueLinks_ind_in (I : aggregator -> Prop) (henv : HandleEnv) (d : Z)
    (links : list string) :
  (forall a idx link, link ∈ links -> I a ->
     SameOrigin (aggBaseURL a) link = true ->
     I (enqueue a (ctxFirstAt henv idx)
          {| crawlJob.url := link; crawlJob.depth := d;
             crawlJob.discoveredAt := nowAt henv idx; crawlJob.seq := 0%N |})) ->
  forall a idx, I a -> I (enqueueLinks a henv d idx links).
Proof.
  induction links as [|l rest IH]; intros Hstep a idx Ha; simpl.
  - exact Ha.
  - assert (Hrest : forall a idx link, link ∈ rest -> I a ->
              SameOrigin (aggBaseURL a) link = true ->
              I (enqueue a (ctxFirstAt henv idx)
                   {| crawlJob.url := link; crawlJob.depth := d;
                      crawlJob.discoveredAt := nowAt henv idx;
                      crawlJob.seq := 0%N |})).
    { intros a' idx' link Hin. apply Hstep. right. exact Hin. }
    destruct (SameOrigin (aggBaseURL a) l) eqn:Hso; simpl.
    + apply (IH Hrest). apply Hstep; [left|exact Ha|exact Hso].
    + apply (IH Hrest). exact Ha.
Qed.

Lemma handleResult_ind_in (I J : aggregator -> Prop) (a : aggregator)
    (henv : HandleEnv) (result : pageResult.t) :
  let nextDepth := wrap64 (crawlJob.depth (pageResult.job result) + 1) in
  I (setPendingPage a (crawlJob.seq (pageResult.job result))
       (pageResult.page result)) ->
  (forall x page, I x -> pendingPages x !! nextCommit x = Some page ->
                  I (commitNext x page)) ->
  (forall x, I x -> pendingPages x !! nextCommit x = None -> J x) ->
  (forall x, J x -> J (setAnalysisErr x (pageResult.err result))) ->
  (forall x idx link, J x -> link ∈ pageResult.links result ->
     J (enqueue x (ctxFirstAt henv idx)
          {| crawlJob.url := link; crawlJob.depth := nextDepth;
             crawlJob.discoveredAt := nowAt henv idx; crawlJob.seq := 0%N |})) ->
  J (handleResult a henv result).
Proof.
  intros nextDepth Hstore Hcommit Hflush Herr Henq. unfold handleResult.
  destruct (flushCommitted_ind I Hcommit _ Hstore) as [HI Hnone].
  pose proof (Hflush _ HI Hnone) as HJ.
  set (a1 := flushCommitted _) in *.
  set (a2 := if (crawlJob.depth (pageResult.job result) =? 0)
                && negb (isNil (pageResult.err result))
                && isNil (analysisErr a1)
             then setAnalysisErr a1 (pageResult.err result) else a1).
  assert (HJ2 : J a2).
  { subst a2.
    destruct ((crawlJob.depth (pageResult.job result) =? 0)
              && negb (isNil (pageResult.err result))
              && isNil (analysisErr a1)); [apply Herr|]; exact HJ. }
  fold nextDepth.
  destruct (nextDepth >? aggMaxDepth a2); [exact HJ2|].
  apply enqueueLinks_ind_in; [|exact HJ2].
  intros x idx link Hin Hx _. apply Henq; assumption.
Qed.

(** A page with links is the page of a fetch that succeeded, and its
    links are probed links that are not broken. *)
Lemma processJob_links (env : JobEnv) (job : crawlJob.t) (u : string) :
  u ∈ pageResult.links (processJob env job).1 ->
  Page.Status (pageResult.page (processJob env job).1) = statusOK
  /\ linkBroken env u = false
  /\ u ∈ (processJob env job).2.
Proof.
  unfold processJob. destruct (pageFetch env) as [r e].
  destruct (negb (isNil e) || (StatusCode r >=? StatusBadRequest));
    [intros Hin; inversion Hin|].
  destruct (parser_ParseHTML (Body r)) as [parsed|pe];
    [|intros Hin; inversion Hin].
  rewrite checkLinks_eq. cbn zeta. cbn [fst snd pageResult.links pageResult.page].
  intros Hin. apply list_elem_of_filter in Hin as [Hb Hin].
  split; [reflexivity|]. split; assumption.
Qed.

(** ** The URLs seen *)

Lemma enqueue_seen (a : aggregator) (job : crawlJob.t) :
  seen a ⊆ seen (enqueue a false job)
  /\ crawlJob.url job ∈ seen (enqueue a false job).
Proof.
  unfold enqueue. destruct (decide (crawlJob.url job ∈ seen a)) as [Hin|Hnin].
  - split; [reflexivity|exact Hin].
  - simpl. split; set_solver.
Qed.

Lemma enqueue_seen_mono (a : aggregator) (c : bool) (job : crawlJob.t) :
  seen a ⊆ seen (enqueue a c job).
Proof.
  destruct (enqueue_cases a c job) as [->|(_ & _ & ->)]; [reflexivity|].
  simpl. set_solver.
Qed.

(** While the context is not done, the loop over the links marks every
    link of the origin of the root as seen. *)
Lemma enqueueLinks_seen (henv : HandleEnv) (d : Z) :
  (forall idx, ctxFirstAt henv idx = false) ->
  forall links a idx,
    seen a ⊆ seen (enqueueLinks a henv d idx links)
    /\ forall u, u ∈ links -> SameOrigin (aggBaseURL a) u = true ->
                 u ∈ seen (enqueueLinks a henv d idx links).
Proof.
  intros Hctx links. induction links as [|l rest IH]; intros a idx.
  - split; [reflexivity|]. intros u Hin. inversion Hin.
  - cbn [enqueueLinks]. destruct (SameOrigin (aggBaseURL a) l) eqn:Hso;
      cbn [negb].
    + rewrite Hctx.
      set (job := {| crawlJob.url := l; crawlJob.depth := d;
                     crawlJob.discoveredAt := nowAt henv idx;
                     crawlJob.seq := 0%N |}).
      destruct (enqueue_seen a job) as [Hmono Hl].
      destruct (IH (enqueue a false job) (S idx)) as [Hmono' Hrest].
      destruct (enqueue_frame a false job) as (_ & _ & _ & Hbase).
      split; [etransitivity; eassumption|].
      intros u Hin Hu. apply elem_of_cons in Hin as [->|Hin].
      * apply Hmono'. exact Hl.
      * apply Hrest; [exact Hin|]. rewrite Hbase. exact Hu.
    + destruct (IH a (S idx)) as [Hmono Hrest].
      split; [exact Hmono|].
      intros u Hin Hu. apply elem_of_cons in Hin as [->|Hin]; [congruence|].
      apply Hrest; assumption.
Qed.

Lemma enqueueLinks_seen_mono (henv : HandleEnv) (d : Z) (links : list string) :
  forall a idx, seen a ⊆ seen (enqueueLinks a henv d idx links).
Proof.
  induction links as [|l rest IH]; intros a idx; [reflexivity|].
  cbn [enqueueLinks]. destruct (negb (SameOrigin (aggBaseURL a) l)); [apply IH|].
  etransitivity; [apply enqueue_seen_mono|apply IH].
Qed.

(** The part of [handleResult] before the loop over the links. *)
Lemma handleResult_parts (a : aggregator) (henv : HandleEnv)
    (result : pageResult.t) :
  exists a2,
    seen a2 = seen a /\ aggBaseURL a2 = aggBaseURL a
    /\ aggMaxDepth a2 = aggMaxDepth a
    /\ handleResult a henv result
       = if wrap64 (crawlJob.depth (pageResult.job result) + 1)
            >? aggMaxDepth a2
         then a2
         else enqueueLinks a2 henv
                (wrap64 (crawlJob.depth (pageResult.job result) + 1)) 0
                (pageResult.links result).
Proof.
  unfold handleResult.
  set (a0 := setPendingPage a (crawlJob.seq (pageResult.job result))
               (pageResult.page result)).
  destruct (flushCommitted_frame (fun _ => True) (size (pendingPages a0)) a0
              ltac:(lia)
              ltac:(apply Forall_forall; intros; exact I)
              ltac:(intros k p _; exact I))
    as (Hseen & _ & _ & _ & _ & Hmax & Hbase & _).
  cbn zeta in Hseen, Hmax, Hbase.
  set (a1 := flushCommitted a0) in *.
  eexists. split; [|split; [|split; [|reflexivity]]].
  - destruct ((crawlJob.depth (pageResult.job result) =? 0)
              && negb (isNil (pageResult.err result))
              && isNil (analysisErr a1)); simpl; exact Hseen.
  - destruct ((crawlJob.depth (pageResult.job result) =? 0)
              && negb (isNil (pageResult.err result))
              && isNil (analysisErr a1)); simpl; exact Hbase.
  - destruct ((crawlJob.depth (pageResult.job result) =? 0)
              && negb (isNil (pageResult.err result))
              && isNil (analysisErr a1)); simpl; exact Hmax.
Qed.

Lemma closeJobsIfNeeded_seen (a : aggregator) :
  seen (closeJobsIfNeeded a) = seen a.
Proof.
  unfold closeJobsIfNeeded.
  destruct (negb (pending a =? 0) || jobsClosed a); reflexivity.
Qed.

Lemma onResult_seen (a : aggregator) (henv : HandleEnv) (result : pageResult.t) :
  seen a ⊆ seen (onResult a henv result)
  /\ ((forall idx, ctxFirstAt henv idx = false) ->
      forall u, u ∈ pageResult.links result ->
        SameOrigin (aggBaseURL a) u = true ->
        wrap64 (crawlJob.depth (pageResult.job result) + 1) <= aggMaxDepth a ->
        u ∈ seen (onResult a henv result)).
Proof.
  unfold onResult. rewrite closeJobsIfNeeded_seen.
  destruct (handleResult_parts (setPending a (pending a - 1)) henv result)
    as (a2 & Hseen & Hbase & Hmax & ->).
  simpl in Hseen, Hbase, Hmax. split.
  - destruct (_ >? aggMaxDepth a2); [rewrite Hseen; reflexivity|].
    rewrite <- Hseen. apply enqueueLinks_seen_mono.
  - intros Hctx u Hin Hso Hle. rewrite Hmax.
    destruct (Z.gtb_spec (wrap64 (crawlJob.depth (pageResult.job result) + 1))
                (aggMaxDepth a)) as [Hgt|_]; [lia|].
    apply (enqueueLinks_seen henv _ Hctx); [exact Hin|].
    rewrite Hbase. exact Hso.
Qed.

(** ** The run and its log *)

Lemma stepLog_step (st st' : RunState) (o : option (JobEnv * crawlJob.t)) :
  stepLog st o st' -> step st st'.
Proof. intros [? ? ? ? ? ? Hj Hc| |? Hd]; constructor; assumption. Qed.

Lemma step_stepLog (st st' : RunState) :
  step st st' -> exists o, stepLog st o st'.
Proof.
  intros [? ? j ? env ? Hj Hc| |? Hd].
  - exists (Some (env, j)). constructor; assumption.
  - exists None. constructor.
  - exists None. constructor. assumption.
Qed.

Lemma stepsLog_steps (st0 st : RunState) (log : list (JobEnv * crawlJob.t)) :
  stepsLog st0 log st -> steps st0 st.
Proof.
  induction 1 as [|st1 st2 st3 log o _ IH Hstep]; [constructor|].
  eapply steps_step; [exact IH|]. eapply stepLog_step. exact Hstep.
Qed.

(** Every run has a log. *)
Lemma steps_stepsLog (st0 st : RunState) :
  steps st0 st -> exists log, stepsLog st0 log st.
Proof.
  induction 1 as [|st1 st2 st3 _ [log IH] Hstep].
  - exists []. constructor.
  - destruct (step_stepLog _ _ Hstep) as [o Ho].
    exists (log ++ option_list o). econstructor; eassumption.
Qed.

(** ** The pages held *)

Lemma heldPages_store (a : aggregator) (k : N) (page : Page.t) :
  pendingPages a !! k = None ->
  heldPages (setPendingPage a k page) ≡ₚ heldPages a ++ [page].
Proof.
  intros Hk. unfold heldPages. simpl.
  rewrite map_to_list_insert by exact Hk. simpl.
  rewrite <- Permutation_middle, <- Permutation_cons_append. reflexivity.
Qed.

Lemma heldPages_commitNext (x : aggregator) (page : Page.t) :
  pendingPages x !! nextCommit x = Some page ->
  heldPages (commitNext x page) ≡ₚ heldPages x.
Proof.
  intros Hlook. unfold heldPages, commitNext, appendPage. simpl.
  rewrite <- (map_to_list_delete (pendingPages x) (nextCommit x) page Hlook).
  simpl. rewrite <- app_assoc. simpl. reflexivity.
Qed.

Lemma heldPages_enqueue (x : aggregator) (c : bool) (job : crawlJob.t) :
  heldPages (enqueue x c job) = heldPages x.
Proof.
  unfold heldPages. destruct (enqueue_frame x c job) as (-> & -> & _).
  reflexivity.
Qed.

Lemma heldPages_close (x : aggregator) :
  heldPages (closeJobsIfNeeded x) = heldPages x.
Proof.
  unfold heldPages. destruct (closeJobsIfNeeded_frame x) as (-> & -> & _).
  reflexivity.
Qed.

(** A result comes back: its page joins the pages held, and no other
    page comes or goes. *)
Lemma onResult_heldPages (a : aggregator) (henv : HandleEnv) (env : JobEnv)
    (before after : list crawlJob.t) (j : crawlJob.t) :
  seqInv a -> jobs a = before ++ j :: after ->
  heldPages (onResult (setJobs a (before ++ after)) henv (processJob env j).1)
  ≡ₚ heldPages a ++ [pageOf (env, j)].
Proof.
  intros Hinv Hjobs. unfold onResult. rewrite heldPages_close.
  apply (handleResult_ind_in
           (fun x => heldPages x ≡ₚ heldPages a ++ [pageOf (env, j)])
           (fun x => heldPages x ≡ₚ heldPages a ++ [pageOf (env, j)])).
  - rewrite processJob_job.
    assert (Hfresh : pendingPages a !! crawlJob.seq j = None).
    { apply not_elem_of_dom. intros Hdom.
      apply (si_apart a Hinv _ Hdom). rewrite Hjobs, map_app.
      apply elem_of_app. right. left. }
    exact (heldPages_store
             (setPending (setJobs a (before ++ after))
                (pending (setJobs a (before ++ after)) - 1))
             (crawlJob.seq j) _ Hfresh).
  - intros x page Hx Hlook. rewrite heldPages_commitNext by exact Hlook.
    exact Hx.
  - intros x Hx _. exact Hx.
  - intros x Hx. exact Hx.
  - intros x idx link Hx _. rewrite heldPages_enqueue. exact Hx.
Qed.

Lemma stepLog_bounded (st st' : RunState) (o : option (JobEnv * crawlJob.t)) :
  stepLog st o st' -> bounded (agg st') -> bounded (agg st).
Proof.
  unfold bounded.
  intros [s before j after env henv Hj Hc|s|s Hd]; cbn [agg].
  - destruct (onResult_seen (setJobs (agg s) (before ++ after)) henv
                (processJob env j).1) as [Hmono _].
    simpl in Hmono. apply subseteq_size in Hmono. intros Hb. lia.
  - auto.
  - rewrite closeJobsIfNeeded_seen. auto.
Qed.

Lemma runInit_heldPages (an : analyzer) (rep : Report.t) (c0 cf : bool) :
  Report.Pages rep = [] -> heldPages (agg (runInit an rep c0 cf)) = [].
Proof.
  intros Hempty. unfold runInit. cbn [agg].
  rewrite heldPages_close, heldPages_enqueue. unfold heldPages. simpl.
  rewrite Hempty, map_to_list_empty. reflexivity.
Qed.

(** The pages held are the pages of the results handled, each once. *)
Lemma stepsLog_heldPages (an : analyzer) (rep : Report.t) (c0 cf : bool)
    (log : list (JobEnv * crawlJob.t)) (st : RunState) :
  Report.Pages rep = [] ->
  stepsLog (runInit an rep c0 cf) log st ->
  bounded (agg st) ->
  heldPages (agg st) ≡ₚ map pageOf log.
Proof.
  intros Hempty Hsteps. remember (runInit an rep c0 cf) as st0 eqn:Hst0.
  induction Hsteps as [st|st1 st2 st3 log o Hsteps IH Hstep]; intros Hb.
  - subst st. rewrite runInit_heldPages by exact Hempty. reflexivity.
  - specialize (IH Hst0 (stepLog_bounded _ _ _ Hstep Hb)).
    rewrite Hst0 in Hsteps.
    pose proof (steps_seqState an rep c0 cf _ Hempty
                  (stepsLog_steps _ _ _ Hsteps)
                  (stepLog_bounded _ _ _ Hstep Hb)) as [Hinv _].
    destruct Hstep as [st before j after env henv Hjobs Hctx|st|st Hdone];
      cbn [agg option_list]; rewrite ?app_nil_r.
    + rewrite map_app. cbn [map]. rewrite <- IH.
      apply onResult_heldPages; assumption.
    + exact IH.
    + rewrite heldPages_close. exact IH.
Qed.

(** ** The tree *)

Lemma handedOn_mono (log log' : list (JobEnv * crawlJob.t)) (u : string)
    (d : Z) :
  (forall h, h ∈ log -> h ∈ log') -> handedOn log u d -> handedOn log' u d.
Proof.
  intros Hsub (parent & Hin & Hd & Hu). exists parent.
  split; [apply Hsub, Hin|]. split; assumption.
Qed.

Lemma onResult_treeInv (a : aggregator) (log : list (JobEnv * crawlJob.t))
    (henv : HandleEnv) (env : JobEnv) (before after : list crawlJob.t)
    (j : crawlJob.t) :
  0 <= crawlJob.depth j < 2 ^ 63 - 1 ->
  treeInv a log -> jobs a = before ++ j :: after ->
  treeInv (onResult (setJobs a (before ++ after)) henv (processJob env j).1)
    (log ++ [(env, j)]).
Proof.
  intros Hdepth [Hj Hlog] Hjobs.
  assert (Hsub : forall h, h ∈ log -> h ∈ log ++ [(env, j)]).
  { intros h Hin. apply elem_of_app. left. exact Hin. }
  assert (Hlast : (env, j) ∈ log ++ [(env, j)]).
  { apply elem_of_app. right. left. }
  split.
  - unfold onResult.
    destruct (closeJobsIfNeeded_frame
                (handleResult
                   (setPending (setJobs a (before ++ after))
                      (pending (setJobs a (before ++ after)) - 1))
                   henv (processJob env j).1))
      as (_ & _ & _ & _ & -> & _).
    apply (handleResult_ind_in
             (fun x => forall j', j' ∈ jobs x ->
                crawlJob.depth j' = 0
                \/ handedOn (log ++ [(env, j)]) (crawlJob.url j')
                     (crawlJob.depth j'))
             (fun x => forall j', j' ∈ jobs x ->
                crawlJob.depth j' = 0
                \/ handedOn (log ++ [(env, j)]) (crawlJob.url j')
                     (crawlJob.depth j'))).
    + intros j' Hin. simpl in Hin.
      assert (Hin' : j' ∈ jobs a).
      { rewrite Hjobs. apply elem_of_app in Hin as [Hin|Hin];
          apply elem_of_app; [left; exact Hin|right; right; exact Hin]. }
      destruct (Hj j' Hin') as [Hz|Hl]; [left; exact Hz|].
      right. exact (handedOn_mono _ _ _ _ Hsub Hl).
    + intros x page Hx _. exact Hx.
    + intros x Hx _. exact Hx.
    + intros x Hx. exact Hx.
    + rewrite processJob_job. intros x idx link Hx Hin j' Hin'.
      destruct (enqueue_cases x (ctxFirstAt henv idx)
                  {| crawlJob.url := link;
                     crawlJob.depth := wrap64 (crawlJob.depth j + 1);
                     crawlJob.discoveredAt := nowAt henv idx;
                     crawlJob.seq := 0%N |})
        as [Heq|(_ & _ & Heq)]; rewrite Heq in Hin'.
      * exact (Hx j' Hin').
      * simpl in Hin'. apply elem_of_app in Hin' as [Hin'|Hin'].
        -- exact (Hx j' Hin').
        -- apply list_elem_of_singleton in Hin' as ->. right. simpl.
           exists (env, j). split; [exact Hlast|]. split; [|exact Hin].
           simpl. rewrite FetcherSpec.wrap64_small by lia. lia.
  - intros h Hin. apply elem_of_app in Hin as [Hin|Hin].
    + destruct (Hlog h Hin) as [Hz|Hl]; [left; exact Hz|].
      right. exact (handedOn_mono _ _ _ _ Hsub Hl).
    + apply list_elem_of_singleton in Hin as ->. simpl.
      destruct (Hj j) as [Hz|Hl].
      * rewrite Hjobs. apply elem_of_app. right. left.
      * left. exact Hz.
      * right. exact (handedOn_mono _ _ _ _ Hsub Hl).
Qed.

Lemma runInit_treeInv (an : analyzer) (rep : Report.t) (c0 cf : bool) :
  treeInv (agg (runInit an rep c0 cf)) [].
Proof.
  unfold runInit. cbn [agg]. split.
  - intros j Hin. left.
    destruct (closeJobsIfNeeded_frame
                (enqueue (newAggregator an rep) cf (rootJob an)))
      as (_ & _ & _ & _ & Hj & _).
    rewrite Hj in Hin.
    destruct (enqueue_cases (newAggregator an rep) cf (rootJob an))
      as [Heq|(_ & _ & Heq)]; rewrite Heq in Hin; simpl in Hin.
    + inversion Hin.
    + apply list_elem_of_singleton in Hin as ->. reflexivity.
  - intros h Hin. inversion Hin.
Qed.

Lemma stepsLog_treeInv (an : analyzer) (rep : Report.t) (c0 cf : bool)
    (log : list (JobEnv * crawlJob.t)) (st : RunState) :
  0 <= maxDepth an < 2 ^ 63 - 1 ->
  Report.Pages rep = [] ->
  stepsLog (runInit an rep c0 cf) log st ->
  treeInv (agg st) log.
Proof.
  intros Hbound Hempty Hsteps. remember (runInit an rep c0 cf) as st0 eqn:Hst0.
  induction Hsteps as [st|st1 st2 st3 log o Hsteps IH Hstep].
  - subst st. apply runInit_treeInv.
  - specialize (IH Hst0). rewrite Hst0 in Hsteps.
    pose proof (steps_crawlInv an rep c0 cf _ Hbound Hempty
                  (stepsLog_steps _ _ _ Hsteps)) as Hci.
    destruct Hstep as [st before j after env henv Hjobs Hctx|st|st Hdone];
      cbn [agg option_list]; rewrite ?app_nil_r.
    + apply onResult_treeInv; try assumption.
      pose proof (ci_jobs an _ Hci) as Hall. rewrite Hjobs in Hall.
      apply Forall_app in Hall as [_ Hall].
      apply Forall_cons in Hall as [[->|[Hd _]] _]; [simpl|]; lia.
    + exact IH.
    + destruct IH as [Hj Hlog]. split; [|exact Hlog].
      intros j Hin.
      destruct (closeJobsIfNeeded_frame (agg st)) as (_ & _ & _ & _ & Hjs & _).
      rewrite Hjs in Hin. exact (Hj j Hin).
Qed.

(** What the run gives once the jobs channel is closed: no page waits,
    and the pages of the report are the pages of the results handled. *)
Lemma stepsLog_closed (an : analyzer) (rep : Report.t) (c0 cf : bool)
    (log : list (JobEnv * crawlJob.t)) (st : RunState) :
  Report.Pages rep = [] ->
  stepsLog (runInit an rep c0 cf) log st ->
  bounded (agg st) ->
  jobsClosed (agg st) = true ->
  Report.Pages (emittedReport (report (agg st))) ≡ₚ map pageOf log
  /\ map Page.URL (Report.Pages (report (agg st))) ≡ₚ elements (seen (agg st)).
Proof.
  intros Hempty Hsteps Hb Hclosed.
  pose proof (stepsLog_steps _ _ _ Hsteps) as Hrun.
  destruct (steps_seqState an rep c0 cf st Hempty Hrun Hb) as [Hinv Hf].
  destruct (steps_countsJobs an rep c0 cf st Hrun) as [Hp Hc].
  assert (Hjobs : jobs (agg st) = []).
  { apply Hc in Hclosed. rewrite Hclosed in Hp.
    destruct (jobs (agg st)); [reflexivity|simpl in Hp; lia]. }
  destruct (seqInv_idle _ Hinv Hf Hjobs) as (Hpp & Hurls & _).
  split; [|exact Hurls].
  destruct (AssemblySpec.sortPages_sorted (Report.Pages (report (agg st))))
    as [_ Hperm].
  unfold emittedReport. cbn [Report.Pages Report.setPages]. rewrite Hperm.
  rewrite <- (stepsLog_heldPages an rep c0 cf log st Hempty Hsteps Hb).
  unfold heldPages. rewrite Hpp, map_to_list_empty. simpl.
  rewrite app_nil_r. reflexivity.
Qed.

(** X21. Every page of a crawl but the root was linked from a page of
    the crawl.  Take a run with its log, the results the aggregator has
    handled ([stepsLog]; every run has one), that has sent fewer than
    [2^64] URLs, with a configured depth below the largest [int].  The
    pages the aggregator holds (in the report or waiting for their turn)
    are the pages of the results of the log, one for each.  Each result
    of the log gave the page of its job, at the depth of its job; and for
    each result for a job at a depth [d >= 1], the log has the result of
    a job at depth [d - 1] whose page has status [ok] and whose
    processing probed the URL of the first job, found it not broken and
    handed it on.  When the jobs channel is closed, the pages of the
    report that [marshalReport] serializes are the pages of the results
    of the log, so every such page at a depth [d >= 1] comes with the
    page, also in the report, of a result of the log that handed its URL
    on from depth [d - 1]. *)
Theorem pages_linked_from_parent (opts : Options.t) (an : analyzer)
    (rep : Report.t) (c0 cf : bool) (log : list (JobEnv * crawlJob.t))
    (st : RunState) :
  analyzeSetup opts = inr (an, rep) ->
  Options.Depth opts < 2 ^ 63 - 1 ->
  stepsLog (runInit an rep c0 cf) log st ->
  (N.of_nat (size (seen (agg st))) < 2 ^ 64)%N ->
  heldPages (agg st) ≡ₚ map pageOf log
  /\ (forall child, child ∈ log ->
        Page.URL (pageOf child) = crawlJob.url child.2
        /\ Page.Depth (pageOf child) = crawlJob.depth child.2
        /\ (1 <= crawlJob.depth child.2 ->
            exists parent,
              parent ∈ log
              /\ crawlJob.depth parent.2 = crawlJob.depth child.2 - 1
              /\ Page.Status (pageOf parent) = statusOK
              /\ crawlJob.url child.2 ∈ pageResult.links (resultOf parent)
              /\ crawlJob.url child.2 ∈ (processJob parent.1 parent.2).2
              /\ linkBroken parent.1 (crawlJob.url child.2) = false))
  /\ (jobsClosed (agg st) = true ->
      Report.Pages (emittedReport (report (agg st))) ≡ₚ map pageOf log
      /\ forall page,
           page ∈ Report.Pages (emittedReport (report (agg st))) ->
           1 <= Page.Depth page ->
           exists parent,
             parent ∈ log
             /\ pageOf parent
                ∈ Report.Pages (emittedReport (report (agg st)))
             /\ Page.Depth (pageOf parent) = Page.Depth page - 1
             /\ Page.Status (pageOf parent) = statusOK
             /\ Page.URL page ∈ pageResult.links (resultOf parent)).
Proof.
  intros Hsetup Hd Hsteps Hb.
  destruct (setup_bounds opts an rep Hsetup Hd) as (Hbound & Hempty & _).
  pose proof (stepsLog_treeInv an rep c0 cf log st Hbound Hempty Hsteps)
    as [_ Htree].
  assert (Hpage : forall h : JobEnv * crawlJob.t,
            Page.URL (pageOf h) = crawlJob.url h.2
            /\ Page.Depth (pageOf h) = crawlJob.depth h.2).
  { intros h. destruct (processJob_page h.1 h.2) as (Hu & Hpd & _).
    split; [exact Hu|exact Hpd]. }
  assert (Hparent : forall child, child ∈ log -> 1 <= crawlJob.depth child.2 ->
            exists parent,
              parent ∈ log
              /\ crawlJob.depth parent.2 = crawlJob.depth child.2 - 1
              /\ Page.Status (pageOf parent) = statusOK
              /\ crawlJob.url child.2 ∈ pageResult.links (resultOf parent)
              /\ crawlJob.url child.2 ∈ (processJob parent.1 parent.2).2
              /\ linkBroken parent.1 (crawlJob.url child.2) = false).
  { intros child Hin Hdepth.
    destruct (Htree child Hin) as [Hz|(parent & Hp & Hpd & Hl)]; [lia|].
    exists parent. split; [exact Hp|]. split; [exact Hpd|].
    destruct (processJob_links parent.1 parent.2 _ Hl) as (Hok & Hnb & Hpr).
    repeat split; assumption. }
  split; [exact (stepsLog_heldPages an rep c0 cf log st Hempty Hsteps Hb)|].
  split.
  { intros child Hin. destruct (Hpage child) as [Hu Hpd].
    split; [exact Hu|]. split; [exact Hpd|]. exact (Hparent child Hin). }
  intros Hclosed.
  destruct (stepsLog_closed an rep c0 cf log st Hempty Hsteps Hb Hclosed)
    as [Hperm _].
  split; [exact Hperm|].
  intros page Hin Hdepth. rewrite Hperm in Hin.
  apply list_elem_of_fmap in Hin as (child & -> & Hchild).
  destruct (Hpage child) as [Hu Hpd]. rewrite Hpd in Hdepth.
  destruct (Hparent child Hchild Hdepth)
    as (parent & Hp & Hpdepth & Hok & Hl & _).
  exists parent. split; [exact Hp|].
  split; [rewrite Hperm; apply list_elem_of_fmap; exists parent; split;
          [reflexivity|exact Hp]|].
  destruct (Hpage parent) as [_ Hppd].
  split; [rewrite Hppd, Hpd; exact Hpdepth|].
  split; [exact Hok|]. rewrite Hu. exact Hl.
Qed.

End WithExternals.

(** The run with the link, with its log: the result of the root job,
    then the result of the job of its link. *)
Lemma linkedRun_log :
  @stepsLog fixtureExternals linkedRunStart
    [(healthyEnv depthZeroBody, rootJobAt 0); (healthyEnv "", linkedChildJob)]
    linkedRunEnd.
Proof.
  apply (@stepsLog_step fixtureExternals linkedRunStart linkedRunMid
           linkedRunEnd [(healthyEnv depthZeroBody, rootJobAt 0)]
           (Some (healthyEnv "", linkedChildJob))).
  - apply (@stepsLog_step fixtureExternals linkedRunStart linkedRunStart
             linkedRunMid [] (Some (healthyEnv depthZeroBody, rootJobAt 0))).
    + apply stepsLog_refl.
    + exact (@stepLog_result fixtureExternals linkedRunStart [] (rootJobAt 0)
               [] (healthyEnv depthZeroBody) liveHandleEnv eq_refl
               (fun i (Hi : false = true) => Hi)).
  - exact (@stepLog_result fixtureExternals linkedRunMid [] linkedChildJob []
             (healthyEnv "") liveHandleEnv eq_refl
             (fun i (Hi : false = true) => Hi)).
Qed.

(** The theorem at the end of the run with the link: the page of
    [/missing], at depth 1, was handed on by the result of the root job,
    the first of the log. *)
Lemma pages_linked_from_parent_witness :
  exists parent,
    parent ∈ [(healthyEnv depthZeroBody, rootJobAt 0);
              (healthyEnv "", linkedChildJob)]
    /\ @pageOf fixtureExternals parent
       ∈ Report.Pages (@emittedReport (report (agg linkedRunEnd)))
    /\ Page.Depth (@pageOf fixtureExternals parent) = 1 - 1
    /\ Page.Status (@pageOf fixtureExternals parent) = statusOK
    /\ "https://example.com/missing"
       ∈ pageResult.links (@resultOf fixtureExternals parent).
Proof.
  destruct (@pages_linked_from_parent fixtureExternals
              (contractOptions "https://example.com" 1)
              linkedAnalyzer linkedReport false false _ linkedRunEnd
              eq_refl ltac:(vm_compute; reflexivity) linkedRun_log
              ltac:(vm_compute; reflexivity)) as (_ & _ & Hend).
  destruct (Hend eq_refl) as [_ Hpages].
  exact (Hpages
           (@pageOf fixtureExternals (healthyEnv "", linkedChildJob))
           ltac:(vm_compute; right; left)
           ltac:(vm_compute; discriminate)).
Defined.

End TreeSpec.
(* ===================================================================== *)
(** * A crawl that is not cancelled reaches every link *)
(* ===================================================================== *)

Module ReachSpec.
Import Fetcher Crawler Fixture CrawlerSpec Run RunFixture RunSpec Tree TreeSpec.
Local Open Scope Z_scope.

Section WithExternals.
Context `{Externals}.

(** While the context is not done, every link to crawl of every result
    handled is marked as seen. *)
Lemma stepsLog_linksSeen (an : analyzer) (rep : Report.t) (c0 cf : bool)
    (log : list (JobEnv * crawlJob.t)) (st : RunState) :
  0 <= maxDepth an < 2 ^ 63 - 1 ->
  Report.Pages rep = [] ->
  stepsLog (runInit an rep c0 cf) log st ->
  ctxDone st = false ->
  linksSeen an (seen (agg st)) log.
Proof.
  intros Hbound Hempty Hsteps. remember (runInit an rep c0 cf) as st0 eqn:Hst0.
  induction Hsteps as [st|st1 st2 st3 log o Hsteps IH Hstep].
  - intros _ h u Hin. inversion Hin.
  - specialize (IH Hst0). rewrite Hst0 in Hsteps.
    pose proof (steps_crawlInv an rep c0 cf _ Hbound Hempty
                  (stepsLog_steps _ _ _ Hsteps)) as Hci.
    destruct Hstep as [st before j after env henv Hjobs Hctx|st|st Hdone];
      cbn [agg ctxDone option_list]; intros Hlive; try discriminate;
      [|congruence].
    specialize (IH Hlive).
    destruct (onResult_seen (setJobs (agg st) (before ++ after)) henv
                (processJob env j).1) as [Hmono Hnew].
    assert (Hdepth : 0 <= crawlJob.depth j <= maxDepth an).
    { pose proof (ci_jobs an _ Hci) as Hall. rewrite Hjobs in Hall.
      apply Forall_app in Hall as [_ Hall].
      apply Forall_cons in Hall as [[->|[Hd _]] _]; [simpl|]; lia. }
    intros h u Hin Hu Hso Hd. apply elem_of_app in Hin as [Hin|Hin].
    + apply Hmono. simpl. exact (IH h u Hin Hu Hso Hd).
    + apply list_elem_of_singleton in Hin as ->. simpl in Hd.
      apply Hnew.
      * intros idx. destruct (ctxFirstAt henv idx) eqn:Hc; [|reflexivity].
        rewrite (Hctx idx Hc) in Hlive. discriminate.
      * exact Hu.
      * simpl. rewrite (ci_baseURL an _ Hci). exact Hso.
      * rewrite processJob_job. simpl. rewrite (ci_maxDepth an _ Hci).
        rewrite FetcherSpec.wrap64_small by lia. exact Hd.
Qed.

(** X22. A crawl that is not cancelled reaches every link.  Take a run
    with its log, the results the aggregator has handled ([stepsLog];
    every run has one), that has sent fewer than [2^64] URLs, with a
    configured depth below the largest [int], whose context is not done
    when the jobs channel is closed.  The pages of the report that
    [marshalReport] serializes are the pages of the results of the log,
    one for each; and for every result of the log, of a job above the
    maximum depth, every link it handed on that is of the origin of the
    root was crawled: the log has the result of a job for that URL, and
    its page, for that URL, is in the report. *)
Theorem crawl_reaches_every_link (opts : Options.t) (an : analyzer)
    (rep : Report.t) (c0 cf : bool) (log : list (JobEnv * crawlJob.t))
    (st : RunState) :
  analyzeSetup opts = inr (an, rep) ->
  Options.Depth opts < 2 ^ 63 - 1 ->
  stepsLog (runInit an rep c0 cf) log st ->
  (N.of_nat (size (seen (agg st))) < 2 ^ 64)%N ->
  ctxDone st = false ->
  jobsClosed (agg st) = true ->
  Report.Pages (emittedReport (report (agg st))) ≡ₚ map pageOf log
  /\ forall parent u,
       parent ∈ log ->
       u ∈ pageResult.links (resultOf parent) ->
       SameOrigin (baseURL an) u = true ->
       crawlJob.depth parent.2 < maxDepth an ->
       exists child,
         child ∈ log
         /\ crawlJob.url child.2 = u
         /\ Page.URL (pageOf child) = u
         /\ pageOf child ∈ Report.Pages (emittedReport (report (agg st))).
Proof.
  intros Hsetup Hd Hsteps Hb Hlive Hclosed.
  destruct (setup_bounds opts an rep Hsetup Hd) as (Hbound & Hempty & _).
  destruct (stepsLog_closed an rep c0 cf log st Hempty Hsteps Hb Hclosed)
    as [Hperm Hurls].
  split; [exact Hperm|].
  intros parent u Hin Hu Hso Hdepth.
  pose proof (stepsLog_linksSeen an rep c0 cf log st Hbound Hempty Hsteps
                Hlive parent u Hin Hu Hso ltac:(lia)) as Hseen.
  apply elem_of_elements in Hseen. rewrite <- Hurls in Hseen.
  apply list_elem_of_fmap in Hseen as (page & Hpu & Hpage).
  destruct (AssemblySpec.sortPages_sorted (Report.Pages (report (agg st))))
    as [_ Hsort].
  assert (Hemitted : page ∈ Report.Pages (emittedReport (report (agg st)))).
  { unfold emittedReport. cbn [Report.Pages Report.setPages].
    rewrite Hsort. exact Hpage. }
  pose proof Hemitted as Hlog. rewrite Hperm in Hlog.
  apply list_elem_of_fmap in Hlog as (child & Hpc & Hchild).
  destruct (processJob_page child.1 child.2) as (Hcu & _).
  cbn zeta in Hcu. fold (resultOf child) in Hcu. fold (pageOf child) in Hcu.
  exists child. split; [exact Hchild|].
  split; [rewrite <- Hcu, <- Hpc; symmetry; exact Hpu|].
  split; [rewrite <- Hpc; symmetry; exact Hpu|].
  rewrite <- Hpc. exact Hemitted.
Qed.

End WithExternals.

(** The theorem at the end of the run with the link: the link of the
    result of the root job was crawled. *)
Lemma crawl_reaches_every_link_witness :
  exists child,
    child ∈ [(healthyEnv depthZeroBody, rootJobAt 0);
             (healthyEnv "", linkedChildJob)]
    /\ crawlJob.url child.2 = "https://example.com/missing"
    /\ Page.URL (@pageOf fixtureExternals child) = "https://example.com/missing"
    /\ @pageOf fixtureExternals child
       ∈ Report.Pages (emittedReport (report (agg linkedRunEnd))).
Proof.
  destruct (@crawl_reaches_every_link fixtureExternals
              (contractOptions "https://example.com" 1)
              linkedAnalyzer linkedReport false false _ linkedRunEnd
              eq_refl ltac:(vm_compute; reflexivity) linkedRun_log
              ltac:(vm_compute; reflexivity) eq_refl eq_refl) as [_ Hlinks].
  exact (Hlinks (healthyEnv depthZeroBody, rootJobAt 0)
           "https://example.com/missing"
           ltac:(left) ltac:(vm_compute; left) eq_refl
           ltac:(vm_compute; reflexivity)).
Defined.

End ReachSpec.

(* ===================================================================== *)
(** * The head of the report, and a fetch whose wait fails *)
(* ===================================================================== *)

Module HeaderSpec.
Import Fetcher Crawler Fixture CrawlerSpec Run RunFixture RunSpec Tree TreeSpec.
Local Open Scope Z_scope.

Section WithExternals.
Context `{Externals}.

Lemma onResult_header (a : aggregator) (henv : HandleEnv)
    (result : pageResult.t) :
  Report.RootURL (report (onResult a henv result)) = Report.RootURL (report a)
  /\ Report.Depth (report (onResult a henv result)) = Report.Depth (report a)
  /\ Report.GeneratedAt (report (onResult a henv result))
     = Report.GeneratedAt (report a).
Proof.
  unfold onResult.
  destruct (closeJobsIfNeeded_frame
              (handleResult (setPending a (pending a - 1)) henv result))
    as (-> & _).
  apply (handleResult_ind_in
           (fun x => Report.RootURL (report x) = Report.RootURL (report a)
                     /\ Report.Depth (report x) = Report.Depth (report a)
                     /\ Report.GeneratedAt (report x)
                        = Report.GeneratedAt (report a))
           (fun x => Report.RootURL (report x) = Report.RootURL (report a)
                     /\ Report.Depth (report x) = Report.Depth (report a)
                     /\ Report.GeneratedAt (report x)
                        = Report.GeneratedAt (report a))).
  - repeat split.
  - intros x page Hx _. exact Hx.
  - intros x Hx _. exact Hx.
  - intros x Hx. exact Hx.
  - intros x idx link Hx _.
    destruct (enqueue_frame x (ctxFirstAt henv idx)
                {| crawlJob.url := link;
                   crawlJob.depth :=
                     wrap64 (crawlJob.depth (pageResult.job result) + 1);
                   crawlJob.discoveredAt := nowAt henv idx;
                   crawlJob.seq := 0%N |}) as (-> & _).
    exact Hx.
Qed.

Lemma steps_header (an : analyzer) (rep : Report.t) (c0 cf : bool)
    (st : RunState) :
  steps (runInit an rep c0 cf) st ->
  Report.RootURL (report (agg st)) = Report.RootURL rep
  /\ Report.Depth (report (agg st)) = Report.Depth rep
  /\ Report.GeneratedAt (report (agg st)) = Report.GeneratedAt rep.
Proof.
  intros Hsteps. remember (runInit an rep c0 cf) as st0 eqn:Hst0.
  induction Hsteps as [st|st1 st2 st3 Hsteps IH Hstep].
  - subst st. unfold runInit. cbn [agg].
    destruct (closeJobsIfNeeded_frame
                (enqueue (newAggregator an rep) cf (rootJob an))) as (-> & _).
    destruct (enqueue_frame (newAggregator an rep) cf (rootJob an))
      as (-> & _).
    repeat split.
  - specialize (IH Hst0).
    destruct Hstep as [st before j after env henv Hjobs Hctx|st|st Hdone];
      cbn [agg].
    + destruct (onResult_header (setJobs (agg st) (before ++ after)) henv
                  (processJob env j).1) as (-> & -> & ->).
      exact IH.
    + exact IH.
    + destruct (closeJobsIfNeeded_frame (agg st)) as (-> & _). exact IH.
Qed.

(** X23. The head of the report is fixed before the crawl.  Whatever
    [analyzeReport] returns, after a configuration error or after a
    crawl, the report that [marshalReport] serializes has the depth of
    the options as it was given (not the normalised one), the time of the
    first reading of the clock, and as its root URL: the URL of the
    options when that is empty or [parseRootURL] rejects it, and
    otherwise the parsed URL without its fragment. *)
Theorem report_header_fixed (opts : Options.t) (report : Report.t)
    (err : error) :
  analyzeReport opts report err ->
  Report.Depth (emittedReport report) = Options.Depth opts
  /\ Report.GeneratedAt (emittedReport report)
     = time_FormatRFC3339UTC (Options.Clock opts 0%nat)
  /\ (Options.URL opts = "" -> Report.RootURL (emittedReport report) = "")
  /\ (forall e, Options.URL opts <> "" ->
        parseRootURL (Options.URL opts) = Err e ->
        Report.RootURL (emittedReport report) = Options.URL opts)
  /\ (forall base, Options.URL opts <> "" ->
        parseRootURL (Options.URL opts) = Ok base ->
        Report.RootURL (emittedReport report)
        = url_String (setFragment base "")).
Proof.
  intros Hrun.
  assert (Hhead :
    Report.Depth report = Options.Depth opts
    /\ Report.GeneratedAt report
       = time_FormatRFC3339UTC (Options.Clock opts 0%nat)
    /\ Report.RootURL report
       = if String.eqb (Options.URL opts) "" then Options.URL opts
         else match parseRootURL (Options.URL opts) with
              | Err _ => Options.URL opts
              | Ok base => url_String (setFragment base "")
              end).
  { destruct Hrun as [r e Hs|an rep c0 cf st Hs Hcf Hsteps Hclosed].
    - unfold analyzeSetup in Hs.
      destruct (String.eqb (Options.URL opts) "");
        [injection Hs as <- _; repeat split|].
      destruct (parseRootURL (Options.URL opts)) as [base|pe];
        [|injection Hs as <- _; repeat split].
      destruct (Options.HTTPClient opts); [discriminate|].
      injection Hs as <- _. repeat split.
    - destruct (steps_header an rep c0 cf st Hsteps) as (-> & -> & ->).
      unfold analyzeSetup in Hs.
      destruct (String.eqb (Options.URL opts) ""); [discriminate|].
      destruct (parseRootURL (Options.URL opts)) as [base|pe]; [|discriminate].
      destruct (Options.HTTPClient opts); [|discriminate].
      injection Hs as _ <-. repeat split. }
  destruct Hhead as (Hd & Hg & Hr). unfold emittedReport. simpl.
  split; [exact Hd|]. split; [exact Hg|]. rewrite Hr.
  split; [|split].
  - intros ->. reflexivity.
  - intros e Hne ->. apply String.eqb_neq in Hne. rewrite Hne. reflexivity.
  - intros base Hne ->. apply String.eqb_neq in Hne. rewrite Hne. reflexivity.
Qed.

End WithExternals.

(** The theorem at the crawl whose root answers 404. *)
Lemma report_header_fixed_witness :
  Report.Depth (emittedReport (report (agg (rootRunEnd failingEnv)))) = 0
  /\ Report.GeneratedAt (emittedReport (report (agg (rootRunEnd failingEnv))))
     = "2024-06-01T12:34:56Z".
Proof.
  destruct (@report_header_fixed fixtureExternals
              (contractOptions "https://example.com" 0) _ _
              failing_run_analyzed) as (Hd & Hg & _).
  split; [exact Hd|exact Hg].
Defined.

End HeaderSpec.

Module FetchWaitSpec.
Import Fetcher Fixture RunFixture FetcherSpec.
Local Open Scope Z_scope.

(** When the loop has slept as often as it has made attempts, the last
    attempt was one to retry: its backoff was interrupted. *)
Lemma fetchLoop_last_sleep (f : Fetcher) (w : World) (rawURL : string)
    (attempts : Z) :
  forall (left a : nat) (lastR : Result) (lastE : error) (sl : list Z),
    (0 < left)%nat -> Z.of_nat (a + left) = attempts -> length sl = a ->
    let out := fetchLoop f w rawURL attempts left a lastR lastE sl in
    length (outSleeps out) = outAttempts out ->
    exists k, outAttempts out = S k
              /\ isRetryable (StatusCode (fetchOnce f w rawURL k).1)
                   (fetchOnce f w rawURL k).2 = true.
Proof.
  induction left as [|left' IH]; intros a lastR lastE sl Hleft Hsum Hlen;
    [lia|].
  cbn zeta. cbn [fetchLoop].
  destruct (fetchOnce f w rawURL a) as [result err] eqn:Honce.
  destruct ((match err with None => true | Some _ => false end)
            && (StatusCode result <? StatusBadRequest)).
  - destruct (ctxErr (attemptAt w a)); simpl; lia.
  - unfold shouldRetry.
    destruct (ctxErr (attemptAt w a)) as [c|].
    + simpl. lia.
    + destruct (negb (isRetryable (StatusCode result) err)
                || (Z.of_nat a =? attempts - 1)) eqn:Hstop.
      * simpl. lia.
      * apply orb_false_iff in Hstop as [Hretry Hlast].
        apply negb_false_iff in Hretry. apply Z.eqb_neq in Hlast.
        destruct (sleepErr (attemptAt w a)) as [e|].
        -- cbn [negb outAttempts outSleeps]. intros _. exists a.
           split; [reflexivity|]. rewrite Honce. exact Hretry.
        -- cbn [negb].
           destruct left' as [|left''].
           ++ exfalso. lia.
           ++ apply IH; [lia|lia|].
              rewrite FetchBoundsSpec.addSleep_length. lia.
Qed.

(** X24. A wait of the limiter that fails ends the fetch.  For a
    fetcher with a limiter and retries in [0, maxInt): when the attempt
    [k] of a [Fetch] finds that [limiter.Wait] returns an error of the
    context (cancelled, or past its deadline), that attempt is the last
    one, and [Fetch] returns the zero [Result] with that error: it is
    not retried and no backoff follows it. *)
Theorem fetch_stops_when_wait_fails (f : Fetcher) (w : World)
    (rawURL : string) (k : nat) (e : GoErr) :
  0 <= retries f < 2 ^ 63 - 1 ->
  hasLimiter f = true ->
  (k < outAttempts (Fetch f w rawURL))%nat ->
  waitErr (attemptAt w k) = Some e ->
  isContextCanceled e = true ->
  outAttempts (Fetch f w rawURL) = S k
  /\ outResult (Fetch f w rawURL) = emptyResult
  /\ outErr (Fetch f w rawURL) = Some e
  /\ length (outSleeps (Fetch f w rawURL)) = k.
Proof.
  intros Hr Hlim Hk Hwait Hcancel.
  assert (Honce : fetchOnce f w rawURL k = (emptyResult, Some e)).
  { unfold fetchOnce. rewrite Hlim, Hwait. reflexivity. }
  assert (Hnot : isRetryable (StatusCode (fetchOnce f w rawURL k).1)
                   (fetchOnce f w rawURL k).2 = false).
  { rewrite Honce. simpl. unfold isRetryableError. rewrite Hcancel.
    reflexivity. }
  unfold Fetch in *. rewrite wrap64_small in * by lia.
  pose proof (fetchLoop_spec f w rawURL (retries f + 1)
                (Z.to_nat (retries f + 1)) 0 emptyResult None []
                ltac:(lia) ltac:(lia) eq_refl) as Hspec.
  pose proof (FetchBoundsSpec.fetchLoop_sleeps_length f w rawURL (retries f + 1)
                (Z.to_nat (retries f + 1)) 0 emptyResult None []
                ltac:(lia) ltac:(lia) eq_refl) as Hlen.
  cbn zeta in Hspec, Hlen. destruct Hspec as (_ & Hgo & Hret & _).
  destruct Hlen as [Hlen _].
  set (out := fetchLoop f w rawURL (retries f + 1)
                (Z.to_nat (retries f + 1)) 0 emptyResult None []) in *.
  assert (Hlast : outAttempts out = S k).
  { destruct (decide (S k < outAttempts out)%nat) as [Hmore|Hstop]; [|lia].
    destruct (Hgo k ltac:(lia) Hmore) as (_ & Hretry & _).
    rewrite Hnot in Hretry. discriminate. }
  pose proof (Hret k Hlast) as Hafter. unfold returnsAfter in Hafter.
  rewrite Honce in Hafter. cbn [succeeded fst snd andb] in Hafter.
  destruct Hafter as [Hres Herr].
  split; [exact Hlast|]. split; [exact Hres|]. split.
  - destruct (ctxErr (attemptAt w k)) as [c|]; [exact Herr|].
    rewrite Honce in Hnot. cbn [fst snd] in Hnot. rewrite Hnot in Herr.
    exact Herr.
  - destruct (decide (length (outSleeps out) = outAttempts out)) as [Heq|Hne];
      [|lia].
    destruct (fetchLoop_last_sleep f w rawURL (retries f + 1)
                (Z.to_nat (retries f + 1)) 0 emptyResult None []
                ltac:(lia) ltac:(lia) eq_refl Heq) as (k' & Hk' & Hretry).
    fold out in Hk'. rewrite Hlast in Hk'. injection Hk' as <-.
    rewrite Hnot in Hretry. discriminate.
Qed.

(** The theorem at a fetch whose first wait is cancelled. *)
Lemma fetch_stops_when_wait_fails_witness :
  outAttempts (Fetch (New Second "" true 2 0) waitCancelledWorld
                 "https://example.com/") = 1%nat
  /\ outResult (Fetch (New Second "" true 2 0) waitCancelledWorld
                  "https://example.com/") = emptyResult
  /\ outErr (Fetch (New Second "" true 2 0) waitCancelledWorld
               "https://example.com/")
     = Some (ErrLeaf KCanceled "context canceled")
  /\ length (outSleeps (Fetch (New Second "" true 2 0) waitCancelledWorld
                          "https://example.com/")) = 0%nat.
Proof.
  apply (fetch_stops_when_wait_fails (New Second "" true 2 0)
           waitCancelledWorld "https://example.com/" 0
           (ErrLeaf KCanceled "context canceled"));
    [simpl; lia|reflexivity|vm_compute; lia|reflexivity|reflexivity].
Defined.

End FetchWaitSpec.
